(** * STINGER utilities: a shallow embedding of [stinger_utils.c]

    The C functions of [src/lib/stinger_utils/src/stinger_utils.c] are
    transcribed as Rocq functions over [Z]:

    - an [int64_t] is a [Z] in [[-2^63, 2^63)]; arithmetic on data values is
      written with its wrap-around ([add64], [sub64], [neg64]); a conversion
      to [int] is [to_i32], to [uint64_t] is [to_u64];
    - an [int64_t *] array is a [list Z], read with [get] and written with
      [set]; a pointer into an array ([offset += 2]) is the array together
      with a base index;
    - a [for] loop is [for_loop], a fold over the values of its index; a
      [while] loop whose number of turns is not known beforehand takes fuel
      and returns an [option];
    - a [struct] is a record; the pool of edge blocks is the list of its
      blocks, a block being named by its index, as the links of the blocks
      name it;
    - an [omp parallel for] whose iterations claim cells with an atomic
      fetch-and-add is a fold over a schedule, any order of its iterations;
    - [qsort] is the C library's: it is a parameter of the functions that
      call it, constrained by the contract of the C standard. *)

From Stdlib Require Import String ZArith Bool Lia Permutation Sorted.
From Stdlib Require Import List.
Import ListNotations.
Local Open Scope Z_scope.

(** ** Machine integers *)

Definition INT64_MAX : Z := 2^63 - 1.
Definition INT64_MIN : Z := - 2^63.

Definition in_i64 (x : Z) : Prop := - 2^63 <= x < 2^63.

(** [(uint64_t) x] *)
Definition to_u64 (x : Z) : Z := x mod 2^64.

(** [(int64_t) x]: the value modulo [2^64] read as a signed number. *)
Definition to_i64 (x : Z) : Z := (x + 2^63) mod 2^64 - 2^63.

(** [(int) x]: the value modulo [2^32] read as a signed number. *)
Definition to_i32 (x : Z) : Z := (x + 2^31) mod 2^32 - 2^31.

Definition add64 (a b : Z) : Z := to_i64 (a + b).
Definition sub64 (a b : Z) : Z := to_i64 (a - b).
Definition neg64 (a : Z) : Z := to_i64 (- a).

(** [x << n] on [uint64_t]: the bits shifted out at the top are lost. *)
Definition shl_u64 (x n : Z) : Z := Z.land (Z.shiftl x n) (2^64 - 1).

(** ** Arrays and loops *)

(** [a[i]] read and written. Outside the array the C program has no defined
    behaviour; here a read gives 0 and a write is lost. The theorems keep the
    accesses inside the arrays, and [counting_sort], whose histogram a claim
    indexes outside, answers [None] there. *)
Definition get (a : list Z) (i : Z) : Z :=
  if i <? 0 then 0 else nth (Z.to_nat i) a 0.

Fixpoint set_nat (a : list Z) (n : nat) (v : Z) : list Z :=
  match a, n with
  | [], _ => []
  | _ :: t, O => v :: t
  | x :: t, S m => x :: set_nat t m v
  end.

Definition set (a : list Z) (i : Z) (v : Z) : list Z :=
  if i <? 0 then a else set_nat a (Z.to_nat i) v.

(** The values taken by [i] in [for (i = lo; i < hi; i += step)]. *)
Definition loop_count (lo hi step : Z) : nat :=
  Z.to_nat ((hi - lo + step - 1) / step).

Definition loop_indices (lo hi step : Z) : list Z :=
  map (fun k => lo + step * Z.of_nat k) (seq 0 (loop_count lo hi step)).

(** [for (i = lo; i < hi; i += step) s = body i s] *)
Definition for_loop {S : Type} (lo hi step : Z) (body : Z -> S -> S) (s : S) : S :=
  fold_left (fun st i => body i st) (loop_indices lo hi step) s.

(** ** Byte swapping ([bs64], [bs64_n]) *)

Definition bs64 (xin : Z) : Z :=
  let x := to_u64 xin in
  let x := Z.lor (Z.shiftr x 32) (shl_u64 x 32) in
  let x := Z.lor (Z.shiftr (Z.land x 0xFFFF0000FFFF0000) 16)
                 (shl_u64 (Z.land x 0x0000FFFF0000FFFF) 16) in
  let x := Z.lor (Z.shiftr (Z.land x 0xFF00FF00FF00FF00) 8)
                 (shl_u64 (Z.land x 0x00FF00FF00FF00FF) 8) in
  to_i64 x.

Definition bs64_n (n : Z) (d : list Z) : list Z :=
  for_loop 0 n 1 (fun k d => set d k (bs64 (get d k))) d.

(** Byte [k] (0 = least significant) of the 64-bit pattern of [x]. *)
Definition byte_of (x : Z) (k : Z) : Z :=
  Z.land (Z.shiftr (to_u64 x) (8 * k)) 0xFF.

(** ** Comparators ([i64_cmp], [csr_cmp], [i64cmp_adj_sort], [i64_pair_cmp]) *)

(** [return va - vb;] in a function returning [int]. *)
Definition i64_cmp (va vb : Z) : Z := to_i32 (sub64 va vb).

(** [return *(*(int64_t **)a) - *(*(int64_t **)b);] on the pointed-to values. *)
Definition csr_cmp (a b : Z) : Z := to_i32 (sub64 a b).

Record adj_sort_t : Type := { vtx : Z; wgt : Z }.

Definition i64cmp_adj_sort (ap bp : adj_sort_t) : Z :=
  to_i32 (sub64 (vtx ap) (vtx bp)).

Definition i64_pair_cmp (pa pb : Z * Z) : Z :=
  let ai := fst pa in
  let bi := fst pb in
  if ai <? bi then -1
  else if ai >? bi then 1
  else
    let aj := snd pa in
    let bj := snd pb in
    if aj <? bj then -1
    else if aj >? bj then 1
    else 0.

(** The unsigned core of [bs64]: the three swaps on a [uint64_t]. *)
Definition bs64u (x : Z) : Z :=
  let x := Z.lor (Z.shiftr x 32) (shl_u64 x 32) in
  let x := Z.lor (Z.shiftr (Z.land x 0xFFFF0000FFFF0000) 16)
                 (shl_u64 (Z.land x 0x0000FFFF0000FFFF) 16) in
  Z.lor (Z.shiftr (Z.land x 0xFF00FF00FF00FF00) 8)
        (shl_u64 (Z.land x 0x00FF00FF00FF00FF) 8).

(** Where bit [i] of the result of [bs64] comes from: same position in the
    mirrored byte. *)
Definition bitperm (i : Z) : Z := 8 * (7 - i / 8) + i mod 8.


(** ** Snapshot files *)

Definition endian_check : Z := 0x1234ABCD.

(** [sizeof (int64_t)] *)
Definition sizeof_i64 : Z := 8.

(** The number of 64-bit words a snapshot with this header should have. *)
Definition expected_words (nv ne : Z) : Z := 3 + (nv + 1) + 2 * ne.

(** ** Prefix sum ([prefix_sum]) *)

(** The version compiled without OpenMP. *)
Definition prefix_sum (n : Z) (ary : list Z) : list Z * Z :=
  let ary := for_loop 1 n 1
               (fun k ary => set ary k (add64 (get ary k) (get ary (k - 1)))) ary in
  (ary, get ary (n - 1)).

(** The version compiled with OpenMP, called by the [nt] threads of a team.
    The barriers cut it into three phases; the threads of a phase are run
    one after the other in the order of their numbers, which is one of the
    interleavings the barriers allow. *)
Definition slice_begin (nt n tid : Z) : Z := (tid * n) / nt.
Definition slice_end (nt n tid : Z) : Z := ((tid + 1) * n) / nt.

(** [tmp = 0; for (k = slice_begin; k < slice_end; ++k) tmp += ary[k]; buf[tid] = tmp;] *)
Definition omp_slice_sum (nt n : Z) (ary : list Z) (tid : Z) (buf : list Z) : list Z :=
  let tmp := for_loop (slice_begin nt n tid) (slice_end nt n tid) 1
               (fun k tmp => add64 tmp (get ary k)) 0 in
  set buf tid tmp.

(** [for (k = 1; k < nt; ++k) buf[k] += buf[k-1];] under [omp single] *)
Definition omp_buf_scan (nt : Z) (buf : list Z) : list Z :=
  for_loop 1 nt 1 (fun k buf => set buf k (add64 (get buf k) (get buf (k - 1)))) buf.

(** [t1 = tid ? buf[tid-1] : 0; ary[slice_begin] += t1;
    for (k = slice_begin + 1; k < slice_end; ++k) ary[k] += ary[k-1];] *)
Definition omp_slice_scan (nt n : Z) (buf : list Z) (tid : Z) (ary : list Z) : list Z :=
  let t1 := if tid =? 0 then 0 else get buf (tid - 1) in
  let b := slice_begin nt n tid in
  let ary := set ary b (add64 (get ary b) t1) in
  for_loop (b + 1) (slice_end nt n tid) 1
    (fun k ary => set ary k (add64 (get ary k) (get ary (k - 1)))) ary.

Definition prefix_sum_omp (nt : Z) (n : Z) (ary : list Z) : list Z * Z :=
  let buf := repeat 0 (Z.to_nat nt) in
  let buf := for_loop 0 nt 1 (omp_slice_sum nt n ary) buf in
  let buf := omp_buf_scan nt buf in
  let ary := for_loop 0 nt 1 (omp_slice_scan nt n buf) ary in
  (ary, get ary (n - 1)).

(** The sum of the first [k] cells, as [int64_t] arithmetic gives it. *)
Fixpoint sum_list (l : list Z) : Z :=
  match l with
  | [] => 0
  | x :: t => x + sum_list t
  end.

Definition prefix_total (ary : list Z) (k : nat) : Z := to_i64 (sum_list (firstn k ary)).

Definition inclusive_prefix_sums (ary : list Z) : list Z :=
  map (fun k => prefix_total ary (S k)) (seq 0 (length ary)).


(** ** Memory *)

(** Modelled from the spec: [xmalloc] is defined in stinger_core; allocation
    at memory exhaustion is fatal (abort), so a call that returns has given
    the block. [xmalloc (n * sizeof (int64_t))] is then a fresh array of [n]
    cells: the functions below are modelled on the runs in which their
    calls return, and they write every cell they allocate before they read
    it. The byte count is the caller's product: where it can pass [size_t]
    on an array the caller can hold, the product is written out with
    [size_t_cells]. *)
Definition xmalloc (n : Z) : list Z := repeat 0 (Z.to_nat n).

(** The number of [int64_t] cells of a block of [n * sizeof (int64_t)] bytes,
    the product taken in [size_t], where it wraps at [2^64]. *)
Definition size_t_cells (n : Z) : Z := to_u64 (n * sizeof_i64) / sizeof_i64.

(** [stinger_int64_fetch_add (&a[i], v)]: the old value of the cell, and the
    array with [v] added to the cell, in one atomic step. *)
Definition stinger_int64_fetch_add (a : list Z) (i : Z) (v : Z) : Z * list Z :=
  (get a i, set a i (add64 (get a i) v)).

(** ** Counting sort ([counting_sort]) *)

(** [if (array[i] < min) min = array[i]; else if (array[i] > max) max = array[i];] *)
Definition minmax_step (array : list Z) (i : Z) (mm : Z * Z) : Z * Z :=
  if get array i <? fst mm then (get array i, snd mm)
  else if get array i >? snd mm then (fst mm, get array i)
  else mm.

(** [count[array[i] - min]++;] The histogram has the cells that were
    allocated: an index outside them has no defined effect ([None]). *)
Definition count_step (array : list Z) (min : Z) (i : Z) (oc : option (list Z))
  : option (list Z) :=
  match oc with
  | None => None
  | Some count =>
      let idx := sub64 (get array i) min in
      if (0 <=? idx) && (idx <? Z.of_nat (length count))
      then Some (set count idx (add64 (get count idx) 1))
      else None
  end.

(** [for (j = 0; j < count[i - min]; j++) array[z++] = i;] on the pair of
    [array] and [z]. *)
Definition emit_step (count : list Z) (min : Z) (i : Z) (st : list Z * Z) : list Z * Z :=
  for_loop 0 (get count (sub64 i min)) 1
    (fun _ st => (set (fst st) (snd st) i, snd st + 1)) st.

(** [counting_sort (array, num, size)]. The result is [None] when the
    histogram is indexed outside its cells, and when [max] is [INT64_MAX],
    where the loop [for (i = min; i <= max; i++)] has no end. *)
Definition counting_sort (array : list Z) (num size : Z) : option (list Z) :=
  let mm := for_loop size (num * size) size (minmax_step array)
              (get array 0, get array 0) in
  let min := fst mm in
  let max := snd mm in
  let range := to_i32 (add64 (sub64 max min) 1) in
  let count := for_loop 0 range 1 (fun i count => set count i 0) (xmalloc range) in
  match for_loop 0 (num * size) size (count_step array min) (Some count) with
  | None => None
  | Some count =>
      if max =? INT64_MAX then None
      else Some (fst (for_loop min (max + 1) 1 (emit_step count min) (array, 0)))
  end.

(** The keys of the input: the [num] cells at the multiples of [size]. *)
Definition strided_keys (array : list Z) (num size : Z) : list Z :=
  map (fun k => get array (Z.of_nat k * size)) (seq 0 (Z.to_nat num)).

(** The values [lo], [lo + 1], ..., [lo + n - 1]. *)
Definition zrange (lo : Z) (n : nat) : list Z :=
  map (fun k => lo + Z.of_nat k) (seq 0 n).

(** What a counting sort emits: every value of [[lo, lo + n)] in ascending
    order, each as many times as it occurs among the keys. *)
Definition emitted (keys : list Z) (lo : Z) (n : nat) : list Z :=
  flat_map (fun v => repeat v (count_occ Z.eq_dec keys v)) (zrange lo n).

Definition list_min (x : Z) (l : list Z) : Z := fold_left Z.min l x.
Definition list_max (x : Z) (l : list Z) : Z := fold_left Z.max l x.

(** The histogram loop, on the list of the keys it reads. *)
Definition count_key (min : Z) (oc : option (list Z)) (x : Z) : option (list Z) :=
  match oc with
  | None => None
  | Some count =>
      let idx := sub64 x min in
      if (0 <=? idx) && (idx <? Z.of_nat (length count))
      then Some (set count idx (add64 (get count idx) 1))
      else None
  end.

(** ** Distribution into buckets

    The three distributing functions ([edge_list_to_csr], [bucket_sort_pairs],
    [radix_sort_pairs]) count the items of every bucket, turn the counts into
    the first slot of every bucket, and move every item to the next free slot
    of its bucket. Items are named by the loop index that handles them. *)

(** How many of the items [l] fall in bucket [b]. *)
Definition bucket_count (key : Z -> Z) (l : list Z) (b : Z) : Z :=
  Z.of_nat (length (filter (fun i => key i =? b) l)).

(** How many of the items [l] fall in a bucket before [b]: the first slot of
    bucket [b]. *)
Definition bucket_start (key : Z -> Z) (l : list Z) (b : Z) : Z :=
  Z.of_nat (length (filter (fun i => key i <? b) l)).

(** The items bucket after bucket, each bucket in the order of [l]. *)
Definition bucketed (key : Z -> Z) (B : nat) (l : list Z) : list Z :=
  flat_map (fun b => filter (fun i => key i =? b) l) (zrange 0 B).


(** ** Edge list to CSR ([edge_list_to_csr]) *)

(** The arrays the function writes. *)
Record csr_arrays : Type := {
  c_offset : list Z;
  c_ev2 : list Z;
  c_w2 : list Z;
  c_t1 : list Z;
  c_t2 : list Z
}.

(** One iteration of the second loop under [if (timeRecent && timeFirst)];
    [offset] has been moved back by one cell, so [offset[sv1[i]]] is the cell
    [1 + sv1[i]] of the caller's array. *)
Definition move_edge_timed (sv1 ev1 w1 timeRecent timeFirst : list Z)
           (i : Z) (st : csr_arrays) : csr_arrays :=
  let fa := stinger_int64_fetch_add (c_offset st) (1 + get sv1 i) 1 in
  let index := fst fa in
  {| c_offset := snd fa;
     c_ev2 := set (c_ev2 st) index (get ev1 i);
     c_w2 := set (c_w2 st) index (get w1 i);
     c_t1 := set (c_t1 st) index (get timeFirst i);
     c_t2 := set (c_t2 st) index (get timeRecent i) |}.

(** One iteration of the loop of the [else] branch. *)
Definition move_edge (sv1 ev1 w1 : list Z) (i : Z) (st : csr_arrays) : csr_arrays :=
  let fa := stinger_int64_fetch_add (c_offset st) (1 + get sv1 i) 1 in
  let index := fst fa in
  {| c_offset := snd fa;
     c_ev2 := set (c_ev2 st) index (get ev1 i);
     c_w2 := set (c_w2 st) index (get w1 i);
     c_t1 := c_t1 st;
     c_t2 := c_t2 st |}.

(** [edge_list_to_csr]. A [NULL] timestamp array is [None]. The loop that
    moves the edges is an [omp parallel for] whose iterations claim their
    cell with an atomic fetch-and-add: its iterations are run in the order
    [sched], any arrangement of [0 .. ne-1]. The two loops before it do not
    depend on the order of their iterations. *)
Definition edge_list_to_csr (sched : list Z) (nv ne : Z)
           (sv1 ev1 w1 : list Z) (timeRecent timeFirst : option (list Z))
           (ev2 w2 offset t2 t1 : list Z) : csr_arrays :=
  let offset := for_loop 0 (nv + 2) 1 (fun i offset => set offset i 0) offset in
  (* offset += 2 *)
  let offset :=
    for_loop 0 ne 1
      (fun i offset => snd (stinger_int64_fetch_add offset (2 + get sv1 i) 1)) offset in
  let offset :=
    for_loop 1 nv 1
      (fun i offset => set offset (2 + i) (add64 (get offset (2 + i)) (get offset (2 + (i - 1)))))
      offset in
  (* offset-- *)
  let st := {| c_offset := offset; c_ev2 := ev2; c_w2 := w2; c_t1 := t1; c_t2 := t2 |} in
  match timeRecent, timeFirst with
  | Some timeRecent, Some timeFirst =>
      fold_left (fun st i => move_edge_timed sv1 ev1 w1 timeRecent timeFirst i st) sched st
  | _, _ =>
      fold_left (fun st i => move_edge sv1 ev1 w1 i st) sched st
  end.

(** The edge list as a list of (source, destination, weight). *)
Definition edge_list (ne : Z) (sv ev w : list Z) : list (Z * Z * Z) :=
  map (fun i => (get sv i, get ev i, get w i)) (zrange 0 (Z.to_nat ne)).

(** The edge list read back from a CSR: every vertex with every entry of its
    range of offsets. *)
Definition csr_to_edge_list (nv : Z) (offset ind weight : list Z) : list (Z * Z * Z) :=
  flat_map (fun v => map (fun k => (v, get ind k, get weight k))
                         (zrange (get offset v)
                                 (Z.to_nat (get offset (v + 1) - get offset v))))
           (zrange 0 (Z.to_nat nv)).


(** ** The C library's [qsort] *)

(** [qsort] takes an array of elements and a comparator on them. *)
Definition qsort_fn : Type := forall A : Type, (A -> A -> Z) -> list A -> list A.

(** A comparator is usable on a list when, on its elements, its sign behaves
    as an order: any two elements are comparable and it is transitive. *)
Definition cmp_consistent {A : Type} (cmp : A -> A -> Z) (l : list A) : Prop :=
  (forall a b, In a l -> In b l -> cmp a b <= 0 \/ cmp b a <= 0) /\
  (forall a b c, In a l -> In b l -> In c l -> cmp a b <= 0 -> cmp b c <= 0 -> cmp a c <= 0).

(** What the C standard promises of [qsort]: the array is rearranged; with a
    usable comparator it ends in ascending order; and the result depends on
    the comparator only through its values on the elements of the array. *)
Record qsort_contract (qsort : qsort_fn) : Prop := {
  qsort_perm : forall A cmp (l : list A), Permutation l (qsort A cmp l);
  qsort_sorted : forall A cmp (l : list A),
      cmp_consistent cmp l -> StronglySorted (fun a b => cmp a b <= 0) (qsort A cmp l);
  qsort_ext : forall A (cmp cmp' : A -> A -> Z) (l : list A),
      (forall a b, In a l -> In b l -> cmp a b = cmp' a b) ->
      qsort A cmp l = qsort A cmp' l
}.

(** An instance: insertion sort driven by the sign of the comparator. *)
Fixpoint insert_by {A : Type} (cmp : A -> A -> Z) (x : A) (l : list A) : list A :=
  match l with
  | [] => [x]
  | y :: t => if cmp x y <=? 0 then x :: y :: t else y :: insert_by cmp x t
  end.

Definition insertion_qsort : qsort_fn :=
  fun A cmp l => fold_right (insert_by cmp) [] l.

(** ** Arrays of pairs *)

(** The [n] pairs stored from cell [from] on. *)
Definition pairs_at (a : list Z) (from : Z) (n : nat) : list (Z * Z) :=
  map (fun k => (get a (from + 2 * k), get a (from + 2 * k + 1))) (zrange 0 n).

(** Storing pairs from cell [from] on. *)
Fixpoint store_pairs (a : list Z) (from : Z) (ps : list (Z * Z)) : list Z :=
  match ps with
  | [] => a
  | p :: t => store_pairs (set (set a from (fst p)) (from + 1) (snd p)) (from + 2) t
  end.

(** [qsort (&array[from], nmemb, 2 * sizeof (int64_t), cmp)] *)
Definition qsort_pairs (qsort : qsort_fn) (cmp : Z * Z -> Z * Z -> Z)
           (array : list Z) (from nmemb : Z) : list Z :=
  store_pairs array from (qsort (Z * Z)%type cmp (pairs_at array from (Z.to_nat nmemb))).

(** Ascending lexicographic order of pairs. *)
Definition lex_le (p q : Z * Z) : Prop :=
  fst p < fst q \/ (fst p = fst q /\ snd p <= snd q).

(** [index = stinger_int64_fetch_add (&cursor[cell], 2); dst[index] = src[j];
    dst[index+1] = src[j+1];] on the pair of [cursor] and [dst]. *)
Definition move_pair (src : list Z) (cell : Z) (j : Z) (st : list Z * list Z)
  : list Z * list Z :=
  let fa := stinger_int64_fetch_add (fst st) cell 2 in
  let index := fst fa in
  (snd fa, set (set (snd st) index (get src j)) (index + 1) (get src (j + 1))).

(** ** Bucket sort of pairs ([bucket_sort_pairs]) *)

(** [degree = start[i+1] - start[i]; if (degree >= 4) qsort (&array[start[i]],
    degree >> 1, 2 * sizeof (int64_t), i64_pair_cmp);] *)
Definition sort_bucket (qsort : qsort_fn) (start : list Z) (i : Z) (array : list Z) : list Z :=
  let degree := sub64 (get start (i + 1)) (get start i) in
  if degree >=? 4
  then qsort_pairs qsort i64_pair_cmp array (get start i) (Z.shiftr degree 1)
  else array.

(** [bucket_sort_pairs (array, num)]. The loop that moves the pairs to their
    buckets is an [omp parallel for] with an atomic fetch-and-add: its
    iterations are run in the order [sched], any arrangement of
    [0, 2, ..., 2 * num - 2]. The byte counts [2 * num * sizeof (int64_t)]
    and [(range + 2) * sizeof (int64_t)] are products in [size_t]: [tmp] and
    [start] have the cells of the wrapped counts. *)
Definition bucket_sort_pairs (qsort : qsort_fn) (sched : list Z)
           (array : list Z) (num : Z) : list Z :=
  let tmp := xmalloc (size_t_cells (2 * num)) in
  let max := get array 0 in
  let min := get array 0 in
  let max := for_loop 2 (Z.shiftl num 1) 2
               (fun i max => if max <? get array i then get array i else max) max in
  let min := for_loop 2 (Z.shiftl num 1) 2
               (fun i min => if min >? get array i then get array i else min) min in
  let range := add64 (sub64 max min) 1 in
  let offset := sub64 0 min in
  let start := xmalloc (size_t_cells (range + 2)) in
  let start := for_loop 0 (range + 2) 1 (fun i start => set start i 0) start in
  (* start += 2 *)
  let start :=
    for_loop 0 (Z.shiftl num 1) 2
      (fun i start => set start (2 + add64 (get array i) offset)
                          (add64 (get start (2 + add64 (get array i) offset)) 2)) start in
  let start :=
    for_loop 0 range 1
      (fun i start => set start (2 + i) (add64 (get start (2 + i)) (get start (2 + (i - 1)))))
      start in
  (* start-- *)
  let st := fold_left (fun st i => move_pair array (1 + add64 (get array i) offset) i st)
                      sched (start, tmp) in
  let start := fst st in
  let tmp := snd st in
  let array := for_loop 0 (Z.shiftl num 1) 1 (fun i array => set array i (get tmp i)) array in
  (* start-- *)
  for_loop 0 range 1 (sort_bucket qsort start) array.

(** ** Radix sort of pairs ([radix_sort_pairs]) *)

(** [(copy1[j + c] >> denShift) & bitMask]: the digit the pass sorts by, of
    the second component ([c = 1], first group of passes) or of the first
    ([c = 0], second group). *)
Definition myBucket (copy1 : list Z) (denShift bitMask c : Z) (j : Z) : Z :=
  Z.land (Z.shiftr (get copy1 (j + c)) denShift) bitMask.

(** The body of a digit loop: the buckets are zeroed, the digits counted, the
    counts summed, the pairs moved from [copy1] to [copy2], and the two
    copies exchanged. The state is [(buckets, copy1, copy2)]. The two
    digit loops of the source differ in the component [c] they read (and in
    two [assert]s on the digit, which hold for every digit). *)
Definition radix_pass (numBuckets bitMask len denShift c : Z)
           (st : list Z * list Z * list Z) : list Z * list Z * list Z :=
  let buckets := fst (fst st) in
  let copy1 := snd (fst st) in
  let copy2 := snd st in
  let buckets := for_loop 0 (numBuckets + 2) 1 (fun j buckets => set buckets j 0) buckets in
  (* buckets += 2 *)
  let buckets :=
    for_loop 0 len 2
      (fun j buckets =>
         snd (stinger_int64_fetch_add buckets (2 + myBucket copy1 denShift bitMask c j) 2))
      buckets in
  let buckets :=
    for_loop 1 numBuckets 1
      (fun j buckets => set buckets (2 + j)
                            (add64 (get buckets (2 + j)) (get buckets (2 + (j - 1)))))
      buckets in
  (* buckets-- *)
  let bc :=
    for_loop 0 len 2
      (fun j bc => move_pair copy1 (1 + myBucket copy1 denShift bitMask c j) j bc)
      (buckets, copy2) in
  (* buckets--; tmp = copy1; copy1 = copy2; copy2 = tmp *)
  (fst bc, snd bc, copy1).

(** [for (i = 0; max != 0; max = max / numBuckets, i++) { ...; denShift += numBits; }]
    The loop has no bound of its own: [None] when it has not ended after
    [fuel] rounds. *)
Fixpoint digit_loop (fuel : nat) (numBits numBuckets bitMask len c : Z)
         (max denShift : Z) (st : list Z * list Z * list Z)
  : option (list Z * list Z * list Z) :=
  if max =? 0 then Some st
  else match fuel with
       | O => None
       | S fuel' =>
           digit_loop fuel' numBits numBuckets bitMask len c
                      (Z.quot max numBuckets) (denShift + numBits)
                      (radix_pass numBuckets bitMask len denShift c st)
       end.

(** The first loop: the copy, and the extreme second components. The state
    is [(copy1, max, min)]. *)
Definition copy_minmax (x : list Z) (i : Z) (st : list Z * Z * Z) : list Z * Z * Z :=
  let copy1 := fst (fst st) in
  let max := snd (fst st) in
  let min := snd st in
  let copy1 := set copy1 i (get x i) in
  let copy1 := set copy1 (i + 1) (get x (i + 1)) in
  let max := if max <? get x (i + 1) then get x (i + 1) else max in
  let min := if min >? get x (i + 1) then get x (i + 1) else min in
  (copy1, max, min).

(** [radix_sort_pairs (x, length, numBits)]. The loops run over the cells
    [0 .. length - 1] two by two, a pair at every step: [len] is the
    [length] of the source. The byte counts of the three blocks are products
    in [size_t]. *)
Definition radix_sort_pairs (fuel : nat) (x : list Z) (len numBits : Z)
  : option (list Z) :=
  let numBuckets := to_i32 (Z.shiftl 1 numBits) in
  let bitMask := sub64 numBuckets 1 in
  let buckets := xmalloc (size_t_cells (numBuckets + 2)) in
  let copy1 := xmalloc (size_t_cells len) in
  let copy2 := xmalloc (size_t_cells len) in
  let cmm := for_loop 0 len 2 (copy_minmax x) (copy1, get x 1, get x 1) in
  let copy1 := fst (fst cmm) in
  let max := snd (fst cmm) in
  let min := snd cmm in
  let min := neg64 min in
  let max := add64 max min in
  let copy1 := for_loop 0 len 2
                 (fun i copy1 => set copy1 (i + 1) (add64 (get copy1 (i + 1)) min)) copy1 in
  match digit_loop fuel numBits numBuckets bitMask len 1 max 0 (buckets, copy1, copy2) with
  | None => None
  | Some st =>
      let copy1 := snd (fst st) in
      let max := get copy1 0 in
      let max := for_loop 0 len 2
                   (fun i max => if max <? get copy1 i then get copy1 i else max) max in
      match digit_loop fuel numBits numBuckets bitMask len 0 max 0 st with
      | None => None
      | Some st =>
          let copy1 := snd (fst st) in
          let copy1 := for_loop 0 len 2
                         (fun i copy1 => set copy1 (i + 1) (sub64 (get copy1 (i + 1)) min))
                         copy1 in
          Some (for_loop 0 len 1 (fun i x => set x i (get copy1 i)) x)
      end
  end.

(** The pairs of an array of [2 * n] cells. *)
Definition pairs_of (a : list Z) (n : Z) : list (Z * Z) := pairs_at a 0 (Z.to_nat n).


(** ** Radix sort on lists of pairs *)

(** The component of a pair a group of passes sorts by. *)
Definition comp (c : Z) (p : Z * Z) : Z := if c =? 0 then fst p else snd p.

(** The digit of a pair in the pass with shift [sh]. *)
Definition pair_digit (bitMask c sh : Z) (p : Z * Z) : Z :=
  Z.land (Z.shiftr (comp c p) sh) bitMask.

(** The pairs bucket after bucket, each bucket in the order of the list. *)
Definition partition_pairs (kf : Z * Z -> Z) (B : nat) (ps : list (Z * Z)) : list (Z * Z) :=
  flat_map (fun b => filter (fun p => kf p =? b) ps) (zrange 0 B).

(** What the digit loop does to the list of the pairs of [copy1]. *)
Fixpoint lsd_rounds (fuel : nat) (numBits numBuckets bitMask c : Z)
         (max sh : Z) (ps : list (Z * Z)) : list (Z * Z) :=
  if max =? 0 then ps
  else match fuel with
       | O => ps
       | S fuel' =>
           lsd_rounds fuel' numBits numBuckets bitMask c
                      (Z.quot max numBuckets) (sh + numBits)
                      (partition_pairs (pair_digit bitMask c sh) (Z.to_nat numBuckets) ps)
       end.

(** Ascending order of one component, ties in the order [R0]. *)
Definition by_comp (c : Z) (R0 : Z * Z -> Z * Z -> Prop) (p q : Z * Z) : Prop :=
  comp c p < comp c q \/ (comp c p = comp c q /\ R0 p q).

(** The same with the component reduced modulo [2^sh]: the order the passes
    with shifts below [sh] have established. *)
Definition by_low_digits (c sh : Z) (R0 : Z * Z -> Z * Z -> Prop) (p q : Z * Z) : Prop :=
  comp c p mod 2^sh < comp c q mod 2^sh \/
  (comp c p mod 2^sh = comp c q mod 2^sh /\ R0 p q).


(** ** CSR extraction ([stinger_to_unsorted_csr], [stinger_to_sorted_csr]) *)

(** Modelled from the spec: the edges of the live store are declared in
    [stinger_core/stinger.h], which is not among the sources. Of an edge the
    extraction reads the neighbor, the weight, the two time stamps and the
    type. *)
Record live_edge : Type := {
  e_neighbor : Z;
  e_weight : Z;
  e_timeFirst : Z;
  e_timeRecent : Z;
  e_type : Z
}.

(** Modelled from the spec: [struct stinger] is declared in
    [stinger_core/stinger.h]. Of the store the extraction reads the live
    out-edges of every vertex, in storage order. The store does not change
    during an extraction, as the spec requires of the caller. *)
Definition stinger : Type := Z -> list live_edge.

(** Modelled from the spec: [stinger_outdegree_get] is defined in
    [stinger_core]. The out-degree of a vertex is the number of its live
    out-edges. *)
Definition stinger_outdegree_get (G : stinger) (v : Z) : Z := Z.of_nat (length (G v)).

(** Modelled from the spec: [stinger_gather_successors] is defined in
    [stinger_core]. It copies at most [max] live out-edges of the vertex and
    returns how many it has copied. *)
Definition stinger_gather_successors (G : stinger) (v : Z) (max : Z) : list live_edge :=
  firstn (Z.to_nat max) (G v).

(** Writing a list of values from cell [o] on. *)
Fixpoint store_at (a : list Z) (o : Z) (vals : list Z) : list Z :=
  match vals with
  | [] => a
  | v :: t => store_at (set a o v) (o + 1) t
  end.

(** The arrays of a CSR; an output that was not asked for ([NULL]) is [None]. *)
Record csr : Type := {
  s_off : list Z;
  s_ind : list Z;
  s_weight : option (list Z);
  s_timefirst : option (list Z);
  s_timerecent : option (list Z);
  s_type : option (list Z)
}.

(** [int64_t x = off[i]; off[i] = t; t += x;] on the pair of [off] and [t]. *)
Definition exclusive_step (i : Z) (st : list Z * Z) : list Z * Z :=
  let x := get (fst st) i in
  (set (fst st) i (snd st), add64 (snd st) x).

(** The gather of vertex [i] into the slices at [off[i]]; the [assert (d ==
    md)] holds, the store being the same as when the degrees were read. *)
Definition gather_vertex (G : stinger) (off : list Z) (i : Z) (c : csr) : csr :=
  let o := get off i in
  let md := sub64 (get off (i + 1)) o in
  let es := stinger_gather_successors G i md in
  {| s_off := s_off c;
     s_ind := store_at (s_ind c) o (map e_neighbor es);
     s_weight := option_map (fun a => store_at a o (map e_weight es)) (s_weight c);
     s_timefirst := option_map (fun a => store_at a o (map e_timeFirst es)) (s_timefirst c);
     s_timerecent := option_map (fun a => store_at a o (map e_timeRecent es)) (s_timerecent c);
     s_type := option_map (fun a => store_at a o (map e_type es)) (s_type c) |}.

(** [stinger_to_unsorted_csr]; the four booleans say which optional outputs
    are asked for. *)
Definition stinger_to_unsorted_csr (G : stinger) (nv : Z)
           (weight_out timefirst_out timerecent_out type_out : bool) : csr :=
  let off := xmalloc (nv + 1) in
  let off := for_loop 0 nv 1 (fun i off => set off i (stinger_outdegree_get G i)) off in
  let ot := for_loop 0 nv 1 exclusive_step (off, 0) in
  let off := fst ot in
  let t := snd ot in
  let off := set off nv t in
  let ind := xmalloc t in
  let alloc (wanted : bool) := if wanted then Some (xmalloc t) else None in
  for_loop 0 nv 1 (gather_vertex G off)
    {| s_off := off; s_ind := ind;
       s_weight := alloc weight_out; s_timefirst := alloc timefirst_out;
       s_timerecent := alloc timerecent_out; s_type := alloc type_out |}.

(** [copy_metadata_based_on_pointer_array]; a pointer into [ind] is the index
    of the cell it points to, and [base] the index of the first cell of the
    slice. The result is the pair of [metadata] and [buffer]. *)
Definition copy_metadata_based_on_pointer_array
           (count : Z) (metadata : list Z) (offset : Z)
           (pointers : list Z) (base : Z) (buffer : list Z) : list Z * list Z :=
  let buffer :=
    for_loop 0 count 1
      (fun i buffer => set buffer i (get metadata (offset + (get pointers i - base)))) buffer in
  let metadata :=
    for_loop 0 count 1 (fun i metadata => set metadata (i + offset) (get buffer i)) metadata in
  (metadata, buffer).

(** [if (m_out) copy_metadata_based_on_pointer_array (degree, *m_out, ...)] on
    the pair of the optional array and the scratch buffer. *)
Definition permute_metadata (degree start_offset : Z) (pointers : list Z)
           (mb : option (list Z) * list Z) : option (list Z) * list Z :=
  match fst mb with
  | None => mb
  | Some metadata =>
      let r := copy_metadata_based_on_pointer_array
                 degree metadata start_offset pointers start_offset (snd mb) in
      (Some (fst r), snd r)
  end.

(** [csr_cmp] as [qsort] calls it in [stinger_to_sorted_csr]: on pointers into
    [ind], here the indices of the cells. *)
Definition pointer_cmp (ind : list Z) (a b : Z) : Z := csr_cmp (get ind a) (get ind b).

(** The body of the loop of [stinger_to_sorted_csr] for vertex [i]. *)
Definition sort_vertex (qsort : qsort_fn) (i : Z) (c : csr) : csr :=
  let start_offset := get (s_off c) i in
  let degree := sub64 (get (s_off c) (i + 1)) start_offset in
  let pointers := xmalloc degree in
  let pointers := for_loop 0 degree 1 (fun j pointers => set pointers j (start_offset + j))
                           pointers in
  let pointers := qsort Z (pointer_cmp (s_ind c)) pointers in
  let tmp_buffer := xmalloc degree in
  let tmp_buffer := for_loop 0 degree 1
                             (fun j tmp_buffer => set tmp_buffer j (get (s_ind c) (get pointers j)))
                             tmp_buffer in
  let ind := for_loop 0 degree 1
                      (fun j ind => set ind (start_offset + j) (get tmp_buffer j)) (s_ind c) in
  let wb := permute_metadata degree start_offset pointers (s_weight c, tmp_buffer) in
  let fb := permute_metadata degree start_offset pointers (s_timefirst c, snd wb) in
  let rb := permute_metadata degree start_offset pointers (s_timerecent c, snd fb) in
  let tb := permute_metadata degree start_offset pointers (s_type c, snd rb) in
  {| s_off := s_off c; s_ind := ind;
     s_weight := fst wb; s_timefirst := fst fb; s_timerecent := fst rb; s_type := fst tb |}.

(** The sorting loop over the vertices; the slices of different vertices do
    not overlap, so the order of the parallel loop does not matter. *)
Definition sort_csr (qsort : qsort_fn) (nv : Z) (c : csr) : csr :=
  for_loop 0 nv 1 (sort_vertex qsort) c.

Definition stinger_to_sorted_csr (qsort : qsort_fn) (G : stinger) (nv : Z)
           (weight_out timefirst_out timerecent_out type_out : bool) : csr :=
  sort_csr qsort nv
           (stinger_to_unsorted_csr G nv weight_out timefirst_out timerecent_out type_out).

(** The cells [[lo, lo + n)] of an array. *)
Definition slice (a : list Z) (lo : Z) (n : nat) : list Z := map (get a) (zrange lo n).

(** The slice of vertex [v] in an array of a CSR. *)
Definition vertex_slice (off a : list Z) (v : Z) : list Z :=
  slice a (get off v) (Z.to_nat (get off (v + 1) - get off v)).

(** A graph with one vertex and the given out-neighbours, each edge carrying
    a weight that tells where it stood. *)
Definition one_vertex (neighbors : list Z) : stinger :=
  fun v => if v =? 0
           then map (fun p => {| e_neighbor := snd p; e_weight := 100 + Z.of_nat (fst p);
                                 e_timeFirst := 0; e_timeRecent := 0; e_type := 0 |})
                    (combine (seq 0 (length neighbors)) neighbors)
           else [].

(** Array [a'] is array [a] with the cells from [s] on rearranged as the
    pointers [p] say: cell [s + j] holds what cell [p[j]] held. *)
Definition permuted_by (p : list Z) (s : Z) (a a' : list Z) : Prop :=
  length a' = length a /\
  (forall j, (j < length p)%nat -> get a' (s + Z.of_nat j) = get a (nth j p 0)) /\
  (forall k, ~ (s <= k < s + Z.of_nat (length p)) -> get a' k = get a k).

(** The same for an optional output. *)
Definition opt_permuted_by (p : list Z) (s : Z) (m m' : option (list Z)) : Prop :=
  match m, m' with
  | Some a, Some a' => permuted_by p s a a'
  | None, None => True
  | _, _ => False
  end.

(** The offsets of a CSR of [nv] vertices over arrays of [n] cells. *)
Definition offsets_ok (off : list Z) (nv n : Z) : Prop :=
  forall v, 0 <= v < nv -> 0 <= get off v <= get off (v + 1) /\ get off (v + 1) <= n.

Definition opt_length (m : option (list Z)) (n : nat) : Prop :=
  match m with Some a => length a = n | None => True end.

Definition csr_ok (c : csr) (nv : Z) : Prop :=
  offsets_ok (s_off c) nv (Z.of_nat (length (s_ind c))) /\
  Z.of_nat (length (s_ind c)) < 2^63 /\
  opt_length (s_weight c) (length (s_ind c)) /\
  opt_length (s_timefirst c) (length (s_ind c)) /\
  opt_length (s_timerecent c) (length (s_ind c)) /\
  opt_length (s_type c) (length (s_ind c)).


(** The pointers of the slice of vertex [v] as [qsort] leaves them. *)
Definition sorted_pointers (qsort : qsort_fn) (c : csr) (v : Z) : list Z :=
  qsort Z (pointer_cmp (s_ind c))
        (zrange (get (s_off c) v) (Z.to_nat (get (s_off c) (v + 1) - get (s_off c) v))).

(** The slice of vertex [v] in an optional output [m'] holds the cells of [m]
    the pointers [p] point to, in the order of [p]. *)
Definition slice_permuted (off p : list Z) (v : Z) (m m' : option (list Z)) : Prop :=
  match m, m' with
  | Some a, Some a' => vertex_slice off a' v = map (get a) p
  | None, None => True
  | _, _ => False
  end.

(** The state of an array when the vertices below [i] have been sorted. *)
Definition sorted_below (qsort : qsort_fn) (c : csr) (i : Z) (a0 a : list Z) : Prop :=
  length a = length a0 /\
  (forall v, 0 <= v < i ->
             vertex_slice (s_off c) a v = map (get a0) (sorted_pointers qsort c v)) /\
  (forall k, get (s_off c) i <= k -> get a k = get a0 k).

Definition opt_sorted_below (qsort : qsort_fn) (c : csr) (i : Z)
           (m0 m : option (list Z)) : Prop :=
  match m0, m with
  | Some a0, Some a => sorted_below qsort c i a0 a
  | None, None => True
  | _, _ => False
  end.

(** The number of live out-edges of the vertices below [n]. *)
Fixpoint degree_sum (G : stinger) (n : nat) : Z :=
  match n with
  | O => 0
  | S k => degree_sum G k + stinger_outdegree_get G (Z.of_nat k)
  end.




(** The state of an array when the vertices below [i] have been gathered:
    the slice of each holds, in storage order, the field [f] of its edges. *)
Definition gathered_below (G : stinger) (f : live_edge -> Z) (n : Z) (i : nat)
           (a : list Z) : Prop :=
  Z.of_nat (length a) = n /\
  forall v, (v < i)%nat ->
            slice a (degree_sum G v) (length (G (Z.of_nat v))) = map f (G (Z.of_nat v)).

Definition opt_gathered_below (G : stinger) (f : live_edge -> Z) (n : Z) (i : nat)
           (wanted : bool) (m : option (list Z)) : Prop :=
  match m with
  | Some a => wanted = true /\ gathered_below G f n i a
  | None => wanted = false
  end.


(** ** Sorting the edge blocks of a vertex ([stinger_sort_edge_list]) *)

(** Modelled from the spec: [struct stinger_edge] is declared in
    [stinger_core], which is not among the sources. An edge holds a neighbor,
    a weight and two time stamps. *)
Record stinger_edge : Type := {
  neighbor : Z;
  weight : Z;
  timeFirst : Z;
  timeRecent : Z
}.

(** Modelled from the spec: [struct stinger_eb] is declared in
    [stinger_core]. An edge block holds a fixed number of edges, the type of
    its edges, the index in the pool of the next block of its vertex (0 for
    none) and the cached [numEdges], [high], [smallStamp] and [largeStamp].
    The pool is the array of the blocks; its block 0 stands for no block. *)
Record stinger_eb : Type := {
  next : Z;
  etype : Z;
  numEdges : Z;
  high : Z;
  smallStamp : Z;
  largeStamp : Z;
  edges : list stinger_edge
}.

Definition null_edge : stinger_edge :=
  {| neighbor := 0; weight := 0; timeFirst := 0; timeRecent := 0 |}.

Definition null_eb : stinger_eb :=
  {| next := 0; etype := 0; numEdges := 0; high := 0; smallStamp := 0; largeStamp := 0;
     edges := [] |}.

(** [l] with cell [n] replaced; nothing changes out of range. *)
Fixpoint upd {A : Type} (l : list A) (n : nat) (x : A) : list A :=
  match l, n with
  | [], _ => []
  | _ :: t, O => x :: t
  | y :: t, S m => y :: upd t m x
  end.

(** [ebpool_priv[k]] and [eb->edges[i]]. *)
Definition eb_at (ebpool_priv : list stinger_eb) (k : Z) : stinger_eb :=
  nth (Z.to_nat k) ebpool_priv null_eb.

Definition edge_at (eb : stinger_eb) (i : Z) : stinger_edge :=
  nth (Z.to_nat i) (edges eb) null_edge.

Definition with_edges (eb : stinger_eb) (es : list stinger_edge) : stinger_eb :=
  {| next := next eb; etype := etype eb; numEdges := numEdges eb; high := high eb;
     smallStamp := smallStamp eb; largeStamp := largeStamp eb; edges := es |}.

(** [ebpool_priv[k].edges[i] = e]. *)
Definition set_edge (ebpool_priv : list stinger_eb) (k i : Z) (e : stinger_edge)
  : list stinger_eb :=
  upd ebpool_priv (Z.to_nat k)
      (with_edges (eb_at ebpool_priv k) (upd (edges (eb_at ebpool_priv k)) (Z.to_nat i) e)).

(** Modelled from the spec: [stinger_eb_is_blank] is defined in
    [stinger_core]. A slot is blank when its neighbor is negative, as the
    tombstone [-1] is. *)
Definition stinger_eb_is_blank (eb : stinger_eb) (k : Z) : bool :=
  neighbor (edge_at eb k) <? 0.

(** Modelled from the spec: [stinger_vertex_edges_get] is defined in
    [stinger_core]. The vertex directory gives the index of the first edge
    block of a vertex. *)
Definition stinger_vertex_edges_get (vertices : Z -> Z) (v : Z) : Z := vertices v.

(** The body of the [for] loops of the two sorting passes, for slot [i] of
    block [cur]: slot [i] and the slot after it, which is the first slot of
    the next block when [i] is the last slot, are exchanged when their
    neighbors are in descending order. The state is the pool and [sorted]. *)
Definition compare_exchange (STINGER_EDGEBLOCKSIZE type cur i : Z)
           (st : list stinger_eb * bool) : list stinger_eb * bool :=
  let ebpool_priv := fst st in
  let cur_eb := eb_at ebpool_priv cur in
  if i <? STINGER_EDGEBLOCKSIZE - 1 then
    if neighbor (edge_at cur_eb i) >? neighbor (edge_at cur_eb (i + 1)) then
      let tmp := edge_at cur_eb (i + 1) in
      let ebpool_priv := set_edge ebpool_priv cur (i + 1) (edge_at cur_eb i) in
      let ebpool_priv := set_edge ebpool_priv cur i tmp in
      (ebpool_priv, false)
    else st
  else
    if negb (next cur_eb =? 0)
       && (etype (eb_at ebpool_priv (next cur_eb)) =? type)
       && (neighbor (edge_at cur_eb i)
           >? neighbor (edge_at (eb_at ebpool_priv (next cur_eb)) 0)) then
      let tmp := edge_at (eb_at ebpool_priv (next cur_eb)) 0 in
      let ebpool_priv := set_edge ebpool_priv (next cur_eb) 0 (edge_at cur_eb i) in
      let ebpool_priv := set_edge ebpool_priv cur i tmp in
      (ebpool_priv, false)
    else st.

(** [for (uint64_t i = first; i < STINGER_EDGEBLOCKSIZE; i += 2)] on block
    [cur]; [first] is 1 in the odd pass and 0 in the even pass. *)
Definition sort_pass (STINGER_EDGEBLOCKSIZE type first cur : Z)
           (st : list stinger_eb * bool) : list stinger_eb * bool :=
  for_loop first STINGER_EDGEBLOCKSIZE 2 (compare_exchange STINGER_EDGEBLOCKSIZE type cur) st.

(** [while (cur_eb != ebpool_priv && cur_eb->etype == type) { body; cur_eb =
    ebpool_priv + cur_eb->next; }], at most [fuel] tests of the condition. *)
Fixpoint while_blocks {S : Type} (fuel : nat) (pool_of : S -> list stinger_eb) (type : Z)
         (body : Z -> S -> S) (cur : Z) (st : S) : option S :=
  match fuel with
  | O => None
  | Datatypes.S fuel =>
      if negb (cur =? 0) && (etype (eb_at (pool_of st) cur) =? type)
      then let st := body cur st in
           while_blocks fuel pool_of type body (next (eb_at (pool_of st) cur)) st
      else Some st
  end.

(** [while (start != ebpool_priv && start->etype != type) start = ebpool_priv
    + start->next;] *)
Fixpoint find_start (fuel : nat) (ebpool_priv : list stinger_eb) (type start : Z) : option Z :=
  match fuel with
  | O => None
  | S fuel =>
      if negb (start =? 0) && negb (etype (eb_at ebpool_priv start) =? type)
      then find_start fuel ebpool_priv type (next (eb_at ebpool_priv start))
      else Some start
  end.

(** [while (!sorted)]: an odd pass and an even pass over the blocks, until
    a round exchanges nothing; at most [rounds] rounds. *)
Fixpoint sort_rounds (STINGER_EDGEBLOCKSIZE : Z) (fuel rounds : nat) (type start : Z)
         (ebpool_priv : list stinger_eb) : option (list stinger_eb) :=
  match rounds with
  | O => None
  | S rounds =>
      match while_blocks fuel fst type (sort_pass STINGER_EDGEBLOCKSIZE type 1) start
                         (ebpool_priv, true) with
      | None => None
      | Some st =>
          match while_blocks fuel fst type (sort_pass STINGER_EDGEBLOCKSIZE type 0) start st with
          | None => None
          | Some st =>
              if snd st then Some (fst st)
              else sort_rounds STINGER_EDGEBLOCKSIZE fuel rounds type start (fst st)
          end
      end
  end.

(** The local variables of the last loop. *)
Record block_summary : Type := {
  curLargeTS : Z;
  curSmallTS : Z;
  curNumEdges : Z;
  curHigh : Z
}.

(** The body of its [for] loop, for slot [i] of block [cur]. *)
Definition summary_step (cur i : Z) (st : list stinger_eb * block_summary)
  : list stinger_eb * block_summary :=
  let ebpool_priv := fst st in
  let sm := snd st in
  let cur_eb := eb_at ebpool_priv cur in
  let e := edge_at cur_eb i in
  if negb (stinger_eb_is_blank cur_eb i) then
    if (neighbor e =? 0) && (weight e =? 0) && (timeFirst e =? 0) && (timeRecent e =? 0) then
      (set_edge ebpool_priv cur i
                {| neighbor := -1; weight := weight e;
                   timeFirst := timeFirst e; timeRecent := timeRecent e |},
       sm)
    else
      (ebpool_priv,
       {| curLargeTS := if timeRecent e >? curLargeTS sm then timeRecent e else curLargeTS sm;
          curSmallTS := if timeFirst e <? curSmallTS sm then timeFirst e else curSmallTS sm;
          curNumEdges := add64 (curNumEdges sm) 1;
          curHigh := if i >? curHigh sm then i else curHigh sm |})
  else st.

(** The body of the last loop over the blocks: the cached fields of block
    [cur] are computed again. *)
Definition summarize_block (STINGER_EDGEBLOCKSIZE cur : Z) (ebpool_priv : list stinger_eb)
  : list stinger_eb :=
  let st := for_loop 0 STINGER_EDGEBLOCKSIZE 1 (summary_step cur)
                     (ebpool_priv,
                      {| curLargeTS := INT64_MIN; curSmallTS := INT64_MAX;
                         curNumEdges := 0; curHigh := 0 |}) in
  let cur_eb := eb_at (fst st) cur in
  upd (fst st) (Z.to_nat cur)
      {| next := next cur_eb; etype := etype cur_eb;
         numEdges := curNumEdges (snd st);
         high := add64 (curHigh (snd st)) 1;
         smallStamp := curSmallTS (snd st);
         largeStamp := curLargeTS (snd st);
         edges := edges cur_eb |}.

(** [stinger_sort_edge_list]; [STINGER_EDGEBLOCKSIZE] is the number of edges
    of a block, [vertices] and [ebpool_priv] are what [MAP_STING (S)] names.
    Every loop over the blocks, and the loop of the rounds, is given [fuel]. *)
Definition stinger_sort_edge_list (STINGER_EDGEBLOCKSIZE : Z) (fuel : nat)
           (vertices : Z -> Z) (ebpool_priv : list stinger_eb) (srcvtx type : Z)
  : option (list stinger_eb) :=
  match find_start fuel ebpool_priv type (stinger_vertex_edges_get vertices srcvtx) with
  | None => None
  | Some start =>
      match sort_rounds STINGER_EDGEBLOCKSIZE fuel fuel type start ebpool_priv with
      | None => None
      | Some ebpool_priv =>
          while_blocks fuel (fun p => p) type (summarize_block STINGER_EDGEBLOCKSIZE)
                       start ebpool_priv
      end
  end.

(** *** The chain as one logical array *)

(** The blocks [bs] are linked from [cur] to [stop]. *)
Fixpoint linked (ebpool_priv : list stinger_eb) (cur : Z) (bs : list Z) (stop : Z) : Prop :=
  match bs with
  | [] => cur = stop
  | b :: t => cur = b /\ linked ebpool_priv (next (eb_at ebpool_priv b)) t stop
  end.

(** The chain of a vertex for a type: from the first block of the vertex the
    blocks [pre], of other types, lead to the blocks [bs] of the type, which
    end at no block or at a block of another type. The blocks are blocks of
    the pool, [bs] has no block twice, and every block of [bs] has
    [STINGER_EDGEBLOCKSIZE] edges. *)
Record type_chain (STINGER_EDGEBLOCKSIZE : Z) (ebpool_priv : list stinger_eb)
       (head type : Z) (pre bs : list Z) : Prop := {
  tc_linked : exists start stop,
      linked ebpool_priv head pre start /\ linked ebpool_priv start bs stop /\
      (start = 0 \/ etype (eb_at ebpool_priv start) = type) /\
      (stop = 0 \/ etype (eb_at ebpool_priv stop) <> type);
  tc_pre : Forall (fun b => b <> 0 /\ etype (eb_at ebpool_priv b) <> type) pre;
  tc_type : Forall (fun b => 0 < b < Z.of_nat (length ebpool_priv) /\
                             etype (eb_at ebpool_priv b) = type /\
                             Z.of_nat (length (edges (eb_at ebpool_priv b)))
                             = STINGER_EDGEBLOCKSIZE) bs;
  tc_nodup : NoDup bs
}.

(** The blocks [bs] of one type, from [start] to [stop], as the passes find
    and leave them. *)
Definition run_ok (STINGER_EDGEBLOCKSIZE type : Z) (bs : list Z) (start stop : Z)
           (ebpool_priv : list stinger_eb) : Prop :=
  linked ebpool_priv start bs stop /\
  (stop = 0 \/ etype (eb_at ebpool_priv stop) <> type) /\
  Forall (fun b => 0 < b < Z.of_nat (length ebpool_priv) /\
                   etype (eb_at ebpool_priv b) = type /\
                   Z.of_nat (length (edges (eb_at ebpool_priv b)))
                   = STINGER_EDGEBLOCKSIZE) bs.

(** The slots of the chain in slot order. *)
Definition chain_edges (ebpool_priv : list stinger_eb) (bs : list Z) : list stinger_edge :=
  flat_map (fun b => edges (eb_at ebpool_priv b)) bs.

Definition chain_neighbors (ebpool_priv : list stinger_eb) (bs : list Z) : list Z :=
  map neighbor (chain_edges ebpool_priv bs).

(** The number of pairs of keys that stand in descending order. *)
Fixpoint inversions (l : list Z) : nat :=
  match l with
  | [] => O
  | x :: t => (length (filter (fun y => x >? y) t) + inversions t)%nat
  end.

(** Slots [k] and [k + 1] of the logical array are exchanged when their
    neighbors are in descending order; the flag tells whether they were. *)
Fixpoint exchange (k : nat) (l : list stinger_edge) : list stinger_edge * bool :=
  match k, l with
  | O, a :: b :: t => if neighbor a >? neighbor b then (b :: a :: t, true) else (l, false)
  | S k, a :: t => (a :: fst (exchange k t), snd (exchange k t))
  | _, _ => (l, false)
  end.

(** The exchanges at the slots [ks], one after the other, on the logical
    array and [sorted]. *)
Definition exchange_all (ks : list nat) (st : list stinger_edge * bool)
  : list stinger_edge * bool :=
  fold_left (fun st k => (fst (exchange k (fst st)), snd st && negb (snd (exchange k (fst st)))))
            ks st.

(** The slots a pass visits in the blocks [j, j + 1, ..., j + n - 1] of the
    chain: slot [i] of block [j] is slot [j * STINGER_EDGEBLOCKSIZE + i] of
    the logical array. *)
Definition pass_slots (STINGER_EDGEBLOCKSIZE first : Z) (j n : nat) : list nat :=
  flat_map (fun j => map (fun i => Z.to_nat (Z.of_nat j * STINGER_EDGEBLOCKSIZE + i))
                         (loop_indices first STINGER_EDGEBLOCKSIZE 2))
           (seq j n).

(** What the passes keep of a pool: its size, the links, types and sizes of
    its blocks, and all of every block that is not in [bs]. *)
Definition frame (bs : list Z) (p p' : list stinger_eb) : Prop :=
  length p' = length p /\
  (forall k, next (eb_at p' k) = next (eb_at p k) /\
             etype (eb_at p' k) = etype (eb_at p k) /\
             length (edges (eb_at p' k)) = length (edges (eb_at p k))) /\
  (forall k, ~ In k bs -> eb_at p' k = eb_at p k).

(** A slot that was never used, all of whose fields are zero, is made a
    tombstone by the last loop. *)
Definition all_zero (e : stinger_edge) : bool :=
  (neighbor e =? 0) && (weight e =? 0) && (timeFirst e =? 0) && (timeRecent e =? 0).

Definition entomb (e : stinger_edge) : stinger_edge :=
  if all_zero e
  then {| neighbor := -1; weight := weight e; timeFirst := timeFirst e;
          timeRecent := timeRecent e |}
  else e.

(** A live slot: it holds an edge. *)
Definition live (e : stinger_edge) : bool := 0 <=? neighbor e.

(** The slots the last loop counts: not blank and not all zero. They are the
    slots that are live when the loop has run. *)
Definition counted (e : stinger_edge) : bool :=
  negb (neighbor e <? 0) && negb (all_zero e).

(** The cached fields of a block agree with its slots: [numEdges] is the
    number of live slots, [smallStamp] and [largeStamp] are the least
    [timeFirst] and the greatest [timeRecent] of the live slots, no slot from
    [high] on is live, and the slot below [high] is live when the block has a
    live slot; when it has none, [high] is 1. *)
Definition cached_ok (STINGER_EDGEBLOCKSIZE : Z) (eb : stinger_eb) : Prop :=
  numEdges eb = Z.of_nat (length (filter live (edges eb))) /\
  smallStamp eb = list_min INT64_MAX (map timeFirst (filter live (edges eb))) /\
  largeStamp eb = list_max INT64_MIN (map timeRecent (filter live (edges eb))) /\
  0 <= numEdges eb <= high eb /\ high eb <= STINGER_EDGEBLOCKSIZE /\
  (forall i, high eb <= i < STINGER_EDGEBLOCKSIZE -> live (edge_at eb i) = false) /\
  (filter live (edges eb) <> [] -> live (edge_at eb (high eb - 1)) = true) /\
  (filter live (edges eb) = [] -> high eb = 1).

(** Block [new] is block [old] after the last loop: the slots that were
    never used are tombstones, and the cached fields are computed again. *)
Definition summary_ok (STINGER_EDGEBLOCKSIZE : Z) (old new : stinger_eb) : Prop :=
  next new = next old /\ etype new = etype old /\
  edges new = map entomb (edges old) /\
  cached_ok STINGER_EDGEBLOCKSIZE new.

(** The order the claim describes: ascending, a tombstone after everything. *)
Definition tombstones_last (a b : Z) : Prop := b = -1 \/ (a <> -1 /\ a <= b).

(** Pools for examples; block 0 stands for no block. In [example_pool] the
    chain of the vertex is block 2, of type 5, then the blocks 1 and 3 of type
    0, which hold a tombstone and a slot that was never used. In [dead_pool]
    the only block holds two tombstones. In [zero_pool] the only block holds
    an edge to vertex 0 before a slot that was never used. *)
Definition edge (n w : Z) : stinger_edge :=
  {| neighbor := n; weight := w; timeFirst := 10 + w; timeRecent := 20 + w |}.

Definition block (nxt ty : Z) (es : list stinger_edge) : stinger_eb :=
  {| next := nxt; etype := ty; numEdges := 0; high := 0; smallStamp := 0; largeStamp := 0;
     edges := es |}.

Definition example_pool : list stinger_eb :=
  [ null_eb;
    block 3 0 [edge 7 1; edge 2 2; edge (-1) 3; edge 9 4];
    block 1 5 [edge 1 5; edge 1 6; edge 1 7; edge 1 8];
    block 0 0 [edge 4 9; null_edge; edge 6 11; edge 3 12] ].

Definition dead_pool : list stinger_eb :=
  [ null_eb; block 0 0 [edge (-1) 1; edge (-1) 2] ].

Definition zero_pool : list stinger_eb :=
  [ null_eb; block 0 0 [edge 0 1; null_edge] ].


(** ** Searching a sorted array ([find_in_sorted]) *)

(** [while (top - bot + 1 > 4) { ... }]: the index returned from inside the
    loop, or [top] and [bot] when the loop is left; at most [fuel] tests of
    the condition. *)
Fixpoint find_bisect (fuel : nat) (tofind : Z) (ary : list Z) (top bot : Z)
  : option (Z + Z * Z) :=
  match fuel with
  | O => None
  | S fuel =>
      if add64 (sub64 top bot) 1 >? 4 then
        let mid := add64 bot (Z.quot (sub64 top bot) 2) in
        if tofind =? get ary mid then Some (inl mid)
        else if tofind <? get ary mid then find_bisect fuel tofind ary mid bot
        else find_bisect fuel tofind ary top mid
      else Some (inr (top, bot))
  end.

(** [for (; bot <= top; ++bot) if (tofind == ary[bot]) return bot; return -1;]
    with [n] cells from [bot] to [top]. *)
Fixpoint find_scan (n : nat) (tofind : Z) (ary : list Z) (bot : Z) : Z :=
  match n with
  | O => -1
  | S n => if tofind =? get ary bot then bot else find_scan n tofind ary (add64 bot 1)
  end.

Definition find_in_sorted (fuel : nat) (tofind N : Z) (ary : list Z) : option Z :=
  if N <=? 0 then Some (-1)
  else
    let top := sub64 N 1 in
    let bot := 0 in
    if tofind =? get ary bot then Some bot
    else if tofind =? get ary top then Some top
    else
      match find_bisect fuel tofind ary top bot with
      | None => None
      | Some (inl mid) => Some mid
      | Some (inr (top, bot)) =>
          Some (find_scan (Z.to_nat (sub64 top bot + 1)) tofind ary bot)
      end.

(** ** Sorting pairs with [i2cmp] *)

(** [i2cmp (va, vb)] on the two pairs pointed to. *)
Definition i2cmp (a b : Z * Z) : Z :=
  if fst a <? fst b then -1
  else if fst a >? fst b then 1
  else if snd a <? snd b then -1
  else if snd a >? snd b then 1
  else 0.

(** ** Reading a whole file ([xread]) *)

(** [read] is the system call of POSIX, not a function of this repository.
    The open file as [read] sees it: the bytes from the file position on,
    and what the system does at the coming calls. A call fails and returns
    -1, or hands over at most [most] bytes ([most >= 1]); after the listed
    calls every call hands over all it is asked for. In every case [read]
    returns no more than [len] bytes, no more than the file has left, and 0
    at the end of the file. *)
Inductive read_event : Type :=
| ReadFails
| ReadAtMost (most : positive).

Record open_file : Type := {
  unread : list Z;
  coming : list read_event
}.

(** [read (fd, buf, len)]: the count returned, the bytes stored at [buf],
    and the file afterwards. *)
Definition read (f : open_file) (len : Z) : Z * list Z * open_file :=
  match coming f with
  | ReadFails :: rest => (-1, [], {| unread := unread f; coming := rest |})
  | ReadAtMost most :: rest =>
      let n := Z.min (Z.min len (Z.pos most)) (Z.of_nat (length (unread f))) in
      (n, firstn (Z.to_nat n) (unread f),
       {| unread := skipn (Z.to_nat n) (unread f); coming := rest |})
  | [] =>
      let n := Z.min len (Z.of_nat (length (unread f))) in
      (n, firstn (Z.to_nat n) (unread f),
       {| unread := skipn (Z.to_nat n) (unread f); coming := [] |})
  end.

(** [xread (fd, buf, len)]; [stored] is what has been written from the
    caller's [buf] on. The loop [while (len)] runs on fuel. *)
Fixpoint xread_loop (fuel : nat) (f : open_file) (stored : list Z) (len total_bytes : Z)
  : option (Z * list Z * open_file) :=
  match fuel with
  | O => None
  | S fuel =>
      if len =? 0 then Some (total_bytes, stored, f)
      else
        let '(bytes_read, data, f) := read f len in
        if bytes_read <? 0 then Some (bytes_read, stored, f)
        else xread_loop fuel f (stored ++ data) (len - bytes_read) (total_bytes + bytes_read)
  end.

(** [xread]: the value returned, the bytes stored from [buf] on, and the file
    afterwards; [None] when the loop has not ended within the fuel. *)
Definition xread (fuel : nat) (f : open_file) (len : Z) : option (Z * list Z * open_file) :=
  xread_loop fuel f [] len 0.

(** No call of [read] fails. *)
Definition never_fails (f : open_file) : Prop := ~ In ReadFails (coming f).

(** The bytes that the calls before a failing one can hand over at most. *)
Fixpoint at_most (c : list read_event) : Z :=
  match c with
  | [] => 0
  | ReadFails :: c => at_most c
  | ReadAtMost most :: c => Z.pos most + at_most c
  end.

(** ** Snapshot loading ([snarf_graph], [snarf_actions],
    [load_graph_and_action_stream]) *)

(** What the system answers while a loader works on a file name: [stat]
    fails or gives the size in bytes, [xmalloc] has a block of that size or
    not, and [open] fails or gives the file as [read] sees it. The size and
    the file are separate answers: the file may end before [st_size] bytes
    have come. *)
Record snapshot : Type := {
  st_size : option Z;
  has_block : bool;
  fd : option open_file
}.

(** The byte order of a machine: of the one that runs the loader, or of the
    one that wrote a file. *)
Inductive byte_order : Type := little_endian | big_endian.

(** The eight bytes of an [int64_t], least significant first, and as a
    machine stores them. *)
Definition bytes_le (x : Z) : list Z := map (fun k => byte_of x (Z.of_nat k)) (seq 0 8).

Definition bytes_of_i64 (o : byte_order) (x : Z) : list Z :=
  match o with
  | little_endian => bytes_le x
  | big_endian => rev (bytes_le x)
  end.

Fixpoint le_value (bs : list Z) : Z :=
  match bs with
  | [] => 0
  | b :: bs => b + 256 * le_value bs
  end.

(** The [int64_t] that a machine reads from eight bytes. *)
Definition i64_of_bytes (o : byte_order) (bs : list Z) : Z :=
  to_i64 (le_value (match o with
                    | little_endian => bs
                    | big_endian => rev bs
                    end)).

(** What a machine of byte order [o] reads from the eight bytes that a
    machine of byte order [w] has written for [x]. *)
Definition as_read (o w : byte_order) (x : Z) : Z :=
  match o, w with
  | little_endian, little_endian | big_endian, big_endian => x
  | _, _ => bs64 x
  end.

(** A block of bytes seen through an [int64_t *]: its first [n] cells. *)
Fixpoint i64s_of_bytes (o : byte_order) (n : nat) (bs : list Z) : list Z :=
  match n with
  | O => []
  | S n => i64_of_bytes o (firstn 8 bs) :: i64s_of_bytes o n (skipn 8 bs)
  end.

(** [mem[k]] for a block [mem] of [length mem] cells: [None] when the cell
    is outside the block. *)
Definition cell (mem : list Z) (k : Z) : option Z :=
  if (0 <=? k) && (k <? Z.of_nat (length mem)) then Some (get mem k) else None.

(** [abort ()] after a diagnostic; or the end of the process in [xmalloc];
    or a read of a cell outside the block that [xmalloc (sz)] gave, after
    which the run has no defined outcome; or the values stored through the
    output pointers: [nv], [ne], and [off], [ind], [weight] as indices into
    [mem].

    Modelled from the spec: [xmalloc] is defined in stinger_core; allocation
    at memory exhaustion is fatal (abort). *)
Inductive snarfed : Type :=
| Abort (diagnostic : String.string)
| NoMemory
| ReadsOutside
| Loaded (nv ne : Z) (off ind weight : Z) (mem : list Z).

(** [snarf_graph] on a machine of byte order [o]: [stat], the size test,
    [xmalloc (sz)], which returns or ends the process, [open], [xread] into
    the block, the byte-order test on [*mem], and the header words [mem[1]]
    and [mem[2]]. The block has [sz / sizeof (int64_t)] cells and nothing
    tests that the header is inside it. [sz != xread (...)] compares in
    [size_t]. The result is [None] when [xread] has not returned within the
    fuel. The comparison of [sz] with [3 + (nv + 1) + 2 * ne] words stands
    between [#if 0] and [#endif] in the source: it is not compiled. *)
Definition snarf_graph (o : byte_order) (fuel : nat) (initial_graph : snapshot)
  : option snarfed :=
  match st_size initial_graph with
  | None => Some (Abort "Couldn't stat initial graph"%string)
  | Some sz =>
      if negb (sz mod sizeof_i64 =? 0) then
        Some (Abort "graph file size is not a multiple of sizeof (int64_t)"%string)
      else if negb (has_block initial_graph) then Some NoMemory
      else
        match fd initial_graph with
        | None => Some (Abort "Error opening initial graph"%string)
        | Some f =>
            match xread fuel f sz with
            | None => None
            | Some (n, stored, _) =>
                if negb (sz =? to_u64 n) then
                  Some (Abort "Error reading initial graph"%string)
                else
                  let mem := i64s_of_bytes o (Z.to_nat (sz / sizeof_i64)) stored in
                  match cell mem 0 with
                  | None => Some ReadsOutside
                  | Some first =>
                      let mem := if negb (endian_check =? first)
                                 then bs64_n (sz / sizeof_i64) mem else mem in
                      match cell mem 1, cell mem 2 with
                      | Some nv, Some ne =>
                          Some (Loaded nv ne 3 (add64 (add64 3 nv) 1)
                                       (add64 (add64 (add64 3 nv) 1) ne) mem)
                      | _, _ => Some ReadsOutside
                      end
                  end
            end
        end
  end.

(** The process has been ended: by [abort ()] or in [xmalloc]. *)
Definition aborted (r : option snarfed) : Prop :=
  (exists d, r = Some (Abort d)) \/ r = Some NoMemory.

(** The array after the byte-order test. *)
Definition native_order (sz : Z) (mem : list Z) : list Z :=
  if negb (endian_check =? get mem 0) then bs64_n (sz / sizeof_i64) mem else mem.

(** [abort ()] after a diagnostic, the end of the process in [xmalloc], a
    read outside the block, or the values stored through the output
    pointers: [naction], and [action] as an index into [mem]. *)
Inductive snarfed_actions : Type :=
| ActionsAbort (diagnostic : String.string)
| ActionsNoMemory
| ActionsReadOutside
| ActionsLoaded (naction : Z) (action : Z) (mem : list Z).

(** [snarf_actions], step for step as [snarf_graph]; the header words it
    reads are [*mem] and [mem[1]]. The comparison of [sz] with
    [2 + 2 * naction] words stands between [#if 0] and [#endif] in the
    source: it is not compiled. *)
Definition snarf_actions (o : byte_order) (fuel : nat) (action_stream : snapshot)
  : option snarfed_actions :=
  match st_size action_stream with
  | None => Some (ActionsAbort "Couldn't stat action file"%string)
  | Some sz =>
      if negb (sz mod sizeof_i64 =? 0) then
        Some (ActionsAbort "action file size is not a multiple of sizeof (int64_t)"%string)
      else if negb (has_block action_stream) then Some ActionsNoMemory
      else
        match fd action_stream with
        | None => Some (ActionsAbort "Error opening action file"%string)
        | Some f =>
            match xread fuel f sz with
            | None => None
            | Some (n, stored, _) =>
                if negb (sz =? to_u64 n) then
                  Some (ActionsAbort "Error reading action file"%string)
                else
                  let mem := i64s_of_bytes o (Z.to_nat (sz / sizeof_i64)) stored in
                  match cell mem 0 with
                  | None => Some ActionsReadOutside
                  | Some first =>
                      let mem := if negb (endian_check =? first)
                                 then bs64_n (sz / sizeof_i64) mem else mem in
                      match cell mem 1 with
                      | Some naction => Some (ActionsLoaded naction 2 mem)
                      | None => Some ActionsReadOutside
                      end
                  end
            end
        end
  end.

(** [load_graph_and_action_stream]: [snarf_graph], then [snarf_actions]
    unless the process has aborted. *)
Inductive loaded_streams : Type :=
| LoadAbort (diagnostic : String.string)
| LoadNoMemory
| LoadReadsOutside
| LoadedBoth (nv ne : Z) (off ind weight : Z) (graphmem : list Z)
             (naction : Z) (action : Z) (actionmem : list Z).

Definition load_graph_and_action_stream (o : byte_order) (fuel : nat)
           (initial_graph action_stream : snapshot) : option loaded_streams :=
  match snarf_graph o fuel initial_graph with
  | None => None
  | Some (Abort d) => Some (LoadAbort d)
  | Some NoMemory => Some LoadNoMemory
  | Some ReadsOutside => Some LoadReadsOutside
  | Some (Loaded nv ne off ind weight graphmem) =>
      match snarf_actions o fuel action_stream with
      | None => None
      | Some (ActionsAbort d) => Some (LoadAbort d)
      | Some ActionsNoMemory => Some LoadNoMemory
      | Some ActionsReadOutside => Some LoadReadsOutside
      | Some (ActionsLoaded naction action actionmem) =>
          Some (LoadedBoth nv ne off ind weight graphmem naction action actionmem)
      end
  end.

(** Why a loader can end the process on a file: [stat] or [open] fails, the
    size is not a multiple of eight bytes, [xmalloc] has no block, or a call
    of [read] fails. *)
Definition io_failure (s : snapshot) : Prop :=
  st_size s = None \/
  (exists sz, st_size s = Some sz /\ sz mod sizeof_i64 <> 0) \/
  has_block s = false \/
  fd s = None \/
  (exists f, fd s = Some f /\ In ReadFails (coming f)).

(** A file of [sz] bytes, a multiple of eight, for which there is a block
    and that opens as [f]. *)
Definition opens (s : snapshot) (sz : Z) (f : open_file) : Prop :=
  st_size s = Some sz /\ 0 <= sz < 2^63 /\ sz mod sizeof_i64 = 0 /\
  has_block s = true /\ fd s = Some f.

(** The calls of [read] hand over all of the [sz] bytes. *)
Definition read_in_full (f : open_file) (sz : Z) : Prop :=
  never_fails f /\ sz <= Z.of_nat (length (unread f)).

(** The file ends before [sz] bytes have come, and no call of [read] fails. *)
Definition ends_early (f : open_file) (sz : Z) : Prop :=
  never_fails f /\ Z.of_nat (length (unread f)) < sz.

(** A call of [read] fails before the calls have handed over [sz] bytes; it
    is the call after [n] others. *)
Definition read_fails_before (f : open_file) (sz : Z) (n : nat) : Prop :=
  exists before rest,
    coming f = before ++ ReadFails :: rest /\ ~ In ReadFails before /\
    at_most before < sz /\ length before = n.

(** The cells of the block once [xread] has stored the [sz] bytes. *)
Definition words_read (o : byte_order) (sz : Z) (f : open_file) : list Z :=
  i64s_of_bytes o (Z.to_nat (sz / sizeof_i64)) (firstn (Z.to_nat sz) (unread f)).

(** The file of the 64-bit words [words], written by a machine of byte order
    [w]; [coming] is what the system does at the calls of [read]. *)
Definition file_of (w : byte_order) (words : list Z) (coming : list read_event) : snapshot :=
  {| st_size := Some (sizeof_i64 * Z.of_nat (length words));
     has_block := true;
     fd := Some {| unread := flat_map (bytes_of_i64 w) words; coming := coming |} |}.

(** ** Command line parsing ([parse_args]) *)

(** The variables behind the four output pointers; the caller has put its
    defaults there. *)
Record parsed_args : Type := {
  initial_graph_name : String.string;
  action_stream_name : String.string;
  batch_size : Z;
  nbatch : Z
}.

Inductive FILE : Type := stdout | stderr.

Definition EXIT_SUCCESS : Z := 0.
Definition EXIT_FAILURE : Z := 1.

(** [parse_args] returns, or prints the usage on a stream and calls [exit]. *)
Inductive parse_outcome : Type :=
| Returns (a : parsed_args)
| Exits (usage_on : FILE) (status : Z).

(** [argv[k]]; [argc] is the length of [argv]. *)
Definition arg (argv : list String.string) (k : Z) : String.string :=
  nth (Z.to_nat k) argv EmptyString.

(** [argv[k][0] == '-'] *)
Definition dashed (s : String.string) : bool := String.prefix "-" s.

(** The loop [while (k < argc && argv[k][0] == '-')]. It ends with an
    outcome of the function ([inl]) or leaves the loop with [k] and the
    variables written ([inr]). [batch_size_ptr] and [nbatch_ptr] are the
    addresses passed for [batch_size] and [nbatch]: the tests
    [batch_size <= 0] and [nbatch < 0] are on them. When no branch of the
    body matches, the next iteration starts with the same [k]. *)
Fixpoint parse_args_loop (strtol : String.string -> Z) (fuel : nat)
         (argv : list String.string) (batch_size_ptr nbatch_ptr : Z)
         (k : Z) (seen_batch seen_nbatch : bool) (a : parsed_args)
  : option (parse_outcome + Z * parsed_args) :=
  let argc := Z.of_nat (length argv) in
  match fuel with
  | O => None
  | S fuel =>
      if (k <? argc) && dashed (arg argv k) then
        if String.eqb (arg argv k) "--batch" || String.eqb (arg argv k) "-b" then
          if seen_batch then Some (inl (Exits stderr EXIT_FAILURE))
          else
            let k := k + 1 in
            if k >=? argc then Some (inl (Exits stderr EXIT_FAILURE))
            else
              let a := {| initial_graph_name := initial_graph_name a;
                          action_stream_name := action_stream_name a;
                          batch_size := strtol (arg argv k);
                          nbatch := nbatch a |} in
              if batch_size_ptr <=? 0 then Some (inl (Exits stderr EXIT_FAILURE))
              else parse_args_loop strtol fuel argv batch_size_ptr nbatch_ptr
                                   (k + 1) true seen_nbatch a
        else if String.eqb (arg argv k) "--num-batches" || String.eqb (arg argv k) "-n" then
          if seen_nbatch then Some (inl (Exits stderr EXIT_FAILURE))
          else
            let k := k + 1 in
            if k >=? argc then Some (inl (Exits stderr EXIT_FAILURE))
            else
              let a := {| initial_graph_name := initial_graph_name a;
                          action_stream_name := action_stream_name a;
                          batch_size := batch_size a;
                          nbatch := strtol (arg argv k) |} in
              if nbatch_ptr <? 0 then Some (inl (Exits stderr EXIT_FAILURE))
              else parse_args_loop strtol fuel argv batch_size_ptr nbatch_ptr
                                   (k + 1) seen_batch true a
        else if String.eqb (arg argv k) "--help" || String.eqb (arg argv k) "-h"
                || String.eqb (arg argv k) "-?" then
          Some (inl (Exits stdout EXIT_SUCCESS))
        else if String.eqb (arg argv k) "--" then Some (inr (k + 1, a))
        else parse_args_loop strtol fuel argv batch_size_ptr nbatch_ptr
                             k seen_batch seen_nbatch a
      else Some (inr (k, a))
  end.

(** [parse_args (argc, argv, initial_graph_name, action_stream_name,
    batch_size, nbatch)]; [None] when the loop has not ended within the
    fuel. [strtol (s)] stands for the C library's [strtol (s, NULL, 10)]. *)
Definition parse_args (strtol : String.string -> Z) (fuel : nat)
           (argv : list String.string) (batch_size_ptr nbatch_ptr : Z)
           (a : parsed_args) : option parse_outcome :=
  let argc := Z.of_nat (length argv) in
  let k := 1 in
  if k >=? argc then Some (Returns a)
  else
    match parse_args_loop strtol fuel argv batch_size_ptr nbatch_ptr k false false a with
    | None => None
    | Some (inl r) => Some r
    | Some (inr (k, a)) =>
        let '(k, a) :=
          if k <? argc
          then (k + 1, {| initial_graph_name := arg argv k;
                          action_stream_name := action_stream_name a;
                          batch_size := batch_size a;
                          nbatch := nbatch a |})
          else (k, a) in
        let a :=
          if k <? argc
          then {| initial_graph_name := initial_graph_name a;
                  action_stream_name := arg argv k;
                  batch_size := batch_size a;
                  nbatch := nbatch a |}
          else a in
        Some (Returns a)
    end.

(** An instance of [strtol] in base 10 for inputs made of an optional sign
    and digits: the value of the leading digits. *)
Fixpoint digits_value (s : String.string) (acc : Z) : Z :=
  match s with
  | String c s =>
      let d := Z.of_N (Ascii.N_of_ascii c) - 48 in
      if (0 <=? d) && (d <=? 9) then digits_value s (10 * acc + d) else acc
  | EmptyString => acc
  end.

Definition strtol10 (s : String.string) : Z :=
  if String.prefix "-" s then - digits_value (String.substring 1 (String.length s) s) 0
  else if String.prefix "+" s then digits_value (String.substring 1 (String.length s) s) 0
  else digits_value s 0.

(** The options with an argument, as they stand on a command line. *)
Inductive option_arg : Type :=
| OptBatch (long : bool) (value : String.string)
| OptNumBatches (long : bool) (value : String.string).

Definition option_words (x : option_arg) : list String.string :=
  match x with
  | OptBatch long v => [if long then "--batch"%string else "-b"%string; v]
  | OptNumBatches long v => [if long then "--num-batches"%string else "-n"%string; v]
  end.

Definition is_batch (x : option_arg) : bool :=
  match x with OptBatch _ _ => true | _ => false end.

Definition is_num_batches (x : option_arg) : bool :=
  match x with OptNumBatches _ _ => true | _ => false end.

(** The variables after the options have been stored in turn. *)
Definition store_option (strtol : String.string -> Z) (a : parsed_args) (x : option_arg)
  : parsed_args :=
  match x with
  | OptBatch _ v => {| initial_graph_name := initial_graph_name a;
                       action_stream_name := action_stream_name a;
                       batch_size := strtol v;
                       nbatch := nbatch a |}
  | OptNumBatches _ v => {| initial_graph_name := initial_graph_name a;
                            action_stream_name := action_stream_name a;
                            batch_size := batch_size a;
                            nbatch := strtol v |}
  end.

(** Each option at most once. *)
Definition once_each (opts : list option_arg) : Prop :=
  (length (filter is_batch opts) <= 1)%nat /\
  (length (filter is_num_batches opts) <= 1)%nat.

(** The words that a branch of the loop takes. *)
Definition recognised : list String.string :=
  ["--batch"; "-b"; "--num-batches"; "-n"; "--help"; "-h"; "-?"; "--"]%string.

(** ** The layout of the CSR that [edge_list_to_csr] builds *)

(** The loop indices of the edges that leave [v], in the order in which the
    iterations [sched] of the parallel loop claim their cells. *)
Definition edges_from (sv1 sched : list Z) (v : Z) : list Z :=
  filter (fun i => get sv1 i =? v) sched.

(** The timestamp arrays hold, vertex by vertex, the timestamps of the
    edges; without both inputs they are not written. *)
Definition timestamps_moved (sv1 sched : list Z) (nv : Z)
           (timeRecent timeFirst : option (list Z)) (t2 t1 : list Z) (r : csr_arrays) : Prop :=
  match timeRecent, timeFirst with
  | Some tr, Some tf =>
      forall v, 0 <= v < nv ->
                vertex_slice (c_offset r) (c_t1 r) v = map (get tf) (edges_from sv1 sched v) /\
                vertex_slice (c_offset r) (c_t2 r) v = map (get tr) (edges_from sv1 sched v)
  | _, _ => c_t1 r = t1 /\ c_t2 r = t2
  end.

(** ** From an edge list to the arrays of the initial graph
    ([edge_list_to_stinger]) *)

(** The arrays that [edge_list_to_stinger] hands to
    [stinger_set_initial_edges]; a [NULL] array is [None]. *)
Record initial_edges : Type := {
  ie_off : list Z;
  ie_ind : list Z;
  ie_weight : list Z;
  ie_t2 : option (list Z);
  ie_t1 : option (list Z)
}.

(** [edge_list_to_stinger] up to its call of [stinger_set_initial_edges]:
    one timestamp array stands for both when the other is [NULL], the
    arrays are allocated, [t1] and [t2] only with timestamps, and
    [edge_list_to_csr] fills them. [stinger_new] and
    [stinger_set_initial_edges] belong to stinger_core. *)
Definition edge_list_to_stinger_arrays (sched : list Z) (nv ne : Z) (sv ev w : list Z)
           (timeRecent timeFirst : option (list Z)) : initial_edges :=
  let '(timeRecent, timeFirst) :=
    match timeRecent, timeFirst with
    | None, _ => (timeFirst, timeFirst)
    | Some _, None => (timeRecent, timeRecent)
    | Some _, Some _ => (timeRecent, timeFirst)
    end in
  let ind := xmalloc ne in
  let weight := xmalloc ne in
  let off := xmalloc (nv + 2) in
  let '(t1, t2) :=
    match timeRecent, timeFirst with
    | Some _, Some _ => (Some (xmalloc ne), Some (xmalloc ne))
    | _, _ => (None, None)
    end in
  let r := edge_list_to_csr sched nv ne sv ev w timeRecent timeFirst ind weight off
             (match t2 with Some a => a | None => [] end)
             (match t1 with Some a => a | None => [] end) in
  {| ie_off := c_offset r;
     ie_ind := c_ev2 r;
     ie_weight := c_w2 r;
     ie_t2 := match t2 with Some _ => Some (c_t2 r) | None => None end;
     ie_t1 := match t1 with Some _ => Some (c_t1 r) | None => None end |}.

(** The timestamps handed on: none without an input array; with one input
    array its timestamps as both the first and the recent ones. *)
Definition stamped (sv sched : list Z) (nv : Z) (timeRecent timeFirst : option (list Z))
           (r : initial_edges) : Prop :=
  match (match timeRecent with Some a => Some a | None => timeFirst end),
        (match timeFirst with Some a => Some a | None => timeRecent end) with
  | Some tr, Some tf =>
      exists t1 t2,
        ie_t1 r = Some t1 /\ ie_t2 r = Some t2 /\
        forall v, 0 <= v < nv ->
                  vertex_slice (ie_off r) t1 v = map (get tf) (edges_from sv sched v) /\
                  vertex_slice (ie_off r) t2 v = map (get tr) (edges_from sv sched v)
  | _, _ => ie_t1 r = None /\ ie_t2 r = None
  end.

(** ** Storage order in [stinger_to_unsorted_csr] *)

(** An optional output of the extraction: not allocated when it was not
    asked for; otherwise one cell per edge, the slice of every vertex
    holding the field [f] of its edges in storage order. *)
Definition output_holds (G : stinger) (nv total : Z) (off : list Z) (f : live_edge -> Z)
           (wanted : bool) (m : option (list Z)) : Prop :=
  match m with
  | Some a => wanted = true /\ Z.of_nat (length a) = total /\
              forall v, 0 <= v < nv -> vertex_slice off a v = map f (G v)
  | None => wanted = false
  end.

(** ** A chain that is already in order *)

(** A pool whose chain, the blocks 1 and 2 of type 0, is in order, with two
    edges to the same neighbor. *)
Definition sorted_pool : list stinger_eb :=
  [ null_eb;
    block 2 0 [edge 1 1; edge 3 2];
    block 0 0 [edge 3 3; edge 8 4] ].

(** * Properties *)

(** ** Machine integers *)

Lemma to_i64_id (x : Z) : in_i64 x -> to_i64 x = x.
Proof.
  unfold in_i64, to_i64. intros H. rewrite Z.mod_small; lia.
Qed.

Lemma to_i64_range (x : Z) : in_i64 (to_i64 x).
Proof.
  unfold in_i64, to_i64.
  pose proof (Z.mod_pos_bound (x + 2^63) (2^64) ltac:(lia)). lia.
Qed.

Lemma to_i32_id (x : Z) : - 2^31 <= x < 2^31 -> to_i32 x = x.
Proof.
  unfold to_i32. intros H. rewrite Z.mod_small; lia.
Qed.

Lemma to_u64_range (x : Z) : 0 <= to_u64 x < 2^64.
Proof. apply Z.mod_pos_bound. lia. Qed.

Lemma to_u64_to_i64 (r : Z) : to_u64 (to_i64 r) = to_u64 r.
Proof.
  unfold to_u64, to_i64.
  rewrite Zminus_mod_idemp_l. f_equal. lia.
Qed.

Lemma to_i64_to_u64 (x : Z) : to_i64 (to_u64 x) = to_i64 x.
Proof.
  unfold to_u64, to_i64. now rewrite Zplus_mod_idemp_l.
Qed.

Lemma to_u64_id (r : Z) : 0 <= r < 2^64 -> to_u64 r = r.
Proof. intros H. apply Z.mod_small. exact H. Qed.

Lemma add64_id (a b : Z) : in_i64 (a + b) -> add64 a b = a + b.
Proof. apply to_i64_id. Qed.

Lemma sub64_id (a b : Z) : in_i64 (a - b) -> sub64 a b = a - b.
Proof. apply to_i64_id. Qed.

Lemma neg64_id (a : Z) : in_i64 (- a) -> neg64 a = - a.
Proof. apply to_i64_id. Qed.

(** ** Arrays *)

Lemma set_nat_length (a : list Z) (n : nat) (v : Z) :
  length (set_nat a n v) = length a.
Proof.
  revert n. induction a as [|x t IH]; intros [|n]; simpl; auto.
Qed.

Lemma set_length (a : list Z) (i v : Z) : length (set a i v) = length a.
Proof.
  unfold set. destruct (i <? 0); [reflexivity | apply set_nat_length].
Qed.

Lemma nth_set_nat_same (a : list Z) (n : nat) (v : Z) :
  (n < length a)%nat -> nth n (set_nat a n v) 0 = v.
Proof.
  revert n. induction a as [|x t IH]; intros [|n] H; simpl in *; try lia; auto.
  apply IH. lia.
Qed.

Lemma nth_set_nat_other (a : list Z) (n m : nat) (v : Z) :
  n <> m -> nth m (set_nat a n v) 0 = nth m a 0.
Proof.
  revert n m. induction a as [|x t IH]; intros [|n] [|m] H; simpl; auto; try congruence.
Qed.

Lemma get_set_same (a : list Z) (i v : Z) :
  0 <= i < Z.of_nat (length a) -> get (set a i v) i = v.
Proof.
  intros H. unfold get, set.
  destruct (Z.ltb_spec i 0); [lia|]. apply nth_set_nat_same. lia.
Qed.

Lemma get_set_other (a : list Z) (i j v : Z) :
  i <> j -> get (set a i v) j = get a j.
Proof.
  intros H. unfold get, set.
  destruct (Z.ltb_spec j 0); [reflexivity|].
  destruct (Z.ltb_spec i 0); [reflexivity|].
  apply nth_set_nat_other. lia.
Qed.

Lemma get_set (a : list Z) (i j v : Z) :
  0 <= i < Z.of_nat (length a) ->
  get (set a i v) j = if j =? i then v else get a j.
Proof.
  intros H. destruct (Z.eqb_spec j i) as [->|Hn].
  - now apply get_set_same.
  - apply get_set_other. congruence.
Qed.

Lemma get_outside (a : list Z) (i : Z) :
  Z.of_nat (length a) <= i -> get a i = 0.
Proof.
  intros H. unfold get. destruct (Z.ltb_spec i 0); [reflexivity|].
  apply nth_overflow. lia.
Qed.

Lemma get_cons_succ (x : Z) (a : list Z) (i : Z) :
  0 <= i -> get (x :: a) (i + 1) = get a i.
Proof.
  intros H. unfold get.
  destruct (Z.ltb_spec (i + 1) 0); [lia|].
  destruct (Z.ltb_spec i 0); [lia|].
  replace (Z.to_nat (i + 1)) with (S (Z.to_nat i)) by lia. reflexivity.
Qed.

(** Two arrays of the same length with the same cells are equal. *)
Lemma get_ext (a b : list Z) :
  length a = length b ->
  (forall i, 0 <= i < Z.of_nat (length a) -> get a i = get b i) ->
  a = b.
Proof.
  intros Hl H. apply nth_ext with (d := 0) (d' := 0); [exact Hl|].
  intros n Hn. specialize (H (Z.of_nat n) ltac:(lia)).
  unfold get in H. destruct (Z.ltb_spec (Z.of_nat n) 0); [lia|].
  now rewrite Nat2Z.id in H.
Qed.

(** ** Loops *)

Lemma loop_count_unit (lo hi : Z) : loop_count lo hi 1 = Z.to_nat (hi - lo).
Proof.
  unfold loop_count. f_equal. rewrite Z.div_1_r. lia.
Qed.

Lemma for_loop_nil {S : Type} (lo hi step : Z) (body : Z -> S -> S) (s : S) :
  0 < step -> hi <= lo -> for_loop lo hi step body s = s.
Proof.
  intros Hs H. unfold for_loop, loop_indices, loop_count.
  replace (Z.to_nat ((hi - lo + step - 1) / step)) with O; [reflexivity|].
  assert ((hi - lo + step - 1) / step <= 0); [|lia].
  assert ((hi - lo + step - 1) / step < 1); [|lia].
  apply Z.div_lt_upper_bound; lia.
Qed.

(** The loop seen as [n] iterations carrying an invariant. *)
Lemma fold_indices_ind {S : Type} (P : nat -> S -> Prop)
      (f : nat -> Z) (body : Z -> S -> S) (n : nat) (s : S) :
  P O s ->
  (forall k st, (k < n)%nat -> P k st -> P (Datatypes.S k) (body (f k) st)) ->
  P n (fold_left (fun st i => body i st) (map f (seq 0 n)) s).
Proof.
  intros H0 Hstep. induction n as [|n IH].
  - exact H0.
  - rewrite seq_S, map_app, fold_left_app. simpl.
    apply Hstep; [lia|]. apply IH. intros k st Hk. apply Hstep. lia.
Qed.

Lemma for_loop_ind {S : Type} (P : nat -> S -> Prop)
      (lo hi step : Z) (body : Z -> S -> S) (s : S) :
  P O s ->
  (forall k st, (k < loop_count lo hi step)%nat -> P k st ->
                P (Datatypes.S k) (body (lo + step * Z.of_nat k) st)) ->
  P (loop_count lo hi step) (for_loop lo hi step body s).
Proof.
  intros H0 Hstep. unfold for_loop, loop_indices.
  apply (fold_indices_ind P (fun k => lo + step * Z.of_nat k)); assumption.
Qed.

(** Unit-step loops: the invariant indexed by the loop variable itself. *)
Lemma for_loop_ind1 {S : Type} (P : Z -> S -> Prop)
      (lo hi : Z) (body : Z -> S -> S) (s : S) :
  lo <= hi ->
  P lo s ->
  (forall i st, lo <= i < hi -> P i st -> P (i + 1) (body i st)) ->
  P hi (for_loop lo hi 1 body s).
Proof.
  intros Hle H0 Hstep.
  pose proof (for_loop_ind (fun k st => P (lo + Z.of_nat k) st) lo hi 1 body s) as H.
  rewrite loop_count_unit in H. cbv beta in H.
  replace (lo + Z.of_nat (Z.to_nat (hi - lo))) with hi in H by lia.
  apply H.
  - now replace (lo + Z.of_nat 0) with lo by lia.
  - intros k st Hk HP.
    replace (lo + Z.of_nat (Datatypes.S k)) with (lo + Z.of_nat k + 1) by lia.
    replace (lo + 1 * Z.of_nat k) with (lo + Z.of_nat k) by lia.
    apply Hstep; [lia | exact HP].
Qed.

(** A loop that writes [f j] to cell [o + j] for every [j] below [d]. *)
Lemma fill_cells (body : Z -> list Z -> list Z) (o d : Z) (f : Z -> Z) (a : list Z) :
  (forall j b, 0 <= j < d -> body j b = set b (o + j) (f j)) ->
  0 <= o -> 0 <= d -> o + d <= Z.of_nat (length a) ->
  let a' := for_loop 0 d 1 body a in
  length a' = length a /\
  (forall j, 0 <= j < d -> get a' (o + j) = f j) /\
  (forall k, ~ (o <= k < o + d) -> get a' k = get a k).
Proof.
  intros Hb Ho Hd Hlen.
  apply (for_loop_ind1
           (fun i b => length b = length a /\
                       (forall j, 0 <= j < i -> get b (o + j) = f j) /\
                       (forall k, ~ (o <= k < o + i) -> get b k = get a k))).
  - exact Hd.
  - split; [reflexivity|]. split; intros; [lia | reflexivity].
  - intros i st Hi (Hl & Hin & Hout). rewrite Hb by lia. split; [|split].
    + now rewrite set_length.
    + intros j Hj. rewrite get_set by lia.
      destruct (Z.eqb_spec (o + j) (o + i)) as [E|E].
      * f_equal. lia.
      * apply Hin. lia.
    + intros k Hk. rewrite get_set_other by lia. apply Hout. lia.
Qed.

(** A byte count that fits [size_t] gives the cells asked for. *)
Lemma size_t_cells_small (n : Z) : 0 <= n < 2^61 -> size_t_cells n = n.
Proof.
  intros H. unfold size_t_cells, sizeof_i64.
  rewrite to_u64_id by lia. apply Z.div_mul. lia.
Qed.


(** ** Byte swapping *)

Lemma u64_high_bits (u m : Z) :
  0 <= u < 2^64 -> 64 <= m -> Z.testbit u m = false.
Proof.
  intros Hu Hm. destruct (Z.eq_dec u 0) as [->|Hz]; [apply Z.bits_0|].
  apply Z.bits_above_log2; [lia|].
  apply Z.lt_le_trans with 64; [|lia].
  apply Z.log2_lt_pow2; lia.
Qed.

(** One rewriting step towards the normal form of a bit of a word built from
    shifts, masks and disjunctions, at a closed bit position. *)
Ltac bit_step :=
  match goal with
  | Hu : 0 <= ?u < 2^64 |- context [Z.testbit ?u ?m] =>
      rewrite (u64_high_bits u m Hu) by (vm_compute; congruence)
  | |- context [Z.testbit (Z.lor _ _) _] => rewrite Z.lor_spec
  | |- context [Z.testbit (Z.land _ _) _] => rewrite Z.land_spec
  | |- context [Z.testbit (Z.shiftr ?a ?n) ?m] =>
      rewrite (Z.shiftr_spec a n m) by (vm_compute; congruence)
  | |- context [Z.testbit (Z.shiftl ?a ?n) ?m] =>
      first [ rewrite (Z.shiftl_spec_low a n m) by (vm_compute; reflexivity)
            | rewrite (Z.shiftl_spec_high a n m) by (vm_compute; congruence) ]
  | |- context [Z.testbit (Zpos ?p) ?m] =>
      let v := eval vm_compute in (Z.testbit (Zpos p) m) in
      change (Z.testbit (Zpos p) m) with v
  | |- context [Z.testbit (2^64 - 1) ?m] =>
      let v := eval vm_compute in (Z.testbit (2^64 - 1) m) in
      change (Z.testbit (2^64 - 1) m) with v
  | |- context [andb _ true] => rewrite Bool.andb_true_r
  | |- context [andb _ false] => rewrite Bool.andb_false_r
  | |- context [orb _ false] => rewrite Bool.orb_false_r
  | |- context [orb false _] => rewrite Bool.orb_false_l
  end.

Lemma bs64u_bit (u : Z) (n : nat) :
  0 <= u < 2^64 -> (n < 64)%nat ->
  Z.testbit (bs64u u) (Z.of_nat n) = Z.testbit u (bitperm (Z.of_nat n)).
Proof.
  intros Hu Hn. unfold bs64u, shl_u64.
  do 64 (destruct n as [|n];
         [ repeat bit_step; cbn [andb orb]; rewrite ?Bool.orb_false_r;
           apply f_equal; vm_compute; reflexivity | ]).
  lia.
Qed.

Lemma bitperm_range (i : Z) : 0 <= i < 64 -> 0 <= bitperm i < 64.
Proof.
  intros Hi. unfold bitperm.
  assert (H8 : 0 <= i mod 8 < 8) by (apply Z.mod_pos_bound; lia).
  assert (Hd : 0 <= i / 8 < 8)
    by (split; [apply Z.div_pos; lia | apply Z.div_lt_upper_bound; lia]).
  lia.
Qed.

Lemma bitperm_invol (i : Z) : 0 <= i < 64 -> bitperm (bitperm i) = i.
Proof.
  intros Hi. unfold bitperm.
  assert (H8 : 0 <= i mod 8 < 8) by (apply Z.mod_pos_bound; lia).
  assert (Hd : 0 <= i / 8 < 8)
    by (split; [apply Z.div_pos; lia | apply Z.div_lt_upper_bound; lia]).
  pose proof (Z.div_mod i 8 ltac:(lia)) as Hdm.
  replace (8 * (7 - i / 8) + i mod 8) with (i mod 8 + (7 - i / 8) * 8) by lia.
  rewrite Z.div_add, Z.mod_add by lia.
  rewrite (Z.div_small (i mod 8)), (Z.mod_small (i mod 8)) by lia. lia.
Qed.

(** Bit [8k + j] of a byte-swapped word is bit [8(7-k) + j] of the word. *)
Lemma bitperm_byte (k j : Z) :
  0 <= k < 8 -> 0 <= j < 8 -> bitperm (j + 8 * k) = j + 8 * (7 - k).
Proof.
  intros Hk Hj. unfold bitperm.
  replace (j + 8 * k) with (j + k * 8) by lia.
  rewrite Z.div_add, Z.mod_add by lia.
  rewrite (Z.div_small j), (Z.mod_small j) by lia. lia.
Qed.

Lemma bs64u_bits (u i : Z) :
  0 <= u < 2^64 -> 0 <= i < 64 ->
  Z.testbit (bs64u u) i = Z.testbit u (bitperm i).
Proof.
  intros Hu Hi. rewrite <- (Z2Nat.id i) by lia. apply bs64u_bit; [exact Hu | lia].
Qed.

Lemma u64_of_bits (r : Z) :
  0 <= r -> (forall m, 64 <= m -> Z.testbit r m = false) -> 0 <= r < 2^64.
Proof.
  intros H0 Hhi. split; [exact H0|].
  assert (E : r mod 2^64 = r).
  { apply Z.bits_inj'. intros n Hn. destruct (Z_lt_dec n 64).
    - apply Z.mod_pow2_bits_low; lia.
    - rewrite Z.mod_pow2_bits_high by lia. symmetry. apply Hhi. lia. }
  rewrite <- E. apply Z.mod_pos_bound. lia.
Qed.

Lemma bs64u_range (u : Z) : 0 <= u -> 0 <= bs64u u < 2^64.
Proof.
  intros Hu. apply u64_of_bits.
  - unfold bs64u, shl_u64.
    repeat first [ apply Z.lor_nonneg; split | apply Z.shiftr_nonneg
                 | apply Z.land_nonneg; right; lia ].
  - intros m Hm. unfold bs64u, shl_u64.
    rewrite Z.lor_spec, Z.shiftr_spec, !Z.land_spec by lia.
    rewrite (u64_high_bits 0xFF00FF00FF00FF00) by lia.
    rewrite (u64_high_bits (2^64 - 1)) by lia.
    now rewrite !Bool.andb_false_r.
Qed.

Lemma bs64_unfold (x : Z) : bs64 x = to_i64 (bs64u (to_u64 x)).
Proof. reflexivity. Qed.

Lemma to_u64_bs64 (x : Z) : to_u64 (bs64 x) = bs64u (to_u64 x).
Proof.
  rewrite bs64_unfold, to_u64_to_i64. apply to_u64_id, bs64u_range, to_u64_range.
Qed.

Lemma bs64u_invol (u : Z) : 0 <= u < 2^64 -> bs64u (bs64u u) = u.
Proof.
  intros Hu. pose proof (bs64u_range u ltac:(lia)) as Hr.
  apply Z.bits_inj'. intros i Hi. destruct (Z_lt_dec i 64) as [Hlt|Hge].
  - rewrite bs64u_bits by lia.
    rewrite bs64u_bits by (try apply bitperm_range; lia).
    now rewrite bitperm_invol by lia.
  - rewrite (u64_high_bits u) by lia.
    apply u64_high_bits; [apply bs64u_range|]; lia.
Qed.

Lemma bs64_invol (x : Z) : in_i64 x -> bs64 (bs64 x) = x.
Proof.
  intros Hx. rewrite (bs64_unfold (bs64 x)), to_u64_bs64.
  rewrite bs64u_invol by apply to_u64_range.
  rewrite to_i64_to_u64. now apply to_i64_id.
Qed.

Lemma bs64_range (x : Z) : in_i64 (bs64 x).
Proof. rewrite bs64_unfold. apply to_i64_range. Qed.

Lemma bs64_byte (x k : Z) :
  0 <= k < 8 -> byte_of (bs64 x) k = byte_of x (7 - k).
Proof.
  intros Hk. unfold byte_of. rewrite to_u64_bs64.
  pose proof (to_u64_range x) as Hu.
  apply Z.bits_inj'. intros j Hj.
  rewrite !Z.land_spec, !Z.shiftr_spec by lia.
  change 0xFF with (Z.ones 8). rewrite Z.testbit_ones_nonneg by lia.
  destruct (Z.ltb_spec j 8) as [Hlt|Hge]; [|now rewrite !Bool.andb_false_r].
  rewrite !Bool.andb_true_r.
  rewrite bs64u_bits by lia. now rewrite bitperm_byte by lia.
Qed.

(** [bs64_n] swaps every one of the first [n] cells. *)
Lemma bs64_n_spec (d : list Z) (n : Z) :
  0 <= n <= Z.of_nat (length d) ->
  length (bs64_n n d) = length d /\
  forall j, get (bs64_n n d) j = if (0 <=? j) && (j <? n) then bs64 (get d j) else get d j.
Proof.
  intros Hn. unfold bs64_n.
  apply (for_loop_ind1
           (fun i st => length st = length d /\
                        forall j, get st j =
                                  if (0 <=? j) && (j <? i) then bs64 (get d j) else get d j)).
  - lia.
  - split; [reflexivity|]. intros j.
    destruct (Z.leb_spec 0 j), (Z.ltb_spec j 0); simpl; try reflexivity; lia.
  - intros i st Hi [Hlen Hget]. split; [now rewrite set_length|].
    intros j. rewrite get_set by lia.
    destruct (Z.eqb_spec j i) as [->|Hne].
    + rewrite Hget.
      destruct (Z.leb_spec 0 i), (Z.ltb_spec i i), (Z.ltb_spec i (i + 1)); simpl;
        try reflexivity; lia.
    + rewrite Hget.
      destruct (Z.leb_spec 0 j), (Z.ltb_spec j i), (Z.ltb_spec j (i + 1)); simpl;
        try reflexivity; lia.
Qed.

Lemma Forall_get (P : Z -> Prop) (d : list Z) (j : Z) :
  Forall P d -> 0 <= j < Z.of_nat (length d) -> P (get d j).
Proof.
  intros HF Hj. unfold get. destruct (Z.ltb_spec j 0); [lia|].
  rewrite Forall_forall in HF. apply HF, nth_In. lia.
Qed.

Lemma bs64_n_invol (d : list Z) :
  Forall in_i64 d ->
  bs64_n (Z.of_nat (length d)) (bs64_n (Z.of_nat (length d)) d) = d.
Proof.
  intros HF. set (n := Z.of_nat (length d)).
  destruct (bs64_n_spec d n ltac:(lia)) as [L1 G1].
  destruct (bs64_n_spec (bs64_n n d) n ltac:(lia)) as [L2 G2].
  apply get_ext; [congruence|].
  intros i Hi. rewrite G2, G1.
  assert (Hr : (0 <=? i) && (i <? n) = true).
  { apply andb_true_intro. split; [apply Z.leb_le | apply Z.ltb_lt]; lia. }
  rewrite Hr. apply bs64_invol, Forall_get; [exact HF | lia].
Qed.

(** C10. For every [int64_t] value [x], [bs64] reverses the order of the
    eight bytes of [x] (byte [k] of the result is byte [7 - k] of [x]) and is
    an involution; hence [bs64_n] applied twice to an array of [int64_t]
    restores the array. *)
Theorem bs64_reverses_bytes_and_is_involutive (x : Z) (d : list Z) :
  in_i64 x -> Forall in_i64 d ->
  (forall k, 0 <= k < 8 -> byte_of (bs64 x) k = byte_of x (7 - k)) /\
  in_i64 (bs64 x) /\
  bs64 (bs64 x) = x /\
  bs64_n (Z.of_nat (length d)) (bs64_n (Z.of_nat (length d)) d) = d.
Proof.
  intros Hx Hd. split; [|split; [|split]].
  - intros k Hk. now apply bs64_byte.
  - apply bs64_range.
  - now apply bs64_invol.
  - now apply bs64_n_invol.
Qed.

Lemma bs64_reverses_bytes_and_is_involutive_witness :
  (forall k, 0 <= k < 8 ->
             byte_of (bs64 0x0102030405060708) k = byte_of 0x0102030405060708 (7 - k)) /\
  in_i64 (bs64 0x0102030405060708) /\
  bs64 (bs64 0x0102030405060708) = 0x0102030405060708 /\
  bs64_n (Z.of_nat (length [0x1234ABCD; -2; 7]))
         (bs64_n (Z.of_nat (length [0x1234ABCD; -2; 7])) [0x1234ABCD; -2; 7])
  = [0x1234ABCD; -2; 7].
Proof.
  apply (bs64_reverses_bytes_and_is_involutive 0x0102030405060708 [0x1234ABCD; -2; 7]).
  - unfold in_i64. lia.
  - repeat constructor; unfold in_i64; lia.
Defined.

Example bs64_example : bs64 0x0102030405060708 = 0x0807060504030201.
Proof. reflexivity. Qed.

Example bs64_marker : bs64 0x1234ABCD = to_i64 0xCDAB341200000000.
Proof. reflexivity. Qed.


(** ** Comparators *)

Lemma to_i32_sub64_small (a b : Z) :
  - 2^31 <= a - b < 2^31 -> to_i32 (sub64 a b) = a - b.
Proof.
  intros H. rewrite sub64_id by (unfold in_i64; lia). now apply to_i32_id.
Qed.

(** Within [2^31] of each other, the three subtracting comparators order
    their arguments as the integers are ordered. *)
Lemma subtracting_comparators_small (a b : Z) (wa wb : Z) :
  - 2^31 <= a - b < 2^31 ->
  i64_cmp a b = a - b /\ csr_cmp a b = a - b /\
  i64cmp_adj_sort {| vtx := a; wgt := wa |} {| vtx := b; wgt := wb |} = a - b.
Proof.
  intros H. unfold i64_cmp, csr_cmp, i64cmp_adj_sort. simpl.
  now rewrite to_i32_sub64_small.
Qed.

(** C9 (the code departs from it). The three comparators return the
    difference of two [int64_t] converted to [int]: on [2^32] and [0] they
    answer [0] although the first is greater, on [2^31] and [0] a negative
    number although the first is greater, and on [-1] and [2^31] a positive
    number although the first is smaller. *)
Theorem subtracting_comparators_lose_the_order :
  (i64_cmp 4294967296 0 = 0 /\
   csr_cmp 4294967296 0 = 0 /\
   i64cmp_adj_sort {| vtx := 4294967296; wgt := 0 |} {| vtx := 0; wgt := 0 |} = 0) /\
  (i64_cmp 2147483648 0 < 0 /\
   csr_cmp 2147483648 0 < 0 /\
   i64cmp_adj_sort {| vtx := 2147483648; wgt := 0 |} {| vtx := 0; wgt := 0 |} < 0) /\
  (0 < i64_cmp (-1) 2147483648 /\
   0 < csr_cmp (-1) 2147483648 /\
   0 < i64cmp_adj_sort {| vtx := -1; wgt := 0 |} {| vtx := 2147483648; wgt := 0 |}).
Proof.
  repeat split; vm_compute; reflexivity.
Qed.

(** [i64_pair_cmp] compares instead of subtracting: its sign is the
    lexicographic order of the pairs. *)
Lemma i64_pair_cmp_le (p q : Z * Z) :
  i64_pair_cmp p q <= 0 <->
  fst p < fst q \/ (fst p = fst q /\ snd p <= snd q).
Proof.
  unfold i64_pair_cmp.
  destruct (Z.ltb_spec (fst p) (fst q)); [lia|].
  destruct (Z.gtb_spec (fst p) (fst q)); [lia|].
  destruct (Z.ltb_spec (snd p) (snd q)); [lia|].
  destruct (Z.gtb_spec (snd p) (snd q)); lia.
Qed.

(** ** Prefix sum *)

Lemma nth_map_seq {A : Type} (f : nat -> A) (d : A) (lo n k : nat) :
  (k < n)%nat -> nth k (map f (seq lo n)) d = f (lo + k)%nat.
Proof.
  intros Hk. rewrite (nth_indep _ d (f O)) by (now rewrite length_map, length_seq).
  rewrite (map_nth f (seq lo n) O k). now rewrite seq_nth.
Qed.

Lemma get_of_nat (a : list Z) (k : nat) : get a (Z.of_nat k) = nth k a 0.
Proof.
  unfold get. destruct (Z.ltb_spec (Z.of_nat k) 0); [lia|]. now rewrite Nat2Z.id.
Qed.

Lemma to_i64_add_r (a b : Z) : to_i64 (a + to_i64 b) = to_i64 (a + b).
Proof.
  unfold to_i64.
  replace (a + ((b + 2^63) mod 2^64 - 2^63) + 2^63) with (a + (b + 2^63) mod 2^64) by lia.
  rewrite Zplus_mod_idemp_r. f_equal. f_equal. lia.
Qed.

Lemma sum_list_app (l1 l2 : list Z) : sum_list (l1 ++ l2) = sum_list l1 + sum_list l2.
Proof. induction l1 as [|x t IH]; simpl; lia. Qed.

Lemma firstn_succ_nth (l : list Z) (k : nat) :
  (k < length l)%nat -> firstn (S k) l = firstn k l ++ [nth k l 0].
Proof.
  revert k. induction l as [|x t IH]; intros k Hk; simpl in *; [lia|].
  destruct k as [|k]; [reflexivity|]. simpl. f_equal. apply IH. lia.
Qed.

Lemma prefix_total_succ (ary : list Z) (k : nat) :
  (k < length ary)%nat ->
  prefix_total ary (S k) = add64 (get ary (Z.of_nat k)) (prefix_total ary k).
Proof.
  intros Hk. unfold prefix_total, add64. rewrite to_i64_add_r.
  rewrite firstn_succ_nth, sum_list_app by exact Hk. simpl.
  rewrite get_of_nat. f_equal. lia.
Qed.

(** The scanning loop [for (k = 1; k < n; ++k) ary[k] += ary[k-1];] leaves in
    every cell the sum of the cells up to it. *)
Lemma scan_loop_spec (ary : list Z) :
  ary <> [] -> Forall in_i64 ary ->
  let n := Z.of_nat (length ary) in
  let st := for_loop 1 n 1
              (fun k ary0 => set ary0 k (add64 (get ary0 k) (get ary0 (k - 1)))) ary in
  length st = length ary /\
  forall j, 0 <= j < n -> get st j = prefix_total ary (S (Z.to_nat j)).
Proof.
  intros Hne HF n.
  assert (Hn : 1 <= n) by (destruct ary; [congruence | simpl in n; lia]).
  cbv zeta.
  pose proof (for_loop_ind1
    (fun i st => length st = length ary /\
       forall j, 0 <= j < n ->
         get st j = if j <? i then prefix_total ary (S (Z.to_nat j)) else get ary j)
    1 n (fun k ary0 => set ary0 k (add64 (get ary0 k) (get ary0 (k - 1)))) ary Hn) as H.
  destruct H as [Hl Hg].
  - split; [reflexivity|]. intros j Hj.
    destruct (Z.ltb_spec j 1); [|reflexivity].
    replace j with 0 by lia. simpl. unfold prefix_total.
    destruct ary as [|x t]; [congruence|]. simpl.
    rewrite Z.add_0_r. symmetry. apply to_i64_id. now inversion HF.
  - intros i st Hi [Hl Hg]. split; [now rewrite set_length|].
    intros j Hj. rewrite get_set by lia.
    destruct (Z.eqb_spec j i) as [->|Hne'].
    + destruct (Z.ltb_spec i (i + 1)); [|lia].
      rewrite (Hg i), (Hg (i - 1)) by lia.
      destruct (Z.ltb_spec i i); [lia|].
      destruct (Z.ltb_spec (i - 1) i); [|lia].
      replace (S (Z.to_nat (i - 1))) with (Z.to_nat i) by lia.
      rewrite (prefix_total_succ ary (Z.to_nat i)) by lia.
      now rewrite Z2Nat.id by lia.
    + rewrite Hg by lia.
      destruct (Z.ltb_spec j i), (Z.ltb_spec j (i + 1)); try reflexivity; lia.
  - split; [exact Hl|]. intros j Hj. rewrite Hg by lia.
    destruct (Z.ltb_spec j n); [reflexivity | lia].
Qed.

Lemma inclusive_prefix_sums_cells (ary st : list Z) :
  length st = length ary ->
  (forall j, 0 <= j < Z.of_nat (length ary) -> get st j = prefix_total ary (S (Z.to_nat j))) ->
  st = inclusive_prefix_sums ary.
Proof.
  intros Hl Hg. apply nth_ext with (d := 0) (d' := 0).
  - unfold inclusive_prefix_sums. now rewrite length_map, length_seq.
  - intros k Hk. rewrite Hl in Hk.
    specialize (Hg (Z.of_nat k) ltac:(lia)). rewrite get_of_nat, Nat2Z.id in Hg.
    rewrite Hg. unfold inclusive_prefix_sums.
    now rewrite nth_map_seq by exact Hk.
Qed.

Lemma scan_pair (ary : list Z) :
  ary <> [] -> Forall in_i64 ary ->
  prefix_sum (Z.of_nat (length ary)) ary =
  (inclusive_prefix_sums ary, prefix_total ary (length ary)).
Proof.
  intros Hne HF. destruct (scan_loop_spec ary Hne HF) as [Hl Hg]. cbv zeta in Hl, Hg.
  assert (Hn : 1 <= Z.of_nat (length ary)) by (destruct ary; [congruence | simpl; lia]).
  unfold prefix_sum. f_equal.
  - now apply inclusive_prefix_sums_cells.
  - rewrite Hg by lia. f_equal. lia.
Qed.

(** The build without OpenMP computes the inclusive prefix sums in place and
    returns the last of them. *)
Theorem prefix_sum_serial_correct (ary : list Z) :
  ary <> [] -> Forall in_i64 ary ->
  prefix_sum (Z.of_nat (length ary)) ary =
  (inclusive_prefix_sums ary, prefix_total ary (length ary)).
Proof. exact (scan_pair ary). Qed.

(** C3 (the code departs from it). In the OpenMP build, a team of eight
    threads on the four-element array of the claim: every thread whose slice
    is empty still adds the sum of the slices before it to the first cell of
    the next slice, which that slice's own thread adds again. *)
Theorem prefix_sum_omp_more_threads_than_cells :
  prefix_sum_omp 8 4 [4; 1; 2; 5] = ([4; 9; 12; 19], 19) /\
  inclusive_prefix_sums [4; 1; 2; 5] = [4; 5; 7; 12] /\
  prefix_sum 4 [4; 1; 2; 5] = ([4; 5; 7; 12], 12) /\
  prefix_sum_omp 4 4 [4; 1; 2; 5] = ([4; 5; 7; 12], 12) /\
  prefix_sum_omp 4 2 [1; 1] = ([1; 3], 3).
Proof.
  repeat split; vm_compute; reflexivity.
Qed.

Example prefix_sum_single : prefix_sum 1 [7] = ([7], 7).
Proof. reflexivity. Qed.


(** ** Prefix sum, the OpenMP version with a cell for every thread *)

Lemma to_i64_add_l (a b : Z) : to_i64 (to_i64 a + b) = to_i64 (a + b).
Proof. rewrite Z.add_comm, to_i64_add_r. f_equal. lia. Qed.

Lemma to_i64_eq_add (a a' c : Z) : to_i64 a = to_i64 a' -> to_i64 (a + c) = to_i64 (a' + c).
Proof. intros H. rewrite <- to_i64_add_l, H. apply to_i64_add_l. Qed.

Lemma sum_firstn_succ (ary : list Z) (k : nat) :
  (k < length ary)%nat ->
  sum_list (firstn (S k) ary) = sum_list (firstn k ary) + get ary (Z.of_nat k).
Proof.
  intros Hk. rewrite firstn_succ_nth, sum_list_app by exact Hk. cbn [sum_list].
  rewrite get_of_nat. lia.
Qed.

Section PrefixSumOmp.
Variable nt : Z.
Variable ary : list Z.
Hypothesis Hnt : 1 <= nt <= Z.of_nat (length ary).

Let n := Z.of_nat (length ary).
Let B (t : Z) := slice_begin nt n t.
Let P (k : Z) := sum_list (firstn (Z.to_nat k) ary).

Lemma slice_begin_zero : B 0 = 0.
Proof. unfold B, slice_begin. reflexivity. Qed.

Lemma slice_begin_all : B nt = n.
Proof. unfold B, slice_begin. rewrite Z.mul_comm. apply Z.div_mul. lia. Qed.

Lemma slice_begin_nonneg (t : Z) : 0 <= t -> 0 <= B t.
Proof. intros H. unfold B, slice_begin. apply Z.div_pos; [unfold n; nia | lia]. Qed.

(** Every thread has a cell. *)
Lemma slice_begin_succ (t : Z) : 0 <= t -> B t + 1 <= B (t + 1).
Proof.
  intros H. unfold B, slice_begin.
  rewrite <- (Z.div_add (t * n) 1 nt) by lia.
  apply Z.div_le_mono; [lia|]. unfold n in *. nia.
Qed.

Lemma slice_begin_le (t : Z) : 0 <= t <= nt -> B t <= n.
Proof.
  intros H. rewrite <- slice_begin_all. unfold B, slice_begin.
  apply Z.div_le_mono; [lia|]. unfold n. nia.
Qed.

Lemma slice_end_begin (t : Z) : slice_end nt n t = B (t + 1).
Proof. reflexivity. Qed.

Lemma P_succ (k : Z) : 0 <= k < n -> P (k + 1) = P k + get ary k.
Proof.
  intros Hk. unfold P. replace (Z.to_nat (k + 1)) with (S (Z.to_nat k)) by lia.
  rewrite sum_firstn_succ by (unfold n in Hk; lia). now rewrite Z2Nat.id by lia.
Qed.

(** The sum of a slice, as the first phase leaves it in [buf]. *)
Lemma slice_sum_spec (t : Z) :
  0 <= t < nt ->
  for_loop (B t) (B (t + 1)) 1 (fun k tmp => add64 tmp (get ary k)) 0
  = to_i64 (P (B (t + 1)) - P (B t)).
Proof.
  intros Ht.
  pose proof (slice_begin_succ t ltac:(lia)) as H1.
  pose proof (slice_begin_nonneg t ltac:(lia)) as H0.
  pose proof (slice_begin_le (t + 1) ltac:(lia)) as H2.
  apply (for_loop_ind1 (fun i tmp => tmp = to_i64 (P i - P (B t)))); [lia | |].
  - replace (P (B t) - P (B t)) with 0 by lia. reflexivity.
  - intros i tmp Hi ->. unfold add64. rewrite to_i64_add_l. f_equal.
    rewrite (P_succ i) by lia. lia.
Qed.

Let buf1 := for_loop 0 nt 1 (omp_slice_sum nt n ary) (repeat 0 (Z.to_nat nt)).
Let buf2 := omp_buf_scan nt buf1.

Lemma buf1_spec :
  length buf1 = Z.to_nat nt /\
  forall t, 0 <= t < nt -> get buf1 t = to_i64 (P (B (t + 1)) - P (B t)).
Proof.
  destruct (fill_cells (omp_slice_sum nt n ary) 0 nt
                       (fun t => to_i64 (P (B (t + 1)) - P (B t)))
                       (repeat 0 (Z.to_nat nt))) as (L & Hin & _); try lia.
  - intros j b Hj. unfold omp_slice_sum. rewrite slice_end_begin.
    fold (B j). now rewrite slice_sum_spec by lia.
  - rewrite repeat_length. lia.
  - fold buf1 in L, Hin. rewrite repeat_length in L. split; [exact L|].
    intros t Ht. rewrite <- (Hin t Ht). f_equal.
Qed.

Lemma buf1_sum (k : nat) :
  (k <= Z.to_nat nt)%nat ->
  to_i64 (sum_list (firstn k buf1)) = to_i64 (P (B (Z.of_nat k))).
Proof.
  destruct buf1_spec as [L Hg]. induction k as [|k IH]; intros Hk.
  - cbn [firstn sum_list Z.of_nat]. rewrite slice_begin_zero. reflexivity.
  - rewrite sum_firstn_succ by lia. rewrite (Hg (Z.of_nat k)) by lia.
    rewrite to_i64_add_r. rewrite (to_i64_eq_add _ _ _ (IH ltac:(lia))).
    f_equal. replace (Z.of_nat (S k)) with (Z.of_nat k + 1) by lia. lia.
Qed.

(** After the second phase, cell [t] of [buf] holds the sum of the cells of
    [ary] up to the end of the slice of thread [t]. *)
Lemma buf2_spec (t : Z) :
  0 <= t < nt -> get buf2 t = prefix_total ary (Z.to_nat (B (t + 1))).
Proof.
  intros Ht. destruct buf1_spec as [L Hg].
  assert (Hne : buf1 <> []) by (intros E; rewrite E in L; simpl in L; lia).
  assert (HF : Forall in_i64 buf1).
  { apply Forall_forall. intros x Hx. apply (In_nth _ _ 0) in Hx.
    destruct Hx as (k & Hk & <-). rewrite <- get_of_nat, Hg by lia. apply to_i64_range. }
  destruct (scan_loop_spec buf1 Hne HF) as [_ Hs]. cbv zeta in Hs.
  rewrite L, Z2Nat.id in Hs by lia. unfold buf2, omp_buf_scan.
  rewrite (Hs t Ht). unfold prefix_total at 1.
  rewrite buf1_sum by lia.
  replace (Z.of_nat (S (Z.to_nat t))) with (t + 1) by lia. reflexivity.
Qed.

(** The third phase, thread after thread. *)
Lemma slices_scanned :
  let st := for_loop 0 nt 1 (omp_slice_scan nt n buf2) ary in
  length st = length ary /\
  forall j, 0 <= j < n -> get st j = prefix_total ary (S (Z.to_nat j)).
Proof.
  cbv zeta.
  pose proof (for_loop_ind1
    (fun t st => length st = length ary /\
       forall j, 0 <= j < n ->
         get st j = if j <? B t then prefix_total ary (S (Z.to_nat j)) else get ary j)
    0 nt (omp_slice_scan nt n buf2) ary ltac:(lia)) as H.
  destruct H as [Hl Hg].
  - split; [reflexivity|]. intros j Hj. rewrite slice_begin_zero.
    destruct (Z.ltb_spec j 0); [lia | reflexivity].
  - intros t st Ht [Hl Hg].
    pose proof (slice_begin_succ t ltac:(lia)) as H1.
    pose proof (slice_begin_nonneg t ltac:(lia)) as H0.
    pose proof (slice_begin_le (t + 1) ltac:(lia)) as H2.
    unfold omp_slice_scan. rewrite slice_end_begin. fold (B t).
    assert (Et1 : (if t =? 0 then 0 else get buf2 (t - 1))
                  = prefix_total ary (Z.to_nat (B t))).
    { destruct (Z.eqb_spec t 0) as [->|Hne].
      - rewrite slice_begin_zero. reflexivity.
      - rewrite buf2_spec by lia. do 3 f_equal. lia. }
    rewrite Et1.
    apply (for_loop_ind1
             (fun i st' => length st' = length ary /\
                forall j, 0 <= j < n ->
                  get st' j = if j <? i then prefix_total ary (S (Z.to_nat j))
                              else get ary j)); [lia | |].
    + split; [now rewrite set_length|]. intros j Hj.
      rewrite get_set by (unfold n in *; lia).
      destruct (Z.eqb_spec j (B t)) as [->|Hne].
      * destruct (Z.ltb_spec (B t) (B t + 1)); [|lia].
        rewrite (Hg (B t)) by lia. destruct (Z.ltb_spec (B t) (B t)); [lia|].
        rewrite (prefix_total_succ ary (Z.to_nat (B t))) by (unfold n in *; lia).
        now rewrite Z2Nat.id by lia.
      * rewrite (Hg j Hj).
        destruct (Z.ltb_spec j (B t)), (Z.ltb_spec j (B t + 1)); try reflexivity; lia.
    + intros i st' Hi [Hl' Hg']. split; [now rewrite set_length|].
      intros j Hj. rewrite get_set by (unfold n in *; lia).
      destruct (Z.eqb_spec j i) as [->|Hne'].
      * destruct (Z.ltb_spec i (i + 1)); [|lia].
        rewrite (Hg' i), (Hg' (i - 1)) by lia.
        destruct (Z.ltb_spec i i); [lia|].
        destruct (Z.ltb_spec (i - 1) i); [|lia].
        replace (S (Z.to_nat (i - 1))) with (Z.to_nat i) by lia.
        rewrite (prefix_total_succ ary (Z.to_nat i)) by (unfold n in *; lia).
        now rewrite Z2Nat.id by lia.
      * rewrite Hg' by lia.
        destruct (Z.ltb_spec j i), (Z.ltb_spec j (i + 1)); try reflexivity; lia.
  - split; [exact Hl|]. intros j Hj. rewrite Hg by lia. rewrite slice_begin_all.
    destruct (Z.ltb_spec j n); [reflexivity | lia].
Qed.
End PrefixSumOmp.

(** With OpenMP and a team of at most as many threads as the array has
    cells, [prefix_sum] computes the inclusive prefix sums in place and
    returns the last of them, as the version without OpenMP does. *)
Theorem prefix_sum_omp_thread_per_cell (nt : Z) (ary : list Z) :
  1 <= nt <= Z.of_nat (length ary) -> Forall in_i64 ary ->
  prefix_sum_omp nt (Z.of_nat (length ary)) ary
  = (inclusive_prefix_sums ary, prefix_total ary (length ary)) /\
  prefix_sum_omp nt (Z.of_nat (length ary)) ary = prefix_sum (Z.of_nat (length ary)) ary.
Proof.
  intros Hnt HF.
  assert (E : prefix_sum_omp nt (Z.of_nat (length ary)) ary
              = (inclusive_prefix_sums ary, prefix_total ary (length ary))).
  { destruct (slices_scanned nt ary Hnt) as [Hl Hg]. cbv zeta in Hl, Hg.
    unfold prefix_sum_omp. f_equal.
    - now apply inclusive_prefix_sums_cells.
    - rewrite Hg by lia. f_equal. lia. }
  split; [exact E|]. rewrite E. symmetry. apply scan_pair.
  - intros ->. simpl in Hnt. lia.
  - exact HF.
Qed.

Lemma prefix_sum_omp_thread_per_cell_witness :
  prefix_sum_omp 3 (Z.of_nat (length [4; 1; 2; 5])) [4; 1; 2; 5]
  = (inclusive_prefix_sums [4; 1; 2; 5], prefix_total [4; 1; 2; 5] (length [4; 1; 2; 5])) /\
  prefix_sum_omp 3 (Z.of_nat (length [4; 1; 2; 5])) [4; 1; 2; 5]
  = prefix_sum (Z.of_nat (length [4; 1; 2; 5])) [4; 1; 2; 5].
Proof.
  apply (prefix_sum_omp_thread_per_cell 3 [4; 1; 2; 5]).
  - simpl. lia.
  - repeat (apply Forall_cons; [unfold in_i64; lia|]). apply Forall_nil.
Defined.


(** ** Lists: folds, ranges, sorted concatenations *)

Lemma fold_left_map {A B C : Type} (f : A -> B -> A) (g : C -> B) (l : list C) (a : A) :
  fold_left f (map g l) a = fold_left (fun a x => f a (g x)) l a.
Proof.
  revert a. induction l as [|x t IH]; intros a; simpl; [reflexivity | apply IH].
Qed.

Lemma fold_left_ext {A B : Type} (f g : A -> B -> A) (l : list B) (a : A) :
  (forall a x, In x l -> f a x = g a x) -> fold_left f l a = fold_left g l a.
Proof.
  revert a. induction l as [|x t IH]; intros a H; simpl; [reflexivity|].
  rewrite H by (left; reflexivity). apply IH. intros a' y Hy. apply H. now right.
Qed.

Lemma loop_count_stride (lo n s : Z) :
  0 <= n -> 1 <= s -> loop_count lo (lo + n * s) s = Z.to_nat n.
Proof.
  intros Hn Hs. unfold loop_count. f_equal.
  replace (lo + n * s - lo + s - 1) with (n * s + (s - 1)) by lia.
  rewrite Z.div_add_l by lia. rewrite Z.div_small by lia. lia.
Qed.

(** The indices of [for (i = 0; i < n * s; i += s)]. *)
Lemma loop_indices_stride (n s : Z) :
  0 <= n -> 1 <= s ->
  loop_indices 0 (n * s) s = map (fun k => Z.of_nat k * s) (seq 0 (Z.to_nat n)).
Proof.
  intros Hn Hs. unfold loop_indices.
  replace (n * s) with (0 + n * s) by lia. rewrite loop_count_stride by assumption.
  apply map_ext. intros k. lia.
Qed.

(** The indices of [for (i = s; i < n * s; i += s)]. *)
Lemma loop_indices_stride_tail (n s : Z) :
  1 <= n -> 1 <= s ->
  loop_indices s (n * s) s = map (fun k => Z.of_nat (S k) * s) (seq 0 (Z.to_nat (n - 1))).
Proof.
  intros Hn Hs. unfold loop_indices.
  replace (n * s) with (s + (n - 1) * s) by lia. rewrite loop_count_stride by lia.
  apply map_ext. intros k. lia.
Qed.

Lemma loop_indices_unit (lo : Z) (n : nat) :
  loop_indices lo (lo + Z.of_nat n) 1 = zrange lo n.
Proof.
  unfold loop_indices, zrange. rewrite loop_count_unit.
  replace (Z.to_nat (lo + Z.of_nat n - lo)) with n by lia.
  apply map_ext. intros k. lia.
Qed.

Lemma zrange_succ (lo : Z) (n : nat) : zrange lo (S n) = zrange lo n ++ [lo + Z.of_nat n].
Proof. unfold zrange. now rewrite seq_S, map_app. Qed.

Lemma in_zrange (lo : Z) (n : nat) (x : Z) :
  In x (zrange lo n) <-> lo <= x < lo + Z.of_nat n.
Proof.
  unfold zrange. rewrite in_map_iff. split.
  - intros [k [<- Hk]]. apply in_seq in Hk. lia.
  - intros H. exists (Z.to_nat (x - lo)). split; [lia|]. apply in_seq. lia.
Qed.

Lemma StronglySorted_app {A : Type} (R : A -> A -> Prop) (l1 l2 : list A) :
  StronglySorted R l1 -> StronglySorted R l2 ->
  (forall x y, In x l1 -> In y l2 -> R x y) ->
  StronglySorted R (l1 ++ l2).
Proof.
  intros H1 H2 H. induction l1 as [|a t IH]; simpl; [exact H2|].
  inversion H1 as [|a' t' Ht Ha]; subst. constructor.
  - apply IH; [exact Ht|]. intros x y Hx Hy. apply H; [now right | exact Hy].
  - apply Forall_app. split; [exact Ha|].
    apply Forall_forall. intros y Hy. apply H; [now left | exact Hy].
Qed.

Lemma StronglySorted_repeat (v : Z) (n : nat) : StronglySorted Z.le (repeat v n).
Proof.
  induction n as [|n IH]; simpl; constructor; [exact IH|].
  apply Forall_forall. intros y Hy. apply repeat_spec in Hy. lia.
Qed.

(** ** Counting sort *)

Lemma in_emitted (keys : list Z) (lo : Z) (n : nat) (x : Z) :
  In x (emitted keys lo n) -> lo <= x < lo + Z.of_nat n.
Proof.
  unfold emitted. rewrite in_flat_map. intros [v [Hv Hx]].
  apply repeat_spec in Hx. subst x. now apply in_zrange.
Qed.

Lemma emitted_succ (keys : list Z) (lo : Z) (n : nat) :
  emitted keys lo (S n) =
  emitted keys lo n ++ repeat (lo + Z.of_nat n) (count_occ Z.eq_dec keys (lo + Z.of_nat n)).
Proof.
  unfold emitted. rewrite zrange_succ, flat_map_app. simpl. now rewrite app_nil_r.
Qed.

Lemma emitted_sorted (keys : list Z) (lo : Z) (n : nat) :
  StronglySorted Z.le (emitted keys lo n).
Proof.
  induction n as [|n IH]; [constructor|].
  rewrite emitted_succ. apply StronglySorted_app; [exact IH | apply StronglySorted_repeat |].
  intros x y Hx Hy. apply in_emitted in Hx. apply repeat_spec in Hy. lia.
Qed.

Lemma count_occ_emitted (keys : list Z) (lo : Z) (n : nat) (x : Z) :
  count_occ Z.eq_dec (emitted keys lo n) x =
  if (lo <=? x) && (x <? lo + Z.of_nat n) then count_occ Z.eq_dec keys x else O.
Proof.
  induction n as [|n IH].
  - destruct (Z.leb_spec lo x), (Z.ltb_spec x (lo + Z.of_nat 0)); simpl;
      try reflexivity; lia.
  - rewrite emitted_succ, count_occ_app, IH.
    destruct (Z.eq_dec x (lo + Z.of_nat n)) as [E|E].
    + rewrite count_occ_repeat_eq by exact E. subst x.
      destruct (Z.leb_spec lo (lo + Z.of_nat n)),
               (Z.ltb_spec (lo + Z.of_nat n) (lo + Z.of_nat n)),
               (Z.ltb_spec (lo + Z.of_nat n) (lo + Z.of_nat (S n))); simpl;
        try reflexivity; lia.
    + rewrite count_occ_repeat_neq by exact E.
      destruct (Z.leb_spec lo x), (Z.ltb_spec x (lo + Z.of_nat n)),
               (Z.ltb_spec x (lo + Z.of_nat (S n))); simpl; try lia.
Qed.

(** With every key in [[lo, lo + n)], what is emitted is the keys in another
    order. *)
Lemma emitted_permutation (keys : list Z) (lo : Z) (n : nat) :
  (forall x, In x keys -> lo <= x < lo + Z.of_nat n) ->
  Permutation (emitted keys lo n) keys.
Proof.
  intros H. apply (Permutation_count_occ Z.eq_dec). intros x.
  rewrite count_occ_emitted.
  destruct (Z.leb_spec lo x), (Z.ltb_spec x (lo + Z.of_nat n)); simpl; try reflexivity;
    symmetry; apply count_occ_not_In; intros Hin; apply H in Hin; lia.
Qed.

Lemma emitted_length_le (keys : list Z) (lo : Z) (n m : nat) :
  (forall x, In x keys -> lo <= x < lo + Z.of_nat m) -> (n <= m)%nat ->
  (length (emitted keys lo n) <= length keys)%nat.
Proof.
  intros H Hnm.
  rewrite <- (Permutation_length (emitted_permutation keys lo m H)).
  replace m with (n + (m - n))%nat by lia.
  unfold emitted, zrange. rewrite seq_app, map_app, flat_map_app, length_app. lia.
Qed.

(** *** The scan for the extreme keys *)

Lemma minmax_fold (l : list Z) (a b : Z) :
  a <= b ->
  fold_left (fun mm x => if x <? fst mm then (x, snd mm)
                         else if x >? snd mm then (fst mm, x) else mm) l (a, b)
  = (list_min a l, list_max b l).
Proof.
  revert a b. induction l as [|x t IH]; intros a b Hab; [reflexivity|].
  unfold list_min, list_max. simpl.
  destruct (Z.ltb_spec x a).
  - rewrite IH by lia. unfold list_min, list_max.
    now rewrite (Z.min_r a x), (Z.max_l b x) by lia.
  - destruct (Z.gtb_spec x b).
    + rewrite IH by lia. unfold list_min, list_max.
      now rewrite (Z.min_l a x), (Z.max_r b x) by lia.
    + rewrite IH by lia. unfold list_min, list_max.
      now rewrite (Z.min_l a x), (Z.max_l b x) by lia.
Qed.

Lemma list_min_spec (l : list Z) (a : Z) :
  In (list_min a l) (a :: l) /\ forall x, In x (a :: l) -> list_min a l <= x.
Proof.
  revert a. induction l as [|y t IH]; intros a.
  - simpl. split; [now left|]. intros x [<-|[]]. lia.
  - unfold list_min. simpl. destruct (IH (Z.min a y)) as [Hin Hle]. split.
    + destruct Hin as [E|Hin].
      * unfold list_min in E. rewrite <- E.
        destruct (Z.min_spec a y) as [[_ ->]|[_ ->]]; [now left | right; now left].
      * right. now right.
    + intros x Hx. unfold list_min in Hle.
      pose proof (Hle (Z.min a y) (or_introl eq_refl)) as H0.
      destruct Hx as [<-|[<-|Hx]]; [lia | lia |]. apply Hle. now right.
Qed.

Lemma list_max_spec (l : list Z) (a : Z) :
  In (list_max a l) (a :: l) /\ forall x, In x (a :: l) -> x <= list_max a l.
Proof.
  revert a. induction l as [|y t IH]; intros a.
  - simpl. split; [now left|]. intros x [<-|[]]. lia.
  - unfold list_max. simpl. destruct (IH (Z.max a y)) as [Hin Hle]. split.
    + destruct Hin as [E|Hin].
      * unfold list_max in E. rewrite <- E.
        destruct (Z.max_spec a y) as [[_ ->]|[_ ->]]; [right; now left | now left].
      * right. now right.
    + intros x Hx. unfold list_max in Hle.
      pose proof (Hle (Z.max a y) (or_introl eq_refl)) as H0.
      destruct Hx as [<-|[<-|Hx]]; [lia | lia |]. apply Hle. now right.
Qed.


(** *** The loops of [counting_sort] *)

Lemma set_nat_app_skipn (L a : list Z) (v : Z) :
  (length L < length a)%nat ->
  set_nat (L ++ skipn (length L) a) (length L) v = (L ++ [v]) ++ skipn (S (length L)) a.
Proof.
  revert a. induction L as [|x t IH]; intros a H.
  - destruct a as [|y a']; simpl in *; [lia | reflexivity].
  - destruct a as [|y a']; simpl in *; [lia|]. f_equal. apply IH. lia.
Qed.

Lemma set_app_skipn (L a : list Z) (v : Z) :
  (length L < length a)%nat ->
  set (L ++ skipn (length L) a) (Z.of_nat (length L)) v
  = (L ++ [v]) ++ skipn (S (length L)) a.
Proof.
  intros H. unfold set. destruct (Z.ltb_spec (Z.of_nat (length L)) 0); [lia|].
  rewrite Nat2Z.id. now apply set_nat_app_skipn.
Qed.

(** Writing [c] copies of [v] from position [z] on, where the cells before
    [z] hold [E]. *)
Lemma emit_copies (E a : list Z) (v : Z) (c : nat) :
  (length E + c <= length a)%nat ->
  for_loop 0 (Z.of_nat c) 1
    (fun (_ : Z) (st : list Z * Z) => (set (fst st) (snd st) v, snd st + 1))
    (E ++ skipn (length E) a, Z.of_nat (length E))
  = ((E ++ repeat v c) ++ skipn (length (E ++ repeat v c)) a,
     Z.of_nat (length (E ++ repeat v c))).
Proof.
  intros Hc.
  pose proof (for_loop_ind1
    (fun j st => st = ((E ++ repeat v (Z.to_nat j)) ++
                         skipn (length (E ++ repeat v (Z.to_nat j))) a,
                       Z.of_nat (length (E ++ repeat v (Z.to_nat j)))))
    0 (Z.of_nat c)
    (fun (_ : Z) (st : list Z * Z) => (set (fst st) (snd st) v, snd st + 1))
    (E ++ skipn (length E) a, Z.of_nat (length E)) ltac:(lia)) as H.
  cbv beta in H. rewrite Nat2Z.id in H. apply H; clear H.
  - simpl. now rewrite app_nil_r.
  - intros j st Hj ->. simpl fst. simpl snd.
    replace (Z.to_nat (j + 1)) with (S (Z.to_nat j)) by lia.
    set (L := E ++ repeat v (Z.to_nat j)).
    assert (HL : (length L < length a)%nat).
    { unfold L. rewrite length_app, repeat_length. lia. }
    rewrite set_app_skipn by exact HL.
    assert (EL : L ++ [v] = E ++ repeat v (S (Z.to_nat j))).
    { unfold L. rewrite <- app_assoc. f_equal.
      change [v] with (repeat v 1). rewrite <- repeat_app. f_equal. lia. }
    rewrite <- EL. rewrite length_app. simpl length.
    replace (length L + 1)%nat with (S (length L)) by lia. f_equal. lia.
Qed.

Lemma zero_loop (r : Z) (c : list Z) :
  0 <= r -> Z.of_nat (length c) = r ->
  for_loop 0 r 1 (fun i count => set count i 0) c = repeat 0 (Z.to_nat r).
Proof.
  intros Hr Hl.
  pose proof (for_loop_ind1
    (fun i st => length st = length c /\ forall j, 0 <= j < i -> get st j = 0)
    0 r (fun i count => set count i 0) c Hr) as H.
  destruct H as [H1 H2].
  - split; [reflexivity|]. intros j Hj. lia.
  - intros i st Hi [H1 H2]. split; [now rewrite set_length|].
    intros j Hj. rewrite get_set by lia.
    destruct (Z.eqb_spec j i); [reflexivity|]. apply H2. lia.
  - apply get_ext; [rewrite repeat_length; lia|].
    intros i Hi. rewrite H2 by lia.
    unfold get. destruct (Z.ltb_spec i 0); [lia|].
    symmetry. rewrite nth_repeat. reflexivity.
Qed.

Lemma count_keys_spec (min : Z) (keys : list Z) (c0 : list Z) :
  (forall x, In x keys -> min <= x < min + Z.of_nat (length c0) /\ in_i64 (x - min)) ->
  (forall j, 0 <= j < Z.of_nat (length c0) ->
             0 <= get c0 j /\ get c0 j + Z.of_nat (length keys) < 2^63) ->
  exists c, fold_left (count_key min) keys (Some c0) = Some c /\
            length c = length c0 /\
            forall j, 0 <= j < Z.of_nat (length c0) ->
                      get c j = get c0 j + Z.of_nat (count_occ Z.eq_dec keys (min + j)).
Proof.
  revert c0. induction keys as [|x t IH]; intros c0 Hk Hc.
  - exists c0. repeat split. intros j Hj. simpl. lia.
  - destruct (Hk x (or_introl eq_refl)) as [Hx Hx64].
    destruct (Hc (x - min) ltac:(lia)) as [Hc0 Hc1]. simpl length in Hc1.
    set (c1 := set c0 (x - min) (get c0 (x - min) + 1)).
    assert (Hstep : count_key min (Some c0) x = Some c1).
    { unfold count_key. cbv zeta. rewrite sub64_id by exact Hx64.
      destruct (Z.leb_spec 0 (x - min)); [|lia].
      destruct (Z.ltb_spec (x - min) (Z.of_nat (length c0))); [|lia]. simpl andb. cbv iota.
      now rewrite add64_id by (unfold in_i64; lia). }
    change (fold_left (count_key min) (x :: t) (Some c0))
      with (fold_left (count_key min) t (count_key min (Some c0) x)).
    rewrite Hstep.
    destruct (IH c1) as [c [Hf [Hl Hg]]].
    + intros y Hy. unfold c1. rewrite set_length. apply Hk. now right.
    + intros j Hj. unfold c1 in *. rewrite set_length in Hj. rewrite get_set by lia.
      specialize (Hc j Hj). simpl length in Hc.
      destruct (Z.eqb_spec j (x - min)) as [->|]; lia.
    + exists c. split; [exact Hf|]. split; [unfold c1 in Hl; now rewrite set_length in Hl|].
      intros j Hj. rewrite Hg by (unfold c1; now rewrite set_length).
      unfold c1. rewrite get_set by lia. simpl count_occ.
      destruct (Z.eqb_spec j (x - min)) as [->|Hne];
        destruct (Z.eq_dec x (min + (x - min))) as [E|E]; try lia;
        destruct (Z.eq_dec x (min + j)) as [E'|E']; lia.
Qed.

(** The emission loop, on the values it walks through. *)
Lemma emit_values (keys count array : list Z) (min : Z) (r n : nat) :
  (n <= r)%nat ->
  (forall x, In x keys -> min <= x < min + Z.of_nat r) ->
  (forall v, min <= v < min + Z.of_nat r -> in_i64 (v - min)) ->
  (forall j, 0 <= j < Z.of_nat r ->
             get count j = Z.of_nat (count_occ Z.eq_dec keys (min + j))) ->
  (length keys <= length array)%nat ->
  fold_left (fun st i => emit_step count min i st) (zrange min n) (array, 0)
  = (emitted keys min n ++ skipn (length (emitted keys min n)) array,
     Z.of_nat (length (emitted keys min n))).
Proof.
  intros Hn Hk H64 Hc Hlen. induction n as [|n IH].
  - reflexivity.
  - rewrite zrange_succ, fold_left_app, IH by lia. simpl fold_left.
    unfold emit_step. rewrite sub64_id by (apply H64; lia).
    replace (min + Z.of_nat n - min) with (Z.of_nat n) by lia.
    rewrite Hc by lia. rewrite emitted_succ.
    apply emit_copies.
    pose proof (emitted_length_le keys min (S n) r Hk ltac:(lia)) as Hle.
    rewrite emitted_succ, length_app, repeat_length in Hle. lia.
Qed.

Lemma strided_keys_cons (array : list Z) (num size : Z) :
  1 <= num ->
  strided_keys array num size =
  get array 0 :: map (fun k => get array (Z.of_nat (S k) * size)) (seq 0 (Z.to_nat (num - 1))).
Proof.
  intros Hn. unfold strided_keys.
  replace (Z.to_nat num) with (S (Z.to_nat (num - 1))) by lia.
  rewrite <- cons_seq, <- seq_shift. simpl map. rewrite map_map. reflexivity.
Qed.

(** C7 (as stated it fails). Two keys [2^32 - 1] apart: the spread plus one
    is [2^32], which the [int] variable [range] holds as [0]; the histogram
    has no cell and the first [count[array[i] - min]++] is outside it. *)
Lemma counting_sort_wide_keys_unsorted :
  counting_sort [4294967295; 0] 2 1 = None /\
  ~ (exists out, counting_sort [4294967295; 0] 2 1 = Some out /\
                 Sorted Z.le (strided_keys out 2 1) /\
                 Permutation (strided_keys out 2 1) (strided_keys [4294967295; 0] 2 1)).
Proof.
  assert (E : counting_sort [4294967295; 0] 2 1 = None) by (vm_compute; reflexivity).
  split; [exact E|]. intros [out [H _]]. rewrite E in H. discriminate H.
Qed.

(** The cells that the emission loop writes: the keys are read at the
    stride, and the values come out through [array[z++]], into the cells
    [0 .. num - 1]. *)
Lemma counting_sort_front_cells (array : list Z) (num size : Z) :
  1 <= num -> 1 <= size ->
  num * size <= Z.of_nat (length array) < 2^63 ->
  Forall (fun x => INT64_MIN <= x < INT64_MAX) (strided_keys array num size) ->
  (forall a b, In a (strided_keys array num size) ->
               In b (strided_keys array num size) -> a - b + 1 < 2^31) ->
  exists out lo hi,
    counting_sort array num size = Some out /\
    length out = length array /\
    In lo (strided_keys array num size) /\
    In hi (strided_keys array num size) /\
    firstn (Z.to_nat num) out
      = emitted (strided_keys array num size) lo (Z.to_nat (hi - lo + 1)) /\
    Sorted Z.le (firstn (Z.to_nat num) out) /\
    Permutation (firstn (Z.to_nat num) out) (strided_keys array num size) /\
    skipn (Z.to_nat num) out = skipn (Z.to_nat num) array.
Proof.
  intros Hnum Hsize Hlen Hrange Hspread.
  set (keys := strided_keys array num size) in *.
  assert (Hkl : length keys = Z.to_nat num).
  { unfold keys, strided_keys. now rewrite length_map, length_seq. }
  pose proof (strided_keys_cons array num size Hnum) as Hcons. fold keys in Hcons.
  set (tl := map (fun k => get array (Z.of_nat (S k) * size)) (seq 0 (Z.to_nat (num - 1)))) in *.
  set (k0 := get array 0) in *.
  destruct (list_min_spec tl k0) as [Hmin_in Hmin_le].
  destruct (list_max_spec tl k0) as [Hmax_in Hmax_le].
  rewrite <- Hcons in Hmin_in, Hmin_le, Hmax_in, Hmax_le.
  set (mn := list_min k0 tl) in *. set (mx := list_max k0 tl) in *.
  assert (Hmm : for_loop size (num * size) size (minmax_step array) (k0, k0) = (mn, mx)).
  { unfold for_loop. rewrite loop_indices_stride_tail by lia.
    rewrite fold_left_map. unfold mn, mx.
    rewrite <- (minmax_fold tl k0 k0) by lia. unfold tl. rewrite fold_left_map.
    reflexivity. }
  rewrite Forall_forall in Hrange.
  pose proof (Hrange mn Hmin_in) as Rmn. pose proof (Hrange mx Hmax_in) as Rmx.
  pose proof (Hspread mx mn Hmax_in Hmin_in) as Hsp.
  pose proof (Hmin_le mx Hmax_in) as Hmnmx.
  unfold INT64_MIN, INT64_MAX in *.
  set (r := Z.to_nat (mx - mn + 1)).
  assert (Hr : to_i32 (add64 (sub64 mx mn) 1) = mx - mn + 1).
  { rewrite sub64_id by (unfold in_i64; lia). rewrite add64_id by (unfold in_i64; lia).
    apply to_i32_id. lia. }
  assert (Hin : forall x, In x keys -> mn <= x < mn + Z.of_nat r).
  { intros x Hx. pose proof (Hmin_le x Hx). pose proof (Hmax_le x Hx). unfold r. lia. }
  assert (Hzero : for_loop 0 (mx - mn + 1) 1 (fun i count => set count i 0)
                           (xmalloc (mx - mn + 1)) = repeat 0 r).
  { apply zero_loop; [lia|]. unfold xmalloc. rewrite repeat_length. lia. }
  assert (Hhist : exists c,
             for_loop 0 (num * size) size (count_step array mn) (Some (repeat 0 r)) = Some c /\
             length c = r /\
             forall j, 0 <= j < Z.of_nat r ->
                       get c j = Z.of_nat (count_occ Z.eq_dec keys (mn + j))).
  { destruct (count_keys_spec mn keys (repeat 0 r)) as [c [Hf [Hl Hg]]].
    - intros x Hx. rewrite repeat_length. split; [now apply Hin|].
      pose proof (Hspread x mn Hx Hmin_in). pose proof (Hmin_le x Hx). unfold in_i64. lia.
    - intros j Hj. rewrite repeat_length in Hj.
      assert (get (repeat 0 r) j = 0) as ->.
      { unfold get. destruct (Z.ltb_spec j 0); [reflexivity|]. apply nth_repeat. }
      rewrite Hkl. lia.
    - exists c. rewrite repeat_length in *. split; [|split; [exact Hl|]].
      + unfold for_loop. rewrite loop_indices_stride by lia. rewrite fold_left_map.
        rewrite <- Hf. unfold keys, strided_keys. rewrite fold_left_map. reflexivity.
      + intros j Hj. rewrite Hg by exact Hj.
        assert (get (repeat 0 r) j = 0) as ->; [|lia].
        unfold get. destruct (Z.ltb_spec j 0); [reflexivity|]. apply nth_repeat. }
  destruct Hhist as [c [Hc [Hcl Hcg]]].
  assert (Hperm : Permutation (emitted keys mn r) keys)
    by (apply emitted_permutation; exact Hin).
  assert (Hel : length (emitted keys mn r) = Z.to_nat num)
    by (rewrite (Permutation_length Hperm); exact Hkl).
  assert (Hemit : for_loop mn (mx + 1) 1 (emit_step c mn) (array, 0)
                  = (emitted keys mn r ++ skipn (length (emitted keys mn r)) array,
                     Z.of_nat (length (emitted keys mn r)))).
  { unfold for_loop. replace (mx + 1) with (mn + Z.of_nat r) by (unfold r; lia).
    rewrite loop_indices_unit. apply (emit_values keys c array mn r r); try assumption; try lia.
    all: try (intros v Hv; unfold in_i64; unfold r in Hv; lia).
    rewrite Hkl. nia. }
  cbv beta in Rmn, Rmx.
  exists (emitted keys mn r ++ skipn (length (emitted keys mn r)) array), mn, mx.
  assert (Hlia : (Z.to_nat num <= length array)%nat) by nia.
  split; [|split; [|split; [|split; [|split; [|split; [|split]]]]]].
  - unfold counting_sort. fold k0. rewrite Hmm. cbv zeta. simpl fst. simpl snd.
    rewrite Hr, Hzero, Hc.
    destruct (Z.eqb_spec mx INT64_MAX) as [E|E]; [unfold INT64_MAX in E; lia|].
    now rewrite Hemit.
  - rewrite length_app, length_skipn, Hel. lia.
  - exact Hmin_in.
  - exact Hmax_in.
  - rewrite <- Hel at 1. rewrite firstn_app, Nat.sub_diag, firstn_all. simpl.
    now rewrite app_nil_r.
  - apply StronglySorted_Sorted.
    rewrite <- Hel at 1. rewrite firstn_app, Nat.sub_diag, firstn_all. simpl.
    rewrite app_nil_r. apply emitted_sorted.
  - rewrite <- Hel at 1. rewrite firstn_app, Nat.sub_diag, firstn_all. simpl.
    now rewrite app_nil_r.
  - rewrite <- Hel at 1. rewrite skipn_app, Nat.sub_diag, skipn_all. simpl.
    now rewrite Hel.
Qed.

Lemma strided_keys_unit (a : list Z) (n : nat) :
  (n <= length a)%nat -> strided_keys a (Z.of_nat n) 1 = firstn n a.
Proof.
  unfold strided_keys. rewrite Nat2Z.id. revert n.
  induction a as [|x t IH]; intros n Hn.
  - simpl in Hn. replace n with 0%nat by lia. reflexivity.
  - destruct n as [|n]; [reflexivity|].
    rewrite <- cons_seq, <- seq_shift, map_cons, map_map. cbn [firstn]. f_equal.
    rewrite <- IH by (simpl in Hn; lia). apply map_ext. intros k.
    replace (Z.of_nat (S k) * 1) with (Z.of_nat k * 1 + 1) by lia.
    apply get_cons_succ. lia.
Qed.

(** C7 (amended). For [num >= 1] keys at stride [size >= 1] that are
    [int64_t] values other than [INT64_MAX] and whose spread [max - min + 1]
    fits an [int], [counting_sort] returns, with an array of the same length.
    When the keys lie side by side ([size = 1]), the keys afterwards are
    every value from the least key to the greatest, in ascending order, each
    as many times as it occurs among the keys before: a sorted permutation
    of the keys; the cells after the keys are unchanged. *)
Theorem counting_sort_emits_sorted_keys (array : list Z) (num size : Z) :
  1 <= num -> 1 <= size ->
  num * size <= Z.of_nat (length array) < 2^63 ->
  Forall (fun x => INT64_MIN <= x < INT64_MAX) (strided_keys array num size) ->
  (forall a b, In a (strided_keys array num size) ->
               In b (strided_keys array num size) -> a - b + 1 < 2^31) ->
  exists out lo hi,
    counting_sort array num size = Some out /\
    length out = length array /\
    In lo (strided_keys array num size) /\
    In hi (strided_keys array num size) /\
    (size = 1 ->
     strided_keys out num size
       = emitted (strided_keys array num size) lo (Z.to_nat (hi - lo + 1)) /\
     Sorted Z.le (strided_keys out num size) /\
     Permutation (strided_keys out num size) (strided_keys array num size) /\
     skipn (Z.to_nat num) out = skipn (Z.to_nat num) array).
Proof.
  intros Hnum Hsize Hlen Hrange Hspread.
  destruct (counting_sort_front_cells array num size Hnum Hsize Hlen Hrange Hspread)
    as (out & lo & hi & E & L & Ilo & Ihi & Em & S & P & K).
  exists out, lo, hi. repeat (split; [assumption|]).
  intros ->.
  assert (U : strided_keys out num 1 = firstn (Z.to_nat num) out).
  { rewrite <- (Z2Nat.id num) at 1 by lia. apply strided_keys_unit. lia. }
  rewrite U. repeat split; assumption.
Qed.

Lemma counting_sort_emits_sorted_keys_witness :
  exists out lo hi,
    counting_sort [3; 1; 2; 3; 1; 9] 5 1 = Some out /\
    length out = length [3; 1; 2; 3; 1; 9] /\
    In lo (strided_keys [3; 1; 2; 3; 1; 9] 5 1) /\
    In hi (strided_keys [3; 1; 2; 3; 1; 9] 5 1) /\
    (1 = 1 ->
     strided_keys out 5 1
       = emitted (strided_keys [3; 1; 2; 3; 1; 9] 5 1) lo (Z.to_nat (hi - lo + 1)) /\
     Sorted Z.le (strided_keys out 5 1) /\
     Permutation (strided_keys out 5 1) (strided_keys [3; 1; 2; 3; 1; 9] 5 1) /\
     skipn (Z.to_nat 5) out = skipn (Z.to_nat 5) [3; 1; 2; 3; 1; 9]).
Proof.
  apply (counting_sort_emits_sorted_keys [3; 1; 2; 3; 1; 9] 5 1).
  - lia.
  - lia.
  - simpl. lia.
  - apply Forall_forall. intros x Hx. vm_compute in Hx.
    unfold INT64_MIN, INT64_MAX. lia.
  - intros a b Ha Hb. vm_compute in Ha, Hb. lia.
Defined.

Example counting_sort_example : counting_sort [3; 1; 2; 3; 1] 5 1 = Some [1; 1; 2; 3; 3].
Proof. reflexivity. Qed.

(** With a stride of two the sorted keys are written to the first cells, not
    to the cells the keys were read from. *)
Example counting_sort_stride_two : counting_sort [3; 100; 1; 200] 2 2 = Some [1; 3; 1; 200].
Proof. reflexivity. Qed.


(** ** Distribution into buckets *)

Lemma filter_length_split {A : Type} (p q : A -> bool) (l : list A) :
  (forall x, In x l -> p x = true -> q x = true -> False) ->
  length (filter (fun x => p x || q x) l) = (length (filter p l) + length (filter q l))%nat.
Proof.
  induction l as [|x t IH]; intros H; [reflexivity|]. simpl.
  assert (IH' := IH (fun y Hy => H y (or_intror Hy))).
  destruct (p x) eqn:Ep, (q x) eqn:Eq; simpl; try lia.
  exfalso. apply (H x); auto. now left.
Qed.

Lemma filter_length_mono {A : Type} (p q : A -> bool) (l : list A) :
  (forall x, In x l -> p x = true -> q x = true) ->
  (length (filter p l) <= length (filter q l))%nat.
Proof.
  induction l as [|x t IH]; intros H; [reflexivity|]. simpl.
  assert (IH' := IH (fun y Hy => H y (or_intror Hy))).
  destruct (p x) eqn:Ep.
  - rewrite (H x (or_introl eq_refl) Ep). simpl. lia.
  - destruct (q x); simpl; lia.
Qed.

Section Buckets.
Variable key : Z -> Z.

Lemma bucket_count_nonneg (l : list Z) (b : Z) : 0 <= bucket_count key l b.
Proof. unfold bucket_count. lia. Qed.

Lemma bucket_count_app (l1 l2 : list Z) (b : Z) :
  bucket_count key (l1 ++ l2) b = bucket_count key l1 b + bucket_count key l2 b.
Proof. unfold bucket_count. rewrite filter_app, length_app. lia. Qed.

Lemma bucket_count_cons (i : Z) (l : list Z) (b : Z) :
  bucket_count key (i :: l) b = (if key i =? b then 1 else 0) + bucket_count key l b.
Proof.
  unfold bucket_count. cbn [filter]. destruct (key i =? b); cbn [length]; lia.
Qed.

Lemma bucket_start_succ (l : list Z) (b : Z) :
  bucket_start key l (b + 1) = bucket_start key l b + bucket_count key l b.
Proof.
  unfold bucket_start, bucket_count.
  rewrite <- Nat2Z.inj_add, <- filter_length_split.
  - f_equal. f_equal. apply filter_ext. intros i.
    destruct (Z.ltb_spec (key i) (b + 1)), (Z.ltb_spec (key i) b),
             (Z.eqb_spec (key i) b); simpl; try reflexivity; lia.
  - intros i _ H1 H2. apply Z.ltb_lt in H1. apply Z.eqb_eq in H2. lia.
Qed.

Lemma bucket_start_mono (l : list Z) (b b' : Z) :
  b <= b' -> bucket_start key l b <= bucket_start key l b'.
Proof.
  intros H. unfold bucket_start. apply inj_le. apply filter_length_mono.
  intros i _ Hi. apply Z.ltb_lt in Hi. apply Z.ltb_lt. lia.
Qed.

Lemma bucket_start_zero (l : list Z) (b : Z) :
  (forall i, In i l -> b <= key i) -> bucket_start key l b = 0.
Proof.
  intros H. unfold bucket_start.
  replace (filter (fun i => key i <? b) l) with (@nil Z); [reflexivity|].
  symmetry. induction l as [|i t IH]; [reflexivity|]. simpl.
  destruct (Z.ltb_spec (key i) b) as [Hlt|_].
  - specialize (H i (or_introl eq_refl)). lia.
  - apply IH. intros j Hj. apply H. now right.
Qed.

Lemma bucket_start_all (l : list Z) (b : Z) :
  (forall i, In i l -> key i < b) -> bucket_start key l b = Z.of_nat (length l).
Proof.
  intros H. unfold bucket_start. f_equal. f_equal.
  induction l as [|i t IH]; [reflexivity|]. simpl.
  destruct (Z.ltb_spec (key i) b) as [_|Hge].
  - f_equal. apply IH. intros j Hj. apply H. now right.
  - specialize (H i (or_introl eq_refl)). lia.
Qed.

Lemma bucketed_succ (B : nat) (l : list Z) :
  bucketed key (S B) l = bucketed key B l ++ filter (fun i => key i =? Z.of_nat B) l.
Proof.
  unfold bucketed. rewrite zrange_succ, flat_map_app. simpl. now rewrite app_nil_r.
Qed.

Lemma bucketed_length (B : nat) (l : list Z) :
  Z.of_nat (length (bucketed key B l)) + bucket_start key l 0
  = bucket_start key l (Z.of_nat B).
Proof.
  induction B as [|B IH]; [reflexivity|].
  rewrite bucketed_succ, length_app, Nat2Z.inj_succ. unfold Z.succ.
  rewrite bucket_start_succ. unfold bucket_count. lia.
Qed.

Lemma bucketed_permutation (B : nat) (l : list Z) :
  (forall i, In i l -> 0 <= key i < Z.of_nat B) ->
  Permutation (bucketed key B l) l.
Proof.
  intros H. apply (Permutation_count_occ Z.eq_dec). intros x.
  assert (G : forall B', count_occ Z.eq_dec (bucketed key B' l) x =
                         if (0 <=? key x) && (key x <? Z.of_nat B')
                         then count_occ Z.eq_dec l x else O).
  { induction B' as [|B' IH].
    - destruct (Z.leb_spec 0 (key x)), (Z.ltb_spec (key x) (Z.of_nat 0));
        simpl; try reflexivity; lia.
    - rewrite bucketed_succ, count_occ_app, IH.
      assert (F : count_occ Z.eq_dec (filter (fun i => key i =? Z.of_nat B') l) x =
                  if key x =? Z.of_nat B' then count_occ Z.eq_dec l x else O).
      { clear. induction l as [|y t IHl]; simpl.
        - now destruct (key x =? Z.of_nat B').
        - destruct (Z.eqb_spec (key y) (Z.of_nat B')) as [E|E]; simpl.
          + destruct (Z.eq_dec y x) as [->|Hne].
            * rewrite IHl. destruct (Z.eqb_spec (key x) (Z.of_nat B')); [reflexivity|].
              contradiction.
            * exact IHl.
          + destruct (Z.eq_dec y x) as [->|Hne]; [|exact IHl].
            rewrite IHl. destruct (Z.eqb_spec (key x) (Z.of_nat B')); [contradiction|].
            reflexivity. }
      rewrite F.
      destruct (Z.leb_spec 0 (key x)), (Z.ltb_spec (key x) (Z.of_nat B')),
               (Z.ltb_spec (key x) (Z.of_nat (S B'))),
               (Z.eqb_spec (key x) (Z.of_nat B')); simpl; try lia. }
  rewrite G.
  destruct (Z.leb_spec 0 (key x)), (Z.ltb_spec (key x) (Z.of_nat B)); simpl;
    try reflexivity; symmetry; apply count_occ_not_In; intros Hin; apply H in Hin; lia.
Qed.
End Buckets.


Lemma zrange_length (lo : Z) (n : nat) : length (zrange lo n) = n.
Proof. unfold zrange. now rewrite length_map, length_seq. Qed.

Lemma map_seq_from {A : Type} (f : nat -> A) (a b : nat) :
  map f (seq a b) = map (fun k => f (a + k)%nat) (seq 0 b).
Proof.
  revert f. induction a as [|a IH]; intros f; [reflexivity|].
  rewrite <- seq_shift, map_map. apply IH.
Qed.

Lemma zrange_app (lo : Z) (a b : nat) :
  zrange lo (a + b) = zrange lo a ++ zrange (lo + Z.of_nat a) b.
Proof.
  unfold zrange. rewrite seq_app, map_app. f_equal. simpl.
  rewrite map_seq_from. apply map_ext. intros k. lia.
Qed.


(** A function that reads, from [lo] on, the images of the elements of a
    list, maps the positions to the images of the list. *)
Lemma map_zrange_nth {A : Type} (f : Z -> A) (g : Z -> A) (l : list Z) (lo : Z) :
  (forall r, (r < length l)%nat -> f (lo + Z.of_nat r) = g (nth r l 0)) ->
  map f (zrange lo (length l)) = map g l.
Proof.
  revert lo. induction l as [|x t IH]; intros lo H; [reflexivity|].
  change (length (x :: t)) with (1 + length t)%nat. rewrite zrange_app. simpl.
  f_equal.
  - specialize (H O ltac:(simpl; lia)). simpl in H. now rewrite Z.add_0_r in *.
  - apply IH. intros r Hr. specialize (H (S r) ltac:(simpl; lia)). simpl nth in H.
    rewrite <- H. f_equal. lia.
Qed.

Section ScatterLoop.
Context {S A : Type}.
Variable key : Z -> Z.
Variable B : nat.
Variable sched : list Z.
Variable body : Z -> S -> S.
Variable ok : S -> Prop.
Variable cur : S -> Z -> Z.
Variable slot : S -> Z -> A.
Variable item : Z -> A.

Let n : Z := Z.of_nat (length sched).
Let start : Z -> Z := bucket_start key sched.

Hypothesis key_range : forall i, In i sched -> 0 <= key i < Z.of_nat B.
Hypothesis body_ok : forall i s,
    In i sched -> ok s -> 0 <= cur s (key i) < n -> ok (body i s).
Hypothesis body_cur : forall i s b,
    In i sched -> ok s -> 0 <= cur s (key i) < n -> 0 <= b < Z.of_nat B ->
    cur (body i s) b = if b =? key i then cur s b + 1 else cur s b.
Hypothesis body_slot : forall i s q,
    In i sched -> ok s -> 0 <= cur s (key i) < n -> 0 <= q < n ->
    slot (body i s) q = if q =? cur s (key i) then item i else slot s q.

Let inv (done : list Z) (s : S) : Prop :=
  ok s /\
  (forall b, 0 <= b < Z.of_nat B -> cur s b = start b + bucket_count key done b) /\
  (forall b r, 0 <= b < Z.of_nat B ->
               (r < length (filter (fun i => (key i =? b)%Z) done))%nat ->
               slot s (start b + Z.of_nat r)
               = item (nth r (filter (fun i => key i =? b) done) 0)).

Lemma start_end : start (Z.of_nat B) = n.
Proof.
  unfold start, n. apply bucket_start_all. intros i Hi. apply key_range in Hi. lia.
Qed.

Lemma start_begin : start 0 = 0.
Proof.
  unfold start. apply bucket_start_zero. intros i Hi. apply key_range in Hi. lia.
Qed.

Lemma start_nonneg (b : Z) : 0 <= start b.
Proof. unfold start, bucket_start. lia. Qed.

Lemma scatter_steps (rest done : list Z) (s : S) :
  sched = done ++ rest -> inv done s ->
  inv sched (fold_left (fun st i => body i st) rest s).
Proof.
  revert done s. induction rest as [|i rest' IH]; intros done s Hs Hinv.
  - rewrite app_nil_r in Hs. subst done. exact Hinv.
  - simpl. apply (IH (done ++ [i])); [now rewrite <- app_assoc|].
    destruct Hinv as [Hok [Hcur Hslot]].
    assert (Hi : In i sched) by (rewrite Hs; apply in_or_app; right; now left).
    pose proof (key_range i Hi) as Hk.
    assert (Hcnt : forall b, bucket_count key sched b =
                             bucket_count key done b + (if key i =? b then 1 else 0)
                             + bucket_count key rest' b).
    { intros b. rewrite Hs, bucket_count_app, bucket_count_cons. lia. }
    assert (Hsucc : forall b, start (b + 1) = start b + bucket_count key sched b)
      by (intros b; apply bucket_start_succ).
    assert (Hmono : forall b b', b <= b' -> start b <= start b')
      by (intros b b'; apply bucket_start_mono).
    pose proof start_end as Hend.
    assert (Hin : 0 <= cur s (key i) < n).
    { rewrite Hcur by exact Hk. pose proof (start_nonneg (key i)).
      pose proof (bucket_count_nonneg key done (key i)).
      pose proof (bucket_count_nonneg key rest' (key i)).
      pose proof (Hcnt (key i)) as Hc. rewrite Z.eqb_refl in Hc.
      pose proof (Hmono (key i + 1) (Z.of_nat B) ltac:(lia)).
      pose proof (Hsucc (key i)). lia. }
    split; [now apply body_ok|]. split.
    + intros b Hb. rewrite body_cur by assumption. rewrite Hcur by exact Hb.
      rewrite bucket_count_app, bucket_count_cons.
      change (bucket_count key [] b) with 0.
      rewrite (Z.eqb_sym b (key i)). destruct (key i =? b); lia.
    + intros b r Hb Hr. rewrite filter_app in Hr |- *. simpl filter in Hr |- *.
      assert (Hq : 0 <= start b + Z.of_nat r < n).
      { pose proof (start_nonneg b). split; [lia|].
        pose proof (Hcnt b) as Hc. pose proof (bucket_count_nonneg key rest' b).
        pose proof (Hmono (b + 1) (Z.of_nat B) ltac:(lia)). pose proof (Hsucc b).
        rewrite length_app in Hr. unfold bucket_count in Hc at 2.
        destruct (key i =? b); simpl in Hr; lia. }
      rewrite body_slot by assumption. rewrite Hcur by exact Hk.
      destruct (Z.eqb_spec (key i) b) as [E|E].
      * subst b. rewrite length_app in Hr. simpl in Hr. unfold bucket_count.
        destruct (Nat.eq_dec r (length (filter (fun i0 => key i0 =? key i) done)))
          as [->|Hne].
        -- rewrite Z.eqb_refl. now rewrite nth_middle.
        -- destruct (Z.eqb_spec (start (key i) + Z.of_nat r)
                                (start (key i) +
                                 Z.of_nat (length (filter (fun i0 => key i0 =? key i) done))));
             [lia|].
           rewrite app_nth1 by lia. apply Hslot; [exact Hk | lia].
      * rewrite app_nil_r in Hr |- *.
        pose proof (Hcnt b) as Hcb. pose proof (Hcnt (key i)) as Hci.
        rewrite Z.eqb_refl in Hci.
        pose proof (bucket_count_nonneg key rest' b).
        pose proof (bucket_count_nonneg key rest' (key i)).
        pose proof (bucket_count_nonneg key done (key i)).
        unfold bucket_count in Hcb at 2.
        destruct (Z.eqb_spec (start b + Z.of_nat r)
                             (start (key i) + bucket_count key done (key i))) as [Eq|_].
        -- exfalso. destruct (Z.lt_ge_cases b (key i)) as [Hlt|Hge].
           ++ pose proof (Hmono (b + 1) (key i) ltac:(lia)). pose proof (Hsucc b).
              destruct (key i =? b); lia.
           ++ pose proof (Hmono (key i + 1) b ltac:(lia)). pose proof (Hsucc (key i)). lia.
        -- now apply Hslot.
Qed.

(** After the loop every bucket is full, and the slots read in order are
    the items bucket after bucket, each bucket in the order of the schedule. *)
Theorem scatter_result (s0 : S) :
  ok s0 ->
  (forall b, 0 <= b < Z.of_nat B -> cur s0 b = start b) ->
  let s := fold_left (fun st i => body i st) sched s0 in
  ok s /\
  (forall b, 0 <= b < Z.of_nat B -> cur s b = start (b + 1)) /\
  (forall b, 0 <= b < Z.of_nat B ->
             map (slot s)
                 (zrange (start b) (length (filter (fun i => key i =? b) sched)))
             = map item (filter (fun i => key i =? b) sched)) /\
  map (slot s) (zrange 0 (length sched)) = map item (bucketed key B sched).
Proof.
  intros Hok Hcur s.
  assert (Hinv : inv sched s).
  { apply (scatter_steps sched [] s0); [reflexivity|].
    split; [exact Hok|]. split.
    - intros b Hb. rewrite Hcur by exact Hb. unfold bucket_count. simpl. lia.
    - intros b r _ Hr. simpl in Hr. lia. }
  destruct Hinv as [Hok' [Hcur' Hslot']].
  split; [exact Hok'|]. split; [|split].
  - intros b Hb. rewrite Hcur' by exact Hb. unfold start. now rewrite bucket_start_succ.
  - intros b Hb. apply map_zrange_nth. intros r Hr. now apply Hslot'.
  - assert (G : forall B', (B' <= B)%nat ->
                  map (slot s) (zrange 0 (length (bucketed key B' sched)))
                  = map item (bucketed key B' sched)).
    { induction B' as [|B' IH]; intros HB; [reflexivity|].
      rewrite bucketed_succ, length_app, zrange_app, !map_app.
      rewrite IH by lia. f_equal.
      apply map_zrange_nth. intros r Hr.
      replace (0 + Z.of_nat (length (bucketed key B' sched)))
        with (start (Z.of_nat B')).
      - apply Hslot'; [lia | exact Hr].
      - pose proof (bucketed_length key B' sched) as HL.
        fold start in HL. rewrite start_begin in HL. lia. }
    specialize (G B (le_n B)).
    assert (HL : length (bucketed key B sched) = length sched).
    { apply Permutation_length, bucketed_permutation. exact key_range. }
    now rewrite HL in G.
Qed.
End ScatterLoop.

(** Filtering the images is filtering the items. *)
Lemma map_filter_comm {A B : Type} (f : A -> B) (p : B -> bool) (l : list A) :
  map f (filter (fun x => p (f x)) l) = filter p (map f l).
Proof.
  induction l as [|x t IH]; [reflexivity|]. simpl.
  destruct (p (f x)); simpl; now rewrite IH.
Qed.


(** *** Counting the items of every bucket, and the running sums *)

Lemma histogram_fold (key : Z -> Z) (base stride : Z) (B : nat) (idxs : list Z) (o : list Z) :
  0 <= base -> base + Z.of_nat B <= Z.of_nat (length o) -> 0 <= stride ->
  (forall i, In i idxs -> 0 <= key i < Z.of_nat B) ->
  (forall b, 0 <= b < Z.of_nat B ->
             0 <= get o (base + b) /\
             get o (base + b) + stride * Z.of_nat (length idxs) < 2^63) ->
  let o' := fold_left
              (fun o i => set o (base + key i) (add64 (get o (base + key i)) stride))
              idxs o in
  length o' = length o /\
  (forall b, 0 <= b < Z.of_nat B ->
             get o' (base + b) = get o (base + b) + stride * bucket_count key idxs b) /\
  (forall j, ~ (base <= j < base + Z.of_nat B) -> get o' j = get o j).
Proof.
  intros Hbase Hlen Hstride. revert o Hlen.
  induction idxs as [|i t IH]; intros o Hlen Hk Hb; cbv zeta.
  - split; [reflexivity|]. split; [|reflexivity].
    intros b _. simpl fold_left. change (bucket_count key [] b) with 0. lia.
  - simpl fold_left.
    pose proof (Hk i (or_introl eq_refl)) as Hki.
    destruct (Hb (key i) Hki) as [Hi0 Hi1]. simpl length in Hi1.
    rewrite add64_id by (unfold in_i64; nia).
    set (o1 := set o (base + key i) (get o (base + key i) + stride)).
    assert (Hl1 : length o1 = length o) by (unfold o1; apply set_length).
    destruct (IH o1) as [Hl [Hg Hu]].
    + rewrite Hl1. exact Hlen.
    + intros j Hj. apply Hk. now right.
    + intros b Hbb. unfold o1. rewrite get_set by lia.
      specialize (Hb b Hbb). simpl length in Hb.
      destruct (Z.eqb_spec (base + b) (base + key i)); nia.
    + split; [congruence|]. split.
      * intros b Hbb. rewrite Hg by exact Hbb. unfold o1. rewrite get_set by lia.
        rewrite bucket_count_cons.
        destruct (Z.eqb_spec (key i) b) as [E|E].
        -- subst b. rewrite Z.eqb_refl. nia.
        -- destruct (Z.eqb_spec (base + b) (base + key i)); nia.
      * intros j Hj. rewrite Hu by exact Hj. unfold o1. apply get_set_other. lia.
Qed.

Lemma prefix_loop (key : Z -> Z) (l : list Z) (base stride lo : Z) (B : nat) (o : list Z) :
  0 <= lo <= 1 -> 1 <= base -> base + Z.of_nat B <= Z.of_nat (length o) -> 0 <= stride ->
  stride * Z.of_nat (length l) < 2^63 ->
  (forall i, In i l -> 0 <= key i) ->
  (forall b, 0 <= b < Z.of_nat B -> get o (base + b) = stride * bucket_count key l b) ->
  get o (base - 1) = 0 ->
  let o' := for_loop lo (Z.of_nat B) 1
              (fun i o => set o (base + i) (add64 (get o (base + i)) (get o (base + (i - 1)))))
              o in
  length o' = length o /\
  (forall b, 0 <= b < Z.of_nat B ->
             get o' (base + b) = stride * bucket_start key l (b + 1)) /\
  (forall j, ~ (base <= j < base + Z.of_nat B) -> get o' j = get o j).
Proof.
  intros Hlo Hbase Hlen Hstride Hbound Hk Hc Hz. cbv zeta.
  assert (H0 : bucket_start key l 0 = 0) by (apply bucket_start_zero; exact Hk).
  assert (Hle : forall b, bucket_start key l b <= Z.of_nat (length l)).
  { intros b. unfold bucket_start. apply inj_le. apply filter_length_le. }
  destruct (Z_lt_le_dec (Z.of_nat B) lo) as [Hsmall|Hbig].
  - rewrite for_loop_nil by lia. split; [reflexivity|]. split; [|reflexivity].
    intros b Hb. lia.
  - pose proof (for_loop_ind1
      (fun i st => length st = length o /\
         (forall b, 0 <= b < i -> get st (base + b) = stride * bucket_start key l (b + 1)) /\
         (forall b, i <= b < Z.of_nat B -> get st (base + b) = stride * bucket_count key l b) /\
         (forall j, ~ (base <= j < base + Z.of_nat B) -> get st j = get o j))
      lo (Z.of_nat B)
      (fun i o => set o (base + i) (add64 (get o (base + i)) (get o (base + (i - 1)))))
      o Hbig) as H.
    destruct H as [H1 [H2 [H3 H4]]].
    + split; [reflexivity|]. split; [|split; [|reflexivity]].
      * intros b Hb. assert (b = 0) by lia. subst b.
        rewrite Hc by lia. rewrite bucket_start_succ, H0. lia.
      * intros b Hb. apply Hc. lia.
    + intros i st Hi [H1 [H2 [H3 H4]]].
      assert (Hprev : get st (base + (i - 1)) = stride * bucket_start key l i).
      { destruct (Z.eq_dec i 0) as [->|Hne].
        - replace (base + (0 - 1)) with (base - 1) by lia.
          rewrite H4 by lia. rewrite Hz, H0. lia.
        - rewrite H2 by lia. f_equal. f_equal. lia. }
      rewrite Hprev, H3 by lia.
      pose proof (bucket_start_succ key l i) as Hs. pose proof (Hle (i + 1)).
      pose proof (bucket_count_nonneg key l i).
      assert (0 <= bucket_start key l i) by (unfold bucket_start; lia).
      rewrite add64_id by (unfold in_i64; nia).
      split; [now rewrite set_length|]. split; [|split].
      * intros b Hb. rewrite get_set by lia.
        destruct (Z.eqb_spec (base + b) (base + i)) as [E|E].
        -- replace b with i by lia. rewrite Hs. lia.
        -- apply H2. lia.
      * intros b Hb. rewrite get_set_other by lia. apply H3. lia.
      * intros j Hj. rewrite get_set_other by lia. now apply H4.
    + split; [exact H1|]. split; [|exact H4]. intros b Hb. apply H2. lia.
Qed.


(** ** Edge list to CSR *)

Lemma bucket_count_perm (key : Z -> Z) (l l' : list Z) (b : Z) :
  Permutation l l' -> bucket_count key l b = bucket_count key l' b.
Proof.
  intros H. unfold bucket_count. f_equal.
  induction H as [|x l1 l2 H IH|x y l1|l1 l2 l3 H1 IH1 H2 IH2]; simpl.
  - reflexivity.
  - destruct (key x =? b); simpl; lia.
  - destruct (key x =? b), (key y =? b); reflexivity.
  - lia.
Qed.

Lemma bucket_start_perm (key : Z -> Z) (l l' : list Z) (b : Z) :
  Permutation l l' -> bucket_start key l b = bucket_start key l' b.
Proof.
  intros H. unfold bucket_start. f_equal.
  induction H as [|x l1 l2 H IH|x y l1|l1 l2 l3 H1 IH1 H2 IH2]; simpl.
  - reflexivity.
  - destruct (key x <? b); simpl; lia.
  - destruct (key x <? b), (key y <? b); reflexivity.
  - lia.
Qed.

Lemma flat_map_ext_in {A B : Type} (f g : A -> list B) (l : list A) :
  (forall a, In a l -> f a = g a) -> flat_map f l = flat_map g l.
Proof.
  induction l as [|a t IH]; intros H; [reflexivity|]. simpl.
  rewrite (H a (or_introl eq_refl)). f_equal. apply IH. intros x Hx. apply H. now right.
Qed.

Lemma map_flat_map {A B C : Type} (f : B -> C) (g : A -> list B) (l : list A) :
  map f (flat_map g l) = flat_map (fun a => map f (g a)) l.
Proof.
  induction l as [|a t IH]; [reflexivity|]. simpl. now rewrite map_app, IH.
Qed.

(** Zeroing the first [r] cells of an array. *)
Lemma zero_cells (r : Z) (c : list Z) :
  0 <= r <= Z.of_nat (length c) ->
  let c' := for_loop 0 r 1 (fun i o => set o i 0) c in
  length c' = length c /\
  (forall j, 0 <= j < r -> get c' j = 0) /\
  (forall j, ~ (0 <= j < r) -> get c' j = get c j).
Proof.
  intros Hr. cbv zeta.
  pose proof (for_loop_ind1
    (fun i st => length st = length c /\ (forall j, 0 <= j < i -> get st j = 0) /\
                 (forall j, ~ (0 <= j < r) -> get st j = get c j))
    0 r (fun i o => set o i 0) c ltac:(lia)) as H.
  apply H; clear H.
  - split; [reflexivity|]. split; [intros j Hj; lia | reflexivity].
  - intros i st Hi [H1 [H2 H3]]. split; [now rewrite set_length|]. split.
    + intros j Hj. rewrite get_set by lia.
      destruct (Z.eqb_spec j i); [reflexivity|]. apply H2. lia.
    + intros j Hj. rewrite get_set_other by lia. now apply H3.
Qed.

Section EdgeListToCsr.
Variables (sched : list Z) (nv ne : Z).
Variables (sv1 ev1 w1 ev2 w2 offset t2 t1 : list Z).
Variable body : Z -> csr_arrays -> csr_arrays.

Let key (i : Z) : Z := get sv1 i.
Let n : nat := Z.to_nat ne.
Let B : nat := Z.to_nat nv.

Hypothesis Hnv : 0 <= nv.
Hypothesis Hne : 0 <= ne < 2^63.
Hypothesis Hsched : Permutation sched (zrange 0 n).
Hypothesis Hoffset : nv + 2 <= Z.of_nat (length offset).
Hypothesis Hev2 : ne <= Z.of_nat (length ev2).
Hypothesis Hw2 : ne <= Z.of_nat (length w2).
Hypothesis Hsv : forall i, 0 <= i < ne -> 0 <= get sv1 i < nv.

Hypothesis body_offset : forall i s,
    c_offset (body i s) =
    set (c_offset s) (1 + get sv1 i) (add64 (get (c_offset s) (1 + get sv1 i)) 1).
Hypothesis body_ev2 : forall i s,
    c_ev2 (body i s) = set (c_ev2 s) (get (c_offset s) (1 + get sv1 i)) (get ev1 i).
Hypothesis body_w2 : forall i s,
    c_w2 (body i s) = set (c_w2 s) (get (c_offset s) (1 + get sv1 i)) (get w1 i).

Let offset3 : list Z :=
  let offset := for_loop 0 (nv + 2) 1 (fun i offset => set offset i 0) offset in
  let offset :=
    for_loop 0 ne 1
      (fun i offset => snd (stinger_int64_fetch_add offset (2 + get sv1 i) 1)) offset in
  for_loop 1 nv 1
    (fun i offset => set offset (2 + i) (add64 (get offset (2 + i)) (get offset (2 + (i - 1)))))
    offset.

Lemma sched_length : length sched = n.
Proof. rewrite (Permutation_length Hsched). apply zrange_length. Qed.

Lemma sched_keys : forall i, In i sched -> 0 <= key i < Z.of_nat B.
Proof.
  intros i Hi. apply (Permutation_in _ Hsched) in Hi. apply in_zrange in Hi.
  unfold key, B. rewrite Z2Nat.id by lia. apply Hsv. unfold n in Hi. lia.
Qed.

(** Before the edges are moved, cell [1 + b] of [offset] is the first slot
    of the bucket of vertex [b]. *)
Lemma offset3_spec :
  length offset3 = length offset /\
  get offset3 0 = 0 /\
  forall b, 0 <= b < Z.of_nat B -> get offset3 (1 + b) = bucket_start key sched b.
Proof.
  unfold offset3. cbv zeta.
  destruct (zero_cells (nv + 2) offset ltac:(lia)) as [L0 [Z0 U0]]. cbv zeta in L0, Z0, U0.
  set (o0 := for_loop 0 (nv + 2) 1 (fun i offset0 => set offset0 i 0) offset) in *.
  assert (Hkeys : forall i, In i (zrange 0 n) -> 0 <= key i < Z.of_nat B).
  { intros i Hi. apply sched_keys. apply (Permutation_in _ (Permutation_sym Hsched) Hi). }
  assert (HB : Z.of_nat B = nv) by (unfold B; lia).
  assert (Hn : Z.of_nat n = ne) by (unfold n; lia).
  assert (Hlen0 : 2 + Z.of_nat B <= Z.of_nat (length o0)) by (rewrite L0; lia).
  assert (Hcells0 : forall b, 0 <= b < Z.of_nat B ->
                      0 <= get o0 (2 + b) /\
                      get o0 (2 + b) + 1 * Z.of_nat (length (zrange 0 n)) < 2^63).
  { intros b Hb. rewrite Z0 by lia. rewrite zrange_length. lia. }
  destruct (histogram_fold key 2 1 B (zrange 0 n) o0 ltac:(lia) Hlen0 ltac:(lia)
              Hkeys Hcells0) as [L1 [G1 U1]].
  cbv zeta in L1, G1, U1.
  assert (E1 : for_loop 0 ne 1
                 (fun i offset0 => snd (stinger_int64_fetch_add offset0 (2 + get sv1 i) 1)) o0
               = fold_left (fun o i => set o (2 + key i) (add64 (get o (2 + key i)) 1))
                           (zrange 0 n) o0).
  { unfold for_loop. replace ne with (0 + Z.of_nat n) by (unfold n; lia).
    rewrite loop_indices_unit. reflexivity. }
  rewrite E1.
  set (o1 := fold_left (fun o i => set o (2 + key i) (add64 (get o (2 + key i)) 1))
                       (zrange 0 n) o0) in *.
  assert (Hlen1 : 2 + Z.of_nat B <= Z.of_nat (length o1)) by (rewrite L1; exact Hlen0).
  assert (Hbound : 1 * Z.of_nat (length (zrange 0 n)) < 2^63)
    by (rewrite zrange_length; lia).
  assert (Hk0 : forall i, In i (zrange 0 n) -> 0 <= key i)
    by (intros i Hi; apply Hkeys in Hi; lia).
  assert (Hc1 : forall b, 0 <= b < Z.of_nat B ->
                  get o1 (2 + b) = 1 * bucket_count key (zrange 0 n) b).
  { intros b Hb. rewrite G1 by exact Hb. rewrite Z0 by lia. lia. }
  assert (Hz1 : get o1 (2 - 1) = 0).
  { replace (2 - 1) with 1 by lia. rewrite U1 by lia. apply Z0. lia. }
  destruct (prefix_loop key (zrange 0 n) 2 1 1 B o1 ltac:(lia) ltac:(lia) Hlen1
              ltac:(lia) Hbound Hk0 Hc1 Hz1) as [L2 [G2 U2]].
  cbv zeta in L2, G2, U2. rewrite HB in *.
  split; [congruence|]. split.
  - rewrite U2, U1 by lia. apply Z0. lia.
  - intros b Hb. rewrite (bucket_start_perm key sched (zrange 0 n) b Hsched).
    destruct (Z.eq_dec b 0) as [->|Hb0].
    + rewrite U2, U1 by lia. rewrite Z0 by lia.
      symmetry. apply bucket_start_zero. intros i Hi. apply Hkeys in Hi. lia.
    + replace (1 + b) with (2 + (b - 1)) by lia. rewrite G2 by lia.
      replace (b - 1 + 1) with b by lia. lia.
Qed.

Let ok (s : csr_arrays) : Prop :=
  length (c_offset s) = length offset /\ length (c_ev2 s) = length ev2 /\
  length (c_w2 s) = length w2 /\ get (c_offset s) 0 = 0.

Let final (s0 : csr_arrays) : csr_arrays := fold_left (fun st i => body i st) sched s0.

Lemma moved_edges :
  let s := final {| c_offset := offset3; c_ev2 := ev2; c_w2 := w2; c_t1 := t1; c_t2 := t2 |} in
  Permutation (csr_to_edge_list nv (c_offset s) (c_ev2 s) (c_w2 s))
              (edge_list ne sv1 ev1 w1).
Proof.
  destruct offset3_spec as [L3 [Z3 G3]].
  pose proof sched_length as HSL. pose proof sched_keys as HSK.
  pose proof (scatter_result key B sched body ok
                (fun s b => get (c_offset s) (1 + b))
                (fun s q => (get (c_ev2 s) q, get (c_w2 s) q))
                (fun i => (get ev1 i, get w1 i)) HSK) as H.
  rewrite HSL in H.
  assert (Hn : Z.of_nat n = ne) by (unfold n; lia).
  assert (HB : Z.of_nat B = nv) by (unfold B; lia).
  rewrite Hn in H.
  specialize (H ltac:(
    intros i s Hi [O1 [O2 [O3 O4]]] Hc; unfold ok;
    rewrite body_offset, body_ev2, body_w2, !set_length;
    repeat split; try assumption;
    rewrite get_set_other; [exact O4 | pose proof (HSK i Hi); unfold key in *; lia])).
  specialize (H ltac:(
    intros i s b Hi [O1 [O2 [O3 O4]]] Hc Hb; pose proof (HSK i Hi) as Hk; unfold key in *;
    rewrite body_offset, get_set by lia;
    rewrite add64_id by (unfold in_i64; lia);
    destruct (Z.eqb_spec (1 + b) (1 + get sv1 i)), (Z.eqb_spec b (get sv1 i));
      try lia; congruence)).
  specialize (H ltac:(
    intros i s q Hi [O1 [O2 [O3 O4]]] Hc Hq; unfold key in *;
    rewrite body_ev2, body_w2, !get_set by lia;
    destruct (Z.eqb_spec q (get (c_offset s) (1 + get sv1 i))); reflexivity)).
  specialize (H {| c_offset := offset3; c_ev2 := ev2; c_w2 := w2; c_t1 := t1; c_t2 := t2 |}).
  specialize (H ltac:(unfold ok; simpl; auto)).
  specialize (H ltac:(simpl; intros b Hb; apply G3; exact Hb)).
  cbv zeta in H. fold (final {| c_offset := offset3; c_ev2 := ev2; c_w2 := w2;
                                c_t1 := t1; c_t2 := t2 |}) in H.
  cbv zeta.
  set (s := final {| c_offset := offset3; c_ev2 := ev2; c_w2 := w2;
                     c_t1 := t1; c_t2 := t2 |}) in *.
  destruct H as [[O1 [O2 [O3 O4]]] [Hcur [Hbucket _]]].
  assert (Hoff : forall v, 0 <= v <= nv -> get (c_offset s) v = bucket_start key sched v).
  { intros v Hv. destruct (Z.eq_dec v 0) as [->|Hv0].
    - rewrite O4. symmetry. apply bucket_start_zero. intros i Hi. apply HSK in Hi. lia.
    - replace v with (1 + (v - 1)) at 1 by lia. rewrite Hcur by lia. f_equal. lia. }
  unfold csr_to_edge_list.
  rewrite (flat_map_ext_in _
             (fun v => map (fun i => (key i, get ev1 i, get w1 i))
                           (filter (fun i => key i =? v) sched))).
  - fold B. change (flat_map
                      (fun v => map (fun i => (key i, get ev1 i, get w1 i))
                                    (filter (fun i => key i =? v) sched)) (zrange 0 B))
      with (flat_map (fun v => map (fun i => (key i, get ev1 i, get w1 i))
                                   ((fun b => filter (fun i => key i =? b) sched) v))
                     (zrange 0 B)).
    rewrite <- map_flat_map. fold (bucketed key B sched).
    unfold edge_list. fold n. fold key.
    apply Permutation_map.
    transitivity sched; [apply bucketed_permutation; exact HSK | exact Hsched].
  - intros v Hv. apply in_zrange in Hv. rewrite Z2Nat.id in Hv by lia.
    rewrite !Hoff by lia. rewrite bucket_start_succ.
    replace (bucket_start key sched v + bucket_count key sched v - bucket_start key sched v)
      with (bucket_count key sched v) by lia.
    unfold bucket_count at 1. rewrite Nat2Z.id.
    specialize (Hbucket v ltac:(lia)).
    transitivity (map (fun p : Z * Z => (v, fst p, snd p))
                      (map (fun q => (get (c_ev2 s) q, get (c_w2 s) q))
                           (zrange (bucket_start key sched v)
                                   (length (filter (fun i => key i =? v) sched))))).
    + rewrite map_map. reflexivity.
    + rewrite Hbucket, map_map. apply map_ext_in. intros i Hi.
      apply filter_In in Hi. destruct Hi as [_ Hi]. apply Z.eqb_eq in Hi.
      simpl. now rewrite Hi.
Qed.
End EdgeListToCsr.

(** C4. For every edge list of [ne] edges over [nv] vertices, with or
    without timestamps and in whatever order the iterations of the parallel
    loop claim their cells, the edge list read back from the arrays
    [offset], [ev2] and [w2] that [edge_list_to_csr] has filled holds the
    same (source, destination, weight) triples as the input, each as many
    times: duplicates are kept. *)
Theorem edge_list_to_csr_round_trip
        (sched : list Z) (nv ne : Z) (sv1 ev1 w1 : list Z)
        (timeRecent timeFirst : option (list Z)) (ev2 w2 offset t2 t1 : list Z) :
  0 <= nv -> 0 <= ne < 2^63 ->
  Permutation sched (zrange 0 (Z.to_nat ne)) ->
  Z.of_nat (length sv1) = ne -> Z.of_nat (length ev1) = ne -> Z.of_nat (length w1) = ne ->
  nv + 2 <= Z.of_nat (length offset) ->
  ne <= Z.of_nat (length ev2) -> ne <= Z.of_nat (length w2) ->
  Forall (fun s => 0 <= s < nv) sv1 ->
  let r := edge_list_to_csr sched nv ne sv1 ev1 w1 timeRecent timeFirst ev2 w2 offset t2 t1 in
  Permutation (csr_to_edge_list nv (c_offset r) (c_ev2 r) (c_w2 r))
              (edge_list ne sv1 ev1 w1).
Proof.
  intros Hnv Hne Hsched Lsv Lev Lw Loff Lev2 Lw2 Hsv. cbv zeta.
  assert (Hsv' : forall i, 0 <= i < ne -> 0 <= get sv1 i < nv).
  { intros i Hi. apply (Forall_get (fun s => 0 <= s < nv)); [exact Hsv | lia]. }
  unfold edge_list_to_csr. cbv zeta.
  destruct timeRecent as [tr|], timeFirst as [tf|].
  - apply (moved_edges sched nv ne sv1 ev1 w1 ev2 w2 offset t2 t1
             (move_edge_timed sv1 ev1 w1 tr tf)); auto.
  - apply (moved_edges sched nv ne sv1 ev1 w1 ev2 w2 offset t2 t1
             (move_edge sv1 ev1 w1)); auto.
  - apply (moved_edges sched nv ne sv1 ev1 w1 ev2 w2 offset t2 t1
             (move_edge sv1 ev1 w1)); auto.
  - apply (moved_edges sched nv ne sv1 ev1 w1 ev2 w2 offset t2 t1
             (move_edge sv1 ev1 w1)); auto.
Qed.

Lemma edge_list_to_csr_round_trip_witness :
  let r := edge_list_to_csr [4; 2; 0; 3; 1] 3 5 [2; 0; 2; 1; 0] [1; 1; 1; 0; 1]
             [100; 101; 100; 103; 101] None None
             [0; 0; 0; 0; 0] [0; 0; 0; 0; 0] [9; 9; 9; 9; 9] [] [] in
  Permutation (csr_to_edge_list 3 (c_offset r) (c_ev2 r) (c_w2 r))
              (edge_list 5 [2; 0; 2; 1; 0] [1; 1; 1; 0; 1] [100; 101; 100; 103; 101]).
Proof.
  apply (edge_list_to_csr_round_trip [4; 2; 0; 3; 1] 3 5 [2; 0; 2; 1; 0] [1; 1; 1; 0; 1]
           [100; 101; 100; 103; 101] None None
           [0; 0; 0; 0; 0] [0; 0; 0; 0; 0] [9; 9; 9; 9; 9] [] []);
    try (simpl; lia); try reflexivity.
  - vm_compute.
    apply (perm_trans (l' := [0; 4; 2; 3; 1])).
    + apply (Permutation_app_swap_app [4; 2] [0] [3; 1]).
    + constructor.
      apply (perm_trans (l' := [1; 4; 2; 3])).
      * apply (Permutation_app_comm [4; 2; 3] [1]).
      * constructor. apply (perm_trans (l' := [2; 4; 3])).
        -- apply perm_swap.
        -- constructor. apply perm_swap.
  - repeat (apply Forall_cons; [lia|]). apply Forall_nil.
Defined.

(** The example has the edge (2, 1, 100) twice: it is there twice afterwards. *)
Example edge_list_to_csr_duplicates :
  let r := edge_list_to_csr [0; 1; 2; 3; 4] 3 5 [2; 0; 2; 1; 0] [1; 1; 1; 0; 1]
             [100; 101; 100; 103; 101] None None
             [0; 0; 0; 0; 0] [0; 0; 0; 0; 0] [9; 9; 9; 9; 9] [] [] in
  csr_to_edge_list 3 (c_offset r) (c_ev2 r) (c_w2 r)
  = [(0, 1, 101); (0, 1, 101); (1, 0, 103); (2, 1, 100); (2, 1, 100)].
Proof. reflexivity. Qed.


(** ** The contract of [qsort] has an instance *)

Lemma insert_by_perm {A : Type} (cmp : A -> A -> Z) (x : A) (l : list A) :
  Permutation (x :: l) (insert_by cmp x l).
Proof.
  induction l as [|y t IH]; simpl; [reflexivity|].
  destruct (cmp x y <=? 0); [reflexivity|].
  rewrite perm_swap. now constructor.
Qed.

Lemma insertion_qsort_perm {A : Type} (cmp : A -> A -> Z) (l : list A) :
  Permutation l (insertion_qsort A cmp l).
Proof.
  unfold insertion_qsort. induction l as [|x t IH]; simpl; [reflexivity|].
  rewrite <- insert_by_perm. now constructor.
Qed.

Lemma insert_by_sorted {A : Type} (cmp : A -> A -> Z) (x : A) (l : list A) :
  (forall a b, In a (x :: l) -> In b (x :: l) -> cmp a b <= 0 \/ cmp b a <= 0) ->
  (forall a b c, In a (x :: l) -> In b (x :: l) -> In c (x :: l) ->
                 cmp a b <= 0 -> cmp b c <= 0 -> cmp a c <= 0) ->
  StronglySorted (fun a b => cmp a b <= 0) l ->
  StronglySorted (fun a b => cmp a b <= 0) (insert_by cmp x l).
Proof.
  intros Htot Htr Hs. induction l as [|y t IH]; simpl.
  - constructor; constructor.
  - inversion Hs as [|y' t' Hst Hy]; subst.
    destruct (Z.leb_spec (cmp x y) 0) as [Hle|Hgt].
    + constructor; [exact Hs|]. constructor; [exact Hle|].
      rewrite Forall_forall in Hy |- *. intros z Hz.
      apply (Htr x y z); simpl; auto.
    + constructor.
      * apply IH; [| |exact Hst].
        -- intros a b Ha Hb. apply Htot; simpl in *; tauto.
        -- intros a b c Ha Hb Hc. apply Htr; simpl in *; tauto.
      * apply Forall_forall. intros z Hz.
        apply (Permutation_in _ (Permutation_sym (insert_by_perm cmp x t))) in Hz.
        destruct Hz as [<-|Hz].
        -- destruct (Htot x y) as [H|H]; simpl; auto. lia.
        -- rewrite Forall_forall in Hy. now apply Hy.
Qed.

Lemma insertion_qsort_sorted {A : Type} (cmp : A -> A -> Z) (l : list A) :
  cmp_consistent cmp l ->
  StronglySorted (fun a b => cmp a b <= 0) (insertion_qsort A cmp l).
Proof.
  unfold insertion_qsort, cmp_consistent. induction l as [|x t IH]; intros [Htot Htr]; simpl.
  - constructor.
  - assert (Hin : forall a, In a (x :: fold_right (insert_by cmp) [] t) -> In a (x :: t)).
    { intros a [<-|Ha]; [now left|]. right.
      apply (Permutation_in _ (Permutation_sym (insertion_qsort_perm cmp t)) Ha). }
    apply insert_by_sorted.
    + intros a b Ha Hb. apply Htot; now apply Hin.
    + intros a b c Ha Hb Hc. apply Htr; now apply Hin.
    + apply IH. split.
      * intros a b Ha Hb. apply Htot; now right.
      * intros a b c Ha Hb Hc. apply Htr; now right.
Qed.

Lemma insert_by_ext {A : Type} (cmp cmp' : A -> A -> Z) (x : A) (l : list A) :
  (forall b, In b l -> cmp x b = cmp' x b) ->
  insert_by cmp x l = insert_by cmp' x l.
Proof.
  induction l as [|y t IH]; intros H; simpl; [reflexivity|].
  rewrite (H y (or_introl eq_refl)). destruct (cmp' x y <=? 0); [reflexivity|].
  f_equal. apply IH. intros b Hb. apply H. now right.
Qed.

Lemma insertion_qsort_ext {A : Type} (cmp cmp' : A -> A -> Z) (l : list A) :
  (forall a b, In a l -> In b l -> cmp a b = cmp' a b) ->
  insertion_qsort A cmp l = insertion_qsort A cmp' l.
Proof.
  unfold insertion_qsort. induction l as [|x t IH]; intros H; simpl; [reflexivity|].
  rewrite IH by (intros a b Ha Hb; apply H; now right).
  apply insert_by_ext. intros b Hb. apply H; [now left|]. right.
  apply (Permutation_in _ (Permutation_sym (insertion_qsort_perm cmp' t)) Hb).
Qed.

Lemma insertion_qsort_contract : qsort_contract insertion_qsort.
Proof.
  constructor.
  - intros A cmp l. apply insertion_qsort_perm.
  - intros A cmp l. apply insertion_qsort_sorted.
  - intros A cmp cmp' l. apply insertion_qsort_ext.
Qed.

(** [i64_pair_cmp] is usable on every list. *)
Lemma i64_pair_cmp_consistent (l : list (Z * Z)) : cmp_consistent i64_pair_cmp l.
Proof.
  split.
  - intros a b _ _. rewrite !i64_pair_cmp_le. lia.
  - intros a b c _ _ _. rewrite !i64_pair_cmp_le. lia.
Qed.

(** ** Arrays of pairs *)

Lemma pairs_at_length (a : list Z) (from : Z) (n : nat) : length (pairs_at a from n) = n.
Proof. unfold pairs_at. now rewrite length_map, zrange_length. Qed.

Lemma pairs_at_app (a : list Z) (from : Z) (n1 n2 : nat) :
  pairs_at a from (n1 + n2) = pairs_at a from n1 ++ pairs_at a (from + 2 * Z.of_nat n1) n2.
Proof.
  unfold pairs_at. rewrite zrange_app, map_app. f_equal.
  unfold zrange. rewrite !map_map. apply map_ext. intros k.
  f_equal; f_equal; lia.
Qed.

Lemma nth_pairs_at (a : list Z) (from : Z) (n k : nat) (d : Z * Z) :
  (k < n)%nat ->
  nth k (pairs_at a from n) d
  = (get a (from + 2 * Z.of_nat k), get a (from + 2 * Z.of_nat k + 1)).
Proof.
  intros H. unfold pairs_at, zrange. rewrite map_map, nth_map_seq by exact H.
  simpl. reflexivity.
Qed.

(** Two arrays with the same cells in a range hold the same pairs there. *)
Lemma pairs_at_ext (a b : list Z) (from : Z) (n : nat) :
  (forall j, from <= j < from + 2 * Z.of_nat n -> get a j = get b j) ->
  pairs_at a from n = pairs_at b from n.
Proof.
  intros H. unfold pairs_at. apply map_ext_in. intros k Hk.
  apply in_zrange in Hk. rewrite !H by lia. reflexivity.
Qed.

Lemma store_pairs_spec (ps : list (Z * Z)) (a : list Z) (from : Z) :
  0 <= from -> from + 2 * Z.of_nat (length ps) <= Z.of_nat (length a) ->
  length (store_pairs a from ps) = length a /\
  pairs_at (store_pairs a from ps) from (length ps) = ps /\
  (forall j, ~ (from <= j < from + 2 * Z.of_nat (length ps)) ->
             get (store_pairs a from ps) j = get a j).
Proof.
  revert a from. induction ps as [|p t IH]; intros a from Hf Hl.
  - simpl. repeat split.
  - simpl store_pairs. simpl length in Hl.
    set (a1 := set (set a from (fst p)) (from + 1) (snd p)).
    assert (L1 : length a1 = length a) by (unfold a1; now rewrite !set_length).
    destruct (IH a1 (from + 2) ltac:(lia) ltac:(rewrite L1; lia)) as [Hl' [Hp Hu]].
    split; [congruence|]. split.
    + change (length (p :: t)) with (1 + length t)%nat. rewrite pairs_at_app.
      replace (from + 2 * Z.of_nat 1) with (from + 2) by lia. rewrite Hp.
      unfold pairs_at. simpl.
      rewrite !Hu by lia. unfold a1.
      replace (from + 0 + 1) with (from + 1) by lia.
      replace (from + 0) with from by lia.
      rewrite get_set_other by lia. rewrite get_set_same by lia.
      rewrite get_set_same by (rewrite set_length; lia).
      now destruct p.
    + intros j Hj. simpl length in Hj. rewrite Hu by lia.
      unfold a1. rewrite !get_set_other by lia. reflexivity.
Qed.

(** The pairs of an array, bucket after bucket. *)
Lemma pairs_at_buckets (a : list Z) (key : Z -> Z) (l : list Z) (B : nat) :
  (forall i, In i l -> 0 <= key i) ->
  pairs_at a 0 (length (bucketed key B l))
  = flat_map (fun b => pairs_at a (2 * bucket_start key l b)
                                (length (filter (fun i => key i =? b) l)))
             (zrange 0 B).
Proof.
  intros Hk. induction B as [|B IH]; [reflexivity|].
  rewrite bucketed_succ, length_app, pairs_at_app, IH.
  rewrite zrange_succ, flat_map_app. cbn [flat_map]. rewrite app_nil_r. f_equal.
  rewrite !Z.add_0_l. f_equal.
  pose proof (bucketed_length key B l) as HL.
  rewrite (bucket_start_zero key l 0) in HL by exact Hk. lia.
Qed.

Lemma StronglySorted_flat_map {A : Type} (R : A -> A -> Prop)
      (F : Z -> list A) (lo : Z) (n : nat) :
  (forall b, lo <= b < lo + Z.of_nat n -> StronglySorted R (F b)) ->
  (forall b b' x y, lo <= b < b' -> b' < lo + Z.of_nat n ->
                    In x (F b) -> In y (F b') -> R x y) ->
  StronglySorted R (flat_map F (zrange lo n)).
Proof.
  intros Hs Hc. induction n as [|n IH]; [constructor|].
  rewrite zrange_succ, flat_map_app. simpl. rewrite app_nil_r.
  apply StronglySorted_app.
  - apply IH.
    + intros b Hb. apply Hs. lia.
    + intros b b' x y Hb Hb'. apply Hc; lia.
  - apply Hs. lia.
  - intros x y Hx Hy. apply in_flat_map in Hx. destruct Hx as [b [Hb Hx]].
    apply in_zrange in Hb. apply (Hc b (lo + Z.of_nat n)); auto; lia.
Qed.

Lemma Permutation_flat_map_pointwise {A B : Type} (F G : A -> list B) (l : list A) :
  (forall a, In a l -> Permutation (F a) (G a)) ->
  Permutation (flat_map F l) (flat_map G l).
Proof.
  induction l as [|a t IH]; intros H; simpl; [constructor|].
  apply Permutation_app; [apply H; now left|]. apply IH. intros x Hx. apply H. now right.
Qed.

Lemma StronglySorted_small {A : Type} (R : A -> A -> Prop) (l : list A) :
  (length l < 2)%nat -> StronglySorted R l.
Proof.
  destruct l as [|x [|y t]]; simpl; intros H; try lia; repeat constructor.
Qed.

(** Copying the first [m] cells of one array into another. *)
Lemma copy_cells (m : Z) (src dst : list Z) :
  0 <= m <= Z.of_nat (length dst) ->
  let dst' := for_loop 0 m 1 (fun i dst => set dst i (get src i)) dst in
  length dst' = length dst /\
  (forall j, 0 <= j < m -> get dst' j = get src j) /\
  (forall j, ~ (0 <= j < m) -> get dst' j = get dst j).
Proof.
  intros Hm. cbv zeta.
  pose proof (for_loop_ind1
    (fun i st => length st = length dst /\ (forall j, 0 <= j < i -> get st j = get src j) /\
                 (forall j, ~ (0 <= j < m) -> get st j = get dst j))
    0 m (fun i dst => set dst i (get src i)) dst ltac:(lia)) as H.
  apply H; clear H.
  - split; [reflexivity|]. split; [intros j Hj; lia | reflexivity].
  - intros i st Hi [H1 [H2 H3]]. split; [now rewrite set_length|]. split.
    + intros j Hj. rewrite get_set by lia.
      destruct (Z.eqb_spec j i) as [->|]; [reflexivity|]. apply H2. lia.
    + intros j Hj. rewrite get_set_other by lia. now apply H3.
Qed.


(** *** Moving pairs to their buckets *)

Lemma half_double (v : Z) : 2 * v / 2 = v.
Proof. rewrite Z.mul_comm. apply Z.div_mul. lia. Qed.

Section PairScatter.
Variable src : list Z.
Variable key : Z -> Z.
Variable B : nat.
Variable sched : list Z.
Variables cursor0 dst0 : list Z.

Let n : Z := Z.of_nat (length sched).
Let item (j : Z) : Z * Z := (get src j, get src (j + 1)).

Hypothesis Hkeys : forall i, In i sched -> 0 <= key i < Z.of_nat B.
Hypothesis Hcursor : 1 + Z.of_nat B <= Z.of_nat (length cursor0).
Hypothesis Hdst : 2 * n <= Z.of_nat (length dst0).
Hypothesis Hn : 2 * n < 2^63.
Hypothesis Hinit : forall b, 0 <= b < Z.of_nat B ->
                             get cursor0 (1 + b) = 2 * bucket_start key sched b.

Let ok (s : list Z * list Z) : Prop :=
  length (fst s) = length cursor0 /\ length (snd s) = length dst0 /\
  (forall b, 0 <= b < Z.of_nat B -> exists v, get (fst s) (1 + b) = 2 * v) /\
  (forall j, ~ (1 <= j < 1 + Z.of_nat B) -> get (fst s) j = get cursor0 j).

Let cur (s : list Z * list Z) (b : Z) : Z := get (fst s) (1 + b) / 2.
Let slot (s : list Z * list Z) (q : Z) : Z * Z :=
  (get (snd s) (2 * q), get (snd s) (2 * q + 1)).
Let body (j : Z) (st : list Z * list Z) : list Z * list Z :=
  move_pair src (1 + key j) j st.

Lemma pair_body_ok (i : Z) (s : list Z * list Z) :
  In i sched -> ok s -> 0 <= cur s (key i) < n -> ok (body i s).
Proof.
  intros Hi [L1 [L2 [Hev Hun]]] Hc. pose proof (Hkeys i Hi) as Hk.
  destruct (Hev (key i) Hk) as [v Hv]. unfold cur in Hc. rewrite Hv in Hc.
  rewrite half_double in Hc.
  unfold ok, body, move_pair, stinger_int64_fetch_add. cbn [fst snd].
  rewrite !set_length. repeat split; try assumption.
  - intros b Hb. rewrite get_set by lia.
    destruct (Z.eqb_spec (1 + b) (1 + key i)).
    + exists (v + 1). rewrite Hv. rewrite add64_id by (unfold in_i64; lia). lia.
    + now apply Hev.
  - intros j Hj. rewrite get_set_other by lia. now apply Hun.
Qed.

Lemma pair_body_cur (i : Z) (s : list Z * list Z) (b : Z) :
  In i sched -> ok s -> 0 <= cur s (key i) < n -> 0 <= b < Z.of_nat B ->
  cur (body i s) b = if b =? key i then cur s b + 1 else cur s b.
Proof.
  intros Hi [L1 [L2 [Hev Hun]]] Hc Hb. pose proof (Hkeys i Hi) as Hk.
  destruct (Hev (key i) Hk) as [v Hv]. unfold cur in *. rewrite Hv in Hc.
  rewrite half_double in Hc.
  unfold body, move_pair, stinger_int64_fetch_add. cbn [fst snd].
  rewrite get_set by lia.
  destruct (Z.eqb_spec (1 + b) (1 + key i)), (Z.eqb_spec b (key i)); try lia.
  subst b. rewrite Hv. rewrite add64_id by (unfold in_i64; lia).
  replace (2 * v + 2) with (2 * (v + 1)) by lia.
  now rewrite !half_double.
Qed.

Lemma pair_body_slot (i : Z) (s : list Z * list Z) (q : Z) :
  In i sched -> ok s -> 0 <= cur s (key i) < n -> 0 <= q < n ->
  slot (body i s) q = if q =? cur s (key i) then item i else slot s q.
Proof.
  intros Hi [L1 [L2 [Hev Hun]]] Hc Hq. pose proof (Hkeys i Hi) as Hk.
  destruct (Hev (key i) Hk) as [v Hv]. unfold cur in *. rewrite Hv in Hc |- *.
  rewrite half_double in *.
  unfold slot, body, move_pair, stinger_int64_fetch_add. cbn [fst snd].
  rewrite Hv.
  destruct (Z.eqb_spec q v) as [->|Hne].
  - rewrite get_set_other by lia. rewrite get_set_same by lia.
    rewrite get_set_same by (rewrite set_length; lia). reflexivity.
  - rewrite !get_set_other by lia. reflexivity.
Qed.

Lemma pair_scatter :
  let st := fold_left (fun st j => move_pair src (1 + key j) j st) sched (cursor0, dst0) in
  length (fst st) = length cursor0 /\
  length (snd st) = length dst0 /\
  (forall b, 0 <= b < Z.of_nat B ->
             get (fst st) (1 + b) = 2 * bucket_start key sched (b + 1)) /\
  (forall j, ~ (1 <= j < 1 + Z.of_nat B) -> get (fst st) j = get cursor0 j) /\
  (forall b, 0 <= b < Z.of_nat B ->
             pairs_at (snd st) (2 * bucket_start key sched b)
                      (length (filter (fun i => key i =? b) sched))
             = map item (filter (fun i => key i =? b) sched)) /\
  pairs_at (snd st) 0 (length sched) = map item (bucketed key B sched).
Proof.
  pose proof (scatter_result key B sched body ok cur slot item Hkeys
                pair_body_ok pair_body_cur pair_body_slot (cursor0, dst0)) as H.
  assert (Hok0 : ok (cursor0, dst0)).
  { unfold ok. cbn [fst snd]. repeat split; auto.
    intros b Hb. exists (bucket_start key sched b). now apply Hinit. }
  specialize (H Hok0).
  assert (Hcur0 : forall b, 0 <= b < Z.of_nat B ->
                    cur (cursor0, dst0) b = bucket_start key sched b).
  { intros b Hb. unfold cur. cbn [fst]. rewrite Hinit by exact Hb.
    apply half_double. }
  specialize (H Hcur0). cbv zeta in H |- *.
  change (fold_left (fun st i => body i st) sched (cursor0, dst0))
    with (fold_left (fun st j => move_pair src (1 + key j) j st) sched (cursor0, dst0)) in H.
  set (st := fold_left (fun st j => move_pair src (1 + key j) j st) sched (cursor0, dst0))
    in *.
  destruct H as [[L1 [L2 [Hev Hun]]] [Hc [Hb Hall]]].
  split; [exact L1|]. split; [exact L2|]. split; [|split; [exact Hun|split]].
  - intros b Hbb. specialize (Hc b Hbb). unfold cur in Hc.
    destruct (Hev b Hbb) as [v Hv]. rewrite Hv in Hc |- *.
    rewrite half_double in Hc. lia.
  - intros b Hbb. rewrite <- (Hb b Hbb). unfold pairs_at, zrange, slot.
    rewrite !map_map. apply map_ext. intros k. f_equal; f_equal; lia.
  - rewrite <- Hall. unfold pairs_at, zrange, slot.
    rewrite !map_map. apply map_ext. intros k. f_equal; f_equal; lia.
Qed.
End PairScatter.


(** ** Bucket sort of pairs *)

Lemma max_scan (f : Z -> Z) (l : list Z) (m0 : Z) :
  fold_left (fun m i => if m <? f i then f i else m) l m0 = list_max m0 (map f l).
Proof.
  unfold list_max. revert m0. induction l as [|i t IH]; intros m0; [reflexivity|].
  simpl. rewrite IH. f_equal.
  destruct (Z.ltb_spec m0 (f i)); [rewrite Z.max_r | rewrite Z.max_l]; lia.
Qed.

Lemma min_scan (f : Z -> Z) (l : list Z) (m0 : Z) :
  fold_left (fun m i => if m >? f i then f i else m) l m0 = list_min m0 (map f l).
Proof.
  unfold list_min. revert m0. induction l as [|i t IH]; intros m0; [reflexivity|].
  simpl. rewrite IH. f_equal.
  destruct (Z.gtb_spec m0 (f i)); [rewrite Z.min_r | rewrite Z.min_l]; lia.
Qed.

Lemma shiftl_1 (num : Z) : Z.shiftl num 1 = num * 2.
Proof. rewrite Z.shiftl_mul_pow2 by lia. reflexivity. Qed.

Lemma shiftr_1_double (c : Z) : Z.shiftr (2 * c) 1 = c.
Proof. rewrite Z.shiftr_div_pow2 by lia. change (2 ^ 1) with 2. apply half_double. Qed.

(** The indices of the pairs of an array of [num] pairs. *)
Lemma pair_indices (num : Z) :
  0 <= num ->
  loop_indices 0 (Z.shiftl num 1) 2 = map (fun k => Z.of_nat k * 2) (seq 0 (Z.to_nat num)).
Proof. intros H. rewrite shiftl_1. apply loop_indices_stride; lia. Qed.

Lemma pair_indices_cons (num : Z) :
  1 <= num ->
  loop_indices 0 (Z.shiftl num 1) 2 = 0 :: loop_indices 2 (Z.shiftl num 1) 2.
Proof.
  intros H. rewrite shiftl_1, loop_indices_stride, loop_indices_stride_tail by lia.
  replace (Z.to_nat num) with (S (Z.to_nat (num - 1))) by lia.
  rewrite <- cons_seq, <- seq_shift. simpl map. now rewrite map_map.
Qed.

Lemma pairs_at_indices (a : list Z) (num : Z) :
  0 <= num ->
  pairs_of a num = map (fun j => (get a j, get a (j + 1))) (loop_indices 0 (Z.shiftl num 1) 2).
Proof.
  intros H. rewrite pair_indices by exact H. unfold pairs_of, pairs_at, zrange.
  rewrite !map_map. apply map_ext. intros k. f_equal; f_equal; lia.
Qed.

Lemma StronglySorted_weaken {A : Type} (R R' : A -> A -> Prop) (l : list A) :
  (forall x y, In x l -> In y l -> R x y -> R' x y) ->
  StronglySorted R l -> StronglySorted R' l.
Proof.
  intros H Hs. induction Hs as [|a t Hs IH Ha]; constructor.
  - apply IH. intros x y Hx Hy. apply H; now right.
  - rewrite Forall_forall in Ha |- *. intros y Hy.
    apply H; [now left | now right | now apply Ha].
Qed.

Section BucketSort.
Variable qsort : qsort_fn.
Hypothesis Hqsort : qsort_contract qsort.
Variables (sched array : list Z) (num : Z).

Let idx : list Z := loop_indices 0 (Z.shiftl num 1) 2.
Let n : nat := Z.to_nat num.

Hypothesis Hnum : 1 <= num.
Hypothesis Hsched : Permutation sched idx.
Hypothesis Hlen : 2 * num <= Z.of_nat (length array) < 2^61.
Hypothesis Hfirst : forall i, In i idx -> - 2^59 <= get array i < 2^59.

Let mx : Z := list_max (get array 0) (map (get array) (loop_indices 2 (Z.shiftl num 1) 2)).
Let mn : Z := list_min (get array 0) (map (get array) (loop_indices 2 (Z.shiftl num 1) 2)).
Let range : Z := mx - mn + 1.
Let offset : Z := - mn.
Let B : nat := Z.to_nat range.
Let key (i : Z) : Z := add64 (get array i) offset.
Let item (j : Z) : Z * Z := (get array j, get array (j + 1)).
Let U (b : Z) : list (Z * Z) := map item (filter (fun i => key i =? b) sched).
Let Sb (b : Z) : list (Z * Z) :=
  if 2 <=? Z.of_nat (length (U b)) then qsort (Z * Z)%type i64_pair_cmp (U b) else U b.

Lemma idx_length : length idx = n.
Proof. unfold idx. rewrite pair_indices by lia. now rewrite length_map, length_seq. Qed.

Lemma idx_range (i : Z) : In i idx -> 0 <= i /\ i + 1 < 2 * num.
Proof.
  unfold idx. rewrite pair_indices by lia. rewrite in_map_iff.
  intros [k [<- Hk]]. apply in_seq in Hk. lia.
Qed.

Lemma firsts_bounds :
  In mn (map (get array) idx) /\ In mx (map (get array) idx) /\
  forall i, In i idx -> mn <= get array i <= mx.
Proof.
  unfold idx. rewrite pair_indices_cons by exact Hnum. simpl map.
  destruct (list_min_spec (map (get array) (loop_indices 2 (Z.shiftl num 1) 2)) (get array 0))
    as [H1 H2].
  destruct (list_max_spec (map (get array) (loop_indices 2 (Z.shiftl num 1) 2)) (get array 0))
    as [H3 H4].
  fold mn in H1, H2. fold mx in H3, H4. split; [exact H1|]. split; [exact H3|].
  intros i Hi. split; [apply H2 | apply H4];
    (destruct Hi as [<-|Hi]; [now left | right; now apply in_map]).
Qed.

Lemma mn_mx_range : - 2^59 <= mn /\ mn <= mx /\ mx < 2^59.
Proof.
  destruct firsts_bounds as [H1 [H2 H3]].
  apply in_map_iff in H1. destruct H1 as [i [E1 Hi]].
  apply in_map_iff in H2. destruct H2 as [j [E2 Hj]].
  pose proof (Hfirst i Hi). pose proof (Hfirst j Hj). pose proof (H3 i Hi). lia.
Qed.

Lemma key_spec (i : Z) : In i idx -> key i = get array i - mn /\ 0 <= key i < Z.of_nat B.
Proof.
  intros Hi. destruct firsts_bounds as [_ [_ H3]]. pose proof (H3 i Hi).
  pose proof (Hfirst i Hi). pose proof mn_mx_range.
  unfold key, offset. rewrite add64_id by (unfold in_i64; lia).
  unfold B, range. lia.
Qed.

Lemma sched_in (i : Z) : In i sched -> In i idx.
Proof. apply Permutation_in. exact Hsched. Qed.

Lemma sched_length_n : length sched = n.
Proof. rewrite (Permutation_length Hsched). apply idx_length. Qed.

(** The array [start] when the pairs are about to be moved. *)
Let start2 : list Z :=
  let start := xmalloc (range + 2) in
  let start := for_loop 0 (range + 2) 1 (fun i start => set start i 0) start in
  let start :=
    for_loop 0 (Z.shiftl num 1) 2
      (fun i start => set start (2 + add64 (get array i) offset)
                          (add64 (get start (2 + add64 (get array i) offset)) 2)) start in
  for_loop 0 range 1
    (fun i start => set start (2 + i) (add64 (get start (2 + i)) (get start (2 + (i - 1)))))
    start.

Lemma start2_spec :
  Z.of_nat (length start2) = range + 2 /\
  get start2 0 = 0 /\
  forall b, 0 <= b < Z.of_nat B -> get start2 (1 + b) = 2 * bucket_start key sched b.
Proof.
  pose proof mn_mx_range as Hmm.
  assert (HB : Z.of_nat B = range) by (unfold B, range; lia).
  unfold start2. cbv zeta.
  assert (L00 : Z.of_nat (length (xmalloc (range + 2))) = range + 2).
  { unfold xmalloc. rewrite repeat_length. unfold range. lia. }
  destruct (zero_cells (range + 2) (xmalloc (range + 2)) ltac:(unfold range in *; lia))
    as [L0 [Z0 U0]]. cbv zeta in L0, Z0, U0.
  set (o0 := for_loop 0 (range + 2) 1 (fun i start => set start i 0) (xmalloc (range + 2)))
    in *.
  assert (Hkeys : forall i, In i idx -> 0 <= key i < Z.of_nat B)
    by (intros i Hi; apply key_spec; exact Hi).
  assert (Hlen0 : 2 + Z.of_nat B <= Z.of_nat (length o0)) by (rewrite L0; lia).
  assert (Hcells0 : forall b, 0 <= b < Z.of_nat B ->
                      0 <= get o0 (2 + b) /\
                      get o0 (2 + b) + 2 * Z.of_nat (length idx) < 2^63).
  { intros b Hb. rewrite Z0 by lia. rewrite idx_length. unfold n. lia. }
  destruct (histogram_fold key 2 2 B idx o0 ltac:(lia) Hlen0 ltac:(lia) Hkeys Hcells0)
    as [L1 [G1 U1]]. cbv zeta in L1, G1, U1.
  change (for_loop 0 (Z.shiftl num 1) 2
            (fun i start => set start (2 + add64 (get array i) offset)
                                (add64 (get start (2 + add64 (get array i) offset)) 2)) o0)
    with (fold_left (fun o i => set o (2 + key i) (add64 (get o (2 + key i)) 2)) idx o0).
  set (o1 := fold_left (fun o i => set o (2 + key i) (add64 (get o (2 + key i)) 2)) idx o0)
    in *.
  assert (Hlen1 : 2 + Z.of_nat B <= Z.of_nat (length o1)) by (rewrite L1; exact Hlen0).
  assert (Hbound : 2 * Z.of_nat (length idx) < 2^63) by (rewrite idx_length; unfold n; lia).
  assert (Hk0 : forall i, In i idx -> 0 <= key i) by (intros i Hi; apply Hkeys in Hi; lia).
  assert (Hc1 : forall b, 0 <= b < Z.of_nat B -> get o1 (2 + b) = 2 * bucket_count key idx b).
  { intros b Hb. rewrite G1 by exact Hb. rewrite Z0 by lia. lia. }
  assert (Hz1 : get o1 (2 - 1) = 0).
  { replace (2 - 1) with 1 by lia. rewrite U1 by lia. apply Z0. unfold range in *. lia. }
  destruct (prefix_loop key idx 2 2 0 B o1 ltac:(lia) ltac:(lia) Hlen1
              ltac:(lia) Hbound Hk0 Hc1 Hz1) as [L2 [G2 U2]].
  cbv zeta in L2, G2, U2. rewrite HB in *.
  split; [rewrite L2, L1, L0; exact L00|]. split.
  - rewrite U2, U1 by lia. apply Z0. unfold range in *. lia.
  - intros b Hb. rewrite (bucket_start_perm key sched idx b Hsched).
    destruct (Z.eq_dec b 0) as [->|Hb0].
    + rewrite U2, U1 by lia. rewrite Z0 by lia.
      rewrite (bucket_start_zero key idx 0) by exact Hk0. reflexivity.
    + replace (1 + b) with (2 + (b - 1)) by lia. rewrite G2 by lia.
      replace (b - 1 + 1) with b by lia. reflexivity.
Qed.

(** After the move and the copy back. *)
Let st3 : list Z * list Z :=
  fold_left (fun st i => move_pair array (1 + add64 (get array i) offset) i st)
            sched (start2, xmalloc (2 * num)).
Let array1 : list Z :=
  for_loop 0 (Z.shiftl num 1) 1 (fun i array => set array i (get (snd st3) i)) array.

Lemma moved_spec :
  length array1 = length array /\
  (forall j, ~ (0 <= j < 2 * num) -> get array1 j = get array j) /\
  (forall v, 0 <= v <= Z.of_nat B -> get (fst st3) v = 2 * bucket_start key sched v) /\
  (forall b, 0 <= b < Z.of_nat B ->
             pairs_at array1 (2 * bucket_start key sched b) (length (U b)) = U b).
Proof.
  destruct start2_spec as [L2 [Z2 G2]].
  assert (HB : Z.of_nat B = range) by (pose proof mn_mx_range; unfold B, range; lia).
  assert (Hkeys : forall i, In i sched -> 0 <= key i < Z.of_nat B)
    by (intros i Hi; apply key_spec, sched_in; exact Hi).
  pose proof sched_length_n as HSL.
  assert (Hxl : length (xmalloc (2 * num)) = Z.to_nat (2 * num))
    by (unfold xmalloc; apply repeat_length).
  destruct (pair_scatter array key B sched start2 (xmalloc (2 * num)) Hkeys
              ltac:(lia) ltac:(rewrite Hxl, HSL; unfold n; lia)
              ltac:(rewrite HSL; unfold n; lia) G2)
    as [L3 [L4 [G3 [U3 [P3 _]]]]].
  cbv zeta in L3, L4, G3, U3, P3.
  change (fold_left (fun st j => move_pair array (1 + key j) j st) sched
                    (start2, xmalloc (2 * num))) with st3 in *.
  destruct (copy_cells (Z.shiftl num 1) (snd st3) array ltac:(rewrite shiftl_1; lia))
    as [L5 [G5 U5]]. cbv zeta in L5, G5, U5. fold array1 in L5, G5, U5.
  rewrite shiftl_1 in G5, U5.
  split; [exact L5|]. split; [intros j Hj; apply U5; lia|]. split.
  - intros v Hv. destruct (Z.eq_dec v 0) as [->|Hv0].
    + rewrite U3 by lia. rewrite Z2.
      rewrite bucket_start_zero; [reflexivity|].
      intros i Hi. apply Hkeys in Hi. lia.
    + replace v with (1 + (v - 1)) at 1 by lia. rewrite G3 by lia.
      f_equal. f_equal. lia.
  - intros b Hb. unfold U, item. rewrite length_map. rewrite <- (P3 b Hb).
    apply pairs_at_ext. intros j Hj. apply G5.
    pose proof (bucket_start_succ key sched b) as Hs.
    pose proof (bucket_start_mono key sched (b + 1) (Z.of_nat B) ltac:(lia)) as Hm.
    rewrite (bucket_start_all key sched (Z.of_nat B)) in Hm
      by (intros i Hi; apply Hkeys in Hi; lia).
    rewrite HSL in Hm. unfold bucket_count in Hs.
    assert (0 <= bucket_start key sched b) by (unfold bucket_start; lia).
    unfold n in Hm. lia.
Qed.

Lemma U_length (b : Z) : Z.of_nat (length (U b)) = bucket_count key sched b.
Proof. unfold U. now rewrite length_map. Qed.

Lemma Sb_perm (b : Z) : Permutation (U b) (Sb b).
Proof.
  unfold Sb. destruct (2 <=? Z.of_nat (length (U b))); [|reflexivity].
  apply (qsort_perm qsort Hqsort).
Qed.

Lemma Sb_length (b : Z) : length (Sb b) = length (U b).
Proof. symmetry. apply Permutation_length, Sb_perm. Qed.

(** The last loop: every bucket of two pairs or more is sorted. *)
Lemma sorted_buckets :
  let out := for_loop 0 range 1 (sort_bucket qsort (fst st3)) array1 in
  length out = length array /\
  (forall j, ~ (0 <= j < 2 * num) -> get out j = get array j) /\
  (forall b, 0 <= b < Z.of_nat B ->
             pairs_at out (2 * bucket_start key sched b) (length (U b)) = Sb b).
Proof.
  destruct moved_spec as [L1 [U1 [G1 P1]]].
  pose proof mn_mx_range as Hmm.
  assert (HB : Z.of_nat B = range) by (unfold B, range; lia).
  assert (Hkeys : forall i, In i sched -> 0 <= key i < Z.of_nat B)
    by (intros i Hi; apply key_spec, sched_in; exact Hi).
  pose proof sched_length_n as HSL.
  assert (Hend : bucket_start key sched (Z.of_nat B) = num).
  { rewrite bucket_start_all by (intros i Hi; apply Hkeys in Hi; lia).
    rewrite HSL. unfold n. lia. }
  assert (Hst0 : forall b, 0 <= bucket_start key sched b)
    by (intros b; unfold bucket_start; lia).
  assert (Hsucc : forall b, bucket_start key sched (b + 1)
                            = bucket_start key sched b + Z.of_nat (length (U b))).
  { intros b. rewrite U_length. apply bucket_start_succ. }
  assert (Hmono : forall b b', b <= b' -> bucket_start key sched b <= bucket_start key sched b')
    by (intros b b'; apply bucket_start_mono).
  cbv zeta.
  pose proof (for_loop_ind1
    (fun i arr => length arr = length array /\
       (forall j, ~ (0 <= j < 2 * num) -> get arr j = get array j) /\
       (forall b, 0 <= b < Z.of_nat B ->
                  pairs_at arr (2 * bucket_start key sched b) (length (U b))
                  = if b <? i then Sb b else U b))
    0 range (sort_bucket qsort (fst st3)) array1 ltac:(lia)) as H.
  destruct H as [H1 [H2 H3]].
  - split; [exact L1|]. split; [exact U1|]. intros b Hb.
    destruct (Z.ltb_spec b 0); [lia|]. now apply P1.
  - intros i arr Hi [H1 [H2 H3]]. unfold sort_bucket.
    rewrite !G1 by lia.
    rewrite sub64_id by (rewrite Hsucc; unfold in_i64;
                         pose proof (Hmono (i + 1) (Z.of_nat B) ltac:(lia));
                         pose proof (Hsucc i); pose proof (Hst0 i); lia).
    rewrite Hsucc.
    replace (2 * (bucket_start key sched i + Z.of_nat (length (U i)))
             - 2 * bucket_start key sched i) with (2 * Z.of_nat (length (U i))) by lia.
    pose proof (Hmono (i + 1) (Z.of_nat B) ltac:(lia)) as Hm1.
    pose proof (Hsucc i) as Hs1. pose proof (Hst0 i) as Hs0.
    destruct (Z.geb_spec (2 * Z.of_nat (length (U i))) 4) as [Hbig|Hsmall].
    + unfold qsort_pairs. rewrite shiftr_1_double, Nat2Z.id.
      rewrite (H3 i) by lia. destruct (Z.ltb_spec i i); [lia|].
      assert (HSi : Sb i = qsort (Z * Z)%type i64_pair_cmp (U i)).
      { unfold Sb. destruct (Z.leb_spec 2 (Z.of_nat (length (U i)))); [reflexivity | lia]. }
      rewrite <- HSi.
      destruct (store_pairs_spec (Sb i) arr (2 * bucket_start key sched i))
        as [S1 [S2 S3]]; [lia | rewrite Sb_length; lia |].
      rewrite Sb_length in S2, S3.
      split; [congruence|]. split.
      * intros j Hj. rewrite S3 by lia. now apply H2.
      * intros b Hb. destruct (Z.eq_dec b i) as [->|Hne].
        -- destruct (Z.ltb_spec i (i + 1)); [exact S2 | lia].
        -- transitivity (pairs_at arr (2 * bucket_start key sched b) (length (U b))).
           ++ apply pairs_at_ext. intros j Hj. apply S3.
              pose proof (Hsucc b). 
              destruct (Z.lt_ge_cases b i).
              ** pose proof (Hmono (b + 1) i ltac:(lia)). lia.
              ** pose proof (Hmono (i + 1) b ltac:(lia)). lia.
           ++ rewrite H3 by exact Hb.
              destruct (Z.ltb_spec b i), (Z.ltb_spec b (i + 1)); try reflexivity; lia.
    + split; [exact H1|]. split; [exact H2|].
      intros b Hb. rewrite H3 by exact Hb.
      destruct (Z.eq_dec b i) as [->|Hne].
      * destruct (Z.ltb_spec i i); [lia|]. destruct (Z.ltb_spec i (i + 1)); [|lia].
        unfold Sb. destruct (Z.leb_spec 2 (Z.of_nat (length (U i)))); [lia | reflexivity].
      * destruct (Z.ltb_spec b i), (Z.ltb_spec b (i + 1)); try reflexivity; lia.
  - split; [exact H1|]. split; [exact H2|]. intros b Hb. rewrite H3 by exact Hb.
    destruct (Z.ltb_spec b range); [reflexivity | lia].
Qed.

Lemma U_first (b : Z) (p : Z * Z) : In p (U b) -> fst p = b + mn.
Proof.
  unfold U. rewrite in_map_iff. intros [i [<- Hi]]. apply filter_In in Hi.
  destruct Hi as [Hi Hk]. apply Z.eqb_eq in Hk.
  destruct (key_spec i (sched_in i Hi)) as [E _]. unfold item. simpl. lia.
Qed.

Lemma Sb_sorted (b : Z) : StronglySorted lex_le (Sb b).
Proof.
  unfold Sb. destruct (Z.leb_spec 2 (Z.of_nat (length (U b)))) as [Hbig|Hsmall].
  - apply (StronglySorted_weaken (fun a c => i64_pair_cmp a c <= 0)).
    + intros x y _ _ H. now apply i64_pair_cmp_le.
    + apply (qsort_sorted qsort Hqsort). apply i64_pair_cmp_consistent.
  - apply StronglySorted_small. lia.
Qed.

(** [bucket_sort_pairs] leaves the pairs in ascending lexicographic order,
    the same pairs as before, and does not touch the cells after them. *)
Lemma bucket_sort_pairs_correct :
  let out := bucket_sort_pairs qsort sched array num in
  length out = length array /\
  (forall j, ~ (0 <= j < 2 * num) -> get out j = get array j) /\
  StronglySorted lex_le (pairs_of out num) /\
  Permutation (pairs_of out num) (pairs_of array num).
Proof.
  destruct sorted_buckets as [L [Un P]]. cbv zeta in L, Un, P.
  pose proof mn_mx_range as Hmm.
  assert (Hout : bucket_sort_pairs qsort sched array num
                 = for_loop 0 range 1 (sort_bucket qsort (fst st3)) array1).
  { assert (Emax : for_loop 2 (Z.shiftl num 1) 2
                     (fun i max => if max <? get array i then get array i else max)
                     (get array 0) = mx)
      by (unfold mx; rewrite <- max_scan; reflexivity).
    assert (Emin : for_loop 2 (Z.shiftl num 1) 2
                     (fun i min => if min >? get array i then get array i else min)
                     (get array 0) = mn)
      by (unfold mn; rewrite <- min_scan; reflexivity).
    unfold bucket_sort_pairs. cbv zeta. rewrite Emax, Emin.
    rewrite (sub64_id mx mn) by (unfold in_i64; lia).
    rewrite (add64_id (mx - mn) 1) by (unfold in_i64; lia).
    rewrite (sub64_id 0 mn) by (unfold in_i64; lia).
    rewrite !size_t_cells_small by lia.
    reflexivity. }
  cbv zeta. rewrite Hout.
  set (out := for_loop 0 range 1 (sort_bucket qsort (fst st3)) array1) in *.
  assert (Hkeys : forall i, In i sched -> 0 <= key i < Z.of_nat B)
    by (intros i Hi; apply key_spec, sched_in; exact Hi).
  assert (Hpairs : pairs_of out num = flat_map Sb (zrange 0 B)).
  { unfold pairs_of. fold n. rewrite <- sched_length_n.
    rewrite <- (Permutation_length (bucketed_permutation key B sched Hkeys)).
    rewrite (pairs_at_buckets out key sched B)
      by (intros i Hi; apply Hkeys in Hi; lia).
    apply flat_map_ext_in. intros b Hb. apply in_zrange in Hb.
    rewrite <- (P b ltac:(lia)). unfold U. now rewrite length_map. }
  split; [exact L|]. split; [exact Un|]. rewrite Hpairs. split.
  - apply StronglySorted_flat_map.
    + intros b _. apply Sb_sorted.
    + intros b b' x y Hb Hb' Hx Hy.
      apply (Permutation_in _ (Permutation_sym (Sb_perm b))) in Hx.
      apply (Permutation_in _ (Permutation_sym (Sb_perm b'))) in Hy.
      apply U_first in Hx. apply U_first in Hy. left. lia.
  - transitivity (flat_map U (zrange 0 B)).
    + apply Permutation_flat_map_pointwise. intros b _. symmetry. apply Sb_perm.
    + rewrite pairs_at_indices by lia. fold idx. fold item.
      unfold U. rewrite <- map_flat_map. fold (bucketed key B sched).
      apply Permutation_map.
      transitivity sched; [apply bucketed_permutation; exact Hkeys | exact Hsched].
Qed.
End BucketSort.


(** ** Radix sort on lists of pairs *)

Lemma StronglySorted_filter {A : Type} (R : A -> A -> Prop) (p : A -> bool) (l : list A) :
  StronglySorted R l -> StronglySorted R (filter p l).
Proof.
  intros H. induction H as [|a t Hs IH Ha]; simpl; [constructor|].
  destruct (p a); [|exact IH]. constructor; [exact IH|].
  rewrite Forall_forall in Ha |- *. intros y Hy. apply filter_In in Hy. now apply Ha.
Qed.

Lemma partition_cons (kf : Z * Z -> Z) (p : Z * Z) (t : list (Z * Z)) (lo : Z) (n : nat) :
  (lo <= kf p < lo + Z.of_nat n ->
   Permutation (flat_map (fun b => filter (fun q => kf q =? b) (p :: t)) (zrange lo n))
               (p :: flat_map (fun b => filter (fun q => kf q =? b) t) (zrange lo n))) /\
  (~ (lo <= kf p < lo + Z.of_nat n) ->
   flat_map (fun b => filter (fun q => kf q =? b) (p :: t)) (zrange lo n)
   = flat_map (fun b => filter (fun q => kf q =? b) t) (zrange lo n)).
Proof.
  set (F1 := fun b => filter (fun q => kf q =? b) (p :: t)).
  set (F2 := fun b => filter (fun q => kf q =? b) t).
  assert (HF : forall b, F1 b = if kf p =? b then p :: F2 b else F2 b)
    by (intros b; reflexivity).
  assert (Hsingle : forall (F : Z -> list (Z * Z)) x, flat_map F [x] = F x)
    by (intros F x; simpl; apply app_nil_r).
  induction n as [|n [IH1 IH2]].
  - split; [intros H; lia | reflexivity].
  - rewrite zrange_succ, !flat_map_app, !Hsingle, HF.
    destruct (Z.eqb_spec (kf p) (lo + Z.of_nat n)) as [E|E].
    + split; [|intros H; lia]. intros _. rewrite IH2 by lia.
      symmetry. apply Permutation_middle.
    + split.
      * intros H. rewrite IH1 by lia. reflexivity.
      * intros H. rewrite IH2 by lia. reflexivity.
Qed.

Lemma partition_pairs_perm (kf : Z * Z -> Z) (B : nat) (ps : list (Z * Z)) :
  (forall p, In p ps -> 0 <= kf p < Z.of_nat B) ->
  Permutation (partition_pairs kf B ps) ps.
Proof.
  unfold partition_pairs. induction ps as [|p t IH]; intros H.
  - clear H. induction B as [|B IHB]; [constructor|].
    rewrite zrange_succ, flat_map_app. simpl. now rewrite app_nil_r.
  - destruct (partition_cons kf p t 0 B) as [H1 _].
    rewrite H1 by (apply H; now left). constructor.
    apply IH. intros q Hq. apply H. now right.
Qed.

Lemma mod_small_of_div (a b : Z) : 0 <= a -> 0 < b -> a / b <= 0 -> a mod b = a.
Proof.
  intros Ha Hb Hd. pose proof (Z.div_pos a b Ha Hb).
  pose proof (Z.div_mod a b ltac:(lia)). nia.
Qed.

Section Lsd.
Variable c : Z.
Variable numBits : Z.
Variable R0 : Z * Z -> Z * Z -> Prop.

Hypothesis HnumBits : 1 <= numBits.

Let numBuckets : Z := 2 ^ numBits.
Let bitMask : Z := numBuckets - 1.

Lemma numBuckets_ge_2 : 2 <= numBuckets.
Proof.
  unfold numBuckets. replace numBits with (1 + (numBits - 1)) by lia.
  rewrite Z.pow_add_r by lia. pose proof (Z.pow_pos_nonneg 2 (numBits - 1)). lia.
Qed.

Lemma pair_digit_spec (sh : Z) (p : Z * Z) :
  0 <= sh -> pair_digit bitMask c sh p = (comp c p / 2^sh) mod numBuckets.
Proof.
  intros Hsh. unfold pair_digit, bitMask, numBuckets.
  assert (E : 2 ^ numBits - 1 = Z.ones numBits) by (rewrite Z.ones_equiv; lia).
  rewrite E, Z.land_ones by lia. now rewrite Z.shiftr_div_pow2 by lia.
Qed.

Lemma pair_digit_range (sh : Z) (p : Z * Z) :
  0 <= sh -> 0 <= pair_digit bitMask c sh p < numBuckets.
Proof.
  intros Hsh. rewrite pair_digit_spec by exact Hsh.
  apply Z.mod_pos_bound. pose proof numBuckets_ge_2. lia.
Qed.

Lemma low_digits_split (sh v : Z) :
  0 <= sh ->
  v mod 2^(sh + numBits) = v mod 2^sh + 2^sh * ((v / 2^sh) mod numBuckets).
Proof.
  intros Hsh. rewrite Z.pow_add_r by lia. unfold numBuckets.
  apply Z.rem_mul_r; [|apply Z.pow_pos_nonneg; lia].
  pose proof (Z.pow_pos_nonneg 2 sh). lia.
Qed.

(** One pass: from the order of the digits below [sh] to the order of the
    digits below [sh + numBits]. *)
Lemma partition_pass_sorted (sh : Z) (ps : list (Z * Z)) :
  0 <= sh ->
  StronglySorted (by_low_digits c sh R0) ps ->
  StronglySorted (by_low_digits c (sh + numBits) R0)
                 (partition_pairs (pair_digit bitMask c sh) (Z.to_nat numBuckets) ps).
Proof.
  intros Hsh Hs. unfold partition_pairs.
  assert (Hp : 0 < 2^sh) by (apply Z.pow_pos_nonneg; lia).
  apply StronglySorted_flat_map.
  - intros b _.
    apply (StronglySorted_weaken (by_low_digits c sh R0)).
    + intros x y Hx Hy H. apply filter_In in Hx, Hy.
      destruct Hx as [_ Hx], Hy as [_ Hy]. apply Z.eqb_eq in Hx, Hy.
      rewrite pair_digit_spec in Hx, Hy by exact Hsh.
      unfold by_low_digits in *. rewrite !low_digits_split by exact Hsh.
      rewrite Hx, Hy.
      destruct H as [H|[H1 H2]]; [left; lia | right; split; [lia | exact H2]].
    + now apply StronglySorted_filter.
  - intros b b' x y Hb Hb' Hx Hy. apply filter_In in Hx, Hy.
    destruct Hx as [_ Hx], Hy as [_ Hy]. apply Z.eqb_eq in Hx, Hy.
    rewrite pair_digit_spec in Hx, Hy by exact Hsh.
    unfold by_low_digits. rewrite !low_digits_split by exact Hsh.
    rewrite Hx, Hy. left.
    pose proof (Z.mod_pos_bound (comp c x) (2^sh) Hp).
    pose proof (Z.mod_pos_bound (comp c y) (2^sh) Hp). nia.
Qed.

Lemma lsd_rounds_sorted (fuel : nat) (max sh : Z) (ps : list (Z * Z)) :
  0 <= sh -> 0 <= max < 2 ^ Z.of_nat fuel ->
  (forall p, In p ps -> 0 <= comp c p /\ comp c p / 2^sh <= max) ->
  StronglySorted (by_low_digits c sh R0) ps ->
  Permutation (lsd_rounds fuel numBits numBuckets bitMask c max sh ps) ps /\
  StronglySorted (by_comp c R0) (lsd_rounds fuel numBits numBuckets bitMask c max sh ps).
Proof.
  revert max sh ps. induction fuel as [|fuel IH]; intros max sh ps Hsh Hmax Hps Hs.
  - assert (max = 0) by (simpl in Hmax; lia). subst max. simpl. split; [reflexivity|].
    apply (StronglySorted_weaken (by_low_digits c sh R0)); [|exact Hs].
    intros x y Hx Hy H. unfold by_low_digits, by_comp in *.
    assert (Hp : 0 < 2^sh) by (apply Z.pow_pos_nonneg; lia).
    destruct (Hps x Hx) as [Hx0 Hx1]. destruct (Hps y Hy) as [Hy0 Hy1].
    rewrite !mod_small_of_div in H by lia. exact H.
  - simpl. destruct (Z.eqb_spec max 0) as [->|Hne].
    + split; [reflexivity|].
      apply (StronglySorted_weaken (by_low_digits c sh R0)); [|exact Hs].
      intros x y Hx Hy H. unfold by_low_digits, by_comp in *.
      assert (Hp : 0 < 2^sh) by (apply Z.pow_pos_nonneg; lia).
      destruct (Hps x Hx) as [Hx0 Hx1]. destruct (Hps y Hy) as [Hy0 Hy1].
      rewrite !mod_small_of_div in H by lia. exact H.
    + pose proof numBuckets_ge_2 as HB.
      set (ps1 := partition_pairs (pair_digit bitMask c sh) (Z.to_nat numBuckets) ps).
      assert (Hperm : Permutation ps1 ps).
      { apply partition_pairs_perm. intros p _. rewrite Z2Nat.id by lia.
        now apply pair_digit_range. }
      rewrite Z.quot_div_nonneg by lia.
      destruct (IH (max / numBuckets) (sh + numBits) ps1) as [P1 S1].
      * lia.
      * split; [apply Z.div_pos; lia|].
        apply Z.div_lt_upper_bound; [lia|].
        rewrite Nat2Z.inj_succ, Z.pow_succ_r in Hmax by lia. nia.
      * intros p Hp. apply (Permutation_in _ Hperm) in Hp.
        destruct (Hps p Hp) as [H0 H1]. split; [exact H0|].
        rewrite Z.pow_add_r by lia. rewrite <- Z.div_div by
            (try apply Z.pow_pos_nonneg; try (apply Z.pow_nonzero; lia); lia).
        apply Z.div_le_mono; [unfold numBuckets in *; lia | exact H1].
      * now apply partition_pass_sorted.
      * split; [|exact S1]. now rewrite P1.
Qed.
End Lsd.


(** ** Radix sort of pairs *)

Lemma pair_indices2 (n : Z) :
  0 <= n ->
  loop_indices 0 (2 * n) 2 = map (fun k => Z.of_nat k * 2) (seq 0 (Z.to_nat n)).
Proof. intros H. rewrite (Z.mul_comm 2 n). apply loop_indices_stride; lia. Qed.

Lemma pairs_of_indices (a : list Z) (n : Z) :
  0 <= n ->
  pairs_of a n = map (fun j => (get a j, get a (j + 1))) (loop_indices 0 (2 * n) 2).
Proof.
  intros H. rewrite pair_indices2 by exact H. unfold pairs_of, pairs_at, zrange.
  rewrite !map_map. apply map_ext. intros k. f_equal; f_equal; lia.
Qed.

Lemma pairs_of_ext (a b : list Z) (n : Z) :
  (forall j, 0 <= j < 2 * n -> get a j = get b j) -> pairs_of a n = pairs_of b n.
Proof.
  intros H. unfold pairs_of. apply pairs_at_ext. intros j Hj. apply H. lia.
Qed.

Section RadixPass.
Variables (numBits n sh c : Z).
Variables (buckets copy1 copy2 : list Z).

Let numBuckets : Z := 2 ^ numBits.
Let bitMask : Z := numBuckets - 1.
Let len : Z := 2 * n.
Let idx : list Z := loop_indices 0 len 2.
Let B : nat := Z.to_nat numBuckets.
Let key (j : Z) : Z := myBucket copy1 sh bitMask c j.

Hypothesis HnumBits : 1 <= numBits.
Hypothesis Hn : 0 <= n.
Hypothesis Hlen : len < 2^63.
Hypothesis Hsh : 0 <= sh.
Hypothesis Hc : c = 0 \/ c = 1.
Hypothesis Hbuckets : Z.of_nat (length buckets) = numBuckets + 2.
Hypothesis Hcopy1 : Z.of_nat (length copy1) = len.
Hypothesis Hcopy2 : Z.of_nat (length copy2) = len.

Lemma radix_key (j : Z) : key j = pair_digit bitMask c sh (get copy1 j, get copy1 (j + 1)).
Proof.
  unfold key, myBucket, pair_digit, comp. destruct Hc as [-> | ->]; simpl.
  - now rewrite Z.add_0_r.
  - reflexivity.
Qed.

Lemma radix_key_range (j : Z) : 0 <= key j < Z.of_nat B.
Proof.
  rewrite radix_key. pose proof (numBuckets_ge_2 numBits HnumBits) as H2.
  unfold B. rewrite Z2Nat.id by (unfold numBuckets; lia).
  apply (pair_digit_range c numBits HnumBits sh _ Hsh).
Qed.

Lemma idx_len : Z.of_nat (length idx) = n.
Proof.
  unfold idx, len. rewrite pair_indices2 by exact Hn.
  rewrite length_map, length_seq. lia.
Qed.

Lemma radix_pass_spec :
  let st' := radix_pass numBuckets bitMask len sh c (buckets, copy1, copy2) in
  length (fst (fst st')) = length buckets /\
  length (snd (fst st')) = length copy2 /\
  snd st' = copy1 /\
  pairs_of (snd (fst st')) n
  = partition_pairs (pair_digit bitMask c sh) (Z.to_nat numBuckets) (pairs_of copy1 n).
Proof.
  pose proof (numBuckets_ge_2 numBits HnumBits) as H2. fold numBuckets in H2.
  assert (HB : Z.of_nat B = numBuckets) by (unfold B; lia).
  pose proof idx_len as Hil.
  unfold radix_pass. cbv zeta. cbn [fst snd].
  destruct (zero_cells (numBuckets + 2) buckets ltac:(lia)) as [L0 [Z0 U0]].
  cbv zeta in L0, Z0, U0.
  set (o0 := for_loop 0 (numBuckets + 2) 1 (fun j buckets0 => set buckets0 j 0) buckets) in *.
  assert (Hkeys : forall i, In i idx -> 0 <= key i < Z.of_nat B)
    by (intros i _; apply radix_key_range).
  assert (Hlen0 : 2 + Z.of_nat B <= Z.of_nat (length o0)) by (rewrite L0; lia).
  assert (Hcells0 : forall b, 0 <= b < Z.of_nat B ->
                      0 <= get o0 (2 + b) /\
                      get o0 (2 + b) + 2 * Z.of_nat (length idx) < 2^63).
  { intros b Hb. rewrite Z0 by lia. unfold len in Hlen. lia. }
  destruct (histogram_fold key 2 2 B idx o0 ltac:(lia) Hlen0 ltac:(lia) Hkeys Hcells0)
    as [L1 [G1 U1]]. cbv zeta in L1, G1, U1.
  change (for_loop 0 len 2
            (fun j buckets0 =>
               snd (stinger_int64_fetch_add buckets0
                      (2 + myBucket copy1 sh bitMask c j) 2)) o0)
    with (fold_left (fun o i => set o (2 + key i) (add64 (get o (2 + key i)) 2)) idx o0).
  set (o1 := fold_left (fun o i => set o (2 + key i) (add64 (get o (2 + key i)) 2)) idx o0)
    in *.
  assert (Hlen1 : 2 + Z.of_nat B <= Z.of_nat (length o1)) by (rewrite L1; exact Hlen0).
  assert (Hbound : 2 * Z.of_nat (length idx) < 2^63) by (unfold len in Hlen; lia).
  assert (Hk0 : forall i, In i idx -> 0 <= key i) by (intros i Hi; apply Hkeys in Hi; lia).
  assert (Hc1 : forall b, 0 <= b < Z.of_nat B -> get o1 (2 + b) = 2 * bucket_count key idx b).
  { intros b Hb. rewrite G1 by exact Hb. rewrite Z0 by lia. lia. }
  assert (Hz1 : get o1 (2 - 1) = 0).
  { replace (2 - 1) with 1 by lia. rewrite U1 by lia. apply Z0. lia. }
  destruct (prefix_loop key idx 2 2 1 B o1 ltac:(lia) ltac:(lia) Hlen1
              ltac:(lia) Hbound Hk0 Hc1 Hz1) as [L2 [G2 U2]].
  cbv zeta in L2, G2, U2. rewrite HB in L2, G2, U2.
  set (o2 := for_loop 1 numBuckets 1
               (fun j buckets0 => set buckets0 (2 + j)
                                      (add64 (get buckets0 (2 + j))
                                             (get buckets0 (2 + (j - 1))))) o1) in *.
  assert (Hinit : forall b, 0 <= b < Z.of_nat B ->
                    get o2 (1 + b) = 2 * bucket_start key idx b).
  { intros b Hb. destruct (Z.eq_dec b 0) as [->|Hb0].
    - rewrite U2, U1 by lia. rewrite Z0 by lia.
      rewrite (bucket_start_zero key idx 0) by exact Hk0. reflexivity.
    - replace (1 + b) with (2 + (b - 1)) by lia. rewrite G2 by lia.
      replace (b - 1 + 1) with b by lia. reflexivity. }
  destruct (pair_scatter copy1 key B idx o2 copy2 Hkeys
              ltac:(rewrite L2, L1, L0; lia) ltac:(unfold len in *; lia)
              ltac:(unfold len in *; lia) Hinit)
    as [L3 [L4 [_ [_ [_ P3]]]]].
  cbv zeta in L3, L4, P3.
  change (for_loop 0 len 2
            (fun j bc => move_pair copy1 (1 + myBucket copy1 sh bitMask c j) j bc)
            (o2, copy2))
    with (fold_left (fun st j => move_pair copy1 (1 + key j) j st) idx (o2, copy2)).
  set (st3 := fold_left (fun st j => move_pair copy1 (1 + key j) j st) idx (o2, copy2)) in *.
  split; [rewrite L3, L2, L1, L0; reflexivity|]. split; [exact L4|]. split; [reflexivity|].
  unfold pairs_of at 1. replace (Z.to_nat n) with (length idx) by lia. rewrite P3.
  unfold bucketed, partition_pairs. rewrite map_flat_map. fold B.
  apply flat_map_ext_in. intros b _.
  rewrite (pairs_of_indices copy1 n Hn). fold len. fold idx.
  rewrite <- (map_filter_comm (fun j => (get copy1 j, get copy1 (j + 1)))
                              (fun p => pair_digit bitMask c sh p =? b)).
  f_equal. apply filter_ext. intros j. now rewrite radix_key.
Qed.
End RadixPass.

(** The digit loop ends within [fuel] rounds when [max < 2^fuel], and does to
    the pairs of [copy1] what [lsd_rounds] does to a list. *)
Lemma digit_loop_spec (numBits n c : Z) :
  1 <= numBits -> 0 <= n -> 2 * n < 2^63 -> c = 0 \/ c = 1 ->
  forall (fuel : nat) (max sh : Z) (st : list Z * list Z * list Z),
    0 <= sh -> 0 <= max < 2 ^ Z.of_nat fuel ->
    Z.of_nat (length (fst (fst st))) = 2 ^ numBits + 2 ->
    Z.of_nat (length (snd (fst st))) = 2 * n ->
    Z.of_nat (length (snd st)) = 2 * n ->
    exists st',
      digit_loop fuel numBits (2 ^ numBits) (2 ^ numBits - 1) (2 * n) c max sh st = Some st' /\
      Z.of_nat (length (fst (fst st'))) = 2 ^ numBits + 2 /\
      Z.of_nat (length (snd (fst st'))) = 2 * n /\
      Z.of_nat (length (snd st')) = 2 * n /\
      pairs_of (snd (fst st')) n
      = lsd_rounds fuel numBits (2 ^ numBits) (2 ^ numBits - 1) c max sh
                   (pairs_of (snd (fst st)) n).
Proof.
  intros HnumBits Hn Hlen Hc.
  pose proof (numBuckets_ge_2 numBits HnumBits) as H2.
  induction fuel as [|fuel IH]; intros max sh st Hsh Hmax L1 L2 L3.
  - assert (max = 0) by (simpl in Hmax; lia). subst max. simpl.
    exists st. repeat split; assumption.
  - cbn [digit_loop lsd_rounds]. destruct (Z.eqb_spec max 0) as [->|Hne].
    + exists st. repeat split; assumption.
    + destruct st as [[buckets copy1] copy2]. cbn [fst snd] in *.
      destruct (radix_pass_spec numBits n sh c buckets copy1 copy2
                  HnumBits Hn Hlen Hsh Hc L1 L2 L3) as [R1 [R2 [R3 R4]]].
      cbv zeta in R1, R2, R3, R4.
      set (st1 := radix_pass (2 ^ numBits) (2 ^ numBits - 1) (2 * n) sh c
                             (buckets, copy1, copy2)) in *.
      destruct (IH (Z.quot max (2 ^ numBits)) (sh + numBits) st1) as [st' [E [M1 [M2 [M3 M4]]]]].
      * lia.
      * rewrite Z.quot_div_nonneg by lia. split; [apply Z.div_pos; lia|].
        apply Z.div_lt_upper_bound; [lia|].
        rewrite Nat2Z.inj_succ, Z.pow_succ_r in Hmax by lia. nia.
      * rewrite R1. exact L1.
      * rewrite R2. exact L3.
      * rewrite R3. exact L2.
      * exists st'. rewrite E. repeat split; try assumption.
        rewrite M4, R4. reflexivity.
Qed.


Lemma StronglySorted_map {A B : Type} (R : B -> B -> Prop) (g : A -> B) (l : list A) :
  StronglySorted (fun a b => R (g a) (g b)) l -> StronglySorted R (map g l).
Proof.
  intros H. induction H as [|a t Hs IH Ha]; simpl; constructor; [exact IH|].
  rewrite Forall_forall in Ha. apply Forall_forall. intros y Hy.
  apply in_map_iff in Hy. destruct Hy as [x [<- Hx]]. now apply Ha.
Qed.

Lemma StronglySorted_trivial {A : Type} (R : A -> A -> Prop) (l : list A) :
  (forall x y, R x y) -> StronglySorted R l.
Proof.
  intros H. induction l as [|a t IH]; constructor; [exact IH|].
  apply Forall_forall. intros y _. apply H.
Qed.

Lemma in_pairs_of (a : list Z) (n : Z) (p : Z * Z) :
  In p (pairs_of a n) <->
  exists k, 0 <= k < n /\ p = (get a (2 * k), get a (2 * k + 1)).
Proof.
  unfold pairs_of, pairs_at. rewrite in_map_iff. split.
  - intros [k [<- Hk]]. apply in_zrange in Hk. exists k. split; [lia|].
    now rewrite Z.add_0_l.
  - intros [k [Hk ->]]. exists k. split; [now rewrite Z.add_0_l|].
    apply in_zrange. lia.
Qed.

(** The first loop of [radix_sort_pairs]. *)
Lemma copy_minmax_spec (x c0 : list Z) (n : Z) :
  1 <= n -> Z.of_nat (length c0) = 2 * n ->
  let r := for_loop 0 (2 * n) 2 (copy_minmax x) (c0, get x 1, get x 1) in
  length (fst (fst r)) = length c0 /\
  (forall j, 0 <= j < 2 * n -> get (fst (fst r)) j = get x j) /\
  (exists k, 0 <= k < n /\ snd (fst r) = get x (2 * k + 1)) /\
  (exists k, 0 <= k < n /\ snd r = get x (2 * k + 1)) /\
  (forall k, 0 <= k < n -> snd r <= get x (2 * k + 1) <= snd (fst r)).
Proof.
  intros Hn Hl. cbv zeta.
  pose proof (for_loop_ind
    (fun k st =>
       length (fst (fst st)) = length c0 /\
       (forall j, 0 <= j < 2 * Z.of_nat k -> get (fst (fst st)) j = get x j) /\
       (snd (fst st) = get x 1 \/
        exists k', 0 <= k' < Z.of_nat k /\ snd (fst st) = get x (2 * k' + 1)) /\
       (snd st = get x 1 \/
        exists k', 0 <= k' < Z.of_nat k /\ snd st = get x (2 * k' + 1)) /\
       (forall k', 0 <= k' < Z.of_nat k -> snd st <= get x (2 * k' + 1) <= snd (fst st)))
    0 (2 * n) 2 (copy_minmax x) (c0, get x 1, get x 1)) as H.
  assert (Hcount : loop_count 0 (2 * n) 2 = Z.to_nat n).
  { replace (2 * n) with (0 + n * 2) by lia. apply loop_count_stride; lia. }
  rewrite Hcount in H. rewrite Z2Nat.id in H by lia.
  destruct H as [H1 [H2 [H3 [H4 H5]]]].
  - cbn [fst snd]. split; [reflexivity|]. split; [intros j Hj; lia|].
    split; [now left|]. split; [now left|]. intros k' Hk'. lia.
  - intros k [[cp mx] mi] Hk [H1 [H2 [H3 [H4 H5]]]]. cbn [fst snd] in *.
    unfold copy_minmax. cbn [fst snd].
    replace (0 + 2 * Z.of_nat k) with (2 * Z.of_nat k) by lia.
    rewrite !set_length. split; [exact H1|]. split; [|split; [|split]].
    + intros j Hj. rewrite get_set by (rewrite set_length; lia).
      destruct (Z.eqb_spec j (2 * Z.of_nat k + 1)) as [->|Hne]; [reflexivity|].
      rewrite get_set by lia.
      destruct (Z.eqb_spec j (2 * Z.of_nat k)) as [->|Hne']; [reflexivity|].
      apply H2. lia.
    + destruct (Z.ltb_spec mx (get x (2 * Z.of_nat k + 1))).
      * right. exists (Z.of_nat k). split; [lia | reflexivity].
      * destruct H3 as [H3|[k' [Hk' H3]]]; [now left|]. right. exists k'. split; [lia|exact H3].
    + destruct (Z.gtb_spec mi (get x (2 * Z.of_nat k + 1))).
      * right. exists (Z.of_nat k). split; [lia | reflexivity].
      * destruct H4 as [H4|[k' [Hk' H4]]]; [now left|]. right. exists k'. split; [lia|exact H4].
    + intros k' Hk'.
      destruct (Z.eq_dec k' (Z.of_nat k)) as [->|Hne].
      * destruct (Z.ltb_spec mx (get x (2 * Z.of_nat k + 1))),
                 (Z.gtb_spec mi (get x (2 * Z.of_nat k + 1))); lia.
      * specialize (H5 k' ltac:(lia)).
        destruct (Z.ltb_spec mx (get x (2 * Z.of_nat k + 1))),
                 (Z.gtb_spec mi (get x (2 * Z.of_nat k + 1))); lia.
  - split; [exact H1|]. split; [exact H2|]. split; [|split; [|exact H5]].
    + destruct H3 as [H3|H3]; [|exact H3]. exists 0. split; [lia|exact H3].
    + destruct H4 as [H4|H4]; [|exact H4]. exists 0. split; [lia|exact H4].
Qed.

(** A loop that rewrites the second component of every pair. *)
Lemma map_seconds_loop (g : Z -> Z) (a : list Z) (n : Z) :
  0 <= n -> 2 * n <= Z.of_nat (length a) ->
  let r := for_loop 0 (2 * n) 2 (fun i c => set c (i + 1) (g (get c (i + 1)))) a in
  length r = length a /\
  pairs_of r n = map (fun p => (fst p, g (snd p))) (pairs_of a n).
Proof.
  intros Hn Hl. cbv zeta.
  pose proof (for_loop_ind
    (fun k st =>
       length st = length a /\
       forall k', 0 <= k' < n ->
                  get st (2 * k') = get a (2 * k') /\
                  get st (2 * k' + 1) = if k' <? Z.of_nat k then g (get a (2 * k' + 1))
                                        else get a (2 * k' + 1))
    0 (2 * n) 2 (fun i c => set c (i + 1) (g (get c (i + 1)))) a) as H.
  assert (Hcount : loop_count 0 (2 * n) 2 = Z.to_nat n).
  { replace (2 * n) with (0 + n * 2) by lia. apply loop_count_stride; lia. }
  rewrite Hcount in H.
  destruct H as [H1 H2].
  - split; [reflexivity|]. intros k' Hk'. split; [reflexivity|].
    destruct (Z.ltb_spec k' (Z.of_nat 0)); [lia | reflexivity].
  - intros k st Hk [H1 H2]. replace (0 + 2 * Z.of_nat k) with (2 * Z.of_nat k) by lia.
    split; [now rewrite set_length|]. intros k' Hk'.
    destruct (H2 k' Hk') as [E1 E2]. split.
    + rewrite get_set_other by lia. exact E1.
    + rewrite get_set by lia.
      destruct (Z.eqb_spec (2 * k' + 1) (2 * Z.of_nat k + 1)) as [E|E].
      * assert (k' = Z.of_nat k) by lia. subst k'.
        destruct (Z.ltb_spec (Z.of_nat k) (Z.of_nat (S k))); [|lia].
        destruct (H2 (Z.of_nat k) Hk') as [_ E3].
        destruct (Z.ltb_spec (Z.of_nat k) (Z.of_nat k)); [lia|]. now rewrite E3.
      * rewrite E2.
        destruct (Z.ltb_spec k' (Z.of_nat k)), (Z.ltb_spec k' (Z.of_nat (S k)));
          try reflexivity; lia.
  - split; [exact H1|]. unfold pairs_of, pairs_at. rewrite map_map.
    apply map_ext_in. intros k Hk. apply in_zrange in Hk. cbn [fst snd].
    rewrite !Z.add_0_l. destruct (H2 k ltac:(lia)) as [E1 E2]. rewrite E1, E2.
    destruct (Z.ltb_spec k (Z.of_nat (Z.to_nat n))); [reflexivity | lia].
Qed.

Section RadixSort.
Variables (x : list Z) (n numBits : Z) (fuel : nat).

Hypothesis Hn : 1 <= n.
Hypothesis Hx : Z.of_nat (length x) = 2 * n.
Hypothesis Hlen : 2 * n < 2^61.
Hypothesis HnumBits : 1 <= numBits <= 30.
Hypothesis Hfuel : (64 <= fuel)%nat.
Hypothesis Hcells : forall j, 0 <= j < 2 * n -> - 2^61 <= get x j < 2^61.
Hypothesis Hfirst : forall k, 0 <= k < n -> 0 <= get x (2 * k).

Lemma fuel_bound (m : Z) : 0 <= m < 2^63 -> 0 <= m < 2 ^ Z.of_nat fuel.
Proof.
  intros H. split; [lia|]. apply Z.lt_le_trans with (2^63); [lia|].
  apply Z.pow_le_mono_r; lia.
Qed.

Lemma numBuckets_int : to_i32 (Z.shiftl 1 numBits) = 2 ^ numBits.
Proof.
  rewrite Z.shiftl_mul_pow2, Z.mul_1_l by lia. apply to_i32_id.
  assert (0 < 2 ^ numBits) by (apply Z.pow_pos_nonneg; lia).
  assert (2 ^ numBits <= 2 ^ 30) by (apply Z.pow_le_mono_r; lia). lia.
Qed.

Lemma radix_sort_pairs_correct :
  exists out,
    radix_sort_pairs fuel x (2 * n) numBits = Some out /\
    length out = length x /\
    StronglySorted lex_le (pairs_of out n) /\
    Permutation (pairs_of out n) (pairs_of x n).
Proof.
  assert (HnB : 1 <= numBits) by lia.
  pose proof (numBuckets_ge_2 numBits HnB) as H2.
  assert (H230 : 2 ^ numBits <= 2 ^ 30) by (apply Z.pow_le_mono_r; lia).
  unfold radix_sort_pairs. cbv zeta. rewrite numBuckets_int.
  rewrite (size_t_cells_small (2 * n)) by lia.
  rewrite (size_t_cells_small (2 ^ numBits + 2)) by lia.
  rewrite (sub64_id (2 ^ numBits) 1) by (unfold in_i64; lia).
  (* the copy and the extreme second components *)
  assert (Lx0 : Z.of_nat (length (xmalloc (2 * n))) = 2 * n)
    by (unfold xmalloc; rewrite repeat_length; lia).
  destruct (copy_minmax_spec x (xmalloc (2 * n)) n Hn Lx0)
    as [C1 [C2 [[kx [Hkx Emx]] [[kn [Hkn Emn]] C5]]]].
  cbv zeta in C1, C2, Emx, Emn, C5.
  set (cmm := for_loop 0 (2 * n) 2 (copy_minmax x) (xmalloc (2 * n), get x 1, get x 1)) in *.
  set (mx := snd (fst cmm)) in *. set (mn := snd cmm) in *.
  assert (Rmx : - 2^61 <= mx < 2^61) by (rewrite Emx; apply Hcells; lia).
  assert (Rmn : - 2^61 <= mn < 2^61) by (rewrite Emn; apply Hcells; lia).
  assert (Hmnmx : mn <= mx) by (pose proof (C5 kx Hkx); lia).
  rewrite (neg64_id mn) by (unfold in_i64; lia).
  rewrite (add64_id mx (- mn)) by (unfold in_i64; lia).
  (* the second components made non-negative *)
  destruct (map_seconds_loop (fun v => add64 v (- mn)) (fst (fst cmm)) n ltac:(lia)
                             ltac:(rewrite C1; lia)) as [S1 S2].
  cbv zeta in S1, S2.
  set (copy1 := for_loop 0 (2 * n) 2
                  (fun i c => set c (i + 1) (add64 (get c (i + 1)) (- mn)))
                  (fst (fst cmm))) in *.
  set (shift := fun p : Z * Z => (fst p, add64 (snd p) (- mn))) in *.
  assert (Ecopy : pairs_of (fst (fst cmm)) n = pairs_of x n)
    by (apply pairs_of_ext; exact C2).
  rewrite Ecopy in S2.
  assert (Hshift : forall p, In p (pairs_of x n) ->
                             0 <= fst p /\ - 2^61 <= snd p < 2^61 /\ mn <= snd p <= mx).
  { intros p Hp. apply in_pairs_of in Hp. destruct Hp as [k [Hk ->]]. cbn [fst snd].
    split; [apply Hfirst; lia|]. split; [apply Hcells; lia | apply C5; lia]. }
  (* the passes on the second component *)
  destruct (digit_loop_spec numBits n 1 HnB ltac:(lia) ltac:(lia) ltac:(now right)
              fuel (mx + - mn) 0 (xmalloc (2 ^ numBits + 2), copy1, xmalloc (2 * n))
              ltac:(lia) ltac:(apply fuel_bound; lia))
    as [st1 [E1 [M1 [M2 [M3 M4]]]]]; cbn [fst snd].
  { unfold xmalloc. rewrite repeat_length. lia. }
  { rewrite S1, C1. exact Lx0. }
  { exact Lx0. }
  rewrite E1. cbn [fst snd] in M4. rewrite S2 in M4.
  destruct (lsd_rounds_sorted 1 numBits (fun _ _ => True) HnB fuel (mx + - mn) 0
                              (map shift (pairs_of x n)))
    as [P1 Q1]; [lia | apply fuel_bound; lia | | |].
  { intros p Hp. apply in_map_iff in Hp. destruct Hp as [q [<- Hq]].
    destruct (Hshift q Hq) as [_ [Hs1 Hs2]]. unfold shift, comp. cbn [fst snd]. simpl.
    rewrite add64_id by (unfold in_i64; lia). rewrite Z.div_1_r. lia. }
  { apply StronglySorted_trivial. intros p q. right. split; [|exact I].
    now rewrite !Z.mod_1_r. }
  rewrite <- M4 in P1, Q1.
  set (ps2 := pairs_of (snd (fst st1)) n) in *.
  (* the greatest first component *)
  set (c1 := snd (fst st1)) in *.
  assert (Hps2 : forall p, In p ps2 ->
                   0 <= fst p /\ exists q, In q (pairs_of x n) /\ p = shift q).
  { intros p Hp. apply (Permutation_in _ P1) in Hp. apply in_map_iff in Hp.
    destruct Hp as [q [<- Hq]]. split; [apply (Hshift q Hq)|]. now exists q. }
  assert (Emax2 : for_loop 0 (2 * n) 2
                    (fun i max => if max <? get c1 i then get c1 i else max) (get c1 0)
                  = list_max (get c1 0) (map (get c1) (loop_indices 0 (2 * n) 2)))
    by (rewrite <- max_scan; reflexivity).
  rewrite Emax2.
  set (mx2 := list_max (get c1 0) (map (get c1) (loop_indices 0 (2 * n) 2))) in *.
  destruct (list_max_spec (map (get c1) (loop_indices 0 (2 * n) 2)) (get c1 0)) as [X1 X2].
  fold mx2 in X1, X2.
  assert (Hfst2 : forall v, In v (get c1 0 :: map (get c1) (loop_indices 0 (2 * n) 2)) ->
                            exists p, In p ps2 /\ v = fst p).
  { intros v [<-|Hv].
    - exists (get c1 0, get c1 1). split; [|reflexivity].
      apply in_pairs_of. exists 0. split; [lia | reflexivity].
    - apply in_map_iff in Hv. destruct Hv as [j [<- Hj]].
      rewrite pair_indices2 in Hj by lia. apply in_map_iff in Hj.
      destruct Hj as [k [<- Hk]]. apply in_seq in Hk.
      exists (get c1 (Z.of_nat k * 2), get c1 (Z.of_nat k * 2 + 1)). split; [|reflexivity].
      apply in_pairs_of. exists (Z.of_nat k). split; [lia|].
      now rewrite (Z.mul_comm 2). }
  assert (Rmx2 : 0 <= mx2 < 2^61).
  { destruct (Hfst2 mx2 X1) as [p [Hp ->]]. destruct (Hps2 p Hp) as [H0 [q [Hq ->]]].
    unfold shift in *. cbn [fst] in *. split; [exact H0|].
    apply in_pairs_of in Hq. destruct Hq as [k [Hk ->]]. cbn [fst]. apply Hcells. lia. }
  (* the passes on the first component *)
  destruct (digit_loop_spec numBits n 0 HnB ltac:(lia) ltac:(lia) ltac:(now left)
              fuel mx2 0 st1 ltac:(lia) ltac:(apply fuel_bound; lia) M1 M2 M3)
    as [st2 [E2 [N1 [N2 [N3 N4]]]]].
  rewrite E2. fold c1 in N4. fold ps2 in N4.
  destruct (lsd_rounds_sorted 0 numBits (by_comp 1 (fun _ _ => True)) HnB fuel mx2 0 ps2)
    as [P2 Q2]; [lia | apply fuel_bound; lia | | |].
  { intros p Hp. unfold comp. simpl. rewrite Z.div_1_r.
    split; [apply (Hps2 p Hp)|]. apply X2. right.
    apply in_pairs_of in Hp. destruct Hp as [k [Hk ->]]. cbn [fst].
    apply in_map. rewrite pair_indices2 by lia. apply in_map_iff.
    exists (Z.to_nat k). split; [lia|]. apply in_seq. lia. }
  { apply (StronglySorted_weaken (by_comp 1 (fun _ _ => True))); [|exact Q1].
    intros p q _ _ H. right. split; [now rewrite !Z.mod_1_r | exact H]. }
  rewrite <- N4 in P2, Q2.
  set (ps3 := pairs_of (snd (fst st2)) n) in *.
  (* the second components restored, and the copy back *)
  destruct (map_seconds_loop (fun v => sub64 v (- mn)) (snd (fst st2)) n ltac:(lia)
                             ltac:(lia)) as [T1 T2].
  cbv zeta in T1, T2. fold ps3 in T2.
  set (c3 := for_loop 0 (2 * n) 2
               (fun i c => set c (i + 1) (sub64 (get c (i + 1)) (- mn)))
               (snd (fst st2))) in *.
  destruct (copy_cells (2 * n) c3 x ltac:(lia)) as [K1 [K2 K3]]. cbv zeta in K1, K2, K3.
  set (out := for_loop 0 (2 * n) 1 (fun i x0 => set x0 i (get c3 i)) x) in *.
  exists out. split; [reflexivity|]. split; [exact K1|].
  assert (Eout : pairs_of out n = map (fun p => (fst p, sub64 (snd p) (- mn))) ps3).
  { rewrite <- T2. apply pairs_of_ext. exact K2. }
  set (unshift := fun p : Z * Z => (fst p, sub64 (snd p) (- mn))) in *.
  assert (Hps3 : forall p, In p ps3 -> exists q, In q (pairs_of x n) /\ p = shift q).
  { intros p Hp. apply (Permutation_in _ P2) in Hp. apply (Hps2 p Hp). }
  assert (Hround : forall q, In q (pairs_of x n) -> unshift (shift q) = q).
  { intros q Hq. destruct (Hshift q Hq) as [_ [Hs1 Hs2]]. unfold unshift, shift.
    cbn [fst snd]. rewrite add64_id by (unfold in_i64; lia).
    rewrite sub64_id by (unfold in_i64; lia). destruct q as [a b]. cbn [fst snd].
    f_equal. lia. }
  rewrite Eout. split.
  - apply StronglySorted_map.
    apply (StronglySorted_weaken (by_comp 0 (by_comp 1 (fun _ _ => True)))); [|exact Q2].
    intros p q Hp Hq H.
    destruct (Hps3 p Hp) as [p0 [Hp0 ->]]. destruct (Hps3 q Hq) as [q0 [Hq0 ->]].
    rewrite !Hround by assumption.
    destruct (Hshift p0 Hp0) as [_ [Hp1 Hp2]]. destruct (Hshift q0 Hq0) as [_ [Hq1 Hq2]].
    unfold by_comp, comp, shift, lex_le in *. cbn [fst snd] in *. simpl in H.
    rewrite !add64_id in H by (unfold in_i64; lia). lia.
  - transitivity (map unshift (map shift (pairs_of x n))).
    + apply Permutation_map. now rewrite P2, P1.
    + rewrite map_map. rewrite (map_ext_in _ (fun q => q)) by exact Hround.
      now rewrite map_id.
Qed.
End RadixSort.


(** ** The radix sort against its documentation *)

Lemma unsorted_pair (p q : Z * Z) : ~ lex_le p q -> ~ Sorted lex_le [p; q].
Proof.
  intros H S. inversion S as [|a l Hs Hd]; subst.
  inversion Hd as [|b l' Hr]; subst. now apply H.
Qed.

(** C1 (the code misses it). [radix_sort_pairs] is documented as the
    replacement of [bucket_sort_pairs], with [length] the number of tuples.
    Its loops take [length] for the number of cells: called as documented
    on the two pairs (3, 9), (1, 5) it handles the first pair only and
    leaves the array as it is. Called with the number of cells, it shifts
    the second components to non-negative values before it sorts by their
    digits, but not the first components: with eight-bit digits the pairs
    (1, 0), (-1, 0) stay as they are, and (-1, 0), (1, 0), which are in
    order, come out as (1, 0), (-1, 0), the digit of -1 being 255.
    [bucket_sort_pairs] sorts all three arrays. *)
Theorem radix_sort_pairs_misorders :
  (radix_sort_pairs 64 [3; 9; 1; 5] 2 8 = Some [3; 9; 1; 5] /\
   ~ Sorted lex_le (pairs_of [3; 9; 1; 5] 2)) /\
  (radix_sort_pairs 64 [1; 0; -1; 0] 4 8 = Some [1; 0; -1; 0] /\
   radix_sort_pairs 64 [-1; 0; 1; 0] 4 8 = Some [1; 0; -1; 0] /\
   ~ Sorted lex_le (pairs_of [1; 0; -1; 0] 2)) /\
  (bucket_sort_pairs insertion_qsort [0; 2] [3; 9; 1; 5] 2 = [1; 5; 3; 9] /\
   bucket_sort_pairs insertion_qsort [0; 2] [1; 0; -1; 0] 2 = [-1; 0; 1; 0] /\
   bucket_sort_pairs insertion_qsort [0; 2] [-1; 0; 1; 0] 2 = [-1; 0; 1; 0]).
Proof.
  split; [|split].
  - split; [vm_compute; reflexivity|].
    change (pairs_of [3; 9; 1; 5] 2) with [(3, 9); (1, 5)].
    apply unsorted_pair. unfold lex_le. cbn [fst snd]. lia.
  - split; [vm_compute; reflexivity|]. split; [vm_compute; reflexivity|].
    change (pairs_of [1; 0; -1; 0] 2) with [(1, 0); (-1, 0)].
    apply unsorted_pair. unfold lex_le. cbn [fst snd]. lia.
  - repeat split; vm_compute; reflexivity.
Qed.

(** Within the sizes that the allocations can serve, the two sorts sort:
    for every array of [num >= 1] pairs, fewer than [2^60], of values in
    [[-2^59, 2^59)], [bucket_sort_pairs] (with any [qsort] that keeps the
    contract of the C library, and in whatever order the iterations of its
    parallel loop claim their cells) rearranges the array into a permutation
    of its pairs in ascending lexicographic order; so does
    [radix_sort_pairs], called with the number of cells and a digit width
    between 1 and 30 bits, when no first component is negative. *)
Theorem pair_sorts_sort_lexicographically
        (qsort : qsort_fn) (sched array : list Z) (num numBits : Z) (fuel : nat) :
  qsort_contract qsort ->
  1 <= num -> Z.of_nat (length array) = 2 * num -> 2 * num < 2^61 ->
  Permutation sched (loop_indices 0 (Z.shiftl num 1) 2) ->
  Forall (fun v => - 2^59 <= v < 2^59) array ->
  (let out := bucket_sort_pairs qsort sched array num in
   length out = length array /\
   Sorted lex_le (pairs_of out num) /\
   Permutation (pairs_of out num) (pairs_of array num)) /\
  (1 <= numBits <= 30 -> (64 <= fuel)%nat ->
   Forall (fun p => 0 <= fst p) (pairs_of array num) ->
   exists out,
     radix_sort_pairs fuel array (2 * num) numBits = Some out /\
     length out = length array /\
     Sorted lex_le (pairs_of out num) /\
     Permutation (pairs_of out num) (pairs_of array num)).
Proof.
  intros Hq Hnum Hlen Hsmall Hsched Hcells.
  assert (Hget : forall j, 0 <= j < 2 * num -> - 2^59 <= get array j < 2^59).
  { intros j Hj. apply (Forall_get (fun v => - 2^59 <= v < 2^59)); [exact Hcells | lia]. }
  split.
  - destruct (bucket_sort_pairs_correct qsort Hq sched array num Hnum Hsched
                ltac:(lia)) as [L [_ [S P]]].
    + intros i Hi. apply Hget. rewrite pair_indices in Hi by lia.
      apply in_map_iff in Hi. destruct Hi as [k [<- Hk]]. apply in_seq in Hk. lia.
    + cbv zeta in *. split; [exact L|]. split; [now apply StronglySorted_Sorted | exact P].
  - intros HnumBits Hfuel Hfirst.
    destruct (radix_sort_pairs_correct array num numBits fuel Hnum Hlen Hsmall HnumBits
                                       Hfuel) as [out [E [L [S P]]]].
    + intros j Hj. pose proof (Hget j Hj). lia.
    + intros k Hk. rewrite Forall_forall in Hfirst.
      apply (Hfirst (get array (2 * k), get array (2 * k + 1))).
      apply in_pairs_of. exists k. split; [exact Hk | reflexivity].
    + exists out. split; [exact E|]. split; [exact L|].
      split; [now apply StronglySorted_Sorted | exact P].
Qed.

Lemma pair_sorts_sort_lexicographically_witness :
  (let out := bucket_sort_pairs insertion_qsort [4; 0; 2] [3; 9; -1; 5; 3; 2] 3 in
   length out = length [3; 9; -1; 5; 3; 2] /\
   Sorted lex_le (pairs_of out 3) /\
   Permutation (pairs_of out 3) (pairs_of [3; 9; -1; 5; 3; 2] 3)) /\
  exists out,
    radix_sort_pairs 64 [3; 9; 1; -5; 3; 2] (2 * 3) 8 = Some out /\
    length out = length [3; 9; 1; -5; 3; 2] /\
    Sorted lex_le (pairs_of out 3) /\
    Permutation (pairs_of out 3) (pairs_of [3; 9; 1; -5; 3; 2] 3).
Proof.
  split.
  - destruct (pair_sorts_sort_lexicographically insertion_qsort [4; 0; 2]
                [3; 9; -1; 5; 3; 2] 3 8 64 insertion_qsort_contract) as [Hb _].
    + lia.
    + reflexivity.
    + lia.
    + vm_compute. apply (Permutation_app_comm [4] [0; 2]).
    + repeat (apply Forall_cons; [lia|]). apply Forall_nil.
    + exact Hb.
  - destruct (pair_sorts_sort_lexicographically insertion_qsort [4; 0; 2]
                [3; 9; 1; -5; 3; 2] 3 8 64 insertion_qsort_contract) as [_ Hr].
    + lia.
    + reflexivity.
    + lia.
    + vm_compute. apply (Permutation_app_comm [4] [0; 2]).
    + repeat (apply Forall_cons; [lia|]). apply Forall_nil.
    + apply Hr.
      * lia.
      * lia.
      * change (pairs_of [3; 9; 1; -5; 3; 2] 3) with [(3, 9); (1, -5); (3, 2)].
        repeat (apply Forall_cons; [cbn [fst]; lia|]). apply Forall_nil.
Defined.

Example bucket_sort_pairs_example :
  bucket_sort_pairs insertion_qsort [0; 2; 4] [3; 9; 1; 5; 3; 2] 3 = [1; 5; 3; 2; 3; 9].
Proof. reflexivity. Qed.

Example radix_sort_pairs_example :
  radix_sort_pairs 64 [3; 9; 1; 5; 3; 2] 6 8 = Some [1; 5; 3; 2; 3; 9].
Proof. reflexivity. Qed.

(** Without a digit ([numBits = 0]) the digit loop never ends. *)
Example radix_sort_pairs_no_digit : radix_sort_pairs 64 [3; 9; 1; 5; 3; 2] 6 0 = None.
Proof. reflexivity. Qed.


(** ** Sorted CSR extraction *)

Lemma xmalloc_length (n : Z) : length (xmalloc n) = Z.to_nat n.
Proof. unfold xmalloc. apply repeat_length. Qed.

Lemma pointers_filled (s d : Z) :
  0 <= d ->
  for_loop 0 d 1 (fun j pointers => set pointers j (s + j)) (xmalloc d) = zrange s (Z.to_nat d).
Proof.
  intros Hd.
  destruct (fill_cells (fun j pointers => set pointers j (s + j)) 0 d (fun j => s + j) (xmalloc d))
    as (Hl & Hin & _); try lia.
  - intros j b _. reflexivity.
  - rewrite xmalloc_length. lia.
  - apply get_ext.
    + rewrite Hl, xmalloc_length, zrange_length. reflexivity.
    + intros i Hi. rewrite Hl, xmalloc_length in Hi.
      replace i with (0 + i) at 1 by lia. rewrite Hin by lia.
      replace i with (Z.of_nat (Z.to_nat i)) at 2 by lia. rewrite get_of_nat.
      unfold zrange. rewrite nth_map_seq by lia. lia.
Qed.

Lemma copy_metadata_spec (d s : Z) (metadata pointers buffer : list Z) :
  0 <= s -> s + d <= Z.of_nat (length metadata) ->
  length pointers = Z.to_nat d -> length buffer = Z.to_nat d -> 0 <= d ->
  let r := copy_metadata_based_on_pointer_array d metadata s pointers s buffer in
  permuted_by pointers s metadata (fst r) /\ length (snd r) = Z.to_nat d.
Proof.
  intros Hs Hlen Hp Hb Hd. unfold copy_metadata_based_on_pointer_array. cbn [fst snd].
  destruct (fill_cells
              (fun i buffer => set buffer i (get metadata (s + (get pointers i - s))))
              0 d (fun i => get metadata (get pointers i)) buffer)
    as (Hl1 & Hin1 & _); try lia.
  { intros j b _. f_equal. f_equal. lia. }
  set (buffer' := for_loop 0 d 1 _ buffer) in *.
  destruct (fill_cells
              (fun i metadata => set metadata (i + s) (get buffer' i))
              s d (fun i => get buffer' i) metadata)
    as (Hl2 & Hin2 & Hout2); try lia.
  { intros j b _. f_equal. lia. }
  split; [|lia].
  repeat split.
  - exact Hl2.
  - intros j Hj. rewrite Hin2 by lia.
    replace (Z.of_nat j) with (0 + Z.of_nat j) by lia. rewrite Hin1 by lia.
    f_equal. replace (0 + Z.of_nat j) with (Z.of_nat j) by lia. apply get_of_nat.
  - intros k Hk. apply Hout2. lia.
Qed.

Lemma permute_metadata_spec (d s : Z) (n : nat) (m : option (list Z)) (pointers buffer : list Z) :
  0 <= s -> s + d <= Z.of_nat n -> opt_length m n ->
  length pointers = Z.to_nat d -> length buffer = Z.to_nat d -> 0 <= d ->
  let r := permute_metadata d s pointers (m, buffer) in
  opt_permuted_by pointers s m (fst r) /\ length (snd r) = Z.to_nat d.
Proof.
  intros Hs Hlen Hm Hp Hb Hd. unfold permute_metadata. cbn [fst snd].
  destruct m as [a|]; cbn [fst snd opt_permuted_by].
  - cbn in Hm. apply copy_metadata_spec; try assumption. lia.
  - split; [exact I | exact Hb].
Qed.

(** One vertex: the slice of [ind] and of every output asked for is
    rearranged as the sorted pointers say, and nothing else changes. *)
Lemma sort_vertex_spec (qsort : qsort_fn) (nv i : Z) (c : csr) :
  qsort_contract qsort -> csr_ok c nv -> 0 <= i < nv ->
  let s := get (s_off c) i in
  let d := get (s_off c) (i + 1) - s in
  let p := qsort Z (pointer_cmp (s_ind c)) (zrange s (Z.to_nat d)) in
  let c' := sort_vertex qsort i c in
  s_off c' = s_off c /\
  permuted_by p s (s_ind c) (s_ind c') /\
  opt_permuted_by p s (s_weight c) (s_weight c') /\
  opt_permuted_by p s (s_timefirst c) (s_timefirst c') /\
  opt_permuted_by p s (s_timerecent c) (s_timerecent c') /\
  opt_permuted_by p s (s_type c) (s_type c').
Proof.
  intros Hq (Hoff & Hn & Hw & Hf & Hr & Ht) Hi s d p.
  destruct (Hoff i Hi) as [Hs Hle]. fold s in Hs, Hle.
  assert (Hd : 0 <= d) by (unfold d; lia).
  assert (Ed : sub64 (get (s_off c) (i + 1)) s = d).
  { unfold sub64. apply to_i64_id. unfold in_i64, INT64_MIN, INT64_MAX, d. lia. }
  assert (Hp : length p = Z.to_nat d).
  { unfold p. rewrite <- (Permutation_length (qsort_perm qsort Hq Z _ _)).
    apply zrange_length. }
  unfold sort_vertex. fold s. rewrite Ed. rewrite pointers_filled by exact Hd. fold p.
  cbv zeta.
  destruct (fill_cells
              (fun j tmp_buffer => set tmp_buffer j (get (s_ind c) (get p j)))
              0 d (fun j => get (s_ind c) (get p j)) (xmalloc d))
    as (Hl1 & Hin1 & _); try lia.
  { intros j b _. reflexivity. }
  { rewrite xmalloc_length. lia. }
  set (tmp := for_loop 0 d 1 _ (xmalloc d)) in *.
  destruct (fill_cells
              (fun j ind => set ind (s + j) (get tmp j))
              s d (fun j => get tmp j) (s_ind c))
    as (Hl2 & Hin2 & Hout2); try lia.
  { intros j b _. reflexivity. }
  assert (Htmp : length tmp = Z.to_nat d) by (rewrite Hl1; apply xmalloc_length).
  destruct (permute_metadata_spec d s (length (s_ind c)) (s_weight c) p tmp)
    as [Pw Lw]; try assumption; try lia.
  set (wb := permute_metadata d s p (s_weight c, tmp)) in *.
  destruct (permute_metadata_spec d s (length (s_ind c)) (s_timefirst c) p (snd wb))
    as [Pf Lf]; try assumption; try lia.
  set (fb := permute_metadata d s p (s_timefirst c, snd wb)) in *.
  destruct (permute_metadata_spec d s (length (s_ind c)) (s_timerecent c) p (snd fb))
    as [Pr Lr]; try assumption; try lia.
  set (rb := permute_metadata d s p (s_timerecent c, snd fb)) in *.
  destruct (permute_metadata_spec d s (length (s_ind c)) (s_type c) p (snd rb))
    as [Pt Lt]; try assumption; try lia.
  cbn [s_off s_ind s_weight s_timefirst s_timerecent s_type].
  repeat split; try assumption.
  - intros j Hj. rewrite Hin2 by lia.
    replace (Z.of_nat j) with (0 + Z.of_nat j) by lia. rewrite Hin1 by lia.
    f_equal. replace (0 + Z.of_nat j) with (Z.of_nat j) by lia. apply get_of_nat.
  - intros k Hk. apply Hout2. lia.
Qed.


Lemma sort_csr_one_vertex (qsort : qsort_fn) (c : csr) :
  sort_csr qsort 1 c = sort_vertex qsort 0 c.
Proof. reflexivity. Qed.

Lemma far_apart_unsorted : ~ Sorted Z.le [4294967296; 0].
Proof.
  intros H. inversion H as [|a l Hs Hh]; subst.
  inversion Hh as [|b l' Hab]; subst. lia.
Qed.

(** The slice of a vertex with two neighbours after [sort_vertex]. *)
Lemma sort_vertex_two (qsort : qsort_fn) (x y : Z) (m : option (list Z)) :
  qsort_contract qsort ->
  let c := {| s_off := [0; 2]; s_ind := [x; y]; s_weight := m;
              s_timefirst := None; s_timerecent := None; s_type := None |} in
  opt_length m 2 ->
  let p := qsort Z (pointer_cmp [x; y]) [0; 1] in
  let c' := sort_vertex qsort 0 c in
  s_off c' = [0; 2] /\
  vertex_slice (s_off c') (s_ind c') 0 = [get [x; y] (nth 0 p 0); get [x; y] (nth 1 p 0)].
Proof.
  intros Hq c Hm p c'.
  assert (Hok : csr_ok c 1).
  { unfold csr_ok, c. cbn [s_off s_ind s_weight s_timefirst s_timerecent s_type length opt_length].
    repeat split; try exact Hm; try lia.
    all: intros; assert (v = 0) by lia; subst v; vm_compute; congruence. }
  destruct (sort_vertex_spec qsort 1 0 c Hq Hok ltac:(lia)) as (Eo & (Hl & Hin & _) & _).
  fold c' in Eo, Hl, Hin. split; [exact Eo|].
  change (qsort Z (pointer_cmp (s_ind c))
                (zrange (get (s_off c) 0) (Z.to_nat (get (s_off c) (0 + 1) - get (s_off c) 0))))
    with p in Hin.
  change (get (s_off c) 0) with 0 in Hin.
  assert (Hp : length p = 2%nat).
  { unfold p. now rewrite <- (Permutation_length (qsort_perm qsort Hq Z _ _)). }
  rewrite Eo.
  change ([get (s_ind c') (0 + Z.of_nat 0); get (s_ind c') (0 + Z.of_nat 1)]
          = [get [x; y] (nth 0 p 0); get [x; y] (nth 1 p 0)]).
  rewrite !Hin by lia. reflexivity.
Qed.

(** C2. Whatever way [qsort] rearranges its array, one of two graphs with a
    single vertex and two out-edges, to the vertices 2^32 and 0 in either
    storage order, is extracted by [stinger_to_sorted_csr] with the slice of
    its vertex in descending order: [csr_cmp] returns 0 on every pair of
    pointers of both graphs, so [qsort] rearranges both slices alike. *)
Theorem stinger_to_sorted_csr_far_apart_neighbors (qsort : qsort_fn) :
  qsort_contract qsort ->
  exists neighbors,
    In neighbors [[4294967296; 0]; [0; 4294967296]] /\
    let c := stinger_to_sorted_csr qsort (one_vertex neighbors) 1 true false false false in
    s_off c = [0; 2] /\
    vertex_slice (s_off c) (s_ind c) 0 = [4294967296; 0] /\
    ~ Sorted Z.le (vertex_slice (s_off c) (s_ind c) 0).
Proof.
  intros Hq.
  set (p := qsort Z (pointer_cmp [4294967296; 0]) [0; 1]).
  assert (Ep : qsort Z (pointer_cmp [0; 4294967296]) [0; 1] = p).
  { apply (qsort_ext qsort Hq). intros a b Ha Hb.
    destruct Ha as [<-|[<-|[]]]; destruct Hb as [<-|[<-|[]]]; reflexivity. }
  assert (Hp : p = [0; 1] \/ p = [1; 0]).
  { apply Permutation_length_2_inv. apply (qsort_perm qsort Hq). }
  destruct Hp as [Hp|Hp].
  - exists [4294967296; 0]. split; [now left|].
    unfold stinger_to_sorted_csr.
    change (stinger_to_unsorted_csr (one_vertex [4294967296; 0]) 1 true false false false)
      with {| s_off := [0; 2]; s_ind := [4294967296; 0]; s_weight := Some [100; 101];
              s_timefirst := None; s_timerecent := None; s_type := None |}.
    rewrite sort_csr_one_vertex.
    destruct (sort_vertex_two qsort 4294967296 0 (Some [100; 101]) Hq eq_refl) as [Eo Es].
    cbv zeta. rewrite Es. fold p. rewrite Hp.
    split; [exact Eo|]. split; [reflexivity | exact far_apart_unsorted].
  - exists [0; 4294967296]. split; [right; now left|].
    unfold stinger_to_sorted_csr.
    change (stinger_to_unsorted_csr (one_vertex [0; 4294967296]) 1 true false false false)
      with {| s_off := [0; 2]; s_ind := [0; 4294967296]; s_weight := Some [100; 101];
              s_timefirst := None; s_timerecent := None; s_type := None |}.
    rewrite sort_csr_one_vertex.
    destruct (sort_vertex_two qsort 0 4294967296 (Some [100; 101]) Hq eq_refl) as [Eo Es].
    cbv zeta. rewrite Es, Ep. rewrite Hp.
    split; [exact Eo|]. split; [reflexivity | exact far_apart_unsorted].
Qed.

Lemma stinger_to_sorted_csr_far_apart_neighbors_witness :
  exists neighbors,
    In neighbors [[4294967296; 0]; [0; 4294967296]] /\
    let c := stinger_to_sorted_csr insertion_qsort (one_vertex neighbors) 1
                                   true false false false in
    s_off c = [0; 2] /\
    vertex_slice (s_off c) (s_ind c) 0 = [4294967296; 0] /\
    ~ Sorted Z.le (vertex_slice (s_off c) (s_ind c) 0).
Proof.
  apply (stinger_to_sorted_csr_far_apart_neighbors insertion_qsort insertion_qsort_contract).
Defined.

(** With an insertion sort for [qsort] the first of the two graphs is the one
    left in descending order; neighbours that are close to one another are
    sorted, each with its weight. *)
Example stinger_to_sorted_csr_example_far :
  stinger_to_sorted_csr insertion_qsort (one_vertex [4294967296; 0]) 1 true false false false
  = {| s_off := [0; 2]; s_ind := [4294967296; 0]; s_weight := Some [100; 101];
       s_timefirst := None; s_timerecent := None; s_type := None |}.
Proof. vm_compute. reflexivity. Qed.

Example stinger_to_sorted_csr_example_near :
  stinger_to_sorted_csr insertion_qsort (one_vertex [7; 0; 3]) 1 true false false false
  = {| s_off := [0; 3]; s_ind := [0; 3; 7]; s_weight := Some [101; 102; 100];
       s_timefirst := None; s_timerecent := None; s_type := None |}.
Proof. vm_compute. reflexivity. Qed.


Lemma offsets_mono (off : list Z) (nv n u v : Z) :
  offsets_ok off nv n -> 0 <= u -> u <= v -> v <= nv -> get off u <= get off v.
Proof.
  intros Hoff Hu Huv Hv.
  replace v with (u + Z.of_nat (Z.to_nat (v - u))) in * by lia.
  induction (Z.to_nat (v - u)) as [|k IH].
  - replace (u + Z.of_nat 0) with u by lia. lia.
  - assert (H1 : get off u <= get off (u + Z.of_nat k)) by (apply IH; lia).
    destruct (Hoff (u + Z.of_nat k) ltac:(lia)) as [[_ H2] _].
    replace (u + Z.of_nat (S k)) with (u + Z.of_nat k + 1) by lia. lia.
Qed.

Section SortCsr.
Variable qsort : qsort_fn.
Hypothesis Hq : qsort_contract qsort.
Variable nv : Z.
Variable c : csr.
Hypothesis Hok : csr_ok c nv.

Let off := s_off c.
Let n := length (s_ind c).

Lemma sorted_pointers_perm (v : Z) :
  Permutation (zrange (get off v) (Z.to_nat (get off (v + 1) - get off v)))
              (sorted_pointers qsort c v).
Proof. unfold sorted_pointers. apply (qsort_perm qsort Hq). Qed.

Lemma sorted_pointers_length (v : Z) :
  length (sorted_pointers qsort c v) = Z.to_nat (get off (v + 1) - get off v).
Proof.
  rewrite <- (Permutation_length (sorted_pointers_perm v)). apply zrange_length.
Qed.

Lemma sorted_pointers_range (v x : Z) :
  0 <= v < nv -> In x (sorted_pointers qsort c v) -> get off v <= x < get off (v + 1).
Proof.
  intros Hv Hx. destruct Hok as (Hoff & _). destruct (Hoff v Hv) as [H1 _]. fold off in H1.
  apply (Permutation_in _ (Permutation_sym (sorted_pointers_perm v))) in Hx.
  apply in_zrange in Hx. lia.
Qed.

(** One array, one more vertex. *)
Lemma sorted_below_step (i : Z) (a0 a a' : list Z) :
  0 <= i < nv ->
  sorted_below qsort c i a0 a ->
  permuted_by (sorted_pointers qsort c i) (get off i) a a' ->
  sorted_below qsort c (i + 1) a0 a'.
Proof.
  intros Hi (Hl & Hlow & Hhigh) (Pl & Pin & Pout).
  destruct Hok as (Hoff & _). fold off in Hoff.
  destruct (Hoff i Hi) as [Hs _].
  rewrite sorted_pointers_length in Pout.
  split; [congruence|]. split.
  - intros v Hv. destruct (Z.eq_dec v i) as [->|Hne].
    + unfold vertex_slice, slice. fold off.
      rewrite <- (sorted_pointers_length i).
      rewrite (map_zrange_nth (get a') (get a) (sorted_pointers qsort c i) (get off i)).
      * apply map_ext_in. intros x Hx. apply Hhigh.
        apply sorted_pointers_range in Hx; [fold off; lia | exact Hi].
      * exact Pin.
    + rewrite <- (Hlow v ltac:(lia)). unfold vertex_slice, slice. fold off.
      apply map_ext_in. intros k Hk. apply in_zrange in Hk.
      apply Pout.
      assert (H1 : get off (v + 1) <= get off i)
        by (apply (offsets_mono off nv (Z.of_nat n)); [exact Hoff | lia | lia | lia]).
      destruct (Hoff v ltac:(lia)) as [H2 _]. lia.
  - intros k Hk. fold off in Hk. rewrite Pout by lia. apply Hhigh. fold off. lia.
Qed.

Lemma opt_sorted_below_step (i : Z) (m0 m m' : option (list Z)) :
  0 <= i < nv ->
  opt_sorted_below qsort c i m0 m ->
  opt_permuted_by (sorted_pointers qsort c i) (get off i) m m' ->
  opt_sorted_below qsort c (i + 1) m0 m'.
Proof.
  intros Hi H P. destruct m0 as [a0|], m as [a|], m' as [a'|]; cbn in *; try contradiction;
    try exact I.
  now apply (sorted_below_step i a0 a a').
Qed.

Lemma opt_sorted_below_length (i : Z) (m0 m : option (list Z)) (k : nat) :
  opt_sorted_below qsort c i m0 m -> opt_length m0 k -> opt_length m k.
Proof.
  destruct m0 as [a0|], m as [a|]; cbn; try contradiction; try (intros; exact I).
  intros (Hl & _) H. congruence.
Qed.

(** The state when the vertices below [i] have been sorted. *)
Let Inv (i : Z) (ci : csr) : Prop :=
  s_off ci = off /\
  sorted_below qsort c i (s_ind c) (s_ind ci) /\
  opt_sorted_below qsort c i (s_weight c) (s_weight ci) /\
  opt_sorted_below qsort c i (s_timefirst c) (s_timefirst ci) /\
  opt_sorted_below qsort c i (s_timerecent c) (s_timerecent ci) /\
  opt_sorted_below qsort c i (s_type c) (s_type ci).

Lemma opt_sorted_below_start (m : option (list Z)) : opt_sorted_below qsort c 0 m m.
Proof.
  destruct m as [a|]; cbn; [|exact I].
  split; [reflexivity|]. split; [intros; lia | reflexivity].
Qed.

Lemma sort_csr_invariant : 0 <= nv -> Inv nv (sort_csr qsort nv c).
Proof.
  intros Hnv. unfold sort_csr. apply (for_loop_ind1 Inv); [exact Hnv | |].
  - unfold Inv. split; [reflexivity|]. split.
    + split; [reflexivity|]. split; [intros; lia | reflexivity].
    + repeat split; apply opt_sorted_below_start.
  - intros i ci Hi (Eo & Hind & Hw & Hf & Hr & Ht).
    pose proof Hok as (Hoff & Hn & Lw & Lf & Lr & Lt).
    assert (Hoki : csr_ok ci nv).
    { destruct Hind as (Hl & _). unfold csr_ok. rewrite Eo, Hl.
      split; [exact Hoff|]. split; [exact Hn|].
      repeat split; eapply opt_sorted_below_length; eassumption. }
    pose proof (sort_vertex_spec qsort nv i ci Hq Hoki Hi) as Hspec.
    cbv zeta in Hspec. rewrite Eo in Hspec.
    assert (Ep : qsort Z (pointer_cmp (s_ind ci))
                       (zrange (get off i) (Z.to_nat (get off (i + 1) - get off i)))
                 = sorted_pointers qsort c i).
    { unfold sorted_pointers. fold off. apply (qsort_ext qsort Hq).
      intros a b Ha Hb. apply in_zrange in Ha, Hb.
      destruct Hind as (_ & _ & Hhigh). unfold pointer_cmp.
      rewrite !Hhigh by (fold off; lia). reflexivity. }
    rewrite Ep in Hspec. destruct Hspec as (Eo' & Pi & Pw & Pf & Pr & Pt).
    unfold Inv. split; [exact Eo'|].
    split; [now apply (sorted_below_step i (s_ind c) (s_ind ci))|].
    repeat split; eapply opt_sorted_below_step; eassumption.
Qed.
End SortCsr.


Lemma slice_permuted_of_sorted_below (qsort : qsort_fn) (c : csr) (nv v : Z)
      (m m' : option (list Z)) :
  0 <= v < nv ->
  opt_sorted_below qsort c nv m m' ->
  slice_permuted (s_off c) (sorted_pointers qsort c v) v m m'.
Proof.
  intros Hv. destruct m as [a|], m' as [a'|]; cbn; try contradiction; try (intros; exact I).
  intros (_ & H & _). now apply H.
Qed.

(** Sorted CSR extraction, what does hold: on a well-formed CSR the sorting
    loop keeps the offsets and rearranges the slice of every vertex, in [ind]
    and in every output asked for, by the same pointers, so that every
    neighbour keeps the weight, the time stamps and the type of its edge; and
    a slice whose neighbours are within [2^31] of one another ends in
    ascending order. *)
Theorem sort_csr_permutes_slices (qsort : qsort_fn) (nv : Z) (c : csr) :
  qsort_contract qsort -> csr_ok c nv -> 0 <= nv ->
  let c' := sort_csr qsort nv c in
  s_off c' = s_off c /\
  forall v, 0 <= v < nv ->
    let p := sorted_pointers qsort c v in
    Permutation (zrange (get (s_off c) v)
                        (Z.to_nat (get (s_off c) (v + 1) - get (s_off c) v))) p /\
    vertex_slice (s_off c) (s_ind c') v = map (get (s_ind c)) p /\
    slice_permuted (s_off c) p v (s_weight c) (s_weight c') /\
    slice_permuted (s_off c) p v (s_timefirst c) (s_timefirst c') /\
    slice_permuted (s_off c) p v (s_timerecent c) (s_timerecent c') /\
    slice_permuted (s_off c) p v (s_type c) (s_type c') /\
    ((forall a b, In a (vertex_slice (s_off c) (s_ind c) v) ->
                  In b (vertex_slice (s_off c) (s_ind c) v) -> - 2^31 <= a - b < 2^31) ->
     Sorted Z.le (vertex_slice (s_off c) (s_ind c') v)).
Proof.
  intros Hq Hok Hnv c'.
  destruct (sort_csr_invariant qsort Hq nv c Hok Hnv) as (Eo & Hind & Hw & Hf & Hr & Ht).
  fold c' in Eo, Hind, Hw, Hf, Hr, Ht.
  split; [exact Eo|]. intros v Hv p.
  assert (Hp : Permutation (zrange (get (s_off c) v)
                                   (Z.to_nat (get (s_off c) (v + 1) - get (s_off c) v))) p)
    by (apply (qsort_perm qsort Hq)).
  assert (Es : vertex_slice (s_off c) (s_ind c') v = map (get (s_ind c)) p)
    by (destruct Hind as (_ & H & _); now apply H).
  split; [exact Hp|]. split; [exact Es|].
  repeat split; try (eapply slice_permuted_of_sorted_below; eassumption).
  intros Hnear. rewrite Es. apply StronglySorted_Sorted.
  apply (StronglySorted_map Z.le (get (s_ind c))).
  assert (Hin : forall x, In x (zrange (get (s_off c) v)
                                       (Z.to_nat (get (s_off c) (v + 1) - get (s_off c) v))) ->
                          In (get (s_ind c) x) (vertex_slice (s_off c) (s_ind c) v)).
  { intros x Hx. unfold vertex_slice, slice. now apply in_map. }
  assert (Hcmp : forall x y,
             In x (zrange (get (s_off c) v)
                          (Z.to_nat (get (s_off c) (v + 1) - get (s_off c) v))) ->
             In y (zrange (get (s_off c) v)
                          (Z.to_nat (get (s_off c) (v + 1) - get (s_off c) v))) ->
             pointer_cmp (s_ind c) x y = get (s_ind c) x - get (s_ind c) y).
  { intros x y Hx Hy. unfold pointer_cmp, csr_cmp. apply to_i32_sub64_small.
    apply Hnear; now apply Hin. }
  apply (StronglySorted_weaken (fun a b => pointer_cmp (s_ind c) a b <= 0)).
  - intros x y Hx Hy. apply (Permutation_in _ (Permutation_sym Hp)) in Hx, Hy.
    rewrite (Hcmp x y Hx Hy). lia.
  - apply (qsort_sorted qsort Hq). split.
    + intros a b Ha Hb. rewrite (Hcmp a b Ha Hb), (Hcmp b a Hb Ha). lia.
    + intros a b d Ha Hb Hd. rewrite (Hcmp a b Ha Hb), (Hcmp b d Hb Hd), (Hcmp a d Ha Hd). lia.
Qed.

Lemma sort_csr_permutes_slices_witness :
  let c := {| s_off := [0; 2; 2; 5]; s_ind := [5; 3; 9; 1; 4];
              s_weight := Some [50; 30; 90; 10; 40]; s_timefirst := None;
              s_timerecent := None; s_type := None |} in
  let c' := sort_csr insertion_qsort 3 c in
  s_off c' = s_off c /\
  forall v, 0 <= v < 3 ->
    let p := sorted_pointers insertion_qsort c v in
    Permutation (zrange (get (s_off c) v)
                        (Z.to_nat (get (s_off c) (v + 1) - get (s_off c) v))) p /\
    vertex_slice (s_off c) (s_ind c') v = map (get (s_ind c)) p /\
    slice_permuted (s_off c) p v (s_weight c) (s_weight c') /\
    slice_permuted (s_off c) p v (s_timefirst c) (s_timefirst c') /\
    slice_permuted (s_off c) p v (s_timerecent c) (s_timerecent c') /\
    slice_permuted (s_off c) p v (s_type c) (s_type c') /\
    ((forall a b, In a (vertex_slice (s_off c) (s_ind c) v) ->
                  In b (vertex_slice (s_off c) (s_ind c) v) -> - 2^31 <= a - b < 2^31) ->
     Sorted Z.le (vertex_slice (s_off c) (s_ind c') v)).
Proof.
  intros c.
  apply (sort_csr_permutes_slices insertion_qsort 3 c insertion_qsort_contract).
  - unfold csr_ok, c. cbn [s_off s_ind s_weight s_timefirst s_timerecent s_type length opt_length].
    repeat split; try lia.
    all: intros;
      assert (Hv : v = 0 \/ v = 1 \/ v = 2) by lia;
      destruct Hv as [Hv|[Hv|Hv]]; subst v; vm_compute; congruence.
  - lia.
Defined.


(** ** Unsorted CSR extraction *)

Lemma store_at_spec (vals : list Z) :
  forall (a : list Z) (o : Z),
    0 <= o -> o + Z.of_nat (length vals) <= Z.of_nat (length a) ->
    length (store_at a o vals) = length a /\
    slice (store_at a o vals) o (length vals) = vals /\
    (forall k, ~ (o <= k < o + Z.of_nat (length vals)) -> get (store_at a o vals) k = get a k).
Proof.
  induction vals as [|x t IH]; intros a o Ho Hlen.
  - cbn. repeat split; reflexivity.
  - cbn [store_at]. cbn [length] in Hlen.
    destruct (IH (set a o x) (o + 1) ltac:(lia) ltac:(rewrite set_length; lia))
      as (L & S & O).
    rewrite set_length in L. split; [exact L|]. split.
    + unfold slice in *. change (length (x :: t)) with (1 + length t)%nat.
      rewrite zrange_app. cbn [zrange seq map app]. rewrite Z.add_0_r.
      replace (o + Z.of_nat 1) with (o + 1) by lia. rewrite S. f_equal.
      rewrite O by lia. apply get_set_same. lia.
    + intros k Hk. rewrite O by (cbn [length] in Hk; lia).
      apply get_set_other. cbn [length] in Hk. lia.
Qed.

Lemma slice_ext (a b : list Z) (lo : Z) (n : nat) :
  (forall k, lo <= k < lo + Z.of_nat n -> get a k = get b k) -> slice a lo n = slice b lo n.
Proof.
  intros H. unfold slice. apply map_ext_in. intros k Hk. apply in_zrange in Hk. now apply H.
Qed.

Lemma degree_sum_mono (G : stinger) (u v : nat) :
  (u <= v)%nat -> 0 <= degree_sum G u <= degree_sum G v.
Proof.
  intros H. assert (H0 : forall n, 0 <= degree_sum G n).
  { induction n as [|n IH]; cbn; [lia|]. unfold stinger_outdegree_get. lia. }
  split; [apply H0|]. induction H as [|v H IH]; [lia|]. cbn.
  unfold stinger_outdegree_get. lia.
Qed.

Section UnsortedCsr.
Variable G : stinger.
Variable nv : Z.
Hypothesis Hnv : 0 <= nv.
Hypothesis Hsum : degree_sum G (Z.to_nat nv) < 2^63.

Let t := degree_sum G (Z.to_nat nv).

Lemma degree_sum_bound (v : nat) : (v <= Z.to_nat nv)%nat -> 0 <= degree_sum G v <= t.
Proof. intros H. now apply degree_sum_mono. Qed.

(** The offsets that the first two loops compute. *)
Lemma offsets_spec :
  let off := for_loop 0 nv 1 (fun i off => set off i (stinger_outdegree_get G i))
                      (xmalloc (nv + 1)) in
  let ot := for_loop 0 nv 1 exclusive_step (off, 0) in
  length (fst ot) = Z.to_nat (nv + 1) /\ snd ot = t /\
  forall v, (v < Z.to_nat nv)%nat -> get (fst ot) (Z.of_nat v) = degree_sum G v.
Proof.
  intros off.
  destruct (fill_cells (fun i off => set off i (stinger_outdegree_get G i)) 0 nv
                       (fun i => stinger_outdegree_get G i) (xmalloc (nv + 1)))
    as (L0 & In0 & _); try lia.
  { intros j b _. reflexivity. }
  { rewrite xmalloc_length. lia. }
  fold off in L0, In0. rewrite xmalloc_length in L0.
  assert (HI : let ot := for_loop 0 nv 1 exclusive_step (off, 0) in
               length (fst ot) = Z.to_nat (nv + 1) /\
               snd ot = degree_sum G (Z.to_nat nv) /\
               (forall v, 0 <= v < nv -> get (fst ot) v = degree_sum G (Z.to_nat v)) /\
               (forall v, nv <= v < nv -> get (fst ot) v = stinger_outdegree_get G v)).
  { apply (for_loop_ind1
             (fun i st => length (fst st) = Z.to_nat (nv + 1) /\
                          snd st = degree_sum G (Z.to_nat i) /\
                          (forall v, 0 <= v < i -> get (fst st) v = degree_sum G (Z.to_nat v)) /\
                          (forall v, i <= v < nv ->
                                     get (fst st) v = stinger_outdegree_get G v))).
    - exact Hnv.
    - cbn [fst snd]. split; [exact L0|]. split; [reflexivity|]. split; [intros; lia|].
      intros v Hv. replace v with (0 + v) by lia. apply In0. lia.
    - intros i [o s] Hi (L & S & Lo & Hi'). cbn [fst snd] in *.
      unfold exclusive_step. cbn [fst snd]. rewrite set_length.
      split; [exact L|]. split; [|split].
      + rewrite (Hi' i ltac:(lia)), S.
        replace (Z.to_nat (i + 1)) with (Datatypes.S (Z.to_nat i)) by lia.
        cbn [degree_sum]. rewrite Z2Nat.id by lia.
        unfold add64. apply to_i64_id.
        pose proof (degree_sum_bound (Datatypes.S (Z.to_nat i)) ltac:(lia)) as Hb.
        cbn [degree_sum] in Hb. rewrite Z2Nat.id in Hb by lia.
        unfold in_i64, t in *. lia.
      + intros v Hv. rewrite get_set by lia.
        destruct (Z.eqb_spec v i) as [->|Hne]; [exact S | apply Lo; lia].
      + intros v Hv. rewrite get_set_other by lia. apply Hi'. lia. }
  cbv zeta in HI. destruct HI as (L & S & Lo & _).
  split; [exact L|]. split; [exact S|].
  intros v Hv. rewrite (Lo (Z.of_nat v)) by lia. now rewrite Nat2Z.id.
Qed.
End UnsortedCsr.


Section Gather.
Variable G : stinger.
Variable nv : Z.
Hypothesis Hnv : 0 <= nv.
Hypothesis Hsum : degree_sum G (Z.to_nat nv) < 2^63.

Let t := degree_sum G (Z.to_nat nv).

Variable off : list Z.
Hypothesis Hoff : forall v, (v <= Z.to_nat nv)%nat -> get off (Z.of_nat v) = degree_sum G v.

Lemma gather_step (f : live_edge -> Z) (i : Z) (a : list Z) :
  0 <= i < nv ->
  gathered_below G f t (Z.to_nat i) a ->
  gathered_below G f t (Z.to_nat (i + 1))
                 (store_at a (get off i)
                           (map f (stinger_gather_successors
                                     G i (sub64 (get off (i + 1)) (get off i))))).
Proof.
  intros Hi (L & Hlow).
  assert (Eo : get off i = degree_sum G (Z.to_nat i)).
  { rewrite <- (Hoff (Z.to_nat i)) by lia. f_equal. lia. }
  assert (Eo1 : get off (i + 1) = degree_sum G (Datatypes.S (Z.to_nat i))).
  { rewrite <- (Hoff (Datatypes.S (Z.to_nat i))) by lia. f_equal. lia. }
  pose proof (degree_sum_bound G nv (Z.to_nat i) ltac:(lia)) as Hb.
  pose proof (degree_sum_bound G nv (Datatypes.S (Z.to_nat i)) ltac:(lia)) as Hb1.
  fold t in Hb, Hb1.
  assert (Ed : sub64 (get off (i + 1)) (get off i) = Z.of_nat (length (G i))).
  { rewrite Eo1, Eo. cbn [degree_sum]. unfold stinger_outdegree_get.
    rewrite Z2Nat.id by lia. unfold sub64.
    replace (degree_sum G (Z.to_nat i) + Z.of_nat (length (G i)) - degree_sum G (Z.to_nat i))
      with (Z.of_nat (length (G i))) by lia.
    apply to_i64_id.
    cbn [degree_sum] in Hb1. unfold stinger_outdegree_get in Hb1.
    rewrite Z2Nat.id in Hb1 by lia. unfold in_i64, t in *. lia. }
  unfold stinger_gather_successors. rewrite Ed, Nat2Z.id, firstn_all.
  cbn [degree_sum] in Hb1. unfold stinger_outdegree_get in Hb1.
  rewrite Z2Nat.id in Hb1 by lia.
  destruct (store_at_spec (map f (G i)) a (get off i)) as (L' & S' & O').
  { lia. }
  { rewrite length_map. lia. }
  rewrite length_map in S', O'.
  split; [lia|]. intros v Hv.
  destruct (Nat.eq_dec v (Z.to_nat i)) as [->|Hne].
  - rewrite Z2Nat.id by lia. rewrite <- Eo. exact S'.
  - rewrite <- (Hlow v) by lia. apply slice_ext. intros k Hk. apply O'.
    pose proof (degree_sum_mono G (Datatypes.S v) (Z.to_nat i) ltac:(lia)) as Hm.
    cbn [degree_sum] in Hm. unfold stinger_outdegree_get in Hm. lia.
Qed.

Lemma opt_gather_step (f : live_edge -> Z) (i : Z) (wanted : bool) (m : option (list Z)) :
  0 <= i < nv ->
  opt_gathered_below G f t (Z.to_nat i) wanted m ->
  opt_gathered_below G f t (Z.to_nat (i + 1)) wanted
    (option_map (fun a => store_at a (get off i)
                                   (map f (stinger_gather_successors
                                             G i (sub64 (get off (i + 1)) (get off i)))))
                m).
Proof.
  intros Hi. destruct m as [a|]; cbn; [|tauto].
  intros [Hw Hg]. split; [exact Hw|]. now apply gather_step.
Qed.

Lemma gather_start (f : live_edge -> Z) : gathered_below G f t 0 (xmalloc t).
Proof.
  split; [|intros v Hv; lia]. rewrite xmalloc_length.
  pose proof (degree_sum_bound G nv O ltac:(lia)). fold t in H. lia.
Qed.

Lemma gather_loop (weight_out timefirst_out timerecent_out type_out : bool) :
  let alloc (wanted : bool) := if wanted then Some (xmalloc t) else None in
  let c := for_loop 0 nv 1 (gather_vertex G off)
                    {| s_off := off; s_ind := xmalloc t;
                       s_weight := alloc weight_out; s_timefirst := alloc timefirst_out;
                       s_timerecent := alloc timerecent_out; s_type := alloc type_out |} in
  s_off c = off /\
  gathered_below G e_neighbor t (Z.to_nat nv) (s_ind c) /\
  opt_gathered_below G e_weight t (Z.to_nat nv) weight_out (s_weight c) /\
  opt_gathered_below G e_timeFirst t (Z.to_nat nv) timefirst_out (s_timefirst c) /\
  opt_gathered_below G e_timeRecent t (Z.to_nat nv) timerecent_out (s_timerecent c) /\
  opt_gathered_below G e_type t (Z.to_nat nv) type_out (s_type c).
Proof.
  intros alloc.
  assert (Halloc : forall f w, opt_gathered_below G f t 0 w (alloc w)).
  { intros f [|]; cbn; [|reflexivity]. split; [reflexivity | apply gather_start]. }
  apply (for_loop_ind1
           (fun i c =>
              s_off c = off /\
              gathered_below G e_neighbor t (Z.to_nat i) (s_ind c) /\
              opt_gathered_below G e_weight t (Z.to_nat i) weight_out (s_weight c) /\
              opt_gathered_below G e_timeFirst t (Z.to_nat i) timefirst_out (s_timefirst c) /\
              opt_gathered_below G e_timeRecent t (Z.to_nat i) timerecent_out
                                 (s_timerecent c) /\
              opt_gathered_below G e_type t (Z.to_nat i) type_out (s_type c))).
  - exact Hnv.
  - cbn [s_off s_ind s_weight s_timefirst s_timerecent s_type].
    split; [reflexivity|]. split; [apply gather_start|]. repeat split; apply Halloc.
  - intros i c Hi (Eo & Hn & Hw & Hf & Hr & Ht). unfold gather_vertex.
    cbn [s_off s_ind s_weight s_timefirst s_timerecent s_type].
    split; [exact Eo|]. split; [now apply gather_step|].
    repeat split; now apply opt_gather_step.
Qed.
End Gather.

(** [stinger_to_unsorted_csr]: the offsets are the running sums of the
    out-degrees, and the slice of every vertex holds, in [ind] and in every
    output asked for, the fields of its live edges in storage order. *)
Lemma stinger_to_unsorted_csr_spec (G : stinger) (nv : Z)
      (weight_out timefirst_out timerecent_out type_out : bool) :
  0 <= nv -> degree_sum G (Z.to_nat nv) < 2^63 ->
  let t := degree_sum G (Z.to_nat nv) in
  let c := stinger_to_unsorted_csr G nv weight_out timefirst_out timerecent_out type_out in
  (forall v, (v <= Z.to_nat nv)%nat -> get (s_off c) (Z.of_nat v) = degree_sum G v) /\
  gathered_below G e_neighbor t (Z.to_nat nv) (s_ind c) /\
  opt_gathered_below G e_weight t (Z.to_nat nv) weight_out (s_weight c) /\
  opt_gathered_below G e_timeFirst t (Z.to_nat nv) timefirst_out (s_timefirst c) /\
  opt_gathered_below G e_timeRecent t (Z.to_nat nv) timerecent_out (s_timerecent c) /\
  opt_gathered_below G e_type t (Z.to_nat nv) type_out (s_type c).
Proof.
  intros Hnv Hsum t c.
  destruct (offsets_spec G nv Hnv Hsum) as (L & St & Hlow). cbv zeta in L, St, Hlow.
  unfold c, stinger_to_unsorted_csr.
  set (off1 := for_loop 0 nv 1 (fun i off => set off i (stinger_outdegree_get G i))
                        (xmalloc (nv + 1))) in *.
  set (ot := for_loop 0 nv 1 exclusive_step (off1, 0)) in *.
  cbv zeta. rewrite St. fold t.
  set (off := set (fst ot) nv t).
  assert (Hoff : forall v, (v <= Z.to_nat nv)%nat -> get off (Z.of_nat v) = degree_sum G v).
  { intros v Hv. unfold off. rewrite get_set by lia.
    destruct (Z.eqb_spec (Z.of_nat v) nv) as [E|E].
    - unfold t. f_equal. lia.
    - apply Hlow. lia. }
  destruct (gather_loop G nv Hnv Hsum off Hoff weight_out timefirst_out timerecent_out
                        type_out) as (Eo & Hrest).
  cbv zeta in Eo, Hrest. fold t in Eo, Hrest. rewrite Eo. split; [exact Hoff | exact Hrest].
Qed.













(** ** The edge blocks of a vertex as one logical array *)

Lemma upd_length {A : Type} (l : list A) (n : nat) (x : A) : length (upd l n x) = length l.
Proof.
  revert n. induction l as [|y t IH]; intros [|n]; simpl; try reflexivity. now rewrite IH.
Qed.

Lemma nth_upd_same {A : Type} (l : list A) (n : nat) (x d : A) :
  (n < length l)%nat -> nth n (upd l n x) d = x.
Proof.
  revert n. induction l as [|y t IH]; intros [|n] H; simpl in *; try lia; try reflexivity.
  apply IH. lia.
Qed.

Lemma nth_upd_other {A : Type} (l : list A) (n m : nat) (x d : A) :
  n <> m -> nth m (upd l n x) d = nth m l d.
Proof.
  revert n m. induction l as [|y t IH]; intros [|n] [|m] H; simpl; try reflexivity; try lia.
  apply IH. lia.
Qed.

Lemma nth_upd {A : Type} (l : list A) (n m : nat) (x d : A) :
  (n < length l)%nat -> nth m (upd l n x) d = if Nat.eqb m n then x else nth m l d.
Proof.
  intros H. destruct (Nat.eqb_spec m n) as [->|Hn].
  - now apply nth_upd_same.
  - apply nth_upd_other. congruence.
Qed.

Lemma upd_app_l {A : Type} (l1 l2 : list A) (n : nat) (x : A) :
  (n < length l1)%nat -> upd (l1 ++ l2) n x = upd l1 n x ++ l2.
Proof.
  revert n. induction l1 as [|y t IH]; intros [|n] H; simpl in *; try lia; try reflexivity.
  rewrite IH by lia. reflexivity.
Qed.

Lemma upd_app_r {A : Type} (l1 l2 : list A) (n : nat) (x : A) :
  upd (l1 ++ l2) (length l1 + n) x = l1 ++ upd l2 n x.
Proof.
  induction l1 as [|y t IH]; simpl; [reflexivity|]. now rewrite IH.
Qed.

Lemma exchange_length (k : nat) (l : list stinger_edge) :
  length (fst (exchange k l)) = length l.
Proof.
  revert l. induction k as [|k IH]; intros l.
  - destruct l as [|a [|b t]]; simpl; try reflexivity.
    destruct (neighbor a >? neighbor b); reflexivity.
  - destruct l as [|a t]; simpl; [reflexivity|]. now rewrite IH.
Qed.

Lemma exchange_perm (k : nat) (l : list stinger_edge) : Permutation (fst (exchange k l)) l.
Proof.
  revert l. induction k as [|k IH]; intros l.
  - destruct l as [|a [|b t]]; simpl; try apply Permutation_refl.
    destruct (neighbor a >? neighbor b); simpl; [apply perm_swap | apply Permutation_refl].
  - destruct l as [|a t]; simpl; [apply Permutation_refl|]. apply perm_skip, IH.
Qed.

(** An exchange that is not made leaves the array as it is, its two slots
    being in order. *)
Lemma exchange_false (k : nat) (l : list stinger_edge) :
  snd (exchange k l) = false ->
  fst (exchange k l) = l /\
  ((k + 1 < length l)%nat ->
   neighbor (nth k l null_edge) <= neighbor (nth (k + 1) l null_edge)).
Proof.
  revert l. induction k as [|k IH]; intros l H.
  - destruct l as [|a [|b t]]; simpl in *; try (split; [reflexivity | lia]).
    destruct (Z.gtb_spec (neighbor a) (neighbor b)); simpl in *; [discriminate|].
    split; [reflexivity | lia].
  - destruct l as [|a t]; simpl in *; [split; [reflexivity | lia]|].
    destruct (IH t H) as [E1 E2]. split; [now rewrite E1|].
    intros Hk. apply E2. lia.
Qed.

Lemma exchange_count (f : Z -> bool) (k : nat) (l : list stinger_edge) :
  length (filter f (map neighbor (fst (exchange k l)))) = length (filter f (map neighbor l)).
Proof.
  revert l. induction k as [|k IH]; intros l.
  - destruct l as [|a [|b t]]; simpl; try reflexivity.
    destruct (neighbor a >? neighbor b); simpl; [|reflexivity].
    destruct (f (neighbor a)), (f (neighbor b)); reflexivity.
  - destruct l as [|a t]; simpl; [reflexivity|].
    destruct (f (neighbor a)); simpl; rewrite IH; reflexivity.
Qed.

(** An exchange that is made takes one inversion away. *)
Lemma exchange_true (k : nat) (l : list stinger_edge) :
  snd (exchange k l) = true ->
  (inversions (map neighbor (fst (exchange k l))) < inversions (map neighbor l))%nat.
Proof.
  revert l. induction k as [|k IH]; intros l H.
  - destruct l as [|a [|b t]]; simpl in *; try discriminate.
    destruct (Z.gtb_spec (neighbor a) (neighbor b)) as [Hgt|Hle]; simpl in *; [|discriminate].
    destruct (Z.gtb_spec (neighbor b) (neighbor a)); [lia|]. simpl. lia.
  - destruct l as [|a t]; [simpl in H; discriminate|].
    change (exchange (S k) (a :: t)) with (a :: fst (exchange k t), snd (exchange k t)) in *.
    cbn [fst snd] in *. specialize (IH t H).
    cbn [map inversions]. rewrite exchange_count. lia.
Qed.

Lemma exchange_spec (k : nat) (l : list stinger_edge) :
  exchange k l =
  if (k + 1 <? length l)%nat
     && (neighbor (nth k l null_edge) >? neighbor (nth (k + 1) l null_edge))
  then (upd (upd l (k + 1) (nth k l null_edge)) k (nth (k + 1) l null_edge), true)
  else (l, false).
Proof.
  revert l. induction k as [|k IH]; intros l.
  - destruct l as [|a [|b t]]; reflexivity.
  - destruct l as [|a t]; [reflexivity|].
    change (exchange (S k) (a :: t)) with (a :: fst (exchange k t), snd (exchange k t)).
    rewrite IH.
    change (S k + 1 <? length (a :: t))%nat with (k + 1 <? length t)%nat.
    change (nth (S k) (a :: t) null_edge) with (nth k t null_edge).
    change (nth (S k + 1) (a :: t) null_edge) with (nth (k + 1) t null_edge).
    destruct ((k + 1 <? length t)%nat
              && (neighbor (nth k t null_edge) >? neighbor (nth (k + 1) t null_edge)));
      reflexivity.
Qed.

(** A run of exchanges: the slots are rearranged, inversions do not grow; if
    [sorted] stays set nothing has moved and every visited slot is in order
    with the slot after it; if [sorted] is cleared an inversion is gone. *)
Lemma exchange_all_spec (ks : list nat) (l : list stinger_edge) (s : bool) :
  let r := exchange_all ks (l, s) in
  Permutation (fst r) l /\
  (inversions (map neighbor (fst r)) <= inversions (map neighbor l))%nat /\
  (snd r = true ->
   s = true /\ fst r = l /\
   forall k, In k ks -> (k + 1 < length l)%nat ->
             neighbor (nth k l null_edge) <= neighbor (nth (k + 1) l null_edge)) /\
  (s = true -> snd r = false ->
   (inversions (map neighbor (fst r)) < inversions (map neighbor l))%nat).
Proof.
  revert l s. induction ks as [|k ks IH]; intros l s; cbn [exchange_all fold_left fst snd].
  - split; [apply Permutation_refl|]. split; [lia|]. split.
    + intros ->. split; [reflexivity|]. split; [reflexivity|]. intros k [].
    + intros -> H. discriminate.
  - specialize (IH (fst (exchange k l)) (s && negb (snd (exchange k l)))).
    unfold exchange_all in IH. cbv zeta in IH.
    set (r := fold_left _ ks _) in *.
    destruct IH as (P & I & T & F).
    assert (I1 : (inversions (map neighbor (fst (exchange k l)))
                  <= inversions (map neighbor l))%nat).
    { destruct (snd (exchange k l)) eqn:Es.
      - apply Nat.lt_le_incl. now apply exchange_true.
      - destruct (exchange_false k l Es) as [-> _]. lia. }
    split; [exact (Permutation_trans P (exchange_perm k l))|].
    split; [lia|]. split.
    + intros Hr. destruct (T Hr) as (Hs & El & Hk).
      apply andb_true_iff in Hs. destruct Hs as [Hs Hx].
      apply negb_true_iff in Hx. destruct (exchange_false k l Hx) as [E1 E2].
      rewrite E1 in El, Hk. split; [exact Hs|]. split; [exact El|].
      intros k' [<-|Hin]; [exact E2 | now apply Hk].
    + intros Hs Hr. subst s. cbn [andb] in F.
      destruct (snd (exchange k l)) eqn:Es.
      * pose proof (exchange_true k l Es). lia.
      * cbn [negb] in F. specialize (F eq_refl Hr). lia.
Qed.

Lemma adjacent_sorted (l : list Z) :
  (forall k, (k + 1 < length l)%nat -> nth k l 0 <= nth (k + 1) l 0) -> Sorted Z.le l.
Proof.
  induction l as [|a t IH]; intros H; [constructor|].
  constructor.
  - apply IH. intros k Hk. apply (H (S k)). simpl. lia.
  - destruct t as [|b t]; constructor. apply (H O). simpl. lia.
Qed.

Lemma inversions_sorted (l : list Z) : Sorted Z.le l -> inversions l = O.
Proof.
  intros H. apply Sorted_StronglySorted in H; [|intros x y z; lia].
  induction H as [|a t Hs IH Ha]; [reflexivity|].
  simpl. rewrite IH. rewrite Forall_forall in Ha.
  replace (filter (fun y => a >? y) t) with (@nil Z); [reflexivity|].
  symmetry. clear - Ha. induction t as [|b t IHt]; [reflexivity|]. simpl.
  destruct (Z.gtb_spec a b) as [Hgt|_].
  - specialize (Ha b (or_introl eq_refl)). lia.
  - apply IHt. intros y Hy. apply Ha. now right.
Qed.


Lemma in_loop_indices (lo hi step i : Z) :
  0 < step ->
  In i (loop_indices lo hi step) <-> lo <= i < hi /\ (i - lo) mod step = 0.
Proof.
  intros Hs. unfold loop_indices, loop_count. rewrite in_map_iff. split.
  - intros [k [<- Hk]]. apply in_seq in Hk.
    assert (Hlt : Z.of_nat k < (hi - lo + step - 1) / step) by lia.
    assert (H1 : step * (Z.of_nat k + 1) <= hi - lo + step - 1).
    { pose proof (Z.mul_div_le (hi - lo + step - 1) step Hs). nia. }
    split; [nia|].
    replace (lo + step * Z.of_nat k - lo) with (Z.of_nat k * step) by lia.
    apply Z.mod_mul. lia.
  - intros [Hi Hm]. apply Z.mod_divide in Hm; [|lia]. destruct Hm as [q Hq].
    assert (Hq0 : 0 <= q) by nia.
    exists (Z.to_nat q). split; [nia|]. apply in_seq. split; [lia|].
    assert (q + 1 <= (hi - lo + step - 1) / step)
      by (apply Z.div_le_lower_bound; [lia | nia]).
    lia.
Qed.

Lemma eb_at_upd (p : list stinger_eb) (k k' : Z) (x : stinger_eb) :
  0 < k -> k <> k' -> eb_at (upd p (Z.to_nat k) x) k' = eb_at p k'.
Proof.
  intros Hk Hne. unfold eb_at. apply nth_upd_other. lia.
Qed.

Lemma eb_at_upd_same (p : list stinger_eb) (k : Z) (x : stinger_eb) :
  0 <= k < Z.of_nat (length p) -> eb_at (upd p (Z.to_nat k) x) k = x.
Proof.
  intros Hk. unfold eb_at. apply nth_upd_same. lia.
Qed.

Lemma eb_at_set_edge_other (p : list stinger_eb) (k i k' : Z) (e : stinger_edge) :
  0 < k -> k <> k' -> eb_at (set_edge p k i e) k' = eb_at p k'.
Proof. intros. unfold set_edge. now apply eb_at_upd. Qed.

Lemma eb_at_set_edge_same (p : list stinger_eb) (k i : Z) (e : stinger_edge) :
  0 <= k < Z.of_nat (length p) ->
  eb_at (set_edge p k i e) k
  = with_edges (eb_at p k) (upd (edges (eb_at p k)) (Z.to_nat i) e).
Proof. intros. unfold set_edge. now apply eb_at_upd_same. Qed.

Lemma frame_refl (bs : list Z) (p : list stinger_eb) : frame bs p p.
Proof. repeat split. Qed.

Lemma frame_trans (bs : list Z) (p q r : list stinger_eb) :
  frame bs p q -> frame bs q r -> frame bs p r.
Proof.
  intros (L1 & S1 & O1) (L2 & S2 & O2). split; [congruence|]. split.
  - intros k. destruct (S1 k) as (A1 & B1 & C1), (S2 k) as (A2 & B2 & C2).
    repeat split; congruence.
  - intros k Hk. rewrite O2, O1 by exact Hk. reflexivity.
Qed.

Lemma frame_set_edge (bs : list Z) (p : list stinger_eb) (k i : Z) (e : stinger_edge) :
  In k bs -> 0 < k < Z.of_nat (length p) -> frame bs p (set_edge p k i e).
Proof.
  intros Hin Hk. split; [apply upd_length|]. split.
  - intros k'. destruct (Z.eq_dec k k') as [<-|Hne].
    + rewrite eb_at_set_edge_same by lia. cbn. rewrite upd_length. repeat split.
    + rewrite eb_at_set_edge_other by lia. repeat split.
  - intros k' Hk'. apply eb_at_set_edge_other; [lia | congruence].
Qed.

Section Chain.
Variable E : Z.
Variable type : Z.
Variable bs : list Z.
Variable start stop : Z.
Hypothesis HE : 1 <= E.
Hypothesis Hnodup : NoDup bs.


Lemma linked_frame (p p' : list stinger_eb) (cur : Z) (l : list Z) :
  (forall k, next (eb_at p' k) = next (eb_at p k)) ->
  linked p cur l stop -> linked p' cur l stop.
Proof.
  intros Hn. revert cur. induction l as [|b t IH]; intros cur; cbn; [tauto|].
  intros [-> H]. split; [reflexivity|]. rewrite Hn. now apply IH.
Qed.

Lemma run_ok_frame (p p' : list stinger_eb) :
  run_ok E type bs start stop p -> frame bs p p' -> run_ok E type bs start stop p'.
Proof.
  intros (Hl & Hs & Hf) (L & S & O). split; [|split].
  - apply (linked_frame p); [|exact Hl]. intros k. apply S.
  - destruct Hs as [->|Hs]; [now left|]. right. destruct (S stop) as (_ & -> & _). exact Hs.
  - rewrite Forall_forall in Hf |- *. intros b Hb.
    destruct (Hf b Hb) as (H1 & H2 & H3). destruct (S b) as (_ & Et & El).
    rewrite L, Et, El. auto.
Qed.

Lemma linked_next (p : list stinger_eb) (cur : Z) (l : list Z) :
  linked p cur l stop ->
  cur = nth 0 (l ++ [stop]) 0 /\
  forall j, (j < length l)%nat ->
            next (eb_at p (nth j l 0)) = nth (S j) (l ++ [stop]) 0.
Proof.
  revert cur. induction l as [|b t IH]; intros cur; cbn [linked].
  - intros ->. split; [reflexivity|]. intros j Hj. simpl in Hj. lia.
  - intros [-> H]. split; [reflexivity|]. destruct (IH _ H) as [E0 En].
    intros [|j] Hj; [exact E0|]. simpl in Hj. apply (En j). lia.
Qed.

Lemma chain_edges_length (p : list stinger_eb) :
  run_ok E type bs start stop p -> Z.of_nat (length (chain_edges p bs)) = Z.of_nat (length bs) * E.
Proof.
  intros (_ & _ & Hf). unfold chain_edges. clear Hnodup.
  induction Hf as [|b t (_ & _ & Hb) Hf IH]; [reflexivity|].
  cbn [flat_map length]. rewrite length_app. lia.
Qed.

(** Slot [i] of block [j] of the chain is slot [j * E + i] of the array. *)
Lemma nth_chain_edges (p : list stinger_eb) (j : nat) (i : Z) :
  run_ok E type bs start stop p -> (j < length bs)%nat -> 0 <= i < E ->
  nth (Z.to_nat (Z.of_nat j * E + i)) (chain_edges p bs) null_edge
  = edge_at (eb_at p (nth j bs 0)) i.
Proof.
  intros (_ & _ & Hf). unfold chain_edges, edge_at. clear Hnodup. revert j.
  induction Hf as [|b t (_ & _ & Hb) Hf IH]; intros j Hj Hi; [simpl in Hj; lia|].
  cbn [flat_map]. destruct j as [|j].
  - cbn [nth]. rewrite app_nth1 by lia. f_equal; lia.
  - cbn [nth]. simpl in Hj. rewrite app_nth2 by nia.
    rewrite <- (IH j) by lia. f_equal; nia.
Qed.

(** A write to a slot of a block of the chain is a write to the array. *)
Lemma chain_edges_set_edge (p : list stinger_eb) (j : nat) (i : Z) (e : stinger_edge) :
  run_ok E type bs start stop p -> (j < length bs)%nat -> 0 <= i < E ->
  chain_edges (set_edge p (nth j bs 0) i e) bs
  = upd (chain_edges p bs) (Z.to_nat (Z.of_nat j * E + i)) e.
Proof.
  intros (_ & _ & Hf). unfold chain_edges. revert j Hnodup.
  induction Hf as [|b t (Hb1 & _ & Hb) Hf IH]; intros j Hnd Hj Hi; [simpl in Hj; lia|].
  inversion Hnd as [|b' t' Hnin Hnd']; subst b' t'.
  cbn [flat_map]. destruct j as [|j].
  - cbn [nth]. rewrite eb_at_set_edge_same by lia. cbn [with_edges edges].
    replace (Z.to_nat (Z.of_nat 0 * E + i)) with (Z.to_nat i) by lia.
    rewrite upd_app_l by lia. f_equal.
    apply flat_map_ext_in. intros b' Hb'.
    rewrite eb_at_set_edge_other; [reflexivity | lia | congruence].
  - cbn [nth]. simpl in Hj.
    assert (Hin : In (nth j t 0) t) by (apply nth_In; lia).
    assert (Hr : 0 < nth j t 0 < Z.of_nat (length p))
      by (rewrite Forall_forall in Hf; apply (Hf _ Hin)).
    rewrite eb_at_set_edge_other; [| lia | congruence].
    replace (Z.to_nat (Z.of_nat (S j) * E + i))
      with (length (edges (eb_at p b)) + Z.to_nat (Z.of_nat j * E + i))%nat by nia.
    rewrite upd_app_r. f_equal. apply IH; [exact Hnd' | lia | exact Hi].
Qed.
End Chain.


Section Passes.
Variable E : Z.
Variable type : Z.
Variable bs : list Z.
Variable start stop : Z.
Hypothesis HE : 1 <= E.
Hypothesis Hnodup : NoDup bs.

Lemma run_block (p : list stinger_eb) (j : nat) :
  run_ok E type bs start stop p -> (j < length bs)%nat ->
  In (nth j bs 0) bs /\
  0 < nth j bs 0 < Z.of_nat (length p) /\
  etype (eb_at p (nth j bs 0)) = type.
Proof.
  intros (_ & _ & Hf) Hj. assert (Hin : In (nth j bs 0) bs) by (apply nth_In; lia).
  rewrite Forall_forall in Hf. destruct (Hf _ Hin) as (H1 & H2 & _). auto.
Qed.

(** One compare-and-exchange on the pool is one on the logical array. *)
Lemma compare_exchange_sim (p : list stinger_eb) (s : bool) (j : nat) (i : Z) :
  run_ok E type bs start stop p -> (j < length bs)%nat -> 0 <= i < E ->
  let k := Z.to_nat (Z.of_nat j * E + i) in
  let st' := compare_exchange E type (nth j bs 0) i (p, s) in
  frame bs p (fst st') /\
  chain_edges (fst st') bs = fst (exchange k (chain_edges p bs)) /\
  snd st' = s && negb (snd (exchange k (chain_edges p bs))).
Proof.
  intros Hok Hj Hi k st'.
  pose proof (chain_edges_length E type bs start stop p Hok) as Hlen.
  destruct (run_block p j Hok Hj) as (Hin & Hr & Ht).
  pose proof (nth_chain_edges E type bs start stop HE p j i Hok Hj Hi) as Ek.
  fold k in Ek.
  assert (Hfr : forall b i' e, In b bs -> 0 < b < Z.of_nat (length p) ->
                               frame bs p (set_edge p b i' e))
    by (intros; now apply frame_set_edge).
  rewrite exchange_spec, Ek. unfold st', compare_exchange. cbn [fst snd].
  destruct (Z.ltb_spec i (E - 1)) as [Hlt|Hge].
  - (* the next slot is in the same block *)
    pose proof (nth_chain_edges E type bs start stop HE p j (i + 1) Hok Hj ltac:(lia)) as Ek1.
    replace (Z.to_nat (Z.of_nat j * E + (i + 1))) with (k + 1)%nat in Ek1 by (unfold k; nia).
    rewrite Ek1.
    replace (k + 1 <? length (chain_edges p bs))%nat with true
      by (symmetry; apply Nat.ltb_lt; unfold k; nia).
    cbn [andb].
    destruct (neighbor (edge_at (eb_at p (nth j bs 0)) i)
              >? neighbor (edge_at (eb_at p (nth j bs 0)) (i + 1))).
    + cbn [fst snd negb]. rewrite andb_false_r.
      set (p1 := set_edge p (nth j bs 0) (i + 1) (edge_at (eb_at p (nth j bs 0)) i)).
      assert (F1 : frame bs p p1) by (apply Hfr; assumption).
      assert (Hok1 : run_ok E type bs start stop p1)
        by (apply (run_ok_frame E type bs start stop p); assumption).
      split; [|split; [|reflexivity]].
      * apply (frame_trans bs p p1); [exact F1|]. apply frame_set_edge; [exact Hin|].
        destruct F1 as (L1 & _). rewrite L1. exact Hr.
      * rewrite (chain_edges_set_edge E type bs start stop HE Hnodup p1 j i _ Hok1 Hj Hi).
        unfold p1.
        rewrite (chain_edges_set_edge E type bs start stop HE Hnodup p j (i + 1) _ Hok Hj)
          by lia.
        fold k. replace (Z.to_nat (Z.of_nat j * E + (i + 1))) with (k + 1)%nat
          by (unfold k; nia).
        reflexivity.
    + cbn [fst snd negb]. rewrite andb_true_r.
      split; [apply frame_refl|]. split; reflexivity.
  - (* the next slot is the first slot of the next block *)
    assert (Ei : i = E - 1) by lia.
    destruct Hok as (Hl & Hs & Hf).
    destruct (linked_next stop p start bs Hl) as [_ Hnext].
    rewrite (Hnext j Hj).
    assert (Hok : run_ok E type bs start stop p) by (split; [|split]; assumption).
    destruct (Nat.ltb_spec (S j) (length bs)) as [Hj1|Hlast].
    + rewrite app_nth1 by lia.
      destruct (run_block p (S j) Hok Hj1) as (Hin1 & Hr1 & Ht1).
      pose proof (nth_chain_edges E type bs start stop HE p (S j) 0 Hok Hj1 ltac:(lia)) as Ek1.
      replace (Z.to_nat (Z.of_nat (S j) * E + 0)) with (k + 1)%nat in Ek1
        by (unfold k; nia).
      rewrite Ek1.
      replace (k + 1 <? length (chain_edges p bs))%nat with true
        by (symmetry; apply Nat.ltb_lt; unfold k; nia).
      replace (nth (S j) bs 0 =? 0) with false by (symmetry; apply Z.eqb_neq; lia).
      rewrite Ht1, Z.eqb_refl. cbn [andb negb].
      destruct (neighbor (edge_at (eb_at p (nth j bs 0)) i)
                >? neighbor (edge_at (eb_at p (nth (S j) bs 0)) 0)).
      * cbn [fst snd negb]. rewrite andb_false_r.
        set (p1 := set_edge p (nth (S j) bs 0) 0 (edge_at (eb_at p (nth j bs 0)) i)).
        assert (F1 : frame bs p p1) by (apply Hfr; assumption).
        assert (Hok1 : run_ok E type bs start stop p1)
          by (apply (run_ok_frame E type bs start stop p); assumption).
        split; [|split; [|reflexivity]].
        -- apply (frame_trans bs p p1); [exact F1|]. apply frame_set_edge; [exact Hin|].
           destruct F1 as (L1 & _). rewrite L1. exact Hr.
        -- rewrite (chain_edges_set_edge E type bs start stop HE Hnodup p1 j i _ Hok1 Hj Hi).
           unfold p1.
           rewrite (chain_edges_set_edge E type bs start stop HE Hnodup p (S j) 0 _ Hok Hj1)
             by lia.
           fold k. replace (Z.to_nat (Z.of_nat (S j) * E + 0)) with (k + 1)%nat
             by (unfold k; nia).
           reflexivity.
      * cbn [fst snd negb]. rewrite andb_true_r.
        split; [apply frame_refl|]. split; reflexivity.
    + rewrite app_nth2 by lia. replace (S j - length bs)%nat with O by lia. cbn [nth].
      replace (k + 1 <? length (chain_edges p bs))%nat with false
        by (symmetry; apply Nat.ltb_ge; unfold k; nia).
      cbn [andb fst snd negb]. rewrite andb_true_r.
      assert (Hc : negb (stop =? 0) && (etype (eb_at p stop) =? type) = false).
      { destruct Hs as [->|Hs]; [reflexivity|].
        apply Z.eqb_neq in Hs. rewrite Hs. apply andb_false_r. }
      rewrite Hc. cbn [andb fst snd].
      split; [apply frame_refl|]. split; reflexivity.
Qed.

(** The [for] loop of a pass on block [j]. *)
Lemma sort_pass_sim (first : Z) (p : list stinger_eb) (s : bool) (j : nat) :
  0 <= first ->
  run_ok E type bs start stop p -> (j < length bs)%nat ->
  let st' := sort_pass E type first (nth j bs 0) (p, s) in
  let r := exchange_all (pass_slots E first j 1) (chain_edges p bs, s) in
  frame bs p (fst st') /\ chain_edges (fst st') bs = fst r /\ snd st' = snd r.
Proof.
  intros Hfirst Hok Hj. unfold sort_pass, for_loop, pass_slots.
  cbn [seq flat_map]. rewrite app_nil_r. unfold exchange_all. rewrite fold_left_map.
  assert (Hin : forall i, In i (loop_indices first E 2) -> 0 <= i < E)
    by (intros i Hi; apply in_loop_indices in Hi; lia).
  revert p s Hok Hin. induction (loop_indices first E 2) as [|i t IH]; intros p s Hok Hin.
  - cbn. split; [apply frame_refl|]. split; reflexivity.
  - cbn [fold_left].
    destruct (compare_exchange_sim p s j i Hok Hj (Hin i (or_introl eq_refl)))
      as (F1 & E1 & S1).
    cbv zeta in F1, E1, S1.
    destruct (compare_exchange E type (nth j bs 0) i (p, s)) as [p1 s1] eqn:Ec.
    cbn [fst snd] in *.
    assert (Hok1 : run_ok E type bs start stop p1)
      by (apply (run_ok_frame E type bs start stop p); assumption).
    specialize (IH p1 s1 Hok1 (fun i' Hi' => Hin i' (or_intror Hi'))).
    cbv zeta in IH. destruct IH as (F2 & E2 & S2).
    rewrite <- E1, <- S1.
    split; [exact (frame_trans bs p p1 _ F1 F2)|]. split; assumption.
Qed.

Lemma exchange_all_app (ks1 ks2 : list nat) (st : list stinger_edge * bool) :
  exchange_all (ks1 ++ ks2) st = exchange_all ks2 (exchange_all ks1 st).
Proof. unfold exchange_all. apply fold_left_app. Qed.

Lemma pass_slots_cons (first : Z) (j n : nat) :
  pass_slots E first j (S n) = pass_slots E first j 1 ++ pass_slots E first (S j) n.
Proof. unfold pass_slots. cbn [seq flat_map]. now rewrite app_nil_r. Qed.

(** A pass over the blocks [j], [j + 1], ... of the chain. *)
Lemma while_blocks_sim (first : Z) (m : nat) :
  0 <= first ->
  forall (j : nat) (p : list stinger_eb) (s : bool) (fuel : nat),
    (j + m)%nat = length bs -> (m < fuel)%nat ->
    run_ok E type bs start stop p ->
    exists st',
      while_blocks fuel fst type (sort_pass E type first) (nth j (bs ++ [stop]) 0) (p, s)
      = Some st' /\
      frame bs p (fst st') /\
      chain_edges (fst st') bs
      = fst (exchange_all (pass_slots E first j m) (chain_edges p bs, s)) /\
      snd st' = snd (exchange_all (pass_slots E first j m) (chain_edges p bs, s)).
Proof.
  intros Hfirst. induction m as [|m IH]; intros j p s fuel Hjm Hfuel Hok.
  - destruct fuel as [|fuel]; [lia|]. cbn [while_blocks fst].
    rewrite app_nth2 by lia. replace (j - length bs)%nat with O by lia. cbn [nth].
    assert (Hc : negb (stop =? 0) && (etype (eb_at p stop) =? type) = false).
    { destruct Hok as (_ & [->|Hs] & _); [reflexivity|].
      apply Z.eqb_neq in Hs. rewrite Hs. apply andb_false_r. }
    rewrite Hc. exists (p, s). split; [reflexivity|].
    split; [apply frame_refl|]. split; reflexivity.
  - destruct fuel as [|fuel]; [lia|]. cbn [while_blocks fst].
    assert (Hj : (j < length bs)%nat) by lia.
    rewrite app_nth1 by lia.
    destruct (run_block p j Hok Hj) as (Hin & Hr & Ht).
    replace (nth j bs 0 =? 0) with false by (symmetry; apply Z.eqb_neq; lia).
    rewrite Ht, Z.eqb_refl. cbn [negb andb].
    destruct (sort_pass_sim first p s j Hfirst Hok Hj) as (F1 & E1 & S1).
    cbv zeta in F1, E1, S1.
    destruct (sort_pass E type first (nth j bs 0) (p, s)) as [p1 s1] eqn:Ep.
    cbn [fst snd] in *.
    assert (Hok1 : run_ok E type bs start stop p1)
      by (apply (run_ok_frame E type bs start stop p); assumption).
    pose proof F1 as (L1 & Sh1 & O1). destruct (Sh1 (nth j bs 0)) as (En & _).
    rewrite En.
    destruct Hok as (Hl & Hs & Hf).
    destruct (linked_next stop p start bs Hl) as [_ Hnext].
    rewrite (Hnext j Hj).
    destruct (IH (S j) p1 s1 fuel ltac:(lia) ltac:(lia) Hok1) as (st' & Ew & F2 & E2 & S2).
    exists st'. split; [exact Ew|].
    split; [exact (frame_trans bs p p1 _ F1 F2)|].
    rewrite pass_slots_cons, exchange_all_app.
    destruct (exchange_all (pass_slots E first j 1) (chain_edges p bs, s)) as [l1 f1].
    cbn [fst snd] in E1, S1. subst l1 f1. split; assumption.
Qed.
End Passes.


(** Between them the two passes visit every slot that has a slot after it. *)
Lemma pass_slots_cover (E : Z) (n k : nat) :
  1 <= E -> Z.of_nat k + 1 < Z.of_nat n * E ->
  In k (pass_slots E 1 0 n) \/ In k (pass_slots E 0 0 n).
Proof.
  intros HE Hk.
  set (j := Z.of_nat k / E). set (i := Z.of_nat k mod E).
  assert (Hdm : Z.of_nat k = E * j + i) by (apply Z.div_mod; lia).
  assert (Hi : 0 <= i < E) by (apply Z.mod_pos_bound; lia).
  assert (Hj : 0 <= j) by (apply Z.div_pos; lia).
  assert (Hjn : j < Z.of_nat n) by nia.
  assert (Hin : forall first, In i (loop_indices first E 2) -> In k (pass_slots E first 0 n)).
  { intros first Hf. unfold pass_slots. apply in_flat_map. exists (Z.to_nat j). split.
    - apply in_seq. lia.
    - apply in_map_iff. exists i. split; [nia | exact Hf]. }
  destruct (Z.eq_dec (i mod 2) 0) as [Hev|Hodd].
  - right. apply Hin. apply in_loop_indices; [lia|]. split; [lia|].
    now rewrite Z.sub_0_r.
  - left. apply Hin. apply in_loop_indices; [lia|].
    pose proof (Z.mod_pos_bound i 2 ltac:(lia)) as Hb.
    assert (Hi1 : i mod 2 = 1) by lia.
    split.
    + destruct (Z.eq_dec i 0) as [->|]; [discriminate Hi1 | lia].
    + rewrite Zminus_mod, Hi1. reflexivity.
Qed.

Lemma neighbor_nth (l : list stinger_edge) (k : nat) :
  nth k (map neighbor l) 0 = neighbor (nth k l null_edge).
Proof. exact (map_nth neighbor l null_edge k). Qed.

Section Rounds.
Variable E : Z.
Variable type : Z.
Variable bs : list Z.
Variable start stop : Z.
Hypothesis HE : 1 <= E.
Hypothesis Hnodup : NoDup bs.

(** The rounds end, with the slots of the chain rearranged in ascending
    order of their neighbors. *)
Lemma sort_rounds_spec (fuel rounds : nat) :
  (length bs < fuel)%nat ->
  forall p : list stinger_eb,
    run_ok E type bs start stop p ->
    (inversions (chain_neighbors p bs) < rounds)%nat ->
    exists p',
      sort_rounds E fuel rounds type start p = Some p' /\
      frame bs p p' /\
      Permutation (chain_edges p' bs) (chain_edges p bs) /\
      Sorted Z.le (chain_neighbors p' bs).
Proof.
  intros Hfuel. induction rounds as [|rounds IH]; intros p Hok Hinv; [lia|].
  cbn [sort_rounds].
  assert (Hstart : start = nth 0 (bs ++ [stop]) 0).
  { destruct Hok as (Hl & _). now destruct (linked_next stop p start bs Hl). }
  rewrite Hstart.
  destruct (while_blocks_sim E type bs start stop HE Hnodup 1 (length bs) ltac:(lia)
                             O p true fuel eq_refl Hfuel Hok)
    as (st1 & W1 & F1 & E1 & S1).
  rewrite W1.
  assert (Hok1 : run_ok E type bs start stop (fst st1))
    by (apply (run_ok_frame E type bs start stop p); assumption).
  destruct st1 as [p1 s1]. cbn [fst snd] in *.
  destruct (while_blocks_sim E type bs start stop HE Hnodup 0 (length bs) ltac:(lia)
                             O p1 s1 fuel eq_refl Hfuel Hok1)
    as (st2 & W2 & F2 & E2 & S2).
  rewrite W2.
  assert (Hok2 : run_ok E type bs start stop (fst st2))
    by (apply (run_ok_frame E type bs start stop p1); assumption).
  destruct st2 as [p2 s2]. cbn [fst snd] in *.
  pose proof (exchange_all_spec (pass_slots E 1 0 (length bs)) (chain_edges p bs) true)
    as (P1 & I1 & T1 & D1).
  cbv zeta in P1, I1, T1, D1. rewrite <- E1, <- S1 in *.
  pose proof (exchange_all_spec (pass_slots E 0 0 (length bs)) (chain_edges p1 bs) s1)
    as (P2 & I2 & T2 & D2).
  cbv zeta in P2, I2, T2, D2. rewrite <- E2, <- S2 in *.
  clear W1 W2 E1 S1 E2 S2.
  assert (F12 : frame bs p p2) by exact (frame_trans bs p p1 p2 F1 F2).
  assert (P12 : Permutation (chain_edges p2 bs) (chain_edges p bs))
    by exact (Permutation_trans P2 P1).
  destruct s2.
  - (* nothing was exchanged *)
    exists p2. split; [reflexivity|]. split; [exact F12|]. split; [exact P12|].
    destruct (T2 eq_refl) as (Hs1 & El2 & A2). subst s1.
    destruct (T1 eq_refl) as (_ & El1 & A1).
    rewrite El1 in A2.
    pose proof (chain_edges_length E type bs start stop p Hok) as Hlen.
    unfold chain_neighbors. rewrite El2, El1. apply adjacent_sorted. intros k Hk.
    rewrite length_map in Hk. rewrite !neighbor_nth.
    destruct (pass_slots_cover E (length bs) k HE ltac:(lia)) as [Hin|Hin].
    + now apply A1.
    + now apply A2.
  - (* something was exchanged: another round, with fewer inversions *)
    assert (Hless : (inversions (chain_neighbors p2 bs)
                     < inversions (chain_neighbors p bs))%nat).
    { unfold chain_neighbors. destruct s1.
      - specialize (D2 eq_refl eq_refl). lia.
      - specialize (D1 eq_refl eq_refl). lia. }
    destruct (IH p2 Hok2 ltac:(lia)) as (p' & Es & F3 & P3 & S3).
    exists p'. split; [rewrite <- Hstart; exact Es|].
    split; [exact (frame_trans bs p p2 p' F12 F3)|].
    split; [exact (Permutation_trans P3 P12) | exact S3].
Qed.
End Rounds.


(** ** The cached fields of the blocks *)

Lemma firstn_snoc_nth {A : Type} (l : list A) (n : nat) (d : A) :
  (n < length l)%nat -> firstn (S n) l = firstn n l ++ [nth n l d].
Proof.
  revert n. induction l as [|x t IH]; intros [|n] H; simpl in *; try lia; try reflexivity.
  rewrite (IH n) by lia. reflexivity.
Qed.

Lemma list_min_snoc (x : Z) (l : list Z) (t : Z) :
  list_min x (l ++ [t]) = Z.min (list_min x l) t.
Proof. unfold list_min. now rewrite fold_left_app. Qed.

Lemma list_max_snoc (x : Z) (l : list Z) (t : Z) :
  list_max x (l ++ [t]) = Z.max (list_max x l) t.
Proof. unfold list_max. now rewrite fold_left_app. Qed.

Lemma live_entomb (e : stinger_edge) : live (entomb e) = counted e.
Proof.
  unfold live, entomb, counted. destruct (all_zero e) eqn:Ez; cbn [neighbor].
  - now rewrite andb_false_r.
  - rewrite andb_true_r. destruct (Z.leb_spec 0 (neighbor e)), (Z.ltb_spec (neighbor e) 0);
      try reflexivity; lia.
Qed.

Lemma entomb_counted (e : stinger_edge) : counted e = true -> entomb e = e.
Proof.
  unfold counted, entomb. intros H. apply andb_true_iff in H. destruct H as [_ H].
  apply negb_true_iff in H. now rewrite H.
Qed.

Lemma filter_live_entomb (es : list stinger_edge) :
  filter live (map entomb es) = filter counted es.
Proof.
  induction es as [|e t IH]; [reflexivity|]. cbn [map filter].
  rewrite live_entomb, IH. destruct (counted e) eqn:Ec; [|reflexivity].
  now rewrite (entomb_counted e Ec).
Qed.

Lemma filter_length_le {A : Type} (f : A -> bool) (l : list A) :
  (length (filter f l) <= length l)%nat.
Proof.
  induction l as [|x t IH]; simpl; [lia|]. destruct (f x); simpl; lia.
Qed.

Lemma filter_none {A : Type} (f : A -> bool) (l : list A) :
  (forall x, In x l -> f x = false) -> filter f l = [].
Proof.
  induction l as [|x t IH]; intros H; [reflexivity|]. cbn [filter].
  rewrite (H x (or_introl eq_refl)). apply IH. intros y Hy. apply H. now right.
Qed.

Section Summary.
Variable E : Z.
Variable cur : Z.
Variable p : list stinger_eb.
Hypothesis HE : 1 <= E < 2^62.
Hypothesis Hcur : 0 < cur < Z.of_nat (length p).
Hypothesis Hlen : Z.of_nat (length (edges (eb_at p cur))) = E.

Let old := eb_at p cur.
Let es := edges (eb_at p cur).
Let seen (i : Z) := filter counted (firstn (Z.to_nat i) es).

(** The state of the [for] loop before slot [i]. *)
Let Inv (i : Z) (st : list stinger_eb * block_summary) : Prop :=
  length (fst st) = length p /\
  (forall k, k <> cur -> eb_at (fst st) k = eb_at p k) /\
  next (eb_at (fst st) cur) = next old /\
  etype (eb_at (fst st) cur) = etype old /\
  length (edges (eb_at (fst st) cur)) = length es /\
  (forall k, 0 <= k < E ->
             edge_at (eb_at (fst st) cur) k
             = if k <? i then entomb (edge_at old k) else edge_at old k) /\
  curNumEdges (snd st) = Z.of_nat (length (seen i)) /\
  curSmallTS (snd st) = list_min INT64_MAX (map timeFirst (seen i)) /\
  curLargeTS (snd st) = list_max INT64_MIN (map timeRecent (seen i)) /\
  0 <= curHigh (snd st) /\ (curHigh (snd st) < i \/ curHigh (snd st) = 0) /\
  (forall k, 0 <= k < i -> counted (edge_at old k) = true -> k <= curHigh (snd st)) /\
  (seen i <> [] -> counted (edge_at old (curHigh (snd st))) = true) /\
  (seen i = [] -> curHigh (snd st) = 0).

Lemma seen_succ (i : Z) :
  0 <= i < E -> seen (i + 1) = seen i ++ filter counted [edge_at old i].
Proof.
  intros Hi. unfold seen. replace (Z.to_nat (i + 1)) with (S (Z.to_nat i)) by lia.
  rewrite (firstn_snoc_nth es (Z.to_nat i) null_edge) by (unfold es; lia).
  now rewrite filter_app.
Qed.

Lemma summary_step_inv (i : Z) (st : list stinger_eb * block_summary) :
  0 <= i < E -> Inv i st -> Inv (i + 1) (summary_step cur i st).
Proof.
  intros Hi (L & O & Nx & Ty & Le & Ed & Nm & Sm & Lg & H0 & H1 & H2 & H3 & H4).
  assert (Hes : Z.of_nat (length es) = E) by exact Hlen.
  assert (Ei : edge_at (eb_at (fst st) cur) i = edge_at old i).
  { rewrite (Ed i Hi). destruct (Z.ltb_spec i i); [lia | reflexivity]. }
  assert (Hseen : (length (seen i) <= Z.to_nat i)%nat).
  { unfold seen. etransitivity; [apply filter_length_le|]. rewrite length_firstn. lia. }
  unfold Inv, summary_step, stinger_eb_is_blank. cbv zeta. rewrite Ei.
  rewrite (seen_succ i Hi). cbn [filter].
  fold (all_zero (edge_at old i)).
  destruct (Z.ltb_spec (neighbor (edge_at old i)) 0) as [Hblank|Hnb]; cbn [negb].
  - (* a blank slot *)
    assert (Hc : counted (edge_at old i) = false).
    { unfold counted. destruct (Z.ltb_spec (neighbor (edge_at old i)) 0); [reflexivity|lia]. }
    assert (Hz : all_zero (edge_at old i) = false).
    { unfold all_zero. destruct (Z.eqb_spec (neighbor (edge_at old i)) 0); [lia|reflexivity]. }
    rewrite Hc, app_nil_r.
    repeat (split; [assumption|]). split; [|repeat split; try assumption; try lia].
    + intros k Hk. rewrite (Ed k Hk).
      destruct (Z.ltb_spec k i), (Z.ltb_spec k (i + 1)); try reflexivity; try lia.
      assert (k = i) by lia. subst k. unfold entomb. now rewrite Hz.
    + intros k Hk Hck. destruct (Z.eq_dec k i) as [->|]; [congruence|]. apply H2; [lia|exact Hck].
  - destruct (all_zero (edge_at old i)) eqn:Hz.
    + (* a slot that was never used *)
      assert (Hc : counted (edge_at old i) = false).
      { unfold counted. rewrite Hz. apply andb_false_r. }
      rewrite Hc, app_nil_r. cbn [fst snd].
      assert (Hcl : 0 <= cur < Z.of_nat (length (fst st))) by lia.
      split; [unfold set_edge; now rewrite upd_length|].
      split; [intros k Hk; rewrite eb_at_set_edge_other by lia; now apply O|].
      rewrite (eb_at_set_edge_same (fst st) cur i _ Hcl).
      cbn [with_edges next etype edges]. rewrite upd_length.
      repeat (split; [assumption|]). split; [|repeat split; try assumption; try lia].
      * intros k Hk. unfold edge_at at 1. cbn [with_edges edges].
        rewrite nth_upd by lia.
        destruct (Nat.eqb_spec (Z.to_nat k) (Z.to_nat i)) as [Hki|Hki].
        -- assert (k = i) by lia. subst k.
           destruct (Z.ltb_spec i (i + 1)); [|lia]. unfold entomb. now rewrite Hz.
        -- fold (edge_at (eb_at (fst st) cur) k). rewrite (Ed k Hk).
           destruct (Z.ltb_spec k i), (Z.ltb_spec k (i + 1)); try reflexivity; lia.
      * intros k Hk Hck. destruct (Z.eq_dec k i) as [->|]; [congruence|].
        apply H2; [lia|exact Hck].
    + (* a live slot *)
      assert (Hc : counted (edge_at old i) = true).
      { unfold counted. rewrite Hz.
        destruct (Z.ltb_spec (neighbor (edge_at old i)) 0); [lia|reflexivity]. }
      rewrite Hc. cbn [fst snd curNumEdges curSmallTS curLargeTS curHigh].
      rewrite !map_app. cbn [map]. rewrite list_min_snoc, list_max_snoc, length_app.
      cbn [length].
      repeat (split; [assumption|]).
      split; [|split; [|split; [|split; [|split; [|split; [|split; [|split]]]]]]].
      * intros k Hk. rewrite (Ed k Hk).
        destruct (Z.ltb_spec k i), (Z.ltb_spec k (i + 1)); try reflexivity; try lia.
        assert (k = i) by lia. subst k. symmetry. now apply entomb_counted.
      * rewrite Nm. unfold add64. rewrite to_i64_id; [lia|].
        unfold in_i64, INT64_MIN, INT64_MAX. lia.
      * rewrite Sm. destruct (Z.ltb_spec (timeFirst (edge_at old i))
                                         (list_min INT64_MAX (map timeFirst (seen i)))); lia.
      * rewrite Lg. destruct (Z.gtb_spec (timeRecent (edge_at old i))
                                         (list_max INT64_MIN (map timeRecent (seen i)))); lia.
      * destruct (Z.gtb_spec i (curHigh (snd st))); lia.
      * destruct (Z.gtb_spec i (curHigh (snd st))); lia.
      * intros k Hk Hck. destruct (Z.gtb_spec i (curHigh (snd st))).
        -- lia.
        -- destruct (Z.eq_dec k i); [lia|]. apply H2; [lia|exact Hck].
      * intros _. destruct (Z.gtb_spec i (curHigh (snd st))) as [Hgt|Hle]; [exact Hc|].
        assert (curHigh (snd st) = i) by lia. congruence.
      * intros Hnil. apply app_eq_nil in Hnil. destruct Hnil as [_ Hnil]. discriminate.
Qed.

Lemma summarize_block_spec :
  let p' := summarize_block E cur p in
  length p' = length p /\
  (forall k, k <> cur -> eb_at p' k = eb_at p k) /\
  summary_ok E (eb_at p cur) (eb_at p' cur).
Proof.
  unfold summarize_block.
  set (st := for_loop 0 E 1 (summary_step cur) _).
  assert (HI : Inv E st).
  { unfold st. apply (for_loop_ind1 Inv); [lia | |].
    - unfold Inv, seen. cbn [fst snd curNumEdges curSmallTS curLargeTS curHigh firstn filter
                                 Z.to_nat map length].
      repeat split; try reflexivity; try lia.
      + intros k Hk. destruct (Z.ltb_spec k 0); [lia|reflexivity].
      + intros H. now elim H.
    - intros i s Hi. apply summary_step_inv. lia. }
  destruct HI as (L & O & Nx & Ty & Le & Ed & Nm & Sm & Lg & H0 & H1 & H2 & H3 & H4).
  assert (Hes : Z.of_nat (length es) = E) by exact Hlen.
  assert (Hall : seen E = filter counted es).
  { unfold seen. rewrite firstn_all2; [reflexivity | unfold es; lia]. }
  rewrite Hall in *.
  assert (Hedges : edges (eb_at (fst st) cur) = map entomb es).
  { apply nth_ext with (d := null_edge) (d' := entomb null_edge).
    - now rewrite length_map.
    - intros n Hn. rewrite Le in Hn. unfold es in Hn.
      specialize (Ed (Z.of_nat n) ltac:(lia)). unfold edge_at in Ed.
      rewrite Nat2Z.id in Ed. rewrite Ed.
      destruct (Z.ltb_spec (Z.of_nat n) E); [|lia].
      now rewrite map_nth. }
  cbv zeta. split; [now rewrite upd_length|].
  split; [intros k Hk; rewrite eb_at_upd by lia; now apply O|].
  rewrite eb_at_upd_same by lia.
  unfold summary_ok, cached_ok.
  cbn [next etype edges numEdges high smallStamp largeStamp].
  rewrite Hedges, filter_live_entomb.
  assert (Hcount : (length (filter counted es) <= length es)%nat) by apply filter_length_le.
  assert (Hhigh : add64 (curHigh (snd st)) 1 = curHigh (snd st) + 1).
  { unfold add64. apply to_i64_id. unfold in_i64, INT64_MIN, INT64_MAX. lia. }
  rewrite Hhigh.
  assert (Hslot : forall i, 0 <= i < E ->
                            live (edge_at {| next := next (eb_at (fst st) cur);
                                             etype := etype (eb_at (fst st) cur);
                                             numEdges := curNumEdges (snd st);
                                             high := curHigh (snd st) + 1;
                                             smallStamp := curSmallTS (snd st);
                                             largeStamp := curLargeTS (snd st);
                                             edges := map entomb es |} i)
                            = counted (edge_at old i)).
  { intros i Hi. unfold edge_at. cbn [edges].
    rewrite (nth_indep _ null_edge (entomb null_edge)) by (rewrite length_map; unfold es; lia).
    rewrite map_nth. apply live_entomb. }
  split; [exact Nx|]. split; [exact Ty|]. split; [reflexivity|].
  split; [exact Nm|]. split; [exact Sm|]. split; [exact Lg|].
  split; [|split; [|split; [|split]]].
  - split; [lia|]. rewrite Nm.
    (* every counted slot is at most [curHigh] *)
    assert (Hsplit : filter counted es
                     = filter counted (firstn (Z.to_nat (curHigh (snd st) + 1)) es)).
    { rewrite <- (firstn_skipn (Z.to_nat (curHigh (snd st) + 1)) es) at 1.
      rewrite filter_app.
      replace (filter counted (skipn (Z.to_nat (curHigh (snd st) + 1)) es)) with
        (@nil stinger_edge); [apply app_nil_r|].
      symmetry. apply filter_none. intros e He.
        apply (In_nth _ _ null_edge) in He. destruct He as (n & Hn & <-).
        rewrite length_skipn in Hn. rewrite nth_skipn.
        destruct (counted (nth (Z.to_nat (curHigh (snd st) + 1) + n) es null_edge)) eqn:Hc;
          [exfalso|reflexivity].
        specialize (H2 (Z.of_nat (Z.to_nat (curHigh (snd st) + 1) + n))
                       ltac:(unfold es in *; lia)).
        unfold edge_at in H2. rewrite Nat2Z.id in H2. specialize (H2 Hc). lia. }
    rewrite Hsplit.
    pose proof (filter_length_le counted (firstn (Z.to_nat (curHigh (snd st) + 1)) es)) as Hl.
    rewrite length_firstn in Hl. lia.
  - lia.
  - intros i Hi. rewrite Hslot by lia.
    destruct (counted (edge_at old i)) eqn:Hc; [|reflexivity].
    specialize (H2 i ltac:(lia) Hc). lia.
  - intros Hne. replace (curHigh (snd st) + 1 - 1) with (curHigh (snd st)) by lia.
    rewrite Hslot by lia. now apply H3.
  - intros Hnil. rewrite (H4 Hnil). reflexivity.
Qed.
End Summary.


Lemma skipn_cons_nth {A : Type} (l : list A) (j : nat) (d : A) :
  (j < length l)%nat -> skipn j l = nth j l d :: skipn (S j) l.
Proof.
  revert j. induction l as [|x t IH]; intros [|j] H; simpl in *; try lia; try reflexivity.
  apply IH. lia.
Qed.

Lemma NoDup_skipn {A : Type} (l : list A) (j : nat) : NoDup l -> NoDup (skipn j l).
Proof.
  revert j. induction l as [|x t IH]; intros [|j] H; simpl; try assumption.
  apply IH. now inversion H.
Qed.

Lemma In_skipn {A : Type} (l : list A) (j : nat) (x : A) : In x (skipn j l) -> In x l.
Proof.
  revert j. induction l as [|y t IH]; intros [|j] H; simpl in *; try assumption.
  right. now apply (IH j).
Qed.

Section SummaryLoop.
Variable E : Z.
Variable type : Z.
Variable bs : list Z.
Variable start stop : Z.
Hypothesis HE : 1 <= E < 2^62.
Hypothesis Hnodup : NoDup bs.

Lemma summarize_block_frame (p : list stinger_eb) (b : Z) :
  run_ok E type bs start stop p -> In b bs ->
  let p' := summarize_block E b p in
  frame bs p p' /\
  (forall k, k <> b -> eb_at p' k = eb_at p k) /\
  summary_ok E (eb_at p b) (eb_at p' b).
Proof.
  intros (_ & _ & Hf) Hb p'. rewrite Forall_forall in Hf.
  destruct (Hf b Hb) as (Hr & _ & Hl).
  destruct (summarize_block_spec E b p HE Hr Hl) as (L & O & Hs).
  fold p' in L, O, Hs. split; [|split; assumption].
  split; [exact L|]. split.
  - intros k. destruct (Z.eq_dec k b) as [->|Hne].
    + destruct Hs as (Nx & Ty & Ed & _). rewrite Nx, Ty, Ed, length_map. auto.
    + rewrite (O k Hne). auto.
  - intros k Hk. apply O. congruence.
Qed.

(** The last loop over the blocks [j], [j + 1], ... of the chain. *)
Lemma summary_loop (m : nat) :
  forall (j : nat) (p : list stinger_eb) (fuel : nat),
    (j + m)%nat = length bs -> (m < fuel)%nat ->
    run_ok E type bs start stop p ->
    exists p',
      while_blocks fuel (fun q => q) type (summarize_block E) (nth j (bs ++ [stop]) 0) p
      = Some p' /\
      frame bs p p' /\
      (forall k, ~ In k (skipn j bs) -> eb_at p' k = eb_at p k) /\
      (forall b, In b (skipn j bs) -> summary_ok E (eb_at p b) (eb_at p' b)).
Proof.
  induction m as [|m IH]; intros j p fuel Hjm Hfuel Hok.
  - destruct fuel as [|fuel]; [lia|]. cbn [while_blocks].
    rewrite app_nth2 by lia. replace (j - length bs)%nat with O by lia. cbn [nth].
    assert (Hc : negb (stop =? 0) && (etype (eb_at p stop) =? type) = false).
    { destruct Hok as (_ & [->|Hs] & _); [reflexivity|].
      apply Z.eqb_neq in Hs. rewrite Hs. apply andb_false_r. }
    rewrite Hc. exists p. split; [reflexivity|]. split; [apply frame_refl|].
    rewrite skipn_all2 by lia. split; [reflexivity|]. intros b [].
  - destruct fuel as [|fuel]; [lia|]. cbn [while_blocks].
    assert (Hj : (j < length bs)%nat) by lia.
    rewrite app_nth1 by lia.
    destruct (run_block E type bs start stop p j Hok Hj) as (Hin & Hr & Ht).
    replace (nth j bs 0 =? 0) with false by (symmetry; apply Z.eqb_neq; lia).
    rewrite Ht, Z.eqb_refl. cbn [negb andb].
    destruct (summarize_block_frame p (nth j bs 0) Hok Hin) as (F1 & O1 & S1).
    cbv zeta in F1, O1, S1.
    set (p1 := summarize_block E (nth j bs 0) p) in *.
    assert (Hok1 : run_ok E type bs start stop p1)
      by (apply (run_ok_frame E type bs start stop p); assumption).
    destruct S1 as (Nx & S1'). rewrite Nx.
    destruct Hok as (Hl & Hs & Hf).
    destruct (linked_next stop p start bs Hl) as [_ Hnext].
    rewrite (Hnext j Hj).
    destruct (IH (S j) p1 fuel ltac:(lia) ltac:(lia) Hok1) as (p' & Ew & F2 & O2 & S2).
    exists p'. split; [exact Ew|]. split; [exact (frame_trans bs p p1 p' F1 F2)|].
    pose proof (NoDup_skipn bs j Hnodup) as Hnd.
    rewrite (skipn_cons_nth bs j 0 Hj) in Hnd |- *.
    inversion Hnd as [|x t Hnin Hnd']; subst x t.
    split.
    + intros k Hk. rewrite O2 by (intros Hk'; apply Hk; now right).
      apply O1. intros ->. apply Hk. now left.
    + intros b [<-|Hb].
      * rewrite (O2 _ Hnin). split; assumption.
      * rewrite <- (O1 b) by (intros ->; contradiction). now apply S2.
Qed.
End SummaryLoop.

Lemma find_start_spec (p : list stinger_eb) (type : Z) (pre : list Z) :
  forall (head start : Z) (fuel : nat),
    linked p head pre start ->
    Forall (fun b => b <> 0 /\ etype (eb_at p b) <> type) pre ->
    start = 0 \/ etype (eb_at p start) = type ->
    (length pre < fuel)%nat ->
    find_start fuel p type head = Some start.
Proof.
  induction pre as [|b t IH]; intros head start fuel Hl Hf Hs Hfuel.
  - cbn in Hl. subst head. destruct fuel as [|fuel]; [simpl in Hfuel; lia|].
    cbn [find_start]. destruct Hs as [->|Hs]; [reflexivity|].
    rewrite Hs, Z.eqb_refl. cbn [negb]. now rewrite andb_false_r.
  - cbn [linked] in Hl. destruct Hl as [-> Hl]. inversion Hf as [|b' t' [Hb0 Hbt] Hf']; subst.
    destruct fuel as [|fuel]; [simpl in Hfuel; lia|]. cbn [find_start].
    replace (b =? 0) with false by (symmetry; now apply Z.eqb_neq).
    replace (etype (eb_at p b) =? type) with false by (symmetry; now apply Z.eqb_neq).
    cbn [negb andb]. apply IH; try assumption. simpl in Hfuel. lia.
Qed.


(** ** [stinger_sort_edge_list] *)

Lemma entomb_neighbor_mono (a b : stinger_edge) :
  (neighbor a = 0 -> all_zero a = true) -> (neighbor b = 0 -> all_zero b = true) ->
  neighbor a <= neighbor b -> neighbor (entomb a) <= neighbor (entomb b).
Proof.
  intros Ha Hb Hle. unfold entomb.
  destruct (all_zero a) eqn:Ea, (all_zero b) eqn:Eb; cbn [neighbor]; try lia.
  - unfold all_zero in Ea. destruct (Z.eqb_spec (neighbor a) 0) as [E0|]; [|discriminate].
    destruct (Z.eq_dec (neighbor b) 0) as [E1|]; [|lia].
    specialize (Hb E1). congruence.
  - unfold all_zero in Eb. destruct (Z.eqb_spec (neighbor b) 0) as [E0|]; [|discriminate].
    destruct (Z.eq_dec (neighbor a) 0) as [E1|]; [|lia].
    specialize (Ha E1). congruence.
Qed.

Lemma entomb_id (l : list stinger_edge) :
  (forall e, In e l -> all_zero e = false) -> map entomb l = l.
Proof.
  intros H. rewrite <- (map_id l) at 2. apply map_ext_in. intros e He.
  unfold entomb. now rewrite (H e He).
Qed.

Lemma type_chain_frame (E : Z) (p p' : list stinger_eb) (head type : Z) (pre bs : list Z) :
  type_chain E p head type pre bs -> frame bs p p' -> type_chain E p' head type pre bs.
Proof.
  intros [(start & stop & L1 & L2 & Hs & Ht) Hpre Hty Hnd] (L & S & O).
  assert (Hn : forall k, next (eb_at p' k) = next (eb_at p k)) by (intros k; apply S).
  assert (He : forall k, etype (eb_at p' k) = etype (eb_at p k)) by (intros k; apply S).
  split.
  - exists start, stop. rewrite !He.
    split; [now apply (linked_frame start p)|]. split; [now apply (linked_frame stop p)|].
    split; assumption.
  - rewrite Forall_forall in Hpre |- *. intros b Hb. rewrite He. now apply Hpre.
  - rewrite Forall_forall in Hty |- *. intros b Hb.
    destruct (Hty b Hb) as (H1 & H2 & H3). destruct (S b) as (_ & _ & El).
    rewrite L, He, El. auto.
  - exact Hnd.
Qed.

(** The whole function on a well-formed chain: it returns, given fuel for the
    blocks and the inversions; the slots of the chain are rearranged in
    ascending order of their neighbors; the slots that were never used are
    made tombstones where they then stand; and the cached fields of every
    block of the chain agree with its slots. *)
Lemma stinger_sort_edge_list_spec (E : Z) (fuel : nat) (vertices : Z -> Z)
      (p : list stinger_eb) (srcvtx type : Z) (pre bs : list Z) :
  1 <= E < 2^62 ->
  type_chain E p (vertices srcvtx) type pre bs ->
  (length pre + length bs + inversions (chain_neighbors p bs) < fuel)%nat ->
  exists p' sorted,
    stinger_sort_edge_list E fuel vertices p srcvtx type = Some p' /\
    frame bs p p' /\
    Permutation sorted (chain_edges p bs) /\
    Sorted Z.le (map neighbor sorted) /\
    chain_edges p' bs = map entomb sorted /\
    (forall b, In b bs -> cached_ok E (eb_at p' b)).
Proof.
  intros HE Hc Hfuel. pose proof Hc as [(start & stop & L1 & L2 & Hs & Ht) Hpre Hty Hnd].
  assert (Hok : run_ok E type bs start stop p) by (split; [|split]; assumption).
  unfold stinger_sort_edge_list, stinger_vertex_edges_get.
  rewrite (find_start_spec p type pre (vertices srcvtx) start fuel L1 Hpre Hs ltac:(lia)).
  destruct (sort_rounds_spec E type bs start stop ltac:(lia) Hnd fuel fuel ltac:(lia) p Hok
                             ltac:(lia))
    as (p1 & Er & F1 & P1 & S1).
  rewrite Er.
  assert (Hok1 : run_ok E type bs start stop p1)
    by (apply (run_ok_frame E type bs start stop p); assumption).
  assert (Hstart : start = nth 0 (bs ++ [stop]) 0)
    by (now destruct (linked_next stop p start bs L2)).
  rewrite Hstart.
  destruct (summary_loop E type bs start stop HE Hnd (length bs) O p1 fuel eq_refl ltac:(lia)
                         Hok1)
    as (p' & Ew & F2 & _ & S2).
  cbn [skipn] in S2.
  exists p', (chain_edges p1 bs). split; [exact Ew|].
  split; [exact (frame_trans bs p p1 p' F1 F2)|].
  split; [exact P1|]. split; [exact S1|]. split.
  - unfold chain_edges. rewrite map_flat_map. apply flat_map_ext_in.
    intros b Hb. destruct (S2 b Hb) as (_ & _ & Ed & _). exact Ed.
  - intros b Hb. destruct (S2 b Hb) as (_ & _ & _ & Hcached). exact Hcached.
Qed.


Lemma StronglySorted_map_inv {A B : Type} (R : B -> B -> Prop) (g : A -> B) (l : list A) :
  StronglySorted R (map g l) -> StronglySorted (fun a b => R (g a) (g b)) l.
Proof.
  induction l as [|a t IH]; intros H; [constructor|].
  cbn [map] in H. inversion H as [|x y Hs Hf]; subst. constructor; [now apply IH|].
  rewrite Forall_forall in Hf |- *. intros b Hb. apply Hf. now apply in_map.
Qed.

Lemma example_pool_chain : type_chain 4 example_pool 2 0 [2] [1; 3].
Proof.
  split.
  - exists 1, 0. cbn. repeat split; auto.
  - apply Forall_cons; [|apply Forall_nil]. split; vm_compute; discriminate.
  - apply Forall_cons; [|apply Forall_cons; [|apply Forall_nil]];
      repeat split; vm_compute; reflexivity.
  - apply NoDup_cons; [|apply NoDup_cons; [|apply NoDup_nil]]; cbn; intuition lia.
Qed.

(** C5, as claimed: tombstones do not end at the tail. The chain of
    [example_pool] holds the neighbors 7, 2, -1, 9, 4, 0, 6, 3, the 0 being a
    slot that was never used; it is left as -1, -1, 2, 3, 4, 6, 7, 9, the
    tombstones first. *)
Lemma stinger_sort_edge_list_tombstones_first :
  exists p',
    stinger_sort_edge_list 4 20 (fun _ => 2) example_pool 0 0 = Some p' /\
    chain_neighbors example_pool [1; 3] = [7; 2; -1; 9; 4; 0; 6; 3] /\
    chain_neighbors p' [1; 3] = [-1; -1; 2; 3; 4; 6; 7; 9] /\
    ~ Sorted tombstones_last (chain_neighbors p' [1; 3]).
Proof.
  eexists. split; [vm_compute; reflexivity|]. split; [reflexivity|].
  split; [reflexivity|].
  change (~ Sorted tombstones_last [-1; -1; 2; 3; 4; 6; 7; 9]).
  intros H. inversion H as [|a l Hs _]; subst.
  inversion Hs as [|a l _ Hh]; subst. inversion Hh as [|b l Hr]; subst.
  destruct Hr as [Hr|[Hr _]]; [discriminate | congruence].
Qed.

(** C5. On a well-formed chain of a vertex and a type, given fuel for the
    blocks and the inversions, [stinger_sort_edge_list] returns; the chain is
    as it was linked; its slots, read as one array in slot order, are the
    slots it had, rearranged in ascending order of the neighbor as a signed
    integer, so that tombstones come first, with every slot that was never
    used (all fields zero) then made a tombstone where it stands. The
    neighbors are in ascending order at the end when no slot with neighbor 0
    holds anything, or when no slot is all zero. *)
Theorem stinger_sort_edge_list_ascending (E : Z) (fuel : nat) (vertices : Z -> Z)
        (p : list stinger_eb) (srcvtx type : Z) (pre bs : list Z) :
  1 <= E < 2^62 ->
  type_chain E p (vertices srcvtx) type pre bs ->
  (length pre + length bs + inversions (chain_neighbors p bs) < fuel)%nat ->
  exists p' sorted,
    stinger_sort_edge_list E fuel vertices p srcvtx type = Some p' /\
    type_chain E p' (vertices srcvtx) type pre bs /\
    Permutation sorted (chain_edges p bs) /\
    Sorted Z.le (map neighbor sorted) /\
    chain_edges p' bs = map entomb sorted /\
    ((forall e, In e (chain_edges p bs) -> neighbor e = 0 -> all_zero e = true) \/
     (forall e, In e (chain_edges p bs) -> all_zero e = false) ->
     Sorted Z.le (chain_neighbors p' bs)).
Proof.
  intros HE Hc Hfuel.
  destruct (stinger_sort_edge_list_spec E fuel vertices p srcvtx type pre bs HE Hc Hfuel)
    as (p' & sorted & Es & F & P & S & Ed & _).
  exists p', sorted. split; [exact Es|].
  split; [exact (type_chain_frame E p p' _ type pre bs Hc F)|].
  split; [exact P|]. split; [exact S|]. split; [exact Ed|].
  intros [Hz|Hnz]; unfold chain_neighbors; rewrite Ed.
  - apply StronglySorted_Sorted. apply StronglySorted_map. apply StronglySorted_map.
    apply Sorted_StronglySorted in S; [|intros x y z; lia].
    apply StronglySorted_map_inv in S.
    apply (StronglySorted_weaken (fun a b => neighbor a <= neighbor b)); [|exact S].
    intros x y Hx Hy Hle.
    apply entomb_neighbor_mono; [| |exact Hle]; apply Hz; now apply (Permutation_in _ P).
  - rewrite entomb_id; [exact S|]. intros e He. apply Hnz. now apply (Permutation_in _ P).
Qed.

Lemma stinger_sort_edge_list_ascending_witness :
  exists p' sorted,
    stinger_sort_edge_list 4 20 (fun _ => 2) example_pool 0 0 = Some p' /\
    type_chain 4 p' 2 0 [2] [1; 3] /\
    Permutation sorted (chain_edges example_pool [1; 3]) /\
    Sorted Z.le (map neighbor sorted) /\
    chain_edges p' [1; 3] = map entomb sorted /\
    ((forall e, In e (chain_edges example_pool [1; 3]) -> neighbor e = 0 -> all_zero e = true) \/
     (forall e, In e (chain_edges example_pool [1; 3]) -> all_zero e = false) ->
     Sorted Z.le (chain_neighbors p' [1; 3])).
Proof.
  apply (stinger_sort_edge_list_ascending 4 20 (fun _ => 2) example_pool 0 0 [2] [1; 3]).
  - lia.
  - exact example_pool_chain.
  - vm_compute. lia.
Defined.

(** An edge to vertex 0 before a slot that was never used: the two stay as
    they are in the passes, and the last loop makes the second a tombstone,
    after a live slot. *)
Example stinger_sort_edge_list_zero_slot :
  exists p',
    stinger_sort_edge_list 2 3 (fun _ => 1) zero_pool 0 0 = Some p' /\
    chain_neighbors zero_pool [1] = [0; 0] /\
    chain_neighbors p' [1] = [0; -1].
Proof. eexists. split; [vm_compute; reflexivity|]. split; reflexivity. Qed.

(** C8 (the code misses it). A block without a live slot: the block of
    [dead_pool] holds two tombstones. The last loop starts [curHigh] at 0,
    raises it at the live slots only and stores [curHigh + 1]: the block is
    left with [numEdges = 0] and [high = 1], not 0, with no live slot below
    [high]. *)
Theorem stinger_sort_edge_list_high_of_dead_block :
  exists p',
    stinger_sort_edge_list 2 3 (fun _ => 1) dead_pool 0 0 = Some p' /\
    map neighbor (edges (eb_at p' 1)) = [-1; -1] /\
    filter live (edges (eb_at p' 1)) = [] /\
    numEdges (eb_at p' 1) = 0 /\
    high (eb_at p' 1) = 1.
Proof. eexists. split; [vm_compute; reflexivity|]. repeat split. Qed.

(** What the last loop of [stinger_sort_edge_list] leaves in the cached
    fields. On a well-formed chain of a vertex and a type, given fuel for the
    blocks and the inversions, the function returns, and then in
    every block of the chain [numEdges] is the number of live slots,
    [smallStamp] the least [timeFirst] and [largeStamp] the greatest
    [timeRecent] of the live slots ([INT64_MAX] and [INT64_MIN] when there is
    none), [numEdges <= high <= STINGER_EDGEBLOCKSIZE], no slot from [high]
    on is live, and [high] is one more than the index of the last live slot
    when the block has one, and 1 when it has none. *)
Theorem stinger_sort_edge_list_cached_fields (E : Z) (fuel : nat) (vertices : Z -> Z)
        (p : list stinger_eb) (srcvtx type : Z) (pre bs : list Z) :
  1 <= E < 2^62 ->
  type_chain E p (vertices srcvtx) type pre bs ->
  (length pre + length bs + inversions (chain_neighbors p bs) < fuel)%nat ->
  exists p',
    stinger_sort_edge_list E fuel vertices p srcvtx type = Some p' /\
    forall b, In b bs ->
      let eb := eb_at p' b in
      numEdges eb = Z.of_nat (length (filter live (edges eb))) /\
      smallStamp eb = list_min INT64_MAX (map timeFirst (filter live (edges eb))) /\
      largeStamp eb = list_max INT64_MIN (map timeRecent (filter live (edges eb))) /\
      0 <= numEdges eb <= high eb /\ high eb <= E /\
      (forall i, high eb <= i < E -> live (edge_at eb i) = false) /\
      (filter live (edges eb) <> [] -> live (edge_at eb (high eb - 1)) = true) /\
      (filter live (edges eb) = [] -> high eb = 1).
Proof.
  intros HE Hc Hfuel.
  destruct (stinger_sort_edge_list_spec E fuel vertices p srcvtx type pre bs HE Hc Hfuel)
    as (p' & sorted & Es & _ & _ & _ & _ & Hcached).
  exists p'. split; [exact Es|]. intros b Hb. exact (Hcached b Hb).
Qed.

Lemma stinger_sort_edge_list_cached_fields_witness :
  exists p',
    stinger_sort_edge_list 4 20 (fun _ => 2) example_pool 0 0 = Some p' /\
    forall b, In b [1; 3] ->
      let eb := eb_at p' b in
      numEdges eb = Z.of_nat (length (filter live (edges eb))) /\
      smallStamp eb = list_min INT64_MAX (map timeFirst (filter live (edges eb))) /\
      largeStamp eb = list_max INT64_MIN (map timeRecent (filter live (edges eb))) /\
      0 <= numEdges eb <= high eb /\ high eb <= 4 /\
      (forall i, high eb <= i < 4 -> live (edge_at eb i) = false) /\
      (filter live (edges eb) <> [] -> live (edge_at eb (high eb - 1)) = true) /\
      (filter live (edges eb) = [] -> high eb = 1).
Proof.
  apply (stinger_sort_edge_list_cached_fields 4 20 (fun _ => 2) example_pool 0 0 [2] [1; 3]).
  - lia.
  - exact example_pool_chain.
  - vm_compute. lia.
Defined.


(** ** Further properties *)

Lemma subtracting_comparators_small_witness :
  i64_cmp 7 9 = 7 - 9 /\ csr_cmp 7 9 = 7 - 9 /\
  i64cmp_adj_sort {| vtx := 7; wgt := 1 |} {| vtx := 9; wgt := 2 |} = 7 - 9.
Proof. apply (subtracting_comparators_small 7 9 1 2). lia. Defined.

Lemma prefix_sum_serial_correct_witness :
  prefix_sum (Z.of_nat (length [4; 1; 2; 5])) [4; 1; 2; 5] =
  (inclusive_prefix_sums [4; 1; 2; 5], prefix_total [4; 1; 2; 5] (length [4; 1; 2; 5])).
Proof.
  apply (prefix_sum_serial_correct [4; 1; 2; 5]).
  - discriminate.
  - repeat (apply Forall_cons; [unfold in_i64; lia|]). apply Forall_nil.
Defined.

(** [i64_pair_cmp] returns -1, 0 or 1 as the first pair is before, equal to
    or after the second in the lexicographic order. *)
Theorem i64_pair_cmp_sign (p q : Z * Z) :
  (i64_pair_cmp p q = -1 <-> fst p < fst q \/ (fst p = fst q /\ snd p < snd q)) /\
  (i64_pair_cmp p q = 0 <-> p = q) /\
  (i64_pair_cmp p q = 1 <-> fst q < fst p \/ (fst p = fst q /\ snd q < snd p)).
Proof.
  unfold i64_pair_cmp. destruct p as [a b], q as [c d]. cbn [fst snd].
  destruct (Z.ltb_spec a c); [|destruct (Z.gtb_spec a c);
    [|destruct (Z.ltb_spec b d); [|destruct (Z.gtb_spec b d)]]];
    (split; [|split]); split; intros H'; try lia; try discriminate;
    try (inversion H'; lia).
  f_equal; lia.
Qed.

(** [stinger_sort_edge_list] writes to the blocks of the chain only, and to
    their slots and cached fields only: the pool keeps its size, every block
    its link, its type and its number of slots, and every block that is not
    of the chain is as it was. *)
Theorem stinger_sort_edge_list_frame (E : Z) (fuel : nat) (vertices : Z -> Z)
        (p : list stinger_eb) (srcvtx type : Z) (pre bs : list Z) :
  1 <= E < 2^62 ->
  type_chain E p (vertices srcvtx) type pre bs ->
  (length pre + length bs + inversions (chain_neighbors p bs) < fuel)%nat ->
  exists p',
    stinger_sort_edge_list E fuel vertices p srcvtx type = Some p' /\
    length p' = length p /\
    (forall k, next (eb_at p' k) = next (eb_at p k) /\
               etype (eb_at p' k) = etype (eb_at p k) /\
               length (edges (eb_at p' k)) = length (edges (eb_at p k))) /\
    (forall k, ~ In k bs -> eb_at p' k = eb_at p k).
Proof.
  intros HE Hc Hfuel.
  destruct (stinger_sort_edge_list_spec E fuel vertices p srcvtx type pre bs HE Hc Hfuel)
    as (p' & sorted & Es & F & _).
  exists p'. split; [exact Es | exact F].
Qed.

Lemma stinger_sort_edge_list_frame_witness :
  exists p',
    stinger_sort_edge_list 4 20 (fun _ => 2) example_pool 0 0 = Some p' /\
    length p' = length example_pool /\
    (forall k, next (eb_at p' k) = next (eb_at example_pool k) /\
               etype (eb_at p' k) = etype (eb_at example_pool k) /\
               length (edges (eb_at p' k)) = length (edges (eb_at example_pool k))) /\
    (forall k, ~ In k [1; 3] -> eb_at p' k = eb_at example_pool k).
Proof.
  apply (stinger_sort_edge_list_frame 4 20 (fun _ => 2) example_pool 0 0 [2] [1; 3]).
  - lia.
  - exact example_pool_chain.
  - vm_compute. lia.
Defined.


(** ** Searching a sorted array *)

Lemma find_scan_spec (tofind : Z) (ary : list Z) (n : nat) :
  forall bot, 0 <= bot -> bot + Z.of_nat n < 2^63 ->
    let r := find_scan n tofind ary bot in
    (r = -1 /\ forall j, bot <= j < bot + Z.of_nat n -> get ary j <> tofind) \/
    (bot <= r < bot + Z.of_nat n /\ get ary r = tofind).
Proof.
  induction n as [|n IH]; intros bot Hb Hn; cbn [find_scan].
  - left. split; [reflexivity|]. intros j Hj. lia.
  - destruct (Z.eqb_spec tofind (get ary bot)) as [E|E].
    + right. split; [lia | now symmetry].
    + rewrite add64_id by (unfold in_i64; lia).
      destruct (IH (bot + 1) ltac:(lia) ltac:(lia)) as [[Hr Hnone]|[Hr Hfound]].
      * left. split; [exact Hr|]. intros j Hj.
        destruct (Z.eq_dec j bot) as [->|Hne]; [congruence | apply Hnone; lia].
      * right. split; [lia | exact Hfound].
Qed.

Lemma half_bounds (d P : Z) :
  4 <= d <= 2 * P ->
  2 <= d / 2 <= P /\ 2 <= d - d / 2 <= P.
Proof.
  intros H. pose proof (Z.div_mod d 2 ltac:(lia)) as E.
  pose proof (Z.mod_pos_bound d 2 ltac:(lia)) as M. lia.
Qed.

(** The bisection ends, given a unit of fuel for every bit of the distance
    of [bot] and [top]; it returns an index of [tofind], or a range of at
    most four cells that holds every index of [tofind], the array being in
    ascending order. *)
Lemma find_bisect_spec (tofind : Z) (ary : list Z) (f : nat) :
  forall (fuel : nat) (top bot : Z),
    (f < fuel)%nat -> 0 <= bot <= top -> top < 2^63 - 1 ->
    top - bot <= 2 ^ Z.of_nat f ->
    exists res,
      find_bisect fuel tofind ary top bot = Some res /\
      match res with
      | inl mid => bot <= mid <= top /\ get ary mid = tofind
      | inr (top', bot') =>
          bot <= bot' /\ bot' <= top' /\ top' <= top /\ top' - bot' + 1 <= 4 /\
          ((forall i j, bot <= i -> i <= j -> j <= top -> get ary i <= get ary j) ->
           forall j, bot <= j <= top -> get ary j = tofind -> bot' <= j <= top')
      end.
Proof.
  induction f as [|f IH]; intros fuel top bot Hf Hbt Htop Hd;
    (destruct fuel as [|fuel]; [lia|]); cbn [find_bisect];
    rewrite (sub64_id top bot) by (unfold in_i64; lia);
    rewrite add64_id by (unfold in_i64; lia).
  - change (2 ^ Z.of_nat 0) with 1 in Hd.
    destruct (Z.gtb_spec (top - bot + 1) 4); [lia|].
    exists (inr (top, bot)). split; [reflexivity|].
    split; [lia|]. split; [lia|]. split; [lia|]. split; [lia|]. intros _ j Hj _. exact Hj.
  - destruct (Z.gtb_spec (top - bot + 1) 4) as [Hbig|Hsmall].
    + rewrite Z.quot_div_nonneg by lia.
      replace (2 ^ Z.of_nat (S f)) with (2 * 2 ^ Z.of_nat f) in Hd
        by (rewrite Nat2Z.inj_succ, Z.pow_succ_r by lia; reflexivity).
      destruct (half_bounds (top - bot) (2 ^ Z.of_nat f) ltac:(lia)) as [H1 H2].
      rewrite add64_id by (unfold in_i64; lia).
      set (mid := bot + (top - bot) / 2) in *.
      destruct (Z.eqb_spec tofind (get ary mid)) as [E|E].
      * exists (inl mid). split; [reflexivity|]. split; [unfold mid; lia | now symmetry].
      * destruct (Z.ltb_spec tofind (get ary mid)) as [Hlt|Hge].
        -- destruct (IH fuel mid bot ltac:(lia) ltac:(unfold mid; lia) ltac:(unfold mid; lia)
                        ltac:(unfold mid; lia)) as (res & Er & Hres).
           exists res. split; [exact Er|]. destruct res as [m|[t' b']].
           ++ split; [unfold mid in *; lia | apply Hres].
           ++ destruct Hres as (A & B & C & D & Hs).
              split; [lia|]. split; [lia|]. split; [unfold mid in *; lia|]. split; [lia|].
              intros Hsorted j Hj Ej.
              assert (Hjm : j < mid).
              { destruct (Z_lt_le_dec j mid) as [|Hle]; [assumption|].
                pose proof (Hsorted mid j ltac:(unfold mid; lia) Hle ltac:(lia)). lia. }
              apply Hs; [|lia|exact Ej].
              intros i k Hi Hik Hk. apply Hsorted; unfold mid in *; lia.
        -- destruct (IH fuel top mid ltac:(lia) ltac:(unfold mid; lia) ltac:(lia)
                        ltac:(unfold mid; lia)) as (res & Er & Hres).
           exists res. split; [exact Er|]. destruct res as [m|[t' b']].
           ++ split; [unfold mid in *; lia | apply Hres].
           ++ destruct Hres as (A & B & C & D & Hs).
              split; [unfold mid in *; lia|]. split; [lia|]. split; [lia|]. split; [lia|].
              intros Hsorted j Hj Ej.
              assert (Hjm : mid < j).
              { destruct (Z_lt_le_dec mid j) as [|Hle]; [assumption|].
                pose proof (Hsorted j mid ltac:(lia) Hle ltac:(unfold mid; lia)). lia. }
              apply Hs; [|lia|exact Ej].
              intros i k Hi Hik Hk. apply Hsorted; unfold mid in *; lia.
    + exists (inr (top, bot)). split; [reflexivity|].
      split; [lia|]. split; [lia|]. split; [lia|]. split; [lia|]. intros _ j Hj _. exact Hj.
Qed.

(** [find_in_sorted] returns, given 64 units of fuel; what it returns is -1
    or an index below [N] of a cell that holds [tofind], whatever the array;
    and when the first [N] cells are in ascending order it returns -1 only if
    none of them holds [tofind]. For [N <= 0] it returns -1. *)
Theorem find_in_sorted_correct (tofind N : Z) (ary : list Z) (fuel : nat) :
  N <= Z.of_nat (length ary) -> N < 2^63 -> (64 <= fuel)%nat ->
  exists r,
    find_in_sorted fuel tofind N ary = Some r /\
    (r = -1 \/ (0 <= r < N /\ get ary r = tofind)) /\
    (N <= 0 -> r = -1) /\
    ((forall i j, 0 <= i -> i <= j -> j < N -> get ary i <= get ary j) ->
     r = -1 -> forall j, 0 <= j < N -> get ary j <> tofind).
Proof.
  intros Hlen HN Hfuel. unfold find_in_sorted.
  destruct (Z.leb_spec N 0) as [Hneg|Hpos].
  - exists (-1). split; [reflexivity|]. split; [now left|]. split; [reflexivity|].
    intros _ _ j Hj. lia.
  - rewrite (sub64_id N 1) by (unfold in_i64; lia). cbv zeta.
    destruct (Z.eqb_spec tofind (get ary 0)) as [E0|E0].
    { exists 0. split; [reflexivity|]. split; [right; split; [lia | now symmetry]|].
      split; [lia|]. intros _ H. discriminate H. }
    destruct (Z.eqb_spec tofind (get ary (N - 1))) as [E1|E1].
    { exists (N - 1). split; [reflexivity|]. split; [right; split; [lia | now symmetry]|].
      split; [lia|]. intros _ H. lia. }
    destruct (find_bisect_spec tofind ary 63 fuel (N - 1) 0 ltac:(lia) ltac:(lia) ltac:(lia))
      as (res & Er & Hres).
    { change (Z.of_nat 63) with 63. lia. }
    rewrite Er. destruct res as [mid|[t' b']].
    + destruct Hres as [Hm Em]. exists mid. split; [reflexivity|].
      split; [right; split; [lia | exact Em]|]. split; [lia|].
      intros _ H. lia.
    + destruct Hres as (A & B & C & D & Hs).
      rewrite (sub64_id t' b') by (unfold in_i64; lia).
      pose proof (find_scan_spec tofind ary (Z.to_nat (t' - b' + 1)) b' A ltac:(lia)) as Hscan.
      cbv zeta in Hscan. rewrite Z2Nat.id in Hscan by lia.
      set (r := find_scan (Z.to_nat (t' - b' + 1)) tofind ary b') in *.
      exists r. split; [reflexivity|].
      destruct Hscan as [[Hr Hnone]|[Hr Hfound]].
      * split; [now left|]. split; [intros; lia|].
        intros Hsorted _ j Hj Ej.
        assert (Hin : b' <= j <= t').
        { apply Hs; [|lia|exact Ej]. intros i k Hi Hik Hk. apply Hsorted; lia. }
        apply (Hnone j); [lia | exact Ej].
      * split; [right; split; [lia | exact Hfound]|]. split; [intros; lia|].
        intros _ H. lia.
Qed.

Lemma find_in_sorted_correct_witness :
  exists r,
    find_in_sorted 64 7 6 [1; 3; 5; 7; 9; 11] = Some r /\
    (r = -1 \/ (0 <= r < 6 /\ get [1; 3; 5; 7; 9; 11] r = 7)) /\
    (6 <= 0 -> r = -1) /\
    ((forall i j, 0 <= i -> i <= j -> j < 6 ->
                  get [1; 3; 5; 7; 9; 11] i <= get [1; 3; 5; 7; 9; 11] j) ->
     r = -1 -> forall j, 0 <= j < 6 -> get [1; 3; 5; 7; 9; 11] j <> 7).
Proof.
  apply (find_in_sorted_correct 7 6 [1; 3; 5; 7; 9; 11] 64).
  - simpl. lia.
  - lia.
  - lia.
Defined.


(** ** Sorting pairs with [i2cmp] *)

Lemma i2cmp_le (a b : Z * Z) : i2cmp a b <= 0 <-> lex_le a b.
Proof.
  unfold i2cmp, lex_le.
  destruct (Z.ltb_spec (fst a) (fst b)); [lia|].
  destruct (Z.gtb_spec (fst a) (fst b)); [lia|].
  destruct (Z.ltb_spec (snd a) (snd b)); [lia|].
  destruct (Z.gtb_spec (snd a) (snd b)); lia.
Qed.

Lemma i2cmp_i64_pair_cmp (a b : Z * Z) : i2cmp a b = i64_pair_cmp a b.
Proof. reflexivity. Qed.

Lemma i2cmp_consistent (l : list (Z * Z)) : cmp_consistent i2cmp l.
Proof.
  split.
  - intros a b _ _. rewrite !i2cmp_le. unfold lex_le. lia.
  - intros a b c _ _ _. rewrite !i2cmp_le. unfold lex_le. lia.
Qed.

Lemma lex_le_antisym (p q : Z * Z) : lex_le p q -> lex_le q p -> p = q.
Proof.
  destruct p as [a b], q as [c d]. unfold lex_le. cbn [fst snd]. intros H1 H2.
  f_equal; lia.
Qed.

(** Two arrangements of the same elements in ascending order of an
    antisymmetric relation are the same list. *)
Lemma sorted_permutation_unique {A : Type} (R : A -> A -> Prop) :
  (forall a b, R a b -> R b a -> a = b) ->
  forall l1 l2 : list A,
    Permutation l1 l2 -> StronglySorted R l1 -> StronglySorted R l2 -> l1 = l2.
Proof.
  intros Hanti. induction l1 as [|a t1 IH]; intros l2 P S1 S2.
  - apply Permutation_nil in P. now subst.
  - destruct l2 as [|b t2]; [apply Permutation_sym, Permutation_nil in P; discriminate|].
    inversion S1 as [|? ? S1' F1]; subst. inversion S2 as [|? ? S2' F2]; subst.
    assert (E : a = b).
    { assert (Ia : In a (b :: t2)) by (apply (Permutation_in _ P); now left).
      assert (Ib : In b (a :: t1))
        by (apply (Permutation_in _ (Permutation_sym P)); now left).
      destruct Ia as [Ia|Ia]; [now symmetry|].
      destruct Ib as [Ib|Ib]; [exact Ib|].
      rewrite Forall_forall in F1, F2. apply Hanti; [now apply F1 | now apply F2]. }
    subst b. f_equal. apply IH; [|exact S1'|exact S2'].
    now apply Permutation_cons_inv in P.
Qed.

Lemma qsort_i2cmp_spec (qsort : qsort_fn) (l : list (Z * Z)) :
  qsort_contract qsort ->
  Permutation l (qsort _ i2cmp l) /\ StronglySorted lex_le (qsort _ i2cmp l).
Proof.
  intros Hq. split; [apply (qsort_perm _ Hq)|].
  apply StronglySorted_weaken with (R := fun a b => i2cmp a b <= 0).
  - intros a b _ _. apply i2cmp_le.
  - apply (qsort_sorted _ Hq), i2cmp_consistent.
Qed.

Lemma qsort_pairs_i2cmp_spec (qsort : qsort_fn) (array : list Z) (from nmemb : Z) :
  qsort_contract qsort ->
  0 <= from -> 0 <= nmemb -> from + 2 * nmemb <= Z.of_nat (length array) ->
  let out := qsort_pairs qsort i2cmp array from nmemb in
  length out = length array /\
  (forall j, ~ (from <= j < from + 2 * nmemb) -> get out j = get array j) /\
  Permutation (pairs_at array from (Z.to_nat nmemb)) (pairs_at out from (Z.to_nat nmemb)) /\
  StronglySorted lex_le (pairs_at out from (Z.to_nat nmemb)).
Proof.
  intros Hq Hf Hn Hl. cbv zeta. unfold qsort_pairs.
  set (ps := pairs_at array from (Z.to_nat nmemb)).
  destruct (qsort_i2cmp_spec qsort ps Hq) as [P S].
  assert (Lq : length (qsort _ i2cmp ps) = Z.to_nat nmemb).
  { rewrite <- (Permutation_length P). unfold ps. apply pairs_at_length. }
  destruct (store_pairs_spec (qsort _ i2cmp ps) array from Hf ltac:(rewrite Lq; lia))
    as [L [Hp Hu]].
  rewrite Lq in Hp, Hu. split; [exact L|]. split.
  - intros j Hj. apply Hu. lia.
  - rewrite Hp. split; [exact P | exact S].
Qed.

(** An array of [n] pairs is determined by its pairs. *)
Lemma pairs_of_inj (a b : list Z) (n : Z) :
  Z.of_nat (length a) = 2 * n -> length b = length a ->
  pairs_of a n = pairs_of b n -> a = b.
Proof.
  intros La Lb E. apply get_ext; [now symmetry|].
  intros i Hi.
  assert (Hk : (Z.to_nat (i / 2) < Z.to_nat n)%nat).
  { apply Z2Nat.inj_lt; [apply Z.div_pos; lia | lia |].
    apply Z.div_lt_upper_bound; lia. }
  assert (E' := f_equal (fun l => nth (Z.to_nat (i / 2)) l (0, 0)) E).
  cbv beta in E'. unfold pairs_of in E'. rewrite !nth_pairs_at in E' by exact Hk.
  rewrite Z2Nat.id in E' by (apply Z.div_pos; lia).
  injection E' as E0 E1.
  assert (Hi2 : i = 2 * (i / 2) + i mod 2) by (apply Z.div_mod; lia).
  assert (Hm : i mod 2 = 0 \/ i mod 2 = 1) by (pose proof (Z.mod_pos_bound i 2); lia).
  destruct Hm as [Hm|Hm]; rewrite Hm in Hi2.
  - replace i with (0 + 2 * (i / 2)) by lia. exact E0.
  - replace i with (0 + 2 * (i / 2) + 1) by lia. exact E1.
Qed.

(** The three ways of sorting an array of pairs agree: on [num >= 1]
    pairs, fewer than [2^60], of values in [[-2^59, 2^59)] (the byte counts
    of the blocks the sorts allocate then fit [size_t]), [bucket_sort_pairs]
    returns the same array whatever [qsort] it is linked with and in
    whatever order its parallel loop claims the cells, namely the array
    [qsort] with [i2cmp] gives; and when no first component is negative,
    [radix_sort_pairs], called with the number of cells, returns that array
    too, for every digit width from 1 to 30 bits. *)
Theorem pair_sorts_agree
      (qsort qsort' : qsort_fn) (sched array : list Z) (num numBits : Z) (fuel : nat) :
  qsort_contract qsort -> qsort_contract qsort' ->
  1 <= num -> Z.of_nat (length array) = 2 * num -> 2 * num < 2^61 ->
  Permutation sched (loop_indices 0 (Z.shiftl num 1) 2) ->
  Forall (fun v => - 2^59 <= v < 2^59) array ->
  let sorted := qsort_pairs qsort' i2cmp array 0 num in
  bucket_sort_pairs qsort sched array num = sorted /\
  (1 <= numBits <= 30 -> (64 <= fuel)%nat ->
   Forall (fun p => 0 <= fst p) (pairs_of array num) ->
   radix_sort_pairs fuel array (2 * num) numBits = Some sorted).
Proof.
  intros Hq Hq' Hnum Hlen Hsmall Hsched Hcells. cbv zeta.
  assert (Hget : forall j, 0 <= j < 2 * num -> - 2^59 <= get array j < 2^59).
  { intros j Hj. apply (Forall_get (fun v => - 2^59 <= v < 2^59)); [exact Hcells | lia]. }
  destruct (qsort_pairs_i2cmp_spec qsort' array 0 num Hq' ltac:(lia) ltac:(lia) ltac:(lia))
    as [L0 [_ [P0 S0]]].
  cbv zeta in L0, P0, S0.
  set (sorted := qsort_pairs qsort' i2cmp array 0 num) in *.
  change (pairs_at sorted 0 (Z.to_nat num)) with (pairs_of sorted num) in P0, S0.
  change (pairs_at array 0 (Z.to_nat num)) with (pairs_of array num) in P0.
  split.
  - destruct (bucket_sort_pairs_correct qsort Hq sched array num Hnum Hsched
                ltac:(lia)) as [L [_ [S P]]].
    + intros i Hi. apply Hget. rewrite pair_indices in Hi by lia.
      apply in_map_iff in Hi. destruct Hi as [k [<- Hk]]. apply in_seq in Hk. lia.
    + cbv zeta in L, S, P.
      apply (pairs_of_inj _ _ num); [rewrite L; exact Hlen | congruence |].
      apply (sorted_permutation_unique lex_le lex_le_antisym); [|exact S|exact S0].
      apply (Permutation_trans P P0).
  - intros HnumBits Hfuel Hfirst.
    destruct (radix_sort_pairs_correct array num numBits fuel Hnum Hlen Hsmall HnumBits
                                       Hfuel) as [out [E [L [S P]]]].
    + intros j Hj. pose proof (Hget j Hj). lia.
    + intros k Hk. rewrite Forall_forall in Hfirst.
      apply (Hfirst (get array (2 * k), get array (2 * k + 1))).
      apply in_pairs_of. exists k. split; [exact Hk | reflexivity].
    + rewrite E. f_equal.
      apply (pairs_of_inj _ _ num); [rewrite L; exact Hlen | congruence |].
      apply (sorted_permutation_unique lex_le lex_le_antisym); [|exact S|exact S0].
      apply (Permutation_trans P P0).
Qed.

(** [qsort] with [i2cmp], whatever implementation keeps the contract of
    the C library, leaves the [nmemb] pairs stored from cell [from] on as a
    rearrangement of themselves in ascending lexicographic order and writes
    no other cell; the result is the same array as with [i64_pair_cmp], and
    the same whichever implementation of [qsort] is used. *)
Theorem qsort_i2cmp_sorts_pairs
        (qsort qsort' : qsort_fn) (array : list Z) (from nmemb : Z) :
  qsort_contract qsort -> qsort_contract qsort' ->
  0 <= from -> 0 <= nmemb -> from + 2 * nmemb <= Z.of_nat (length array) ->
  let out := qsort_pairs qsort i2cmp array from nmemb in
  length out = length array /\
  (forall j, ~ (from <= j < from + 2 * nmemb) -> get out j = get array j) /\
  Permutation (pairs_at array from (Z.to_nat nmemb)) (pairs_at out from (Z.to_nat nmemb)) /\
  Sorted lex_le (pairs_at out from (Z.to_nat nmemb)) /\
  out = qsort_pairs qsort' i64_pair_cmp array from nmemb.
Proof.
  intros Hq Hq' Hf Hn Hl.
  destruct (qsort_pairs_i2cmp_spec qsort array from nmemb Hq Hf Hn Hl) as [L [U [P S]]].
  destruct (qsort_pairs_i2cmp_spec qsort' array from nmemb Hq' Hf Hn Hl) as [L' [U' [P' S']]].
  cbv zeta in *. split; [exact L|]. split; [exact U|]. split; [exact P|].
  split; [now apply StronglySorted_Sorted|].
  change (qsort_pairs qsort' i64_pair_cmp array from nmemb)
    with (qsort_pairs qsort' i2cmp array from nmemb).
  unfold qsort_pairs. f_equal.
  apply (sorted_permutation_unique lex_le lex_le_antisym).
  - apply (Permutation_trans (Permutation_sym (qsort_perm _ Hq _ _ _)) (qsort_perm _ Hq' _ _ _)).
  - apply (qsort_i2cmp_spec qsort _ Hq).
  - apply (qsort_i2cmp_spec qsort' _ Hq').
Qed.

Lemma qsort_i2cmp_sorts_pairs_witness :
  let array := [7; 7; 3; 9; 1; 5; 3; 2; 8] in
  let out := qsort_pairs insertion_qsort i2cmp array 2 3 in
  out = [7; 7; 1; 5; 3; 2; 3; 9; 8] /\
  length out = length array /\
  (forall j, ~ (2 <= j < 2 + 2 * 3) -> get out j = get array j) /\
  Permutation (pairs_at array 2 (Z.to_nat 3)) (pairs_at out 2 (Z.to_nat 3)) /\
  Sorted lex_le (pairs_at out 2 (Z.to_nat 3)) /\
  out = qsort_pairs insertion_qsort i64_pair_cmp array 2 3.
Proof.
  split; [vm_compute; reflexivity|].
  apply (qsort_i2cmp_sorts_pairs insertion_qsort insertion_qsort
           [7; 7; 3; 9; 1; 5; 3; 2; 8] 2 3 insertion_qsort_contract
           insertion_qsort_contract).
  - lia.
  - lia.
  - simpl. lia.
Defined.

Lemma pair_sorts_agree_witness :
  let array := [3; 9; 1; 5; 3; 2] in
  let sorted := qsort_pairs insertion_qsort i2cmp array 0 3 in
  sorted = [1; 5; 3; 2; 3; 9] /\
  bucket_sort_pairs insertion_qsort [4; 0; 2] array 3 = sorted /\
  radix_sort_pairs 64 array (2 * 3) 8 = Some sorted.
Proof.
  split; [vm_compute; reflexivity|].
  destruct (pair_sorts_agree insertion_qsort insertion_qsort [4; 0; 2]
              [3; 9; 1; 5; 3; 2] 3 8 64 insertion_qsort_contract
              insertion_qsort_contract) as [Hb Hr].
  - lia.
  - reflexivity.
  - lia.
  - vm_compute. apply (Permutation_app_comm [4] [0; 2]).
  - repeat (apply Forall_cons; [lia|]). apply Forall_nil.
  - split; [exact Hb|]. apply Hr.
    + lia.
    + lia.
    + change (pairs_of [3; 9; 1; 5; 3; 2] 3) with [(3, 9); (1, 5); (3, 2)].
      repeat (apply Forall_cons; [cbn [fst]; lia|]). apply Forall_nil.
Defined.


(** ** Reading a whole file ([xread]) *)

Lemma firstn_add {A : Type} (a b : nat) (l : list A) :
  firstn (a + b) l = firstn a l ++ firstn b (skipn a l).
Proof.
  revert l. induction a as [|a IH]; intros l; [reflexivity|].
  destruct l as [|x t]; simpl; [now rewrite firstn_nil | now rewrite IH].
Qed.

(** What one call of [read] that does not fail returns. *)
Lemma read_spec (f : open_file) (len : Z) :
  0 <= len ->
  let '(n, data, f') := read f len in
  (n = -1 /\ data = [] /\ unread f' = unread f /\
   exists rest, coming f = ReadFails :: rest /\ coming f' = rest) \/
  (0 <= n <= len /\ n <= Z.of_nat (length (unread f)) /\
   (0 < len -> unread f <> [] -> 1 <= n) /\
   data = firstn (Z.to_nat n) (unread f) /\
   unread f' = skipn (Z.to_nat n) (unread f) /\
   coming f' = tl (coming f) /\
   match coming f with ReadFails :: _ => False | _ => True end).
Proof.
  intros Hlen. unfold read. destruct f as [u c]. cbn [unread coming].
  assert (Hu : u <> [] -> 1 <= Z.of_nat (length u))
    by (destruct u; [congruence | simpl; lia]).
  destruct c as [|[|most] rest].
  - right. cbn [unread coming tl]. repeat split; try lia. intros H1 H2. specialize (Hu H2). lia.
  - left. cbn [unread coming]. repeat split. exists rest. now split.
  - right. cbn [unread coming tl]. repeat split; try lia. intros H1 H2. specialize (Hu H2). lia.
Qed.

Lemma never_fails_tl (f f' : open_file) :
  never_fails f -> coming f' = tl (coming f) -> never_fails f'.
Proof.
  unfold never_fails. intros H E I. apply H. rewrite E in I.
  destruct (coming f); [exact I | now right].
Qed.

(** Whatever it returns is -1 or the whole of what was asked for. *)
Lemma xread_loop_all_or_error (fuel : nat) :
  forall f stored len total r st f',
    0 <= len ->
    xread_loop fuel f stored len total = Some (r, st, f') ->
    (r = -1 /\ In ReadFails (coming f)) \/
    (r = total + len /\ len <= Z.of_nat (length (unread f)) /\
     st = stored ++ firstn (Z.to_nat len) (unread f) /\
     unread f' = skipn (Z.to_nat len) (unread f)).
Proof.
  induction fuel as [|fuel IH]; intros f stored len total r st f' Hlen E; [discriminate|].
  cbn [xread_loop] in E. destruct (Z.eqb_spec len 0) as [E0|N0].
  - injection E as <- <- <-. right. subst len. cbn. rewrite app_nil_r.
    repeat split; lia.
  - pose proof (read_spec f len Hlen) as R.
    destruct (read f len) as [[n data] f1].
    destruct R as [(En & _ & _ & rest & Ec & _)|(Hn & Hnu & _ & Ed & Eu & Ec & _)].
    + subst n. cbn in E. injection E as <- _ _. left. split; [reflexivity|].
      rewrite Ec. now left.
    + destruct (Z.ltb_spec n 0) as [|_]; [lia|].
      apply IH in E; [|lia]. destruct E as [[E I]|(Er & Hl & Es & Eu')]; [left|right].
      { split; [exact E|]. rewrite Ec in I. destruct (coming f); [exact I | now right]. }
      rewrite Eu, length_skipn in Hl. split; [lia|]. split; [lia|].
      rewrite Es, Eu', Ed, Eu, <- app_assoc, skipn_skipn.
      replace (Z.to_nat len) with (Z.to_nat n + Z.to_nat (len - n))%nat by lia.
      rewrite firstn_add. split; [reflexivity|]. f_equal. lia.
Qed.

(** With enough of the file left and no failing call it returns. *)
Lemma xread_loop_complete (fuel : nat) :
  forall f stored len total,
    never_fails f -> 0 <= len <= Z.of_nat (length (unread f)) ->
    (Z.to_nat len < fuel)%nat ->
    exists r st f', xread_loop fuel f stored len total = Some (r, st, f').
Proof.
  induction fuel as [|fuel IH]; intros f stored len total Hf Hlen Hfuel; [lia|].
  cbn [xread_loop]. destruct (Z.eqb_spec len 0) as [E0|N0]; [now eexists _, _, _|].
  pose proof (read_spec f len ltac:(lia)) as R.
  destruct (read f len) as [[n data] f1].
  destruct R as [(_ & _ & _ & rest & Ec & _)|(Hn & Hnu & Hpos & Ed & Eu & Ec & _)].
  - exfalso. apply Hf. rewrite Ec. now left.
  - assert (1 <= n).
    { apply Hpos; [lia|]. intros Hnil. rewrite Hnil in Hlen. simpl in Hlen. lia. }
    destruct (Z.ltb_spec n 0) as [|_]; [lia|].
    apply IH.
    + now apply (never_fails_tl f).
    + rewrite Eu, length_skipn. lia.
    + lia.
Qed.

(** With less of the file left than asked for and no failing call, the loop
    does not end: at the end of the file [read] returns 0 and [len] stays. *)
Lemma xread_loop_spins (fuel : nat) :
  forall f stored len total,
    never_fails f -> Z.of_nat (length (unread f)) < len ->
    xread_loop fuel f stored len total = None.
Proof.
  induction fuel as [|fuel IH]; intros f stored len total Hf Hlen; [reflexivity|].
  cbn [xread_loop]. destruct (Z.eqb_spec len 0) as [E0|N0]; [lia|].
  pose proof (read_spec f len ltac:(lia)) as R.
  destruct (read f len) as [[n data] f1].
  destruct R as [(_ & _ & _ & rest & Ec & _)|(Hn & Hnu & Hpos & Ed & Eu & Ec & _)].
  - exfalso. apply Hf. rewrite Ec. now left.
  - destruct (Z.ltb_spec n 0) as [|_]; [lia|].
    apply IH.
    + now apply (never_fails_tl f).
    + rewrite Eu, length_skipn. lia.
Qed.

Lemma at_most_nonneg (c : list read_event) : 0 <= at_most c.
Proof. induction c as [|[|m] c IH]; cbn [at_most]; lia. Qed.

(** A failing call that comes before the calls have handed over [len] bytes
    makes the loop return -1, whatever was stored before. *)
Lemma xread_loop_error (before : list read_event) :
  forall fuel f stored len total rest,
    coming f = before ++ ReadFails :: rest -> ~ In ReadFails before ->
    at_most before < len -> (length before < fuel)%nat ->
    exists st f', xread_loop fuel f stored len total = Some (-1, st, f') /\
                  coming f' = rest.
Proof.
  induction before as [|e before IH]; intros fuel f stored len total rest Ec Hb Hlen Hfuel.
  - destruct fuel as [|fuel]; [simpl in Hfuel; lia|]. cbn [xread_loop].
    simpl in Hlen. destruct (Z.eqb_spec len 0) as [E0|N0]; [lia|].
    unfold read. rewrite Ec. cbn. now eexists _, _.
  - destruct fuel as [|fuel]; [simpl in Hfuel; lia|]. cbn [xread_loop].
    pose proof (at_most_nonneg before) as Hnn.
    destruct e as [|most]; [exfalso; apply Hb; now left|].
    cbn [at_most] in Hlen.
    destruct (Z.eqb_spec len 0) as [E0|N0]; [lia|].
    pose proof (read_spec f len ltac:(lia)) as R.
    assert (Rn : fst (fst (read f len)) <= Z.pos most).
    { unfold read. rewrite Ec. cbn. lia. }
    destruct (read f len) as [[n data] f1]. cbn [fst] in Rn.
    destruct R as [(_ & _ & _ & rest' & Ec' & _)|(Hn & Hnu & Hpos & Ed & Eu & Ec' & _)].
    + rewrite Ec in Ec'. discriminate.
    + destruct (Z.ltb_spec n 0) as [|_]; [lia|].
      apply IH.
      * rewrite Ec', Ec. reflexivity.
      * intros I. apply Hb. now right.
      * lia.
      * simpl in Hfuel. lia.
Qed.

(** [xread] makes up for short reads: when no call of [read] fails and the
    file has [len] bytes left, it returns [len] with the next [len] bytes of
    the file stored, however the system cuts them into pieces. And it never
    returns a short count: whatever it returns is -1 after a failed call, or
    [len] with all of the [len] bytes stored. *)
Theorem xread_returns_all_or_error (fuel : nat) (f : open_file) (len : Z) :
  0 <= len ->
  (never_fails f -> len <= Z.of_nat (length (unread f)) -> (Z.to_nat len < fuel)%nat ->
   exists f', xread fuel f len = Some (len, firstn (Z.to_nat len) (unread f), f') /\
              unread f' = skipn (Z.to_nat len) (unread f)) /\
  (forall r st f', xread fuel f len = Some (r, st, f') ->
                   (r = -1 /\ In ReadFails (coming f)) \/
                   (r = len /\ st = firstn (Z.to_nat len) (unread f) /\
                    unread f' = skipn (Z.to_nat len) (unread f))).
Proof.
  intros Hlen. unfold xread. split.
  - intros Hf Hl Hfuel.
    destruct (xread_loop_complete fuel f [] len 0 Hf ltac:(lia) Hfuel) as (r & st & f' & E).
    destruct (xread_loop_all_or_error fuel f [] len 0 r st f' Hlen E)
      as [[_ I]|(Er & _ & Es & Eu)]; [now elim Hf|].
    exists f'. rewrite E, Er, Es. now split.
  - intros r st f' E.
    destruct (xread_loop_all_or_error fuel f [] len 0 r st f' Hlen E)
      as [Er|(Er & _ & Es & Eu)]; [now left|right].
    rewrite Er, Es. now repeat split.
Qed.

Lemma xread_returns_all_or_error_witness :
  let f := {| unread := [10; 11; 12; 13; 14; 15; 16; 17; 18; 19];
              coming := [ReadAtMost 3; ReadAtMost 1; ReadAtMost 2] |} in
  (exists f', xread 9 f 8 = Some (8, firstn (Z.to_nat 8) (unread f), f') /\
              unread f' = skipn (Z.to_nat 8) (unread f)) /\
  (forall r st f', xread 9 f 8 = Some (r, st, f') ->
                   (r = -1 /\ In ReadFails (coming f)) \/
                   (r = 8 /\ st = firstn (Z.to_nat 8) (unread f) /\
                    unread f' = skipn (Z.to_nat 8) (unread f))).
Proof.
  destruct (xread_returns_all_or_error 9
              {| unread := [10; 11; 12; 13; 14; 15; 16; 17; 18; 19];
                 coming := [ReadAtMost 3; ReadAtMost 1; ReadAtMost 2] |} 8) as [H1 H2].
  - lia.
  - split; [|exact H2]. apply H1.
    + unfold never_fails. cbn [coming In]. intros [H|[H|[H|[]]]]; discriminate H.
    + simpl. lia.
    + simpl. lia.
Defined.

(** When the file ends before [len] bytes have come and no call of [read]
    fails, [xread] does not return: [read] returns 0 at the end of the file,
    which the loop takes for a short read and tries again. *)
Theorem xread_spins_at_end_of_file (f : open_file) (len : Z) :
  never_fails f -> Z.of_nat (length (unread f)) < len ->
  forall fuel, xread fuel f len = None.
Proof. intros Hf Hlen fuel. now apply xread_loop_spins. Qed.

Lemma xread_spins_at_end_of_file_witness :
  xread 1000 {| unread := [10; 11; 12]; coming := [ReadAtMost 2] |} 8 = None.
Proof.
  apply (xread_spins_at_end_of_file {| unread := [10; 11; 12]; coming := [ReadAtMost 2] |} 8).
  - unfold never_fails. cbn [coming In]. intros [H|[]]. discriminate H.
  - simpl. lia.
Defined.

(** When a call of [read] fails before the calls have handed over [len]
    bytes, [xread] returns -1: the count of the bytes already stored is not
    reported. The calls before the failing one can hand over [at_most] bytes
    in all. *)
Theorem xread_returns_error_of_read
        (fuel : nat) (f : open_file) (len : Z) (before rest : list read_event) :
  coming f = before ++ ReadFails :: rest -> ~ In ReadFails before ->
  at_most before < len -> (length before < fuel)%nat ->
  exists st f', xread fuel f len = Some (-1, st, f') /\ coming f' = rest.
Proof. intros Ec Hb Hlen Hfuel. now apply (xread_loop_error before). Qed.

Lemma xread_returns_error_of_read_witness :
  exists st f',
    xread 3 {| unread := [10; 11; 12; 13; 14; 15; 16; 17; 18; 19];
               coming := [ReadAtMost 3; ReadAtMost 1; ReadFails; ReadAtMost 9] |} 8
    = Some (-1, st, f') /\ coming f' = [ReadAtMost 9].
Proof.
  apply (xread_returns_error_of_read 3
           {| unread := [10; 11; 12; 13; 14; 15; 16; 17; 18; 19];
              coming := [ReadAtMost 3; ReadAtMost 1; ReadFails; ReadAtMost 9] |} 8
           [ReadAtMost 3; ReadAtMost 1] [ReadAtMost 9]).
  - reflexivity.
  - cbn [In]. intros [H|[H|[]]]; discriminate H.
  - simpl. lia.
  - simpl. lia.
Defined.


(** ** Snapshot loading ([snarf_graph], [snarf_actions],
    [load_graph_and_action_stream]) *)

Lemma bs64_n_map (d : list Z) : bs64_n (Z.of_nat (length d)) d = map bs64 d.
Proof.
  destruct (bs64_n_spec d (Z.of_nat (length d)) ltac:(lia)) as [L G].
  apply get_ext; [now rewrite L, length_map|].
  intros i Hi. rewrite L in Hi. rewrite G.
  destruct (Z.leb_spec 0 i); [|lia]. destruct (Z.ltb_spec i (Z.of_nat (length d))); [|lia].
  cbn [andb]. unfold get. destruct (Z.ltb_spec i 0); [lia|].
  rewrite (nth_indep (map bs64 d) 0 (bs64 0)) by (rewrite length_map; lia).
  now rewrite map_nth.
Qed.

Lemma words_of_size (d : list Z) :
  (sizeof_i64 * Z.of_nat (length d)) / sizeof_i64 = Z.of_nat (length d) /\
  (sizeof_i64 * Z.of_nat (length d)) mod sizeof_i64 = 0.
Proof.
  unfold sizeof_i64. split.
  - rewrite Z.mul_comm. apply Z.div_mul. lia.
  - rewrite Z.mul_comm. apply Z.mod_mul. lia.
Qed.

Lemma get_map_bs64 (d : list Z) (i : Z) : get (map bs64 d) i = bs64 (get d i).
Proof.
  unfold get. destruct (Z.ltb_spec i 0); [reflexivity|].
  change 0 with (bs64 0) at 1. apply map_nth.
Qed.

(** *** Bytes and words *)

Lemma le_value_digits (n : nat) :
  forall u, 0 <= u ->
    le_value (map (fun k => Z.land (Z.shiftr u (8 * Z.of_nat k)) 0xFF) (seq 0 n))
    = u mod 2 ^ (8 * Z.of_nat n).
Proof.
  induction n as [|n IH]; intros u Hu.
  - cbn. now rewrite Z.mod_1_r.
  - rewrite <- cons_seq, <- seq_shift, map_cons, map_map. cbn [le_value].
    rewrite (map_ext _ (fun k => Z.land (Z.shiftr (Z.shiftr u 8) (8 * Z.of_nat k)) 0xFF)).
    2:{ intros k. rewrite Z.shiftr_shiftr by lia. do 2 f_equal. lia. }
    rewrite IH by (apply Z.shiftr_nonneg; exact Hu).
    change (8 * Z.of_nat 0) with 0. rewrite Z.shiftr_0_r.
    change 0xFF with (Z.ones 8). rewrite Z.land_ones by lia.
    rewrite Z.shiftr_div_pow2 by lia.
    replace (8 * Z.of_nat (S n)) with (8 + 8 * Z.of_nat n) by lia.
    rewrite Z.pow_add_r by lia.
    rewrite Z.rem_mul_r by lia. reflexivity.
Qed.

Lemma le_value_bytes_le (x : Z) : le_value (bytes_le x) = to_u64 x.
Proof.
  unfold bytes_le, byte_of. rewrite le_value_digits by apply to_u64_range.
  change (2 ^ (8 * Z.of_nat 8)) with (2^64). apply Z.mod_small, to_u64_range.
Qed.

Lemma rev_bytes_le (x : Z) : rev (bytes_le x) = bytes_le (bs64 x).
Proof.
  unfold bytes_le. cbn [seq map rev app Z.of_nat Pos.of_succ_nat Pos.succ].
  rewrite !bs64_byte by lia. reflexivity.
Qed.

Lemma i64_of_bytes_of_i64 (o w : byte_order) (x : Z) :
  in_i64 x -> i64_of_bytes o (bytes_of_i64 w x) = as_read o w x.
Proof.
  intros Hx. unfold i64_of_bytes, bytes_of_i64, as_read.
  destruct o, w; rewrite ?rev_involutive, ?rev_bytes_le, le_value_bytes_le, to_i64_to_u64;
    apply to_i64_id; first [exact Hx | apply bs64_range].
Qed.

Lemma length_bytes_of_i64 (w : byte_order) (x : Z) : length (bytes_of_i64 w x) = 8%nat.
Proof. destruct w; reflexivity. Qed.

Lemma length_file_bytes (w : byte_order) (words : list Z) :
  length (flat_map (bytes_of_i64 w) words) = (8 * length words)%nat.
Proof.
  induction words as [|x t IH]; [reflexivity|].
  cbn [flat_map]. rewrite length_app, length_bytes_of_i64, IH. simpl. lia.
Qed.

Lemma i64s_of_file_bytes (o w : byte_order) (words : list Z) :
  Forall in_i64 words ->
  i64s_of_bytes o (length words) (flat_map (bytes_of_i64 w) words) = map (as_read o w) words.
Proof.
  induction 1 as [|x t Hx Ht IH]; [reflexivity|].
  cbn [flat_map length i64s_of_bytes map].
  rewrite firstn_app, length_bytes_of_i64, Nat.sub_diag, firstn_O, app_nil_r.
  rewrite firstn_all2 by (rewrite length_bytes_of_i64; lia).
  rewrite skipn_app, length_bytes_of_i64, Nat.sub_diag, skipn_O.
  rewrite skipn_all2 by (rewrite length_bytes_of_i64; lia).
  cbn [app]. now rewrite IH, i64_of_bytes_of_i64.
Qed.

Lemma length_i64s_of_bytes (o : byte_order) (n : nat) :
  forall bs, length (i64s_of_bytes o n bs) = n.
Proof. induction n as [|n IH]; intros bs; [reflexivity|]. simpl. now rewrite IH. Qed.

Lemma cell_inside (mem : list Z) (k : Z) :
  0 <= k < Z.of_nat (length mem) -> cell mem k = Some (get mem k).
Proof.
  intros Hk. unfold cell.
  destruct (Z.leb_spec 0 k); [|lia]. destruct (Z.ltb_spec k (Z.of_nat (length mem))); [|lia].
  reflexivity.
Qed.

Lemma cell_outside (mem : list Z) (k : Z) :
  Z.of_nat (length mem) <= k -> cell mem k = None.
Proof.
  intros Hk. unfold cell.
  destruct (Z.ltb_spec k (Z.of_nat (length mem))); [lia|]. now rewrite andb_false_r.
Qed.

Lemma length_words_read (o : byte_order) (sz : Z) (f : open_file) :
  0 <= sz -> Z.of_nat (length (words_read o sz f)) = sz / sizeof_i64.
Proof.
  intros Hsz. unfold words_read. rewrite length_i64s_of_bytes.
  apply Z2Nat.id. apply Z.div_pos; [exact Hsz | unfold sizeof_i64; lia].
Qed.

Lemma length_native_order (sz : Z) (mem : list Z) :
  Z.of_nat (length mem) = sz / sizeof_i64 ->
  length (native_order sz mem) = length mem.
Proof.
  intros L. unfold native_order. destruct (negb (endian_check =? get mem 0)); [|reflexivity].
  apply bs64_n_spec. lia.
Qed.

(** *** The stages of a loader *)

Lemma xread_full (fuel : nat) (f : open_file) (sz : Z) :
  0 <= sz -> read_in_full f sz -> (Z.to_nat sz < fuel)%nat ->
  exists f', xread fuel f sz = Some (sz, firstn (Z.to_nat sz) (unread f), f').
Proof.
  intros Hsz [Hf Hl] Hfuel. unfold xread.
  destruct (xread_loop_complete fuel f [] sz 0 Hf ltac:(lia) Hfuel) as (r & st & f' & E).
  destruct (xread_loop_all_or_error fuel f [] sz 0 r st f' Hsz E)
    as [[_ I]|(Er & _ & Es & _)]; [now elim Hf|].
  exists f'. rewrite E, Er, Es. reflexivity.
Qed.

Lemma xread_fails (fuel : nat) (f : open_file) (sz : Z) (n : nat) :
  read_fails_before f sz n -> (n < fuel)%nat ->
  exists st f', xread fuel f sz = Some (-1, st, f').
Proof.
  intros (before & rest & Ec & Hb & Hlen & <-) Hfuel.
  destruct (xread_loop_error before fuel f [] sz 0 rest Ec Hb Hlen Hfuel) as (st & f' & E & _).
  now exists st, f'.
Qed.

(** The steps up to the end of [xread] are the same in the two loaders. *)
Ltac through_stat O :=
  destruct O as (Es & Hsz & Hm & Hb & Ef);
  rewrite Es, Hm, Hb; change (negb (0 =? 0)) with false; cbn [negb]; cbv iota;
  rewrite Ef.

Ltac through_xread o fuel f sz R Hfuel :=
  let f' := fresh "f'" in
  let E := fresh "E" in
  destruct (xread_full fuel f sz ltac:(lia) R Hfuel) as [f' E];
  rewrite E, to_u64_id, Z.eqb_refl by lia; cbn [negb];
  fold (words_read o sz f).

Section Loaders.

Variable o : byte_order.
Variable fuel : nat.

Lemma snarf_graph_abort_cause (g : snapshot) :
  (forall sz, st_size g = Some sz -> 0 <= sz < 2^63) ->
  aborted (snarf_graph o fuel g) -> io_failure g.
Proof.
  intros Hwf H. unfold io_failure.
  assert (H' : exists r, snarf_graph o fuel g = Some r /\
                         match r with Abort _ | NoMemory => True | _ => False end).
  { destruct H as [[d H]|H]; rewrite H; eexists; split; [reflexivity | exact I | reflexivity | exact I]. }
  clear H. destruct H' as (r & H & Hr). unfold snarf_graph in H.
  destruct (st_size g) as [sz|]; [|now left].
  specialize (Hwf sz eq_refl).
  destruct (Z.eqb_spec (sz mod sizeof_i64) 0) as [Hm|Hm]; cbn [negb] in H;
    [|right; left; now exists sz].
  destruct (has_block g); cbn [negb] in H; [|now right; right; left].
  destruct (fd g) as [f|]; [|now right; right; right; left].
  destruct (xread fuel f sz) as [[[n st] f']|] eqn:E; [|discriminate H].
  right; right; right; right. exists f. split; [reflexivity|].
  destruct (xread_loop_all_or_error fuel f [] sz 0 n st f' ltac:(lia) E)
    as [[_ I]|(Er & _ & _ & _)]; [exact I|].
  exfalso. rewrite Er, to_u64_id, Z.eqb_refl in H by lia. cbn [negb] in H.
  destruct (cell _ 0); [|injection H as <-; exact Hr].
  destruct (cell _ 1); [|injection H as <-; exact Hr].
  destruct (cell _ 2); injection H as <-; exact Hr.
Qed.

Lemma snarf_graph_read_fails (g : snapshot) (sz : Z) (f : open_file) (n : nat) :
  opens g sz f -> read_fails_before f sz n -> (n < fuel)%nat ->
  snarf_graph o fuel g = Some (Abort "Error reading initial graph").
Proof.
  intros O R Hfuel. unfold snarf_graph. through_stat O.
  destruct (xread_fails fuel f sz n R Hfuel) as (st & f' & E). rewrite E.
  assert (N : (sz =? to_u64 (-1)) = false).
  { apply Z.eqb_neq. change (to_u64 (-1)) with (2^64 - 1). lia. }
  now rewrite N.
Qed.

Lemma snarf_graph_spins (g : snapshot) (sz : Z) (f : open_file) :
  opens g sz f -> ends_early f sz -> snarf_graph o fuel g = None.
Proof.
  intros O [Hf Hl]. unfold snarf_graph. through_stat O.
  unfold xread. now rewrite xread_loop_spins.
Qed.

Lemma snarf_graph_loaded (g : snapshot) (sz : Z) (f : open_file) :
  opens g sz f -> read_in_full f sz -> (Z.to_nat sz < fuel)%nat ->
  3 * sizeof_i64 <= sz ->
  let m := native_order sz (words_read o sz f) in
  snarf_graph o fuel g =
  Some (Loaded (get m 1) (get m 2) 3 (add64 (add64 3 (get m 1)) 1)
               (add64 (add64 (add64 3 (get m 1)) 1) (get m 2)) m).
Proof.
  intros O R Hfuel H3 m. unfold snarf_graph. through_stat O.
  through_xread o fuel f sz R Hfuel.
  pose proof (length_words_read o sz f ltac:(lia)) as L.
  assert (H3' : 3 <= sz / sizeof_i64).
  { apply Z.div_le_lower_bound; unfold sizeof_i64 in *; lia. }
  rewrite (cell_inside (words_read o sz f) 0) by lia.
  fold (native_order sz (words_read o sz f)). fold m.
  pose proof (length_native_order sz _ L) as Lm. fold m in Lm.
  rewrite (cell_inside m 1), (cell_inside m 2) by lia. reflexivity.
Qed.

Lemma snarf_graph_outside (g : snapshot) (sz : Z) (f : open_file) :
  opens g sz f -> read_in_full f sz -> (Z.to_nat sz < fuel)%nat ->
  sz < 3 * sizeof_i64 ->
  snarf_graph o fuel g = Some ReadsOutside.
Proof.
  intros O R Hfuel H3. unfold snarf_graph. through_stat O.
  through_xread o fuel f sz R Hfuel.
  pose proof (length_words_read o sz f ltac:(lia)) as L.
  assert (H3' : sz / sizeof_i64 < 3).
  { apply Z.div_lt_upper_bound; unfold sizeof_i64 in *; lia. }
  destruct (cell (words_read o sz f) 0) as [first|]; [|reflexivity].
  set (m := if negb (endian_check =? first) then _ else _).
  assert (Lm : length m = length (words_read o sz f)).
  { unfold m. destruct (negb _); [apply bs64_n_spec; lia | reflexivity]. }
  rewrite (cell_outside m 2) by lia.
  destruct (cell m 1); reflexivity.
Qed.

Lemma snarf_actions_abort_cause (a : snapshot) (r : snarfed_actions) :
  (forall sz, st_size a = Some sz -> 0 <= sz < 2^63) ->
  snarf_actions o fuel a = Some r ->
  match r with ActionsAbort _ | ActionsNoMemory => True | _ => False end ->
  io_failure a.
Proof.
  intros Hwf H Hr. unfold snarf_actions in H. unfold io_failure.
  destruct (st_size a) as [sz|]; [|now left].
  specialize (Hwf sz eq_refl).
  destruct (Z.eqb_spec (sz mod sizeof_i64) 0) as [Hm|Hm]; cbn [negb] in H;
    [|right; left; now exists sz].
  destruct (has_block a); cbn [negb] in H; [|now right; right; left].
  destruct (fd a) as [f|]; [|now right; right; right; left].
  destruct (xread fuel f sz) as [[[n st] f']|] eqn:E; [|discriminate H].
  right; right; right; right. exists f. split; [reflexivity|].
  destruct (xread_loop_all_or_error fuel f [] sz 0 n st f' ltac:(lia) E)
    as [[_ I]|(Er & _ & _ & _)]; [exact I|].
  exfalso. rewrite Er, to_u64_id, Z.eqb_refl in H by lia. cbn [negb] in H.
  destruct (cell _ 0); [|injection H as <-; exact Hr].
  destruct (cell _ 1); injection H as <-; exact Hr.
Qed.

Lemma snarf_actions_read_fails (a : snapshot) (sz : Z) (f : open_file) (n : nat) :
  opens a sz f -> read_fails_before f sz n -> (n < fuel)%nat ->
  snarf_actions o fuel a = Some (ActionsAbort "Error reading action file").
Proof.
  intros O R Hfuel. unfold snarf_actions. through_stat O.
  destruct (xread_fails fuel f sz n R Hfuel) as (st & f' & E). rewrite E.
  assert (N : (sz =? to_u64 (-1)) = false).
  { apply Z.eqb_neq. change (to_u64 (-1)) with (2^64 - 1). lia. }
  now rewrite N.
Qed.

Lemma snarf_actions_spins (a : snapshot) (sz : Z) (f : open_file) :
  opens a sz f -> ends_early f sz -> snarf_actions o fuel a = None.
Proof.
  intros O [Hf Hl]. unfold snarf_actions. through_stat O.
  unfold xread. now rewrite xread_loop_spins.
Qed.

Lemma snarf_actions_loaded (a : snapshot) (sz : Z) (f : open_file) :
  opens a sz f -> read_in_full f sz -> (Z.to_nat sz < fuel)%nat ->
  2 * sizeof_i64 <= sz ->
  let m := native_order sz (words_read o sz f) in
  snarf_actions o fuel a = Some (ActionsLoaded (get m 1) 2 m).
Proof.
  intros O R Hfuel H2 m. unfold snarf_actions. through_stat O.
  through_xread o fuel f sz R Hfuel.
  pose proof (length_words_read o sz f ltac:(lia)) as L.
  assert (H2' : 2 <= sz / sizeof_i64).
  { apply Z.div_le_lower_bound; unfold sizeof_i64 in *; lia. }
  rewrite (cell_inside (words_read o sz f) 0) by lia.
  fold (native_order sz (words_read o sz f)). fold m.
  pose proof (length_native_order sz _ L) as Lm. fold m in Lm.
  rewrite (cell_inside m 1) by lia. reflexivity.
Qed.

Lemma snarf_actions_outside (a : snapshot) (sz : Z) (f : open_file) :
  opens a sz f -> read_in_full f sz -> (Z.to_nat sz < fuel)%nat ->
  sz < 2 * sizeof_i64 ->
  snarf_actions o fuel a = Some ActionsReadOutside.
Proof.
  intros O R Hfuel H2. unfold snarf_actions. through_stat O.
  through_xread o fuel f sz R Hfuel.
  pose proof (length_words_read o sz f ltac:(lia)) as L.
  assert (H2' : sz / sizeof_i64 < 2).
  { apply Z.div_lt_upper_bound; unfold sizeof_i64 in *; lia. }
  destruct (cell (words_read o sz f) 0) as [first|]; [|reflexivity].
  set (m := if negb (endian_check =? first) then _ else _).
  assert (Lm : length m = length (words_read o sz f)).
  { unfold m. destruct (negb _); [apply bs64_n_spec; lia | reflexivity]. }
  rewrite (cell_outside m 1) by lia. reflexivity.
Qed.

End Loaders.

(** *** Files written in either byte order *)

Lemma file_of_opens (w : byte_order) (words : list Z) (c : list read_event) :
  Z.of_nat (length words) < 2^60 ->
  opens (file_of w words c) (sizeof_i64 * Z.of_nat (length words))
        {| unread := flat_map (bytes_of_i64 w) words; coming := c |}.
Proof.
  intros Hl. unfold opens, file_of. cbn [st_size fd has_block].
  destruct (words_of_size words) as [_ Hm]. rewrite Hm. unfold sizeof_i64.
  repeat split; lia.
Qed.

Lemma file_of_read_in_full (w : byte_order) (words : list Z) (c : list read_event) :
  ~ In ReadFails c ->
  read_in_full {| unread := flat_map (bytes_of_i64 w) words; coming := c |}
               (sizeof_i64 * Z.of_nat (length words)).
Proof.
  intros Hc. split; [exact Hc|]. cbn [unread]. rewrite length_file_bytes.
  unfold sizeof_i64. lia.
Qed.

Lemma as_read_marker (o w : byte_order) (words : list Z) :
  Forall in_i64 words -> get words 0 = endian_check ->
  native_order (sizeof_i64 * Z.of_nat (length words)) (map (as_read o w) words) = words.
Proof.
  intros HF H0. destruct (words_of_size words) as [Hd _]. unfold native_order. rewrite Hd.
  assert (Same : (if negb (endian_check =? get words 0)
                  then bs64_n (Z.of_nat (length words)) words else words) = words)
    by now rewrite H0, Z.eqb_refl.
  assert (Other : (if negb (endian_check =? get (map bs64 words) 0)
                   then bs64_n (Z.of_nat (length words)) (map bs64 words)
                   else map bs64 words) = words).
  { rewrite get_map_bs64, H0.
    assert (E : (endian_check =? bs64 endian_check) = false) by (vm_compute; reflexivity).
    rewrite E. cbn [negb].
    replace (Z.of_nat (length words)) with (Z.of_nat (length (map bs64 words)))
      by now rewrite length_map.
    rewrite bs64_n_map, map_map. rewrite <- (map_id words) at 2.
    apply map_ext_in. intros x Hx. apply bs64_invol.
    rewrite Forall_forall in HF. now apply HF. }
  destruct o, w; unfold as_read; rewrite ?map_id; assumption.
Qed.

Lemma words_read_file_of (o w : byte_order) (words : list Z) (c : list read_event) :
  Forall in_i64 words ->
  words_read o (sizeof_i64 * Z.of_nat (length words))
             {| unread := flat_map (bytes_of_i64 w) words; coming := c |}
  = map (as_read o w) words.
Proof.
  intros HF. unfold words_read. cbn [unread].
  destruct (words_of_size words) as [Hd _]. rewrite Hd, Nat2Z.id.
  rewrite firstn_all2 by (rewrite length_file_bytes; unfold sizeof_i64; lia).
  now apply i64s_of_file_bytes.
Qed.

(** C6 (as stated it fails). A snapshot of six words whose header announces
    one vertex and no edge, hence five words, is loaded: the size is not
    compared with the header. *)
Lemma snarf_graph_loads_a_snapshot_of_another_size :
  let words := [0x1234ABCD; 1; 0; 0; 0; 99] in
  let g := file_of little_endian words [] in
  st_size g = Some 48 /\
  48 / sizeof_i64 <> expected_words (get words 1) (get words 2) /\
  (forall fuel, ~ aborted (snarf_graph little_endian fuel g)) /\
  snarf_graph little_endian 2 g = Some (Loaded 1 0 3 5 5 words).
Proof.
  cbv zeta. split; [reflexivity|]. split; [vm_compute; congruence|]. split.
  - intros fuel H. apply snarf_graph_abort_cause in H.
    + destruct H as [H|[(sz & E & H)|[H|[H|(f & E & H)]]]].
      * discriminate H.
      * injection E as <-. apply H. reflexivity.
      * discriminate H.
      * discriminate H.
      * injection E as <-. exact H.
    + intros sz E. injection E as <-. vm_compute. split; congruence.
  - vm_compute. reflexivity.
Qed.

(** C6 (amended). [snarf_graph] aborts with a diagnostic when [stat] or
    [open] fails, when the size in bytes is not a multiple of eight, and
    when a call of [read] fails before the whole file has come, and the
    process ends in [xmalloc] when there is no block for the file; it is
    ended for no other reason. A snapshot of at least the three words of
    the header that is read in full is loaded, with [nv] and [ne] taken from
    its header and the arrays placed behind it, whether or not its size is
    [3 + (nv + 1) + 2 * ne] words. *)
Theorem snarf_graph_aborts_only_on_io_or_alignment
        (o : byte_order) (fuel : nat) (g : snapshot) :
  (forall sz, st_size g = Some sz -> 0 <= sz < 2^63) ->
  (aborted (snarf_graph o fuel g) -> io_failure g) /\
  (st_size g = None ->
   snarf_graph o fuel g = Some (Abort "Couldn't stat initial graph")) /\
  (forall sz, st_size g = Some sz -> sz mod sizeof_i64 <> 0 ->
   snarf_graph o fuel g
   = Some (Abort "graph file size is not a multiple of sizeof (int64_t)")) /\
  (forall sz, st_size g = Some sz -> sz mod sizeof_i64 = 0 -> has_block g = false ->
   snarf_graph o fuel g = Some NoMemory) /\
  (forall sz, st_size g = Some sz -> sz mod sizeof_i64 = 0 -> has_block g = true ->
   fd g = None ->
   snarf_graph o fuel g = Some (Abort "Error opening initial graph")) /\
  (forall sz f n, opens g sz f -> read_fails_before f sz n -> (n < fuel)%nat ->
   snarf_graph o fuel g = Some (Abort "Error reading initial graph")) /\
  (forall sz f, opens g sz f -> read_in_full f sz -> (Z.to_nat sz < fuel)%nat ->
   3 * sizeof_i64 <= sz ->
   let m := native_order sz (words_read o sz f) in
   let nv := get m 1 in
   let ne := get m 2 in
   snarf_graph o fuel g =
   Some (Loaded nv ne 3 (add64 (add64 3 nv) 1) (add64 (add64 (add64 3 nv) 1) ne) m)).
Proof.
  intros Hwf. split; [apply snarf_graph_abort_cause; exact Hwf|].
  split; [intros E; unfold snarf_graph; now rewrite E|].
  split.
  { intros sz E Hm. unfold snarf_graph. rewrite E.
    destruct (Z.eqb_spec (sz mod sizeof_i64) 0); [contradiction | reflexivity]. }
  split.
  { intros sz E Hm Hb. unfold snarf_graph. now rewrite E, Hm, Hb. }
  split.
  { intros sz E Hm Hb Ef. unfold snarf_graph. now rewrite E, Hm, Hb, Ef. }
  split; [intros sz f n; apply snarf_graph_read_fails|].
  intros sz f. apply snarf_graph_loaded.
Qed.

Lemma snarf_graph_aborts_only_on_io_or_alignment_witness :
  let words := [0x1234ABCD; 2; 1; 0; 1; 1; 1; 7] in
  snarf_graph little_endian 65 (file_of big_endian words [ReadAtMost 5; ReadAtMost 100])
  = Some (Loaded 2 1 3 6 7 words) /\
  snarf_graph little_endian 65 (file_of big_endian words [ReadAtMost 5; ReadFails])
  = Some (Abort "Error reading initial graph").
Proof.
  cbv zeta. split.
  - destruct (snarf_graph_aborts_only_on_io_or_alignment
                little_endian 65
                (file_of big_endian [0x1234ABCD; 2; 1; 0; 1; 1; 1; 7]
                         [ReadAtMost 5; ReadAtMost 100]))
      as (_ & _ & _ & _ & _ & _ & H).
    + intros sz E. injection E as <-. vm_compute. split; congruence.
    + rewrite (H 64 {| unread := flat_map (bytes_of_i64 big_endian)
                                          [0x1234ABCD; 2; 1; 0; 1; 1; 1; 7];
                       coming := [ReadAtMost 5; ReadAtMost 100] |}).
      * vm_compute. reflexivity.
      * unfold opens. vm_compute. repeat split; congruence.
      * split; [|vm_compute; congruence].
        unfold never_fails. cbn [coming In]. intros [E|[E|[]]]; discriminate E.
      * vm_compute. lia.
      * vm_compute. congruence.
  - destruct (snarf_graph_aborts_only_on_io_or_alignment
                little_endian 65
                (file_of big_endian [0x1234ABCD; 2; 1; 0; 1; 1; 1; 7]
                         [ReadAtMost 5; ReadFails]))
      as (_ & _ & _ & _ & _ & H & _).
    + intros sz E. injection E as <-. vm_compute. split; congruence.
    + apply (H 64 {| unread := flat_map (bytes_of_i64 big_endian)
                                        [0x1234ABCD; 2; 1; 0; 1; 1; 1; 7];
                     coming := [ReadAtMost 5; ReadFails] |} 1%nat).
      * unfold opens. vm_compute. repeat split; congruence.
      * exists [ReadAtMost 5], []. repeat split.
        cbn [In]. intros [E|[]]. discriminate E.
      * lia.
Defined.

(** Nothing tests that the header words are inside the block that was
    allocated for the file: on a file that is read in full and has fewer than
    three words, [snarf_graph] reads [*mem], [mem[1]] or [mem[2]] outside the
    block, and so does [snarf_actions] on a file of fewer than two words. *)
Theorem loaders_read_header_outside_short_file
        (o : byte_order) (fuel : nat) (s : snapshot) (sz : Z) (f : open_file) :
  opens s sz f -> read_in_full f sz -> (Z.to_nat sz < fuel)%nat ->
  (sz < 3 * sizeof_i64 -> snarf_graph o fuel s = Some ReadsOutside) /\
  (sz < 2 * sizeof_i64 -> snarf_actions o fuel s = Some ActionsReadOutside).
Proof.
  intros O R Hfuel. split; intros H.
  - now apply (snarf_graph_outside o fuel s sz f).
  - now apply (snarf_actions_outside o fuel s sz f).
Qed.

Lemma loaders_read_header_outside_short_file_witness :
  snarf_graph little_endian 9 (file_of little_endian [0x1234ABCD] []) = Some ReadsOutside /\
  snarf_actions little_endian 9 (file_of little_endian [0x1234ABCD] [])
  = Some ActionsReadOutside.
Proof.
  destruct (loaders_read_header_outside_short_file
              little_endian 9 (file_of little_endian [0x1234ABCD] []) 8
              {| unread := flat_map (bytes_of_i64 little_endian) [0x1234ABCD];
                 coming := [] |}) as [Hg Ha].
  - unfold opens. vm_compute. repeat split; congruence.
  - split; [|vm_compute; congruence]. unfold never_fails. cbn [coming In]. tauto.
  - vm_compute. lia.
  - split; [apply Hg | apply Ha]; vm_compute; reflexivity.
Defined.

(** The empty file: the first read is of [*mem]. *)
Example snarf_graph_empty_file :
  snarf_graph little_endian 1 (file_of little_endian [] []) = Some ReadsOutside.
Proof. reflexivity. Qed.

(** *** Both files *)

Lemma load_abort_cause (o : byte_order) (fuel : nat) (g a : snapshot) :
  (forall sz, st_size g = Some sz -> 0 <= sz < 2^63) ->
  (forall sz, st_size a = Some sz -> 0 <= sz < 2^63) ->
  (exists d, load_graph_and_action_stream o fuel g a = Some (LoadAbort d)) \/
  load_graph_and_action_stream o fuel g a = Some LoadNoMemory ->
  io_failure g \/ io_failure a.
Proof.
  intros Hg Ha H.
  assert (H' : exists r, load_graph_and_action_stream o fuel g a = Some r /\
                         match r with LoadAbort _ | LoadNoMemory => True | _ => False end).
  { destruct H as [[d H]|H]; rewrite H; eexists; split;
      [reflexivity | exact I | reflexivity | exact I]. }
  clear H. destruct H' as (r & H & Hr). unfold load_graph_and_action_stream in H.
  destruct (snarf_graph o fuel g) as [[dg| | |nv ne off ind weight mem]|] eqn:Eg;
    try discriminate H.
  - left. apply (snarf_graph_abort_cause o fuel g Hg). rewrite Eg. left. now exists dg.
  - left. apply (snarf_graph_abort_cause o fuel g Hg). rewrite Eg. now right.
  - injection H as <-. contradiction.
  - right. destruct (snarf_actions o fuel a) as [ra|] eqn:Ea; [|discriminate H].
    apply (snarf_actions_abort_cause o fuel a ra Ha Ea).
    destruct ra; injection H as <-; exact Hr.
Qed.

(** [load_graph_and_action_stream] ends the process only for a failure of
    [stat], [xmalloc], [open] or [read] on one of the two files or a size
    that is not a multiple of eight bytes: with the diagnostic of
    [snarf_graph] when that aborts, and with the one of [snarf_actions] when
    the graph has been loaded. It does not return when one of the files ends before the bytes
    of its size have come and no call of [read] fails. A graph file of at
    least three words and an action file of at least two that are read in
    full are loaded, with [nv], [ne] and [naction] taken from their headers
    and the arrays placed behind the headers, whether or not the sizes of
    the files agree with the headers: [action] starts at word 2 of the
    action file. *)
Theorem load_graph_and_action_stream_checks_io_and_alignment_only
        (o : byte_order) (fuel : nat) (g a : snapshot) :
  (forall sz, st_size g = Some sz -> 0 <= sz < 2^63) ->
  (forall sz, st_size a = Some sz -> 0 <= sz < 2^63) ->
  ((exists d, load_graph_and_action_stream o fuel g a = Some (LoadAbort d)) \/
   load_graph_and_action_stream o fuel g a = Some LoadNoMemory ->
   io_failure g \/ io_failure a) /\
  (forall d, snarf_graph o fuel g = Some (Abort d) ->
   load_graph_and_action_stream o fuel g a = Some (LoadAbort d)) /\
  (snarf_graph o fuel g = Some NoMemory ->
   load_graph_and_action_stream o fuel g a = Some LoadNoMemory) /\
  (forall gsz gf, opens g gsz gf -> ends_early gf gsz ->
   load_graph_and_action_stream o fuel g a = None) /\
  (forall gsz gf,
     opens g gsz gf -> read_in_full gf gsz -> (Z.to_nat gsz < fuel)%nat ->
     3 * sizeof_i64 <= gsz ->
     (st_size a = None ->
      load_graph_and_action_stream o fuel g a
      = Some (LoadAbort "Couldn't stat action file")) /\
     (forall asz, st_size a = Some asz -> asz mod sizeof_i64 <> 0 ->
      load_graph_and_action_stream o fuel g a
      = Some (LoadAbort "action file size is not a multiple of sizeof (int64_t)")) /\
     (forall asz, st_size a = Some asz -> asz mod sizeof_i64 = 0 -> has_block a = false ->
      load_graph_and_action_stream o fuel g a = Some LoadNoMemory) /\
     (forall asz, st_size a = Some asz -> asz mod sizeof_i64 = 0 -> has_block a = true ->
      fd a = None ->
      load_graph_and_action_stream o fuel g a
      = Some (LoadAbort "Error opening action file")) /\
     (forall asz af n, opens a asz af -> read_fails_before af asz n -> (n < fuel)%nat ->
      load_graph_and_action_stream o fuel g a
      = Some (LoadAbort "Error reading action file")) /\
     (forall asz af, opens a asz af -> ends_early af asz ->
      load_graph_and_action_stream o fuel g a = None) /\
     (forall asz af,
        opens a asz af -> read_in_full af asz -> (Z.to_nat asz < fuel)%nat ->
        2 * sizeof_i64 <= asz ->
        let gm := native_order gsz (words_read o gsz gf) in
        let am := native_order asz (words_read o asz af) in
        load_graph_and_action_stream o fuel g a =
        Some (LoadedBoth (get gm 1) (get gm 2) 3 (add64 (add64 3 (get gm 1)) 1)
                         (add64 (add64 (add64 3 (get gm 1)) 1) (get gm 2)) gm
                         (get am 1) 2 am))).
Proof.
  intros Hg Ha. split; [now apply load_abort_cause|].
  split; [intros d E; unfold load_graph_and_action_stream; now rewrite E|].
  split; [intros E; unfold load_graph_and_action_stream; now rewrite E|].
  split.
  { intros gsz gf O S. unfold load_graph_and_action_stream.
    now rewrite (snarf_graph_spins o fuel g gsz gf O S). }
  intros gsz gf O R Hfuel H3. unfold load_graph_and_action_stream.
  rewrite (snarf_graph_loaded o fuel g gsz gf O R Hfuel H3).
  split; [intros E; unfold snarf_actions; now rewrite E|].
  split.
  { intros asz E Hm. unfold snarf_actions. rewrite E.
    destruct (Z.eqb_spec (asz mod sizeof_i64) 0); [contradiction | reflexivity]. }
  split; [intros asz E Hm Hb; unfold snarf_actions; now rewrite E, Hm, Hb|].
  split; [intros asz E Hm Hb Ef; unfold snarf_actions; now rewrite E, Hm, Hb, Ef|].
  split.
  { intros asz af n Oa Ra Hn. now rewrite (snarf_actions_read_fails o fuel a asz af n Oa Ra Hn). }
  split.
  { intros asz af Oa Sa. now rewrite (snarf_actions_spins o fuel a asz af Oa Sa). }
  intros asz af Oa Ra Hfa H2.
  now rewrite (snarf_actions_loaded o fuel a asz af Oa Ra Hfa H2).
Qed.

Lemma load_graph_and_action_stream_checks_io_and_alignment_only_witness :
  let g := file_of little_endian [endian_check; 1; 1; 0; 1] [ReadAtMost 7] in
  let a := file_of little_endian [endian_check; 5] [ReadAtMost 3; ReadAtMost 3] in
  load_graph_and_action_stream little_endian 41 g a =
  Some (LoadedBoth 1 1 3 5 6 [endian_check; 1; 1; 0; 1] 5 2 [endian_check; 5]).
Proof.
  cbv zeta.
  destruct (load_graph_and_action_stream_checks_io_and_alignment_only
              little_endian 41
              (file_of little_endian [endian_check; 1; 1; 0; 1] [ReadAtMost 7])
              (file_of little_endian [endian_check; 5] [ReadAtMost 3; ReadAtMost 3]))
    as (_ & _ & _ & _ & H).
  - intros sz E. injection E as <-. vm_compute. split; congruence.
  - intros sz E. injection E as <-. vm_compute. split; congruence.
  - destruct (H 40 {| unread := flat_map (bytes_of_i64 little_endian)
                                         [endian_check; 1; 1; 0; 1];
                      coming := [ReadAtMost 7] |}) as (_ & _ & _ & _ & _ & _ & H').
    + unfold opens. vm_compute. repeat split; congruence.
    + split; [|vm_compute; congruence].
      unfold never_fails. cbn [coming In]. intros [E|[]]. discriminate E.
    + vm_compute. lia.
    + vm_compute. congruence.
    + rewrite (H' 16 {| unread := flat_map (bytes_of_i64 little_endian) [endian_check; 5];
                        coming := [ReadAtMost 3; ReadAtMost 3] |}).
      * vm_compute. reflexivity.
      * unfold opens. vm_compute. repeat split; congruence.
      * split; [|vm_compute; congruence].
        unfold never_fails. cbn [coming In]. intros [E|[E|[]]]; discriminate E.
      * vm_compute. lia.
      * vm_compute. congruence.
Defined.

(** Files written on a machine of either byte order load to the same values
    on a machine of either byte order: when the first word of each file is
    the marker [0x1234ABCD], the graph file has at least the three words of
    its header, the action file at least two, and both are read in full, the
    loader ends with the words as they were written and the counts of the
    headers, whichever machine wrote which file. *)
Theorem load_graph_and_action_stream_either_byte_order
        (o gw aw : byte_order) (fuel : nat) (gwords awords : list Z)
        (gc ac : list read_event) :
  Forall in_i64 gwords -> Forall in_i64 awords ->
  get gwords 0 = endian_check -> get awords 0 = endian_check ->
  3 <= Z.of_nat (length gwords) < 2^60 -> 2 <= Z.of_nat (length awords) < 2^60 ->
  ~ In ReadFails gc -> ~ In ReadFails ac ->
  (8 * length gwords < fuel)%nat -> (8 * length awords < fuel)%nat ->
  load_graph_and_action_stream o fuel (file_of gw gwords gc) (file_of aw awords ac)
  = Some (LoadedBoth (get gwords 1) (get gwords 2) 3 (add64 (add64 3 (get gwords 1)) 1)
                     (add64 (add64 (add64 3 (get gwords 1)) 1) (get gwords 2)) gwords
                     (get awords 1) 2 awords).
Proof.
  intros HFg HFa Hg Ha Lg La Cg Ca Fg Fa. unfold load_graph_and_action_stream.
  rewrite (snarf_graph_loaded o fuel _ _ _ (file_of_opens gw gwords gc ltac:(lia))
                              (file_of_read_in_full gw gwords gc Cg))
    by (unfold sizeof_i64; lia).
  rewrite (snarf_actions_loaded o fuel _ _ _ (file_of_opens aw awords ac ltac:(lia))
                                (file_of_read_in_full aw awords ac Ca))
    by (unfold sizeof_i64; lia).
  rewrite !words_read_file_of by assumption.
  now rewrite !as_read_marker by assumption.
Qed.

Lemma load_graph_and_action_stream_either_byte_order_witness :
  load_graph_and_action_stream
    little_endian 57
    (file_of big_endian [endian_check; 1; 1; 0; 1; 0; 7] [ReadAtMost 20])
    (file_of little_endian [endian_check; 1; 0; 0] [])
  = Some (LoadedBoth 1 1 3 5 6 [endian_check; 1; 1; 0; 1; 0; 7]
                     1 2 [endian_check; 1; 0; 0]).
Proof.
  apply (load_graph_and_action_stream_either_byte_order
           little_endian big_endian little_endian 57
           [endian_check; 1; 1; 0; 1; 0; 7] [endian_check; 1; 0; 0] [ReadAtMost 20] []).
  - repeat (apply Forall_cons; [unfold in_i64, endian_check; lia|]). apply Forall_nil.
  - repeat (apply Forall_cons; [unfold in_i64, endian_check; lia|]). apply Forall_nil.
  - reflexivity.
  - reflexivity.
  - simpl. lia.
  - simpl. lia.
  - cbn [In]. intros [E|[]]. discriminate E.
  - cbn [In]. tauto.
  - simpl. lia.
  - simpl. lia.
Defined.


(** ** Command line parsing ([parse_args]) *)

Lemma arg_app (front l : list String.string) (j : nat) :
  arg (front ++ l) (Z.of_nat (length front) + Z.of_nat j) = nth j l EmptyString.
Proof.
  unfold arg. replace (Z.to_nat (Z.of_nat (length front) + Z.of_nat j))
    with (length front + j)%nat by lia.
  now rewrite app_nth2_plus.
Qed.

Lemma arg_app_0 (front l : list String.string) :
  arg (front ++ l) (Z.of_nat (length front)) = nth 0 l EmptyString.
Proof. rewrite <- (arg_app front l 0). f_equal. lia. Qed.

Lemma arg_app_1 (front l : list String.string) :
  arg (front ++ l) (Z.of_nat (length front) + 1) = nth 1 l EmptyString.
Proof. rewrite <- (arg_app front l 1). f_equal. Qed.

Lemma flag_dispatch (x : option_arg) :
  let w := nth 0 (option_words x) EmptyString in
  dashed w = true /\
  (String.eqb w "--batch" || String.eqb w "-b") = is_batch x /\
  (String.eqb w "--num-batches" || String.eqb w "-n") = is_num_batches x.
Proof. destruct x as [[|] v|[|] v]; repeat split. Qed.

Section ParseArgs.
Variable strtol : String.string -> Z.
Variables batch_size_ptr nbatch_ptr : Z.
Hypothesis Hbatch_size_ptr : 0 < batch_size_ptr.
Hypothesis Hnbatch_ptr : 0 < nbatch_ptr.

(** The loop takes the options with their arguments one after the other. *)
Lemma parse_args_loop_options (opts : list option_arg) :
  forall (front rest argv : list String.string) (fuel : nat)
         (seen_batch seen_nbatch : bool) (a : parsed_args),
    argv = front ++ flat_map option_words opts ++ rest ->
    (if seen_batch then 0 else 1) >= Z.of_nat (length (filter is_batch opts)) ->
    (if seen_nbatch then 0 else 1) >= Z.of_nat (length (filter is_num_batches opts)) ->
    parse_args_loop strtol (length opts + fuel) argv batch_size_ptr nbatch_ptr
                    (Z.of_nat (length front)) seen_batch seen_nbatch a
    = parse_args_loop strtol fuel argv batch_size_ptr nbatch_ptr
                      (Z.of_nat (length front) + 2 * Z.of_nat (length opts))
                      (seen_batch || existsb is_batch opts)
                      (seen_nbatch || existsb is_num_batches opts)
                      (fold_left (store_option strtol) opts a).
Proof.
  induction opts as [|x opts IH]; intros front rest argv fuel sb sn a Eargv Hb Hn.
  - cbn [length fold_left existsb Nat.add]. rewrite !orb_false_r.
    f_equal. lia.
  - cbn [length Nat.add parse_args_loop].
    assert (Eargv' : argv = (front ++ option_words x) ++ flat_map option_words opts ++ rest).
    { rewrite Eargv. cbn [flat_map]. now rewrite <- !app_assoc. }
    assert (Lw : length (option_words x) = 2%nat) by now destruct x.
    assert (Largv : Z.of_nat (length argv) >= Z.of_nat (length front) + 2).
    { rewrite Eargv', !length_app, Lw. lia. }
    assert (A0 : arg argv (Z.of_nat (length front)) = nth 0 (option_words x) EmptyString).
    { rewrite Eargv. cbn [flat_map]. rewrite <- app_assoc, arg_app_0.
      now destruct x. }
    assert (A1 : arg argv (Z.of_nat (length front) + 1) = nth 1 (option_words x) EmptyString).
    { rewrite Eargv. cbn [flat_map]. rewrite <- app_assoc, arg_app_1.
      now destruct x. }
    destruct (flag_dispatch x) as [D [Fb Fn]]. cbv zeta in D, Fb, Fn.
    destruct (Z.ltb_spec (Z.of_nat (length front)) (Z.of_nat (length argv))); [|lia].
    rewrite A0, D, Fb. cbn [andb].
    destruct (Z.geb_spec (Z.of_nat (length front) + 1) (Z.of_nat (length argv))); [lia|].
    destruct (Z.leb_spec batch_size_ptr 0); [lia|].
    destruct (Z.ltb_spec nbatch_ptr 0); [lia|].
    rewrite A1.
    replace (Z.of_nat (length front) + 2 * Z.of_nat (S (length opts)))
      with (Z.of_nat (length (front ++ option_words x)) + 2 * Z.of_nat (length opts))
      by (rewrite length_app, Lw; lia).
    replace (Z.of_nat (length front) + 1 + 1)
      with (Z.of_nat (length (front ++ option_words x)))
      by (rewrite length_app, Lw; lia).
    destruct x as [long v|long v]; cbn [is_batch is_num_batches filter length] in *.
    + destruct sb; [lia|].
      rewrite (IH _ rest argv fuel true sn _ Eargv') by (cbn; lia).
      cbn [fold_left store_option existsb is_batch is_num_batches orb nth option_words].
      reflexivity.
    + rewrite Fn. destruct sn; [lia|].
      rewrite (IH _ rest argv fuel sb true _ Eargv') by (cbn; lia).
      cbn [fold_left store_option existsb is_batch is_num_batches orb nth option_words].
      reflexivity.
Qed.

(** More fuel does not change an outcome. *)
Lemma parse_args_loop_mono (fuel : nat) :
  forall more argv k seen_batch seen_nbatch a r,
    parse_args_loop strtol fuel argv batch_size_ptr nbatch_ptr k seen_batch seen_nbatch a
    = Some r ->
    parse_args_loop strtol (fuel + more) argv batch_size_ptr nbatch_ptr k
                    seen_batch seen_nbatch a = Some r.
Proof.
  induction fuel as [|fuel IH]; intros more argv k sb sn a r E; [discriminate|].
  cbn [Nat.add parse_args_loop] in E |- *.
  repeat match goal with
         | |- context [if ?c then _ else _] => destruct c
         end; try exact E; now apply IH.
Qed.

End ParseArgs.

Lemma option_words_length (opts : list option_arg) :
  length (flat_map option_words opts) = (2 * length opts)%nat.
Proof.
  induction opts as [|x opts IH]; [reflexivity|].
  cbn [flat_map]. rewrite length_app, IH. destruct x; simpl; lia.
Qed.

Lemma store_options_names (strtol : String.string -> Z) (opts : list option_arg)
      (a : parsed_args) :
  initial_graph_name (fold_left (store_option strtol) opts a) = initial_graph_name a /\
  action_stream_name (fold_left (store_option strtol) opts a) = action_stream_name a.
Proof.
  revert a. induction opts as [|x opts IH]; intros a; [now split|].
  cbn [fold_left]. destruct (IH (store_option strtol a x)) as [-> ->].
  now destruct x.
Qed.

(** The loop from its start to the word after the options. *)
Lemma parse_args_loop_start (strtol : String.string -> Z) (batch_size_ptr nbatch_ptr : Z)
      (prog : String.string) (opts : list option_arg) (rest : list String.string)
      (fuel : nat) (a : parsed_args) :
  0 < batch_size_ptr -> 0 < nbatch_ptr -> once_each opts ->
  let argv := prog :: flat_map option_words opts ++ rest in
  parse_args_loop strtol (length opts + fuel) argv batch_size_ptr nbatch_ptr 1 false false a
  = parse_args_loop strtol fuel argv batch_size_ptr nbatch_ptr
                    (Z.of_nat (length (prog :: flat_map option_words opts)))
                    (existsb is_batch opts) (existsb is_num_batches opts)
                    (fold_left (store_option strtol) opts a).
Proof.
  intros Hb Hn [O1 O2]. cbv zeta.
  pose proof (parse_args_loop_options strtol batch_size_ptr nbatch_ptr Hb Hn opts
                [prog] rest _ fuel false false a eq_refl ltac:(lia) ltac:(lia)) as H.
  cbn [app length orb] in H. change (Z.of_nat 1) with 1 in H. rewrite H.
  cbn [length]. rewrite option_words_length. f_equal. lia.
Qed.

(** On a command line made of the program name, the options [--batch] ([-b])
    and [--num-batches] ([-n]) at most once each and each with its argument,
    then [--] or a first name that does not start with a dash, then the
    names, [parse_args] returns: [batch_size] and [nbatch] hold whatever
    [strtol] made of the arguments (zero and negative values too, the tests
    that follow [strtol] being on the pointers), the first two names are the
    names of the graph and of the action stream, further names are ignored,
    and what the command line does not give keeps the caller's value. *)
Theorem parse_args_stores_options_and_names
      (strtol : String.string -> Z) (batch_size_ptr nbatch_ptr : Z)
      (fuel : nat) (prog : String.string) (opts : list option_arg)
      (sep names : list String.string) (a : parsed_args) :
  0 < batch_size_ptr -> 0 < nbatch_ptr -> once_each opts ->
  sep = ["--"%string] \/ (sep = [] /\ dashed (nth 0 names EmptyString) = false) ->
  (length opts < fuel)%nat ->
  let a' := fold_left (store_option strtol) opts a in
  parse_args strtol fuel (prog :: flat_map option_words opts ++ sep ++ names)
             batch_size_ptr nbatch_ptr a
  = Some (Returns {| initial_graph_name := nth 0 names (initial_graph_name a);
                     action_stream_name := nth 1 names (action_stream_name a);
                     batch_size := batch_size a';
                     nbatch := nbatch a' |}).
Proof.
  intros Hb Hn Ho Hsep Hfuel. cbv zeta.
  destruct (store_options_names strtol opts a) as [N1 N2].
  set (a' := fold_left (store_option strtol) opts a) in *.
  set (front := prog :: flat_map option_words opts).
  set (argv := prog :: flat_map option_words opts ++ sep ++ names).
  assert (Eargv : argv = (front ++ sep) ++ names)
    by (unfold argv, front; cbn [app]; now rewrite <- app_assoc).
  assert (Eargv0 : argv = front ++ (sep ++ names)) by (unfold argv, front; reflexivity).
  assert (Largv : length argv = (length front + length sep + length names)%nat)
    by (rewrite Eargv, !length_app; lia).
  assert (Lfront : (1 <= length front)%nat) by (unfold front; simpl; lia).
  unfold parse_args. fold argv.
  destruct (Z.geb_spec 1 (Z.of_nat (length argv))) as [Hshort|Hlong].
  { (* the program name alone *)
    assert (length sep = 0%nat /\ length names = 0%nat) as [Ls Lnames] by lia.
    destruct names; [|discriminate].
    assert (length opts = 0%nat).
    { rewrite Largv in Hshort. unfold front in Hshort. cbn [length] in Hshort.
      rewrite option_words_length in Hshort. lia. }
    destruct opts; [|discriminate]. cbn. now destruct a. }
  replace fuel with (length opts + S (fuel - length opts - 1))%nat by lia.
  unfold argv at 2.
  rewrite (parse_args_loop_start strtol batch_size_ptr nbatch_ptr prog opts (sep ++ names)
             _ a Hb Hn Ho).
  fold front. fold argv. fold a'.
  (* the word that ends the options *)
  assert (Eloop : parse_args_loop strtol (S (fuel - length opts - 1)) argv batch_size_ptr
                    nbatch_ptr (Z.of_nat (length front)) (existsb is_batch opts)
                    (existsb is_num_batches opts) a'
                  = Some (inr (Z.of_nat (length (front ++ sep)), a'))).
  { cbn [parse_args_loop]. destruct Hsep as [->|[-> Hd]].
    - destruct (Z.ltb_spec (Z.of_nat (length front)) (Z.of_nat (length argv)));
        [|rewrite Largv in *; cbn [length] in *; lia].
      rewrite Eargv0, arg_app_0. cbn [app nth]. cbn.
      rewrite length_app. cbn [length]. do 3 f_equal. lia.
    - rewrite app_nil_r. cbn [app] in *.
      destruct (Z.ltb_spec (Z.of_nat (length front)) (Z.of_nat (length argv)));
        [|reflexivity].
      rewrite Eargv0, arg_app_0, Hd. reflexivity. }
  rewrite Eloop.
  (* the names *)
  destruct names as [|n0 [|n1 names]].
  - rewrite Largv, length_app. cbn [length nth].
    destruct (Z.ltb_spec (Z.of_nat (length front + length sep))
                         (Z.of_nat (length front + length sep + 0)%nat)); [lia|].
    destruct (Z.ltb_spec (Z.of_nat (length front + length sep))
                         (Z.of_nat (length front + length sep + 0)%nat)); [lia|].
    rewrite <- N1, <- N2. now destruct a'.
  - rewrite Largv. cbn [length nth].
    destruct (Z.ltb_spec (Z.of_nat (length (front ++ sep)))
                         (Z.of_nat (length front + length sep + 1)%nat));
      [|rewrite length_app in *; lia].
    destruct (Z.ltb_spec (Z.of_nat (length (front ++ sep)) + 1)
                         (Z.of_nat (length front + length sep + 1)%nat));
      [rewrite length_app in *; lia|].
    rewrite Eargv, arg_app_0. cbn [nth]. now rewrite N2.
  - rewrite Largv. cbn [length nth].
    destruct (Z.ltb_spec (Z.of_nat (length (front ++ sep)))
                         (Z.of_nat (length front + length sep + S (S (length names)))%nat));
      [|rewrite length_app in *; lia].
    destruct (Z.ltb_spec (Z.of_nat (length (front ++ sep)) + 1)
                         (Z.of_nat (length front + length sep + S (S (length names)))%nat));
      [|rewrite length_app in *; lia].
    cbn [initial_graph_name action_stream_name batch_size nbatch].
    rewrite Eargv, arg_app_0, arg_app_1. reflexivity.
Qed.

(** The state in which the loop meets the word after the options. *)
Lemma parse_args_at_word (strtol : String.string -> Z) (batch_size_ptr nbatch_ptr : Z)
      (fuel : nat) (prog : String.string) (opts : list option_arg)
      (w : String.string) (rest : list String.string) (a : parsed_args) :
  0 < batch_size_ptr -> 0 < nbatch_ptr -> once_each opts ->
  let argv := prog :: flat_map option_words opts ++ w :: rest in
  let k := Z.of_nat (length (prog :: flat_map option_words opts)) in
  (k <? Z.of_nat (length argv)) = true /\
  arg argv k = w /\
  ((k + 1 >=? Z.of_nat (length argv)) = true <-> rest = []) /\
  (forall r,
      parse_args_loop strtol fuel argv batch_size_ptr nbatch_ptr k
                      (existsb is_batch opts) (existsb is_num_batches opts)
                      (fold_left (store_option strtol) opts a) = Some (inl r) ->
      parse_args strtol (length opts + fuel) argv batch_size_ptr nbatch_ptr a = Some r).
Proof.
  intros Hb Hn Ho. cbv zeta.
  set (front := prog :: flat_map option_words opts).
  set (argv := prog :: flat_map option_words opts ++ w :: rest).
  assert (Eargv : argv = front ++ w :: rest) by reflexivity.
  assert (Largv : length argv = (length front + S (length rest))%nat)
    by (rewrite Eargv, length_app; reflexivity).
  assert (Lfront : (1 <= length front)%nat) by (unfold front; simpl; lia).
  split; [apply Z.ltb_lt; lia|]. split; [rewrite Eargv; apply arg_app_0|]. split.
  - rewrite Largv. destruct rest; cbn [length]; split; intros H;
      try reflexivity; try discriminate.
    + apply Z.geb_le. lia.
    + apply Z.geb_le in H. lia.
  - intros r E. unfold parse_args. fold argv.
    destruct (Z.geb_spec 1 (Z.of_nat (length argv))) as [Hshort|Hlong]; [lia|].
    unfold argv at 2.
    rewrite (parse_args_loop_start strtol batch_size_ptr nbatch_ptr prog opts (w :: rest)
               _ a Hb Hn Ho).
    fold front. fold argv. rewrite E. reflexivity.
Qed.

(** After options given at most once each, [--help], [-h] or [-?] makes
    [parse_args] print the usage on [stdout] and exit with [EXIT_SUCCESS];
    an option given a second time, or an option that is the last word and
    so has no argument, makes it print the usage on [stderr] and exit with
    [EXIT_FAILURE]. *)
Theorem parse_args_exits_on_help_or_misuse
      (strtol : String.string -> Z) (batch_size_ptr nbatch_ptr : Z)
      (fuel : nat) (prog : String.string) (opts : list option_arg)
      (rest : list String.string) (a : parsed_args) :
  0 < batch_size_ptr -> 0 < nbatch_ptr -> once_each opts -> (length opts < fuel)%nat ->
  (forall h, In h ["--help"; "-h"; "-?"]%string ->
             parse_args strtol fuel (prog :: flat_map option_words opts ++ h :: rest)
                        batch_size_ptr nbatch_ptr a
             = Some (Exits stdout EXIT_SUCCESS)) /\
  (forall x,
      existsb (if is_batch x then is_batch else is_num_batches) opts = true \/ rest = [] ->
      parse_args strtol fuel
                 (prog :: flat_map option_words opts
                       ++ nth 0 (option_words x) EmptyString :: rest)
                 batch_size_ptr nbatch_ptr a
      = Some (Exits stderr EXIT_FAILURE)).
Proof.
  intros Hb Hn Ho Hfuel.
  replace fuel with (length opts + S (fuel - length opts - 1))%nat by lia.
  split.
  - intros h Hh.
    destruct (parse_args_at_word strtol batch_size_ptr nbatch_ptr (S (fuel - length opts - 1))
                prog opts h rest a Hb Hn Ho) as (K & A & _ & E).
    cbv zeta in K, A, E. apply E. cbn [parse_args_loop]. rewrite K, A.
    destruct Hh as [<-|[<-|[<-|[]]]]; reflexivity.
  - intros x Hx.
    destruct (parse_args_at_word strtol batch_size_ptr nbatch_ptr (S (fuel - length opts - 1))
                prog opts (nth 0 (option_words x) EmptyString) rest a Hb Hn Ho)
      as (K & A & R & E).
    cbv zeta in K, A, R, E. apply E. cbn [parse_args_loop]. rewrite K, A.
    destruct (flag_dispatch x) as [D [Fb Fn]]. cbv zeta in D, Fb, Fn.
    rewrite D, Fb, Fn. cbn [andb].
    destruct x as [long v|long v]; cbn [is_batch is_num_batches] in *.
    + destruct (existsb is_batch opts); [reflexivity|].
      destruct Hx as [Hx|Hx]; [discriminate|]. apply R in Hx. now rewrite Hx.
    + destruct (existsb is_num_batches opts); [reflexivity|].
      destruct Hx as [Hx|Hx]; [discriminate|]. apply R in Hx. now rewrite Hx.
Qed.

Lemma parse_args_loop_unrecognised (strtol : String.string -> Z)
      (batch_size_ptr nbatch_ptr : Z) (argv : list String.string) (k : Z) (fuel : nat) :
  forall seen_batch seen_nbatch a,
    (k <? Z.of_nat (length argv)) = true -> dashed (arg argv k) = true ->
    ~ In (arg argv k) recognised ->
    parse_args_loop strtol fuel argv batch_size_ptr nbatch_ptr k seen_batch seen_nbatch a
    = None.
Proof.
  induction fuel as [|fuel IH]; intros sb sn a K D N; [reflexivity|].
  cbn [parse_args_loop]. rewrite K, D. cbn [andb].
  assert (F : forall s, In s recognised -> String.eqb (arg argv k) s = false).
  { intros s Hs. apply String.eqb_neq. intros E. apply N. now rewrite E. }
  rewrite !F by (unfold recognised; cbn [In]; tauto).
  cbn [orb]. now apply IH.
Qed.

(** A word that starts with a dash and is none of the eight words the loop
    knows (a mistyped option, a lone dash, a negative number before any
    name) is never passed: after options given at most once each,
    [parse_args] neither returns nor exits. *)
Theorem parse_args_spins_on_unrecognised_option
      (strtol : String.string -> Z) (batch_size_ptr nbatch_ptr : Z)
      (prog : String.string) (opts : list option_arg)
      (w : String.string) (rest : list String.string) (a : parsed_args) :
  0 < batch_size_ptr -> 0 < nbatch_ptr -> once_each opts ->
  dashed w = true -> ~ In w recognised ->
  forall fuel,
    parse_args strtol fuel (prog :: flat_map option_words opts ++ w :: rest)
               batch_size_ptr nbatch_ptr a = None.
Proof.
  intros Hb Hn Ho D N fuel.
  set (argv := prog :: flat_map option_words opts ++ w :: rest).
  destruct (parse_args_at_word strtol batch_size_ptr nbatch_ptr 0
              prog opts w rest a Hb Hn Ho) as (K & A & _ & _).
  cbv zeta in K, A. fold argv in K, A.
  unfold parse_args. fold argv.
  destruct (Z.geb_spec 1 (Z.of_nat (length argv))) as [Hshort|Hlong].
  { apply Z.ltb_lt in K. cbn [length] in K. lia. }
  destruct (parse_args_loop strtol fuel argv batch_size_ptr nbatch_ptr 1 false false a)
    as [r|] eqn:E; [|reflexivity].
  exfalso.
  pose proof (parse_args_loop_mono strtol batch_size_ptr nbatch_ptr fuel (length opts)
                argv 1 false false a r E) as E'.
  replace (fuel + length opts)%nat with (length opts + fuel)%nat in E' by lia.
  unfold argv in E' at 1.
  rewrite (parse_args_loop_start strtol batch_size_ptr nbatch_ptr prog opts (w :: rest)
             _ a Hb Hn Ho) in E'.
  fold argv in E'.
  rewrite parse_args_loop_unrecognised in E'; [discriminate|exact K| |]; now rewrite A.
Qed.

Lemma parse_args_stores_options_and_names_witness :
  parse_args strtol10 3
             ["prog"; "-n"; "0"; "--batch"; "-42"; "g.bin"; "a.bin"; "more"]%string 4096 4104
             {| initial_graph_name := "initial-graph.bin"; action_stream_name := "action-stream.bin";
                batch_size := 3; nbatch := 100 |}
  = Some (Returns {| initial_graph_name := "g.bin"; action_stream_name := "a.bin";
                     batch_size := -42; nbatch := 0 |}).
Proof.
  apply (parse_args_stores_options_and_names strtol10 4096 4104 3 "prog"
           [OptNumBatches false "0"; OptBatch true "-42"] []
           ["g.bin"; "a.bin"; "more"]%string
           {| initial_graph_name := "initial-graph.bin";
              action_stream_name := "action-stream.bin";
              batch_size := 3; nbatch := 100 |}).
  - lia.
  - lia.
  - split; simpl; lia.
  - right. split; reflexivity.
  - simpl. lia.
Defined.

Lemma parse_args_exits_on_help_or_misuse_witness :
  let a := {| initial_graph_name := "initial-graph.bin";
              action_stream_name := "action-stream.bin";
              batch_size := 3; nbatch := 100 |} in
  parse_args strtol10 2 ["prog"; "-b"; "5"; "-?"; "g.bin"]%string 4096 4104 a
  = Some (Exits stdout EXIT_SUCCESS) /\
  parse_args strtol10 2 ["prog"; "-b"; "5"; "--batch"; "g.bin"]%string 4096 4104 a
  = Some (Exits stderr EXIT_FAILURE).
Proof.
  destruct (parse_args_exits_on_help_or_misuse strtol10 4096 4104 2 "prog"
              [OptBatch false "5"] ["g.bin"%string]
              {| initial_graph_name := "initial-graph.bin";
                 action_stream_name := "action-stream.bin";
                 batch_size := 3; nbatch := 100 |}) as [H1 H2].
  - lia.
  - lia.
  - split; simpl; lia.
  - simpl. lia.
  - split.
    + apply (H1 "-?"%string). right. right. now left.
    + apply (H2 (OptBatch true "7")). left. reflexivity.
Defined.

Lemma parse_args_spins_on_unrecognised_option_witness :
  parse_args strtol10 1000 ["prog"; "-b"; "5"; "--verbose"; "g.bin"]%string 4096 4104
             {| initial_graph_name := "initial-graph.bin";
                action_stream_name := "action-stream.bin";
                batch_size := 3; nbatch := 100 |}
  = None.
Proof.
  apply (parse_args_spins_on_unrecognised_option strtol10 4096 4104 "prog"
           [OptBatch false "5"] "--verbose" ["g.bin"%string]).
  - lia.
  - lia.
  - split; simpl; lia.
  - reflexivity.
  - unfold recognised. cbn [In].
    intros [H|[H|[H|[H|[H|[H|[H|[H|[]]]]]]]]]; discriminate H.
Defined.


(** ** The layout of the CSR that [edge_list_to_csr] builds *)

Section EdgeListLayout.
Context {A : Type}.
Variables (sched : list Z) (nv ne : Z) (sv1 : list Z).
Variable body : Z -> csr_arrays -> csr_arrays.
Variable okx : csr_arrays -> Prop.
Variable slot : csr_arrays -> Z -> A.
Variable item : Z -> A.

Hypothesis Hnv : 0 <= nv.
Hypothesis Hne : 0 <= ne < 2^63.
Hypothesis Hsched : Permutation sched (zrange 0 (Z.to_nat ne)).
Hypothesis Hsv : forall i, 0 <= i < ne -> 0 <= get sv1 i < nv.

Hypothesis body_offset : forall i s,
    c_offset (body i s) =
    set (c_offset s) (1 + get sv1 i) (add64 (get (c_offset s) (1 + get sv1 i)) 1).
Hypothesis body_okx : forall i s, okx s -> okx (body i s).
Hypothesis body_slot : forall i s q,
    okx s -> 0 <= get (c_offset s) (1 + get sv1 i) < ne -> 0 <= q < ne ->
    slot (body i s) q = if q =? get (c_offset s) (1 + get sv1 i) then item i else slot s q.

Lemma layout_sched_length : Z.of_nat (length sched) = ne.
Proof. rewrite (Permutation_length Hsched), zrange_length. lia. Qed.

Lemma layout_sched_keys (i : Z) : In i sched -> 0 <= get sv1 i < Z.of_nat (Z.to_nat nv).
Proof.
  intros Hi. apply (Permutation_in _ Hsched) in Hi. apply in_zrange in Hi.
  rewrite Z2Nat.id by lia. apply Hsv. lia.
Qed.

Lemma layout (s0 : csr_arrays) :
  okx s0 -> nv + 2 <= Z.of_nat (length (c_offset s0)) -> get (c_offset s0) 0 = 0 ->
  (forall b, 0 <= b < nv -> get (c_offset s0) (1 + b) = bucket_start (get sv1) sched b) ->
  let s := fold_left (fun st i => body i st) sched s0 in
  okx s /\
  length (c_offset s) = length (c_offset s0) /\
  (forall v, 0 <= v <= nv -> get (c_offset s) v = bucket_start (get sv1) sched v) /\
  (forall v, 0 <= v < nv ->
             map (slot s) (zrange (bucket_start (get sv1) sched v)
                                  (length (filter (fun i => get sv1 i =? v) sched)))
             = map item (filter (fun i => get sv1 i =? v) sched)).
Proof.
  intros Hok Hlen0 H0 Hstart.
  pose proof layout_sched_length as HSL. pose proof layout_sched_keys as HSK.
  pose proof (scatter_result (get sv1) (Z.to_nat nv) sched body
                (fun s => okx s /\ length (c_offset s) = length (c_offset s0) /\
                          get (c_offset s) 0 = 0)
                (fun s b => get (c_offset s) (1 + b)) slot item HSK) as H.
  rewrite HSL in H. rewrite Z2Nat.id in H by lia.
  specialize (H ltac:(
    intros i s Hi [O1 [O2 O3]] Hc;
    rewrite body_offset, set_length;
    repeat split; [now apply body_okx | exact O2 |];
    rewrite get_set_other; [exact O3 | pose proof (HSK i Hi); lia])).
  specialize (H ltac:(
    intros i s b Hi [O1 [O2 O3]] Hc Hb; pose proof (HSK i Hi) as Hk;
    rewrite body_offset, get_set by lia;
    rewrite add64_id by (unfold in_i64; lia);
    destruct (Z.eqb_spec (1 + b) (1 + get sv1 i)), (Z.eqb_spec b (get sv1 i));
      try lia; congruence)).
  specialize (H ltac:(intros i s q Hi [O1 _] Hc Hq; now apply body_slot)).
  specialize (H s0 ltac:(repeat split; assumption) Hstart).
  cbv zeta in H |- *.
  set (s := fold_left (fun st i => body i st) sched s0) in *.
  destruct H as [[O1 [O2 O3]] [Hcur [Hbucket _]]].
  split; [exact O1|]. split; [exact O2|]. split; [|exact Hbucket].
  intros v Hv. destruct (Z.eq_dec v 0) as [->|Hv0].
  - rewrite O3. symmetry. apply bucket_start_zero.
    intros i Hi. apply HSK in Hi. lia.
  - replace v with (1 + (v - 1)) at 1 by lia. rewrite Hcur by lia. f_equal. lia.
Qed.
End EdgeListLayout.

Lemma vertex_slice_of_slots {A : Type} (off a : list Z) (v : Z) (lo : Z) (n : nat)
      (slot : Z -> A) (item : Z -> A) (p : A -> Z) (src : list Z) (l : list Z) :
  get off v = lo -> get off (v + 1) - get off v = Z.of_nat n ->
  map slot (zrange lo n) = map item l ->
  (forall q, p (slot q) = get a q) -> (forall i, p (item i) = get src i) ->
  vertex_slice off a v = map (get src) l.
Proof.
  intros E1 E2 Hm Hs Hi. unfold vertex_slice, slice. rewrite E2, E1, Nat2Z.id.
  transitivity (map p (map slot (zrange lo n))).
  - rewrite map_map. apply map_ext. intros q. now rewrite Hs.
  - rewrite Hm, map_map. apply map_ext. intros i. now rewrite Hi.
Qed.

Lemma edge_list_to_csr_layout_spec
      (sched : list Z) (nv ne : Z) (sv1 ev1 w1 : list Z)
      (timeRecent timeFirst : option (list Z)) (ev2 w2 offset t2 t1 : list Z) :
  0 <= nv -> 0 <= ne < 2^63 ->
  Permutation sched (zrange 0 (Z.to_nat ne)) ->
  nv + 2 <= Z.of_nat (length offset) ->
  ne <= Z.of_nat (length ev2) -> ne <= Z.of_nat (length w2) ->
  (timeRecent <> None -> timeFirst <> None ->
   ne <= Z.of_nat (length t1) /\ ne <= Z.of_nat (length t2)) ->
  (forall i, 0 <= i < ne -> 0 <= get sv1 i < nv) ->
  let r := edge_list_to_csr sched nv ne sv1 ev1 w1 timeRecent timeFirst ev2 w2 offset t2 t1 in
  length (c_offset r) = length offset /\
  length (c_ev2 r) = length ev2 /\ length (c_w2 r) = length w2 /\
  (forall v, 0 <= v <= nv ->
             get (c_offset r) v
             = Z.of_nat (length (filter (fun i => get sv1 i <? v) (zrange 0 (Z.to_nat ne))))) /\
  get (c_offset r) nv = ne /\
  (forall v, 0 <= v < nv ->
             vertex_slice (c_offset r) (c_ev2 r) v = map (get ev1) (edges_from sv1 sched v) /\
             vertex_slice (c_offset r) (c_w2 r) v = map (get w1) (edges_from sv1 sched v)) /\
  timestamps_moved sv1 sched nv timeRecent timeFirst t2 t1 r.
Proof.
  intros Hnv Hne Hsched Hoffset Hev2 Hw2 Ht Hsv. cbv zeta.
  destruct (offset3_spec sched nv ne sv1 ev1 w1 offset Hnv Hne Hsched Hoffset Hsv)
    as [L3 [Z3 G3]].
  rewrite Z2Nat.id in G3 by lia.
  set (offset3 := let offset0 := for_loop 0 (nv + 2) 1 (fun i o => set o i 0) offset in
                  let offset1 := for_loop 0 ne 1
                                   (fun i o => snd (stinger_int64_fetch_add o (2 + get sv1 i) 1))
                                   offset0 in
                  for_loop 1 nv 1
                    (fun i o => set o (2 + i) (add64 (get o (2 + i)) (get o (2 + (i - 1)))))
                    offset1) in *.
  set (s0 := {| c_offset := offset3; c_ev2 := ev2; c_w2 := w2; c_t1 := t1; c_t2 := t2 |}).
  assert (Hstart : forall v, 0 <= v <= nv ->
            bucket_start (get sv1) sched v
            = Z.of_nat (length (filter (fun i => get sv1 i <? v) (zrange 0 (Z.to_nat ne))))).
  { intros v _. now rewrite (bucket_start_perm (get sv1) sched _ v Hsched). }
  assert (Hall : bucket_start (get sv1) sched nv = ne).
  { rewrite (bucket_start_perm (get sv1) sched _ nv Hsched).
    rewrite bucket_start_all; [rewrite zrange_length; lia|].
    intros i Hi. apply in_zrange in Hi. apply Hsv. lia. }
  assert (Hcount : forall v (s : csr_arrays),
            (forall u, 0 <= u <= nv -> get (c_offset s) u = bucket_start (get sv1) sched u) ->
            0 <= v < nv ->
            get (c_offset s) (v + 1) - get (c_offset s) v
            = Z.of_nat (length (filter (fun i => get sv1 i =? v) sched))).
  { intros v s Hoff Hv. rewrite !Hoff by lia. rewrite bucket_start_succ.
    unfold bucket_count. lia. }
  assert (Untimed :
    let r := fold_left (fun st i => move_edge sv1 ev1 w1 i st) sched s0 in
    length (c_offset r) = length offset /\
    length (c_ev2 r) = length ev2 /\ length (c_w2 r) = length w2 /\
    (forall v, 0 <= v <= nv ->
               get (c_offset r) v
               = Z.of_nat (length (filter (fun i => get sv1 i <? v) (zrange 0 (Z.to_nat ne))))) /\
    get (c_offset r) nv = ne /\
    (forall v, 0 <= v < nv ->
               vertex_slice (c_offset r) (c_ev2 r) v = map (get ev1) (edges_from sv1 sched v) /\
               vertex_slice (c_offset r) (c_w2 r) v = map (get w1) (edges_from sv1 sched v)) /\
    c_t1 r = t1 /\ c_t2 r = t2).
  { destruct (layout sched nv ne sv1 (move_edge sv1 ev1 w1)
                (fun s => length (c_ev2 s) = length ev2 /\ length (c_w2 s) = length w2 /\
                          c_t1 s = t1 /\ c_t2 s = t2)
                (fun s q => (get (c_ev2 s) q, get (c_w2 s) q))
                (fun i => (get ev1 i, get w1 i)) Hnv Hne Hsched Hsv) with (s0 := s0)
      as [[K1 [K2 [K3 K4]]] [L [Hoff Hslot]]].
    - reflexivity.
    - intros i s [K1 [K2 [K3 K4]]]. unfold move_edge, stinger_int64_fetch_add.
      cbn [c_ev2 c_w2 c_t1 c_t2 c_offset fst snd]. rewrite !set_length. now repeat split.
    - intros i s q [K1 [K2 _]] Hc Hq. unfold move_edge, stinger_int64_fetch_add.
      cbn [c_ev2 c_w2 c_t1 c_t2 c_offset fst snd]. rewrite !get_set by lia.
      destruct (Z.eqb_spec q (get (c_offset s) (1 + get sv1 i))); reflexivity.
    - now repeat split.
    - cbn. lia.
    - exact Z3.
    - exact G3.
    - cbv zeta in *.
      set (r := fold_left (fun st i => move_edge sv1 ev1 w1 i st) sched s0) in *.
      split; [cbn in L; lia|]. split; [exact K1|]. split; [exact K2|].
      split; [intros v Hv; rewrite Hoff by lia; now apply Hstart|].
      split; [rewrite Hoff by lia; exact Hall|].
      split; [|now split].
      intros v Hv. specialize (Hslot v Hv). split.
      + apply (vertex_slice_of_slots _ _ v _ _ _ _ fst _ _ (Hoff v ltac:(lia))
                 (Hcount v r Hoff Hv) Hslot); reflexivity.
      + apply (vertex_slice_of_slots _ _ v _ _ _ _ snd _ _ (Hoff v ltac:(lia))
                 (Hcount v r Hoff Hv) Hslot); reflexivity. }
  unfold edge_list_to_csr. cbv zeta. fold offset3. fold s0.
  cbv zeta in Untimed. unfold timestamps_moved.
  destruct timeRecent as [tr|], timeFirst as [tf|]; try exact Untimed.
  destruct Ht as [Ht1 Ht2]; [discriminate|discriminate|].
  destruct (layout sched nv ne sv1 (move_edge_timed sv1 ev1 w1 tr tf)
              (fun s => length (c_ev2 s) = length ev2 /\ length (c_w2 s) = length w2 /\
                        length (c_t1 s) = length t1 /\ length (c_t2 s) = length t2)
              (fun s q => (get (c_ev2 s) q, get (c_w2 s) q, get (c_t1 s) q, get (c_t2 s) q))
              (fun i => (get ev1 i, get w1 i, get tf i, get tr i)) Hnv Hne Hsched Hsv)
    with (s0 := s0) as [[K1 [K2 [K3 K4]]] [L [Hoff Hslot]]].
  - reflexivity.
  - intros i s [K1 [K2 [K3 K4]]]. unfold move_edge_timed, stinger_int64_fetch_add.
    cbn [c_ev2 c_w2 c_t1 c_t2 c_offset fst snd]. rewrite !set_length. now repeat split.
  - intros i s q [K1 [K2 [K3 K4]]] Hc Hq. unfold move_edge_timed, stinger_int64_fetch_add.
    cbn [c_ev2 c_w2 c_t1 c_t2 c_offset fst snd]. rewrite !get_set by lia.
    destruct (Z.eqb_spec q (get (c_offset s) (1 + get sv1 i))); reflexivity.
  - now repeat split.
  - cbn. lia.
  - exact Z3.
  - exact G3.
  - cbv zeta in *.
    set (r := fold_left (fun st i => move_edge_timed sv1 ev1 w1 tr tf i st) sched s0) in *.
    split; [cbn in L; lia|]. split; [exact K1|]. split; [exact K2|].
    split; [intros v Hv; rewrite Hoff by lia; now apply Hstart|].
    split; [rewrite Hoff by lia; exact Hall|].
    split.
    + intros v Hv. specialize (Hslot v Hv). split.
      * apply (vertex_slice_of_slots _ _ v _ _ _ _ (fun x => fst (fst (fst x))) _ _
                 (Hoff v ltac:(lia)) (Hcount v r Hoff Hv) Hslot); reflexivity.
      * apply (vertex_slice_of_slots _ _ v _ _ _ _ (fun x => snd (fst (fst x))) _ _
                 (Hoff v ltac:(lia)) (Hcount v r Hoff Hv) Hslot); reflexivity.
    + intros v Hv. specialize (Hslot v Hv). split.
      * apply (vertex_slice_of_slots _ _ v _ _ _ _ (fun x => snd (fst x)) _ _
                 (Hoff v ltac:(lia)) (Hcount v r Hoff Hv) Hslot); reflexivity.
      * apply (vertex_slice_of_slots _ _ v _ _ _ _ snd _ _
                 (Hoff v ltac:(lia)) (Hcount v r Hoff Hv) Hslot); reflexivity.
Qed.

(** For every edge list with sources below [nv] and in whatever order the
    iterations of the parallel loop claim their cells, [edge_list_to_csr]
    leaves in [offset[v]] the number of edges whose source is below [v]
    (so [offset[0] = 0] and [offset[nv] = ne]), and in the slice of every
    vertex the destinations and the weights of its edges, one edge per
    cell, in the order in which the iterations claimed the cells: in the
    order of the edge list when the loop runs serially. With both timestamp
    arrays the timestamps stand in the cells of their edges; otherwise [t1]
    and [t2] are not written. *)
Theorem edge_list_to_csr_layout
        (sched : list Z) (nv ne : Z) (sv1 ev1 w1 : list Z)
        (timeRecent timeFirst : option (list Z)) (ev2 w2 offset t2 t1 : list Z) :
  0 <= nv -> 0 <= ne < 2^63 ->
  Permutation sched (zrange 0 (Z.to_nat ne)) ->
  nv + 2 <= Z.of_nat (length offset) ->
  ne <= Z.of_nat (length ev2) -> ne <= Z.of_nat (length w2) ->
  (timeRecent <> None -> timeFirst <> None ->
   ne <= Z.of_nat (length t1) /\ ne <= Z.of_nat (length t2)) ->
  (forall i, 0 <= i < ne -> 0 <= get sv1 i < nv) ->
  let r := edge_list_to_csr sched nv ne sv1 ev1 w1 timeRecent timeFirst ev2 w2 offset t2 t1 in
  length (c_offset r) = length offset /\
  length (c_ev2 r) = length ev2 /\ length (c_w2 r) = length w2 /\
  (forall v, 0 <= v <= nv ->
             get (c_offset r) v
             = Z.of_nat (length (filter (fun i => get sv1 i <? v) (zrange 0 (Z.to_nat ne))))) /\
  get (c_offset r) nv = ne /\
  (forall v, 0 <= v < nv ->
             vertex_slice (c_offset r) (c_ev2 r) v = map (get ev1) (edges_from sv1 sched v) /\
             vertex_slice (c_offset r) (c_w2 r) v = map (get w1) (edges_from sv1 sched v)) /\
  timestamps_moved sv1 sched nv timeRecent timeFirst t2 t1 r.
Proof.
  exact (edge_list_to_csr_layout_spec sched nv ne sv1 ev1 w1 timeRecent timeFirst
           ev2 w2 offset t2 t1).
Qed.

Lemma edge_list_to_csr_layout_witness :
  let sv1 := [2; 0; 2; 1; 0] in
  let sched := [4; 2; 0; 3; 1] in
  let r := edge_list_to_csr sched 3 5 sv1 [1; 1; 0; 0; 2]
             [100; 101; 102; 103; 104] (Some [20; 21; 22; 23; 24]) (Some [10; 11; 12; 13; 14])
             [0; 0; 0; 0; 0] [0; 0; 0; 0; 0] [9; 9; 9; 9; 9] [0; 0; 0; 0; 0] [0; 0; 0; 0; 0] in
  c_offset r = [0; 2; 3; 5; 5] /\
  get (c_offset r) 3 = 5 /\
  (forall v, 0 <= v < 3 ->
             vertex_slice (c_offset r) (c_ev2 r) v
             = map (get [1; 1; 0; 0; 2]) (edges_from sv1 sched v) /\
             vertex_slice (c_offset r) (c_w2 r) v
             = map (get [100; 101; 102; 103; 104]) (edges_from sv1 sched v)) /\
  timestamps_moved sv1 sched 3 (Some [20; 21; 22; 23; 24]) (Some [10; 11; 12; 13; 14])
                   [0; 0; 0; 0; 0] [0; 0; 0; 0; 0] r.
Proof.
  cbv zeta. split; [vm_compute; reflexivity|].
  destruct (edge_list_to_csr_layout [4; 2; 0; 3; 1] 3 5 [2; 0; 2; 1; 0] [1; 1; 0; 0; 2]
              [100; 101; 102; 103; 104] (Some [20; 21; 22; 23; 24])
              (Some [10; 11; 12; 13; 14])
              [0; 0; 0; 0; 0] [0; 0; 0; 0; 0] [9; 9; 9; 9; 9] [0; 0; 0; 0; 0] [0; 0; 0; 0; 0])
    as (_ & _ & _ & _ & H1 & H2 & H3).
  - lia.
  - lia.
  - vm_compute.
    apply (perm_trans (l' := [0; 4; 2; 3; 1])).
    + apply (Permutation_app_swap_app [4; 2] [0] [3; 1]).
    + constructor.
      apply (perm_trans (l' := [1; 4; 2; 3])).
      * apply (Permutation_app_comm [4; 2; 3] [1]).
      * constructor. apply (perm_trans (l' := [2; 4; 3])).
        -- apply (Permutation_app_swap_app [4] [2] [3]).
        -- constructor. apply perm_swap.
  - simpl. lia.
  - simpl. lia.
  - simpl. lia.
  - intros _ _. simpl. lia.
  - intros i Hi.
    assert (E : i = 0 \/ i = 1 \/ i = 2 \/ i = 3 \/ i = 4) by lia.
    destruct E as [-> | [-> | [-> | [-> | ->]]]]; vm_compute; split; congruence.
  - split; [exact H1|]. split; [exact H2 | exact H3].
Defined.

(** ** From an edge list to the arrays of the initial graph
    ([edge_list_to_stinger]) *)

Lemma edge_list_to_stinger_arrays_spec
      (sched : list Z) (nv ne : Z) (sv ev w : list Z)
      (timeRecent timeFirst : option (list Z)) :
  0 <= nv -> 0 <= ne < 2^63 ->
  Permutation sched (zrange 0 (Z.to_nat ne)) ->
  (forall i, 0 <= i < ne -> 0 <= get sv i < nv) ->
  let r := edge_list_to_stinger_arrays sched nv ne sv ev w timeRecent timeFirst in
  Z.of_nat (length (ie_off r)) = nv + 2 /\
  Z.of_nat (length (ie_ind r)) = ne /\ Z.of_nat (length (ie_weight r)) = ne /\
  (forall v, 0 <= v <= nv ->
             get (ie_off r) v
             = Z.of_nat (length (filter (fun i => get sv i <? v) (zrange 0 (Z.to_nat ne))))) /\
  (forall v, 0 <= v < nv ->
             vertex_slice (ie_off r) (ie_ind r) v = map (get ev) (edges_from sv sched v) /\
             vertex_slice (ie_off r) (ie_weight r) v = map (get w) (edges_from sv sched v)) /\
  stamped sv sched nv timeRecent timeFirst r.
Proof.
  intros Hnv Hne Hsched Hsv. cbv zeta.
  assert (Lx : forall m, 0 <= m -> Z.of_nat (length (xmalloc m)) = m)
    by (intros m Hm; unfold xmalloc; rewrite repeat_length; lia).
  assert (G : forall tr tf t2 t1,
             (tr <> None -> tf <> None ->
              ne <= Z.of_nat (length t1) /\ ne <= Z.of_nat (length t2)) ->
             let r := edge_list_to_csr sched nv ne sv ev w tr tf (xmalloc ne) (xmalloc ne)
                        (xmalloc (nv + 2)) t2 t1 in
             Z.of_nat (length (c_offset r)) = nv + 2 /\
             Z.of_nat (length (c_ev2 r)) = ne /\ Z.of_nat (length (c_w2 r)) = ne /\
             (forall v, 0 <= v <= nv ->
                        get (c_offset r) v
                        = Z.of_nat (length (filter (fun i => get sv i <? v)
                                                   (zrange 0 (Z.to_nat ne))))) /\
             (forall v, 0 <= v < nv ->
                        vertex_slice (c_offset r) (c_ev2 r) v
                        = map (get ev) (edges_from sv sched v) /\
                        vertex_slice (c_offset r) (c_w2 r) v
                        = map (get w) (edges_from sv sched v)) /\
             timestamps_moved sv sched nv tr tf t2 t1 r).
  { intros tr tf t2 t1 Ht.
    destruct (edge_list_to_csr_layout_spec sched nv ne sv ev w tr tf (xmalloc ne) (xmalloc ne)
                (xmalloc (nv + 2)) t2 t1 Hnv Hne Hsched
                ltac:(rewrite Lx; lia) ltac:(rewrite Lx; lia) ltac:(rewrite Lx; lia) Ht Hsv)
      as (L1 & L2 & L3 & Ho & _ & Hs & Ht').
    cbv zeta. split; [rewrite L1; apply Lx; lia|]. split; [rewrite L2; apply Lx; lia|].
    split; [rewrite L3; apply Lx; lia|]. split; [exact Ho|]. split; [exact Hs | exact Ht']. }
  unfold edge_list_to_stinger_arrays, stamped.
  destruct timeRecent as [tr|], timeFirst as [tf|]; cbv zeta beta iota.
  - destruct (G (Some tr) (Some tf) (xmalloc ne) (xmalloc ne)
                ltac:(intros _ _; rewrite Lx; lia)) as (L1 & L2 & L3 & Ho & Hs & Ht).
    cbn [ie_off ie_ind ie_weight ie_t1 ie_t2].
    repeat (split; [assumption|]). eexists _, _. split; [reflexivity|].
    split; [reflexivity|]. exact Ht.
  - destruct (G (Some tr) (Some tr) (xmalloc ne) (xmalloc ne)
                ltac:(intros _ _; rewrite Lx; lia)) as (L1 & L2 & L3 & Ho & Hs & Ht).
    cbn [ie_off ie_ind ie_weight ie_t1 ie_t2].
    repeat (split; [assumption|]). eexists _, _. split; [reflexivity|].
    split; [reflexivity|]. exact Ht.
  - destruct (G (Some tf) (Some tf) (xmalloc ne) (xmalloc ne)
                ltac:(intros _ _; rewrite Lx; lia)) as (L1 & L2 & L3 & Ho & Hs & Ht).
    cbn [ie_off ie_ind ie_weight ie_t1 ie_t2].
    repeat (split; [assumption|]). eexists _, _. split; [reflexivity|].
    split; [reflexivity|]. exact Ht.
  - destruct (G None None [] [] ltac:(intros H; now elim H))
      as (L1 & L2 & L3 & Ho & Hs & Ht).
    cbn [ie_off ie_ind ie_weight ie_t1 ie_t2].
    repeat (split; [assumption|]). now split.
Qed.

(** The arrays [edge_list_to_stinger] builds for [stinger_set_initial_edges]
    are a CSR of the edge list, for every edge list with sources below [nv]
    (the byte counts of the allocations fitting [size_t]): [off] has
    [nv + 2] cells and counts the edges of the vertices before each vertex,
    [ind] and [weight] have [ne] cells and hold, in the slice of each
    vertex, the destinations and weights of its edges. With both timestamp
    arrays, [t1] holds the first and [t2] the recent timestamps of the
    edges; with one array only, both hold its timestamps; with none, both
    are [NULL]. *)
Theorem edge_list_to_stinger_arrays_are_csr
        (sched : list Z) (nv ne : Z) (sv ev w : list Z)
        (timeRecent timeFirst : option (list Z)) :
  0 <= nv < 2^60 -> 0 <= ne < 2^60 ->
  Permutation sched (zrange 0 (Z.to_nat ne)) ->
  (forall i, 0 <= i < ne -> 0 <= get sv i < nv) ->
  let r := edge_list_to_stinger_arrays sched nv ne sv ev w timeRecent timeFirst in
  Z.of_nat (length (ie_off r)) = nv + 2 /\
  Z.of_nat (length (ie_ind r)) = ne /\ Z.of_nat (length (ie_weight r)) = ne /\
  (forall v, 0 <= v <= nv ->
             get (ie_off r) v
             = Z.of_nat (length (filter (fun i => get sv i <? v) (zrange 0 (Z.to_nat ne))))) /\
  (forall v, 0 <= v < nv ->
             vertex_slice (ie_off r) (ie_ind r) v = map (get ev) (edges_from sv sched v) /\
             vertex_slice (ie_off r) (ie_weight r) v = map (get w) (edges_from sv sched v)) /\
  stamped sv sched nv timeRecent timeFirst r.
Proof.
  intros Hnv Hne.
  apply (edge_list_to_stinger_arrays_spec sched nv ne sv ev w timeRecent timeFirst); lia.
Qed.

Lemma edge_list_to_stinger_arrays_are_csr_witness :
  let sv := [2; 0; 2; 1; 0] in
  let sched := [0; 1; 2; 3; 4] in
  let r := edge_list_to_stinger_arrays sched 3 5 sv [1; 1; 0; 0; 2]
             [100; 101; 102; 103; 104] (Some [20; 21; 22; 23; 24]) None in
  r = {| ie_off := [0; 2; 3; 5; 5]; ie_ind := [1; 2; 0; 1; 0];
         ie_weight := [101; 104; 103; 100; 102];
         ie_t2 := Some [21; 24; 23; 20; 22]; ie_t1 := Some [21; 24; 23; 20; 22] |} /\
  (forall v, 0 <= v < 3 ->
             vertex_slice (ie_off r) (ie_ind r) v
             = map (get [1; 1; 0; 0; 2]) (edges_from sv sched v) /\
             vertex_slice (ie_off r) (ie_weight r) v
             = map (get [100; 101; 102; 103; 104]) (edges_from sv sched v)) /\
  stamped sv sched 3 (Some [20; 21; 22; 23; 24]) None r.
Proof.
  cbv zeta. split; [vm_compute; reflexivity|].
  destruct (edge_list_to_stinger_arrays_are_csr [0; 1; 2; 3; 4] 3 5 [2; 0; 2; 1; 0]
              [1; 1; 0; 0; 2] [100; 101; 102; 103; 104] (Some [20; 21; 22; 23; 24]) None)
    as (_ & _ & _ & _ & H1 & H2).
  - lia.
  - lia.
  - vm_compute. apply Permutation_refl.
  - intros i Hi.
    assert (E : i = 0 \/ i = 1 \/ i = 2 \/ i = 3 \/ i = 4) by lia.
    destruct E as [-> | [-> | [-> | [-> | ->]]]]; vm_compute; split; congruence.
  - split; [exact H1 | exact H2].
Defined.


(** ** Storage order in [stinger_to_unsorted_csr] *)

Lemma gathered_vertex_slice (G : stinger) (f : live_edge -> Z) (nv total : Z)
      (off a : list Z) :
  0 <= nv ->
  (forall v, (v <= Z.to_nat nv)%nat -> get off (Z.of_nat v) = degree_sum G v) ->
  gathered_below G f total (Z.to_nat nv) a ->
  Z.of_nat (length a) = total /\
  forall v, 0 <= v < nv -> vertex_slice off a v = map f (G v).
Proof.
  intros Hnv Hoff [L H]. split; [exact L|]. intros v Hv.
  unfold vertex_slice.
  replace v with (Z.of_nat (Z.to_nat v)) at 1 2 3 by lia.
  replace (Z.of_nat (Z.to_nat v) + 1) with (Z.of_nat (S (Z.to_nat v))) by lia.
  rewrite !Hoff by lia. cbn [degree_sum]. unfold stinger_outdegree_get.
  replace (degree_sum G (Z.to_nat v) + Z.of_nat (length (G (Z.of_nat (Z.to_nat v))))
           - degree_sum G (Z.to_nat v))
    with (Z.of_nat (length (G (Z.of_nat (Z.to_nat v))))) by lia.
  rewrite Nat2Z.id, (H (Z.to_nat v)) by lia. now rewrite Z2Nat.id by lia.
Qed.

Lemma opt_gathered_output (G : stinger) (f : live_edge -> Z) (nv total : Z)
      (off : list Z) (wanted : bool) (m : option (list Z)) :
  0 <= nv ->
  (forall v, (v <= Z.to_nat nv)%nat -> get off (Z.of_nat v) = degree_sum G v) ->
  opt_gathered_below G f total (Z.to_nat nv) wanted m ->
  output_holds G nv total off f wanted m.
Proof.
  intros Hnv Hoff. destruct m as [a|]; cbn; [|tauto].
  intros [W H]. split; [exact W|]. now apply (gathered_vertex_slice G f nv total off a).
Qed.

(** [stinger_to_unsorted_csr] lays the live out-edges of the vertices below
    [nv] out vertex after vertex: [off[v]] is the number of edges of the
    vertices before [v], and the slice of [v] holds in [ind] the neighbors
    of its edges in the order in which the store holds them; every output
    that is asked for holds the weights, the time stamps or the types in the
    same cells, and an output that is not asked for is not allocated. *)
Theorem stinger_to_unsorted_csr_storage_order (G : stinger) (nv : Z)
        (weight_out timefirst_out timerecent_out type_out : bool) :
  0 <= nv -> degree_sum G (Z.to_nat nv) < 2^63 ->
  let total := degree_sum G (Z.to_nat nv) in
  let c := stinger_to_unsorted_csr G nv weight_out timefirst_out timerecent_out type_out in
  (forall v, (v <= Z.to_nat nv)%nat -> get (s_off c) (Z.of_nat v) = degree_sum G v) /\
  Z.of_nat (length (s_ind c)) = total /\
  (forall v, 0 <= v < nv -> vertex_slice (s_off c) (s_ind c) v = map e_neighbor (G v)) /\
  output_holds G nv total (s_off c) e_weight weight_out (s_weight c) /\
  output_holds G nv total (s_off c) e_timeFirst timefirst_out (s_timefirst c) /\
  output_holds G nv total (s_off c) e_timeRecent timerecent_out (s_timerecent c) /\
  output_holds G nv total (s_off c) e_type type_out (s_type c).
Proof.
  intros Hnv Hsum.
  destruct (stinger_to_unsorted_csr_spec G nv weight_out timefirst_out timerecent_out
              type_out Hnv Hsum) as (Hoff & Hi & Hw & Hf & Hr & Ht).
  cbv zeta in *.
  destruct (gathered_vertex_slice G e_neighbor nv _ _ _ Hnv Hoff Hi) as [L Hs].
  split; [exact Hoff|]. split; [exact L|]. split; [exact Hs|].
  repeat split; now apply opt_gathered_output.
Qed.

Lemma stinger_to_unsorted_csr_storage_order_witness :
  let G := one_vertex [7; 0; 3] in
  let total := degree_sum G (Z.to_nat 1) in
  let c := stinger_to_unsorted_csr G 1 true false false true in
  s_ind c = [7; 0; 3] /\ s_weight c = Some [100; 101; 102] /\ s_timefirst c = None /\
  (forall v, (v <= Z.to_nat 1)%nat -> get (s_off c) (Z.of_nat v) = degree_sum G v) /\
  Z.of_nat (length (s_ind c)) = total /\
  (forall v, 0 <= v < 1 -> vertex_slice (s_off c) (s_ind c) v = map e_neighbor (G v)) /\
  output_holds G 1 total (s_off c) e_weight true (s_weight c) /\
  output_holds G 1 total (s_off c) e_timeFirst false (s_timefirst c) /\
  output_holds G 1 total (s_off c) e_timeRecent false (s_timerecent c) /\
  output_holds G 1 total (s_off c) e_type true (s_type c).
Proof.
  intros G total c.
  split; [vm_compute; reflexivity|]. split; [vm_compute; reflexivity|].
  split; [vm_compute; reflexivity|].
  apply (stinger_to_unsorted_csr_storage_order G 1 true false false true).
  - lia.
  - vm_compute. reflexivity.
Defined.

(** ** The edges a sort of an edge list keeps *)

Lemma filter_permutation {A : Type} (f : A -> bool) (l l' : list A) :
  Permutation l l' -> Permutation (filter f l) (filter f l').
Proof.
  induction 1 as [|x l l' _ IH|x y l|l l' l'' _ IH1 _ IH2]; cbn [filter].
  - apply perm_nil.
  - destruct (f x); [now apply perm_skip | exact IH].
  - destruct (f x), (f y); try apply Permutation_refl. apply perm_swap.
  - exact (perm_trans IH1 IH2).
Qed.

(** The cached [numEdges] of the blocks of a chain add up to the number of
    live slots of the chain. *)
Lemma numEdges_sum (E : Z) (p : list stinger_eb) (bs : list Z) :
  (forall b, In b bs -> cached_ok E (eb_at p b)) ->
  sum_list (map (fun b => numEdges (eb_at p b)) bs)
  = Z.of_nat (length (filter live (chain_edges p bs))).
Proof.
  unfold chain_edges. induction bs as [|b bs IH]; intros H; [reflexivity|].
  cbn [map sum_list flat_map]. rewrite filter_app, length_app, IH
    by (intros k Hk; apply H; now right).
  destruct (H b (or_introl eq_refl)) as [Hn _]. rewrite Hn. lia.
Qed.

(** On a well-formed chain [stinger_sort_edge_list] neither loses nor
    invents an edge: the live slots of the chain afterwards are, each with
    its weight and its time stamps, the slots that before held an edge
    (neighbor not negative) and were not all zero, and the [numEdges] of
    the blocks add up to their number. A slot whose four fields are zero is
    taken for unused and made a tombstone: an edge to vertex 0 with weight 0
    and time stamps 0 is removed. *)
Theorem stinger_sort_edge_list_keeps_edges (E : Z) (fuel : nat) (vertices : Z -> Z)
      (p : list stinger_eb) (srcvtx type : Z) (pre bs : list Z) :
  1 <= E < 2^62 ->
  type_chain E p (vertices srcvtx) type pre bs ->
  (length pre + length bs + inversions (chain_neighbors p bs) < fuel)%nat ->
  exists p',
    stinger_sort_edge_list E fuel vertices p srcvtx type = Some p' /\
    Permutation (chain_edges p' bs) (map entomb (chain_edges p bs)) /\
    Permutation (filter live (chain_edges p' bs)) (filter counted (chain_edges p bs)) /\
    sum_list (map (fun b => numEdges (eb_at p' b)) bs)
    = Z.of_nat (length (filter counted (chain_edges p bs))).
Proof.
  intros HE Hc Hfuel.
  destruct (stinger_sort_edge_list_spec E fuel vertices p srcvtx type pre bs HE Hc Hfuel)
    as (p' & sorted & Es & _ & P & _ & Ed & Hcached).
  exists p'. split; [exact Es|].
  assert (P2 : Permutation (filter live (chain_edges p' bs))
                           (filter counted (chain_edges p bs))).
  { rewrite Ed, filter_live_entomb. now apply filter_permutation. }
  split; [rewrite Ed; now apply Permutation_map|]. split; [exact P2|].
  rewrite (numEdges_sum E p' bs Hcached). f_equal. now apply Permutation_length.
Qed.

Lemma stinger_sort_edge_list_keeps_edges_witness :
  exists p',
    stinger_sort_edge_list 4 20 (fun _ => 2) example_pool 0 0 = Some p' /\
    Permutation (chain_edges p' [1; 3]) (map entomb (chain_edges example_pool [1; 3])) /\
    Permutation (filter live (chain_edges p' [1; 3]))
                (filter counted (chain_edges example_pool [1; 3])) /\
    sum_list (map (fun b => numEdges (eb_at p' b)) [1; 3])
    = Z.of_nat (length (filter counted (chain_edges example_pool [1; 3]))).
Proof.
  apply (stinger_sort_edge_list_keeps_edges 4 20 (fun _ => 2) example_pool 0 0 [2] [1; 3]).
  - lia.
  - exact example_pool_chain.
  - vm_compute. lia.
Defined.


(** ** A chain that is already in order *)

Section SortedRounds.
Variable E : Z.
Variable type : Z.
Variable bs : list Z.
Variable start stop : Z.
Hypothesis HE : 1 <= E.
Hypothesis Hnodup : NoDup bs.

(** On slots in ascending order the first round exchanges nothing and is
    the last. *)
Lemma sort_rounds_sorted (fuel rounds : nat) (p : list stinger_eb) :
  (length bs < fuel)%nat ->
  run_ok E type bs start stop p ->
  Sorted Z.le (chain_neighbors p bs) ->
  exists p',
    sort_rounds E fuel (S rounds) type start p = Some p' /\
    frame bs p p' /\
    chain_edges p' bs = chain_edges p bs.
Proof.
  intros Hfuel Hok Hsorted. cbn [sort_rounds].
  assert (Hstart : start = nth 0 (bs ++ [stop]) 0).
  { destruct Hok as (Hl & _). now destruct (linked_next stop p start bs Hl). }
  rewrite Hstart.
  destruct (while_blocks_sim E type bs start stop HE Hnodup 1 (length bs) ltac:(lia)
                             O p true fuel eq_refl Hfuel Hok)
    as (st1 & W1 & F1 & E1 & S1).
  rewrite W1.
  assert (Hok1 : run_ok E type bs start stop (fst st1))
    by (apply (run_ok_frame E type bs start stop p); assumption).
  destruct st1 as [p1 s1]. cbn [fst snd] in *.
  destruct (while_blocks_sim E type bs start stop HE Hnodup 0 (length bs) ltac:(lia)
                             O p1 s1 fuel eq_refl Hfuel Hok1)
    as (st2 & W2 & F2 & E2 & S2).
  rewrite W2. destruct st2 as [p2 s2]. cbn [fst snd] in *.
  pose proof (exchange_all_spec (pass_slots E 1 0 (length bs)) (chain_edges p bs) true)
    as (P1 & I1 & T1 & D1).
  cbv zeta in P1, I1, T1, D1. rewrite <- E1, <- S1 in *.
  pose proof (exchange_all_spec (pass_slots E 0 0 (length bs)) (chain_edges p1 bs) s1)
    as (P2 & I2 & T2 & D2).
  cbv zeta in P2, I2, T2, D2. rewrite <- E2, <- S2 in *.
  clear W1 W2 E1 S1 E2 S2.
  pose proof (inversions_sorted _ Hsorted) as Hz. unfold chain_neighbors in Hz.
  assert (Hs1 : s1 = true).
  { destruct s1; [reflexivity|]. specialize (D1 eq_refl eq_refl). lia. }
  subst s1. destruct (T1 eq_refl) as (_ & El1 & _).
  assert (Hs2 : s2 = true).
  { destruct s2; [reflexivity|]. specialize (D2 eq_refl eq_refl). rewrite El1 in D2. lia. }
  subst s2. destruct (T2 eq_refl) as (_ & El2 & _).
  exists p2. split; [reflexivity|]. split; [exact (frame_trans bs p p1 p2 F1 F2)|].
  now rewrite El2, El1.
Qed.
End SortedRounds.

(** On a chain whose neighbors are already in ascending order
    [stinger_sort_edge_list] moves no slot: one round finds nothing to
    exchange, so slots with equal neighbors keep their order, and the fuel
    of the blocks alone is enough. The last loop still makes the slots that
    are all zero tombstones and computes the cached fields again. *)
Theorem stinger_sort_edge_list_leaves_sorted_chain (E : Z) (fuel : nat) (vertices : Z -> Z)
      (p : list stinger_eb) (srcvtx type : Z) (pre bs : list Z) :
  1 <= E < 2^62 ->
  type_chain E p (vertices srcvtx) type pre bs ->
  Sorted Z.le (chain_neighbors p bs) ->
  (length pre + length bs < fuel)%nat ->
  exists p',
    stinger_sort_edge_list E fuel vertices p srcvtx type = Some p' /\
    frame bs p p' /\
    chain_edges p' bs = map entomb (chain_edges p bs) /\
    (forall b, In b bs -> cached_ok E (eb_at p' b)).
Proof.
  intros HE Hc Hsorted Hfuel.
  pose proof Hc as [(start & stop & L1 & L2 & Hs & Ht) Hpre Hty Hnd].
  assert (Hok : run_ok E type bs start stop p) by (split; [|split]; assumption).
  unfold stinger_sort_edge_list, stinger_vertex_edges_get.
  rewrite (find_start_spec p type pre (vertices srcvtx) start fuel L1 Hpre Hs ltac:(lia)).
  destruct fuel as [|rounds]; [lia|].
  destruct (sort_rounds_sorted E type bs start stop ltac:(lia) Hnd (S rounds) rounds p
              ltac:(lia) Hok Hsorted) as (p1 & Er & F1 & E1).
  rewrite Er.
  assert (Hok1 : run_ok E type bs start stop p1)
    by (apply (run_ok_frame E type bs start stop p); assumption).
  assert (Hstart : start = nth 0 (bs ++ [stop]) 0)
    by (now destruct (linked_next stop p start bs L2)).
  rewrite Hstart.
  destruct (summary_loop E type bs start stop HE Hnd (length bs) O p1 (S rounds) eq_refl
                         ltac:(lia) Hok1)
    as (p' & Ew & F2 & _ & S2).
  cbn [skipn] in S2.
  exists p'. split; [exact Ew|].
  split; [exact (frame_trans bs p p1 p' F1 F2)|].
  split.
  - rewrite <- E1. unfold chain_edges. rewrite map_flat_map. apply flat_map_ext_in.
    intros b Hb. destruct (S2 b Hb) as (_ & _ & Ed & _). exact Ed.
  - intros b Hb. destruct (S2 b Hb) as (_ & _ & _ & Hcached). exact Hcached.
Qed.

Lemma sorted_pool_chain : type_chain 2 sorted_pool 1 0 [] [1; 2].
Proof.
  split.
  - exists 1, 0. cbn. repeat split; auto.
  - apply Forall_nil.
  - apply Forall_cons; [|apply Forall_cons; [|apply Forall_nil]];
      repeat split; vm_compute; reflexivity.
  - apply NoDup_cons; [|apply NoDup_cons; [|apply NoDup_nil]]; cbn; intuition lia.
Qed.

Lemma stinger_sort_edge_list_leaves_sorted_chain_witness :
  exists p',
    stinger_sort_edge_list 2 3 (fun _ => 1) sorted_pool 0 0 = Some p' /\
    frame [1; 2] sorted_pool p' /\
    chain_edges p' [1; 2] = map entomb (chain_edges sorted_pool [1; 2]) /\
    (forall b, In b [1; 2] -> cached_ok 2 (eb_at p' b)).
Proof.
  apply (stinger_sort_edge_list_leaves_sorted_chain 2 3 (fun _ => 1) sorted_pool 0 0 []
           [1; 2]).
  - lia.
  - exact sorted_pool_chain.
  - change (chain_neighbors sorted_pool [1; 2]) with [1; 3; 3; 8].
    repeat (apply Sorted_cons; [|first [apply HdRel_nil | apply HdRel_cons; lia]]).
    apply Sorted_nil.
  - simpl. lia.
Defined.


(** ** [counting_sort] and [qsort] *)

(** What [counting_sort] returns: the keys, as a counting sort emits them,
    before the cells that follow the first [num]. *)
Lemma counting_sort_result (array : list Z) (num size : Z) :
  1 <= num -> 1 <= size ->
  num * size <= Z.of_nat (length array) < 2^63 ->
  Forall (fun x => INT64_MIN <= x < INT64_MAX) (strided_keys array num size) ->
  (forall a b, In a (strided_keys array num size) ->
               In b (strided_keys array num size) -> a - b + 1 < 2^31) ->
  exists sorted,
    counting_sort array num size = Some (sorted ++ skipn (Z.to_nat num) array) /\
    StronglySorted Z.le sorted /\
    Permutation sorted (strided_keys array num size).
Proof.
  intros Hnum Hsize Hlen Hrange Hspread.
  set (keys := strided_keys array num size) in *.
  assert (Hkl : length keys = Z.to_nat num).
  { unfold keys, strided_keys. now rewrite length_map, length_seq. }
  pose proof (strided_keys_cons array num size Hnum) as Hcons. fold keys in Hcons.
  set (tl := map (fun k => get array (Z.of_nat (S k) * size)) (seq 0 (Z.to_nat (num - 1)))) in *.
  set (k0 := get array 0) in *.
  destruct (list_min_spec tl k0) as [Hmin_in Hmin_le].
  destruct (list_max_spec tl k0) as [Hmax_in Hmax_le].
  rewrite <- Hcons in Hmin_in, Hmin_le, Hmax_in, Hmax_le.
  set (mn := list_min k0 tl) in *. set (mx := list_max k0 tl) in *.
  assert (Hmm : for_loop size (num * size) size (minmax_step array) (k0, k0) = (mn, mx)).
  { unfold for_loop. rewrite loop_indices_stride_tail by lia.
    rewrite fold_left_map. unfold mn, mx.
    rewrite <- (minmax_fold tl k0 k0) by lia. unfold tl. rewrite fold_left_map.
    reflexivity. }
  rewrite Forall_forall in Hrange.
  pose proof (Hrange mn Hmin_in) as Rmn. pose proof (Hrange mx Hmax_in) as Rmx.
  pose proof (Hspread mx mn Hmax_in Hmin_in) as Hsp.
  pose proof (Hmin_le mx Hmax_in) as Hmnmx.
  unfold INT64_MIN, INT64_MAX in *.
  set (r := Z.to_nat (mx - mn + 1)).
  assert (Hr : to_i32 (add64 (sub64 mx mn) 1) = mx - mn + 1).
  { rewrite sub64_id by (unfold in_i64; lia). rewrite add64_id by (unfold in_i64; lia).
    apply to_i32_id. lia. }
  assert (Hin : forall x, In x keys -> mn <= x < mn + Z.of_nat r).
  { intros x Hx. pose proof (Hmin_le x Hx). pose proof (Hmax_le x Hx). unfold r. lia. }
  assert (Hzero : for_loop 0 (mx - mn + 1) 1 (fun i count => set count i 0)
                           (xmalloc (mx - mn + 1)) = repeat 0 r).
  { apply zero_loop; [lia|]. unfold xmalloc. rewrite repeat_length. lia. }
  assert (Hhist : exists c,
             for_loop 0 (num * size) size (count_step array mn) (Some (repeat 0 r)) = Some c /\
             length c = r /\
             forall j, 0 <= j < Z.of_nat r ->
                       get c j = Z.of_nat (count_occ Z.eq_dec keys (mn + j))).
  { destruct (count_keys_spec mn keys (repeat 0 r)) as [c [Hf [Hl Hg]]].
    - intros x Hx. rewrite repeat_length. split; [now apply Hin|].
      pose proof (Hspread x mn Hx Hmin_in). pose proof (Hmin_le x Hx). unfold in_i64. lia.
    - intros j Hj. rewrite repeat_length in Hj.
      assert (get (repeat 0 r) j = 0) as ->.
      { unfold get. destruct (Z.ltb_spec j 0); [reflexivity|]. apply nth_repeat. }
      rewrite Hkl. lia.
    - exists c. rewrite repeat_length in *. split; [|split; [exact Hl|]].
      + unfold for_loop. rewrite loop_indices_stride by lia. rewrite fold_left_map.
        rewrite <- Hf. unfold keys, strided_keys. rewrite fold_left_map. reflexivity.
      + intros j Hj. rewrite Hg by exact Hj.
        assert (get (repeat 0 r) j = 0) as ->; [|lia].
        unfold get. destruct (Z.ltb_spec j 0); [reflexivity|]. apply nth_repeat. }
  destruct Hhist as [c [Hc [Hcl Hcg]]].
  assert (Hperm : Permutation (emitted keys mn r) keys)
    by (apply emitted_permutation; exact Hin).
  assert (Hel : length (emitted keys mn r) = Z.to_nat num)
    by (rewrite (Permutation_length Hperm); exact Hkl).
  assert (Hemit : for_loop mn (mx + 1) 1 (emit_step c mn) (array, 0)
                  = (emitted keys mn r ++ skipn (length (emitted keys mn r)) array,
                     Z.of_nat (length (emitted keys mn r)))).
  { unfold for_loop. replace (mx + 1) with (mn + Z.of_nat r) by (unfold r; lia).
    rewrite loop_indices_unit. apply (emit_values keys c array mn r r); try assumption; try lia.
    all: try (intros v Hv; unfold in_i64; unfold r in Hv; lia).
    rewrite Hkl. nia. }
  cbv beta in Rmn, Rmx.
  exists (emitted keys mn r).
  split; [|split; [apply emitted_sorted | exact Hperm]].
  unfold counting_sort. fold k0. rewrite Hmm. cbv zeta. simpl fst. simpl snd.
  rewrite Hr, Hzero, Hc.
  destruct (Z.eqb_spec mx INT64_MAX) as [E|E]; [unfold INT64_MAX in E; lia|].
  rewrite Hemit. cbn [fst]. now rewrite Hel.
Qed.

Lemma i64_cmp_consistent_near (l : list Z) :
  (forall a b, In a l -> In b l -> a - b + 1 < 2^31) ->
  cmp_consistent i64_cmp l /\
  forall a b, In a l -> In b l -> (i64_cmp a b <= 0 <-> a <= b).
Proof.
  intros H.
  assert (E : forall a b, In a l -> In b l -> i64_cmp a b = a - b).
  { intros a b Ha Hb. unfold i64_cmp. apply to_i32_sub64_small.
    pose proof (H a b Ha Hb). pose proof (H b a Hb Ha). lia. }
  split; [split|].
  - intros a b Ha Hb. rewrite (E a b Ha Hb), (E b a Hb Ha). lia.
  - intros a b c Ha Hb Hc. rewrite (E a b Ha Hb), (E b c Hb Hc), (E a c Ha Hc). lia.
  - intros a b Ha Hb. rewrite (E a b Ha Hb). lia.
Qed.

(** [counting_sort] and [qsort] with [i64_cmp] agree: for [num >= 1] keys at
    stride [size >= 1] that are [int64_t] values other than [INT64_MAX] and
    lie within [2^31] of one another, [counting_sort] returns the array whose
    first [num] cells are the keys as [qsort] with [i64_cmp] arranges them,
    whatever implementation keeps the contract of the C library, and whose
    other cells are as they were. With a stride above 1 the keys are thus
    gathered at the front, over the cells that stood between them. *)
Theorem counting_sort_agrees_with_qsort (qsort : qsort_fn) (array : list Z) (num size : Z) :
  qsort_contract qsort ->
  1 <= num -> 1 <= size ->
  num * size <= Z.of_nat (length array) < 2^63 ->
  Forall (fun x => INT64_MIN <= x < INT64_MAX) (strided_keys array num size) ->
  (forall a b, In a (strided_keys array num size) ->
               In b (strided_keys array num size) -> a - b + 1 < 2^31) ->
  counting_sort array num size
  = Some (qsort Z i64_cmp (strided_keys array num size) ++ skipn (Z.to_nat num) array).
Proof.
  intros Hq Hnum Hsize Hlen Hrange Hspread.
  destruct (counting_sort_result array num size Hnum Hsize Hlen Hrange Hspread)
    as (sorted & Ec & Hs & Hp).
  rewrite Ec. do 2 f_equal.
  set (keys := strided_keys array num size) in *.
  destruct (i64_cmp_consistent_near keys Hspread) as [Hcons Hle].
  apply (sorted_permutation_unique Z.le Z.le_antisymm).
  - exact (Permutation_trans Hp (qsort_perm _ Hq _ _ _)).
  - exact Hs.
  - apply StronglySorted_weaken with (R := fun a b => i64_cmp a b <= 0).
    + intros a b Ha Hb. apply Hle;
        apply (Permutation_in _ (Permutation_sym (qsort_perm _ Hq _ i64_cmp keys)));
        assumption.
    + now apply (qsort_sorted _ Hq).
Qed.

Lemma counting_sort_agrees_with_qsort_witness :
  counting_sort [3; 100; 1; 200; 2; 300; 7] 3 2
  = Some (insertion_qsort Z i64_cmp (strided_keys [3; 100; 1; 200; 2; 300; 7] 3 2)
          ++ skipn (Z.to_nat 3) [3; 100; 1; 200; 2; 300; 7]) /\
  insertion_qsort Z i64_cmp (strided_keys [3; 100; 1; 200; 2; 300; 7] 3 2)
  ++ skipn (Z.to_nat 3) [3; 100; 1; 200; 2; 300; 7] = [1; 2; 3; 200; 2; 300; 7].
Proof.
  split; [|vm_compute; reflexivity].
  apply (counting_sort_agrees_with_qsort insertion_qsort [3; 100; 1; 200; 2; 300; 7] 3 2
           insertion_qsort_contract).
  - lia.
  - lia.
  - simpl. lia.
  - change (strided_keys [3; 100; 1; 200; 2; 300; 7] 3 2) with [3; 1; 2].
    repeat (apply Forall_cons; [unfold INT64_MIN, INT64_MAX; lia|]). apply Forall_nil.
  - change (strided_keys [3; 100; 1; 200; 2; 300; 7] 3 2) with [3; 1; 2].
    cbn [In]. intros a b Ha Hb. lia.
Defined.

